(** * rcheevos game identification: a model of [rhash/hash.c]

    The development embeds the hashing recipes, the dispatcher and the
    iterator of [deps/rcheevos/src/rhash/hash.c] as Rocq functions and
    proves properties of them.

    Conventions of the embedding.
    - A byte is a [Byte.byte]; [u8] reads it as an unsigned integer.  C
      integers are [Z]; 32-bit wrap-around is written out with [u32].
    - A C array is a [list byte] of the array's size.  A read that fills
      only a prefix of an array leaves the rest as it was ([store]).  Memory
      nobody has written yet comes from the [stack] field of the
      configuration.  An index outside a list reads as [x00].
    - A C string is the prefix of a byte list before its first NUL
      ([c_str]).
    - The process-wide settings (hook tables, callbacks) and the
      collaborators outside [hash.c] (MD5, the file system, the allocator)
      form a [config].  What a call changes outside its own results (open
      handles, the error sink, reads through the disc hook) is a [world],
      threaded through every function.
    - The verbose sink only receives text and is not recorded; where
      building a verbose message overwrites a live buffer the overwrite is
      modelled. *)

From Stdlib Require Import String Ascii DecimalString.
From Stdlib Require Import ZArith List Lia Bool.
From Stdlib Require Import Strings.Byte.
Import ListNotations.
Local Open Scope Z_scope.

(* ===================================================================== *)
(** * Bytes, arrays and C strings *)
(* ===================================================================== *)

Definition u8 (b : byte) : Z := Z.of_N (Byte.to_N b).

Definition byte_of_Z (z : Z) : byte :=
  match Byte.of_N (Z.to_N (z mod 256)) with
  | Some b => b
  | None => x00
  end.

Definition u32 (z : Z) : Z := z mod 4294967296.

(** A string literal of the source, as bytes (without the terminator). *)
Definition lit (s : string) : list byte := list_byte_of_string s.

Definition take (n : Z) (l : list byte) : list byte := firstn (Z.to_nat n) l.
Definition drop (n : Z) (l : list byte) : list byte := skipn (Z.to_nat n) l.
Definition len (l : list byte) : Z := Z.of_nat (length l).

(** [l[i]]; [x00] outside the list. *)
Definition byte_at (l : list byte) (i : Z) : byte :=
  if i <? 0 then x00 else nth (Z.to_nat i) l x00.

(** Writing [data] at the start of array [buf]; the rest of [buf] stays. *)
Definition store (buf data : list byte) : list byte :=
  data ++ skipn (length data) buf.

(** The bytes of a C string: up to the first NUL. *)
Fixpoint c_str (s : list byte) : list byte :=
  match s with
  | [] => []
  | c :: r => if Byte.eqb c x00 then [] else c :: c_str r
  end.

Definition strlen (s : list byte) : Z := len (c_str s).

(** [b0 | b1 << 8 | b2 << 16] *)
Definition le24 (l : list byte) (i : Z) : Z :=
  Z.lor (u8 (byte_at l i))
    (Z.lor (Z.shiftl (u8 (byte_at l (i + 1))) 8)
           (Z.shiftl (u8 (byte_at l (i + 2))) 16)).

(** [b0 | b1 << 8 | b2 << 16 | b3 << 24], as an unsigned 32-bit value. *)
Definition le32 (l : list byte) (i : Z) : Z :=
  Z.lor (le24 l i) (Z.shiftl (u8 (byte_at l (i + 3))) 24).

(** [b0 * 65536 + b1 * 256 + b2] *)
Definition be24 (l : list byte) (i : Z) : Z :=
  u8 (byte_at l i) * 65536 + u8 (byte_at l (i + 1)) * 256 + u8 (byte_at l (i + 2)).

Definition be16 (l : list byte) (i : Z) : Z :=
  u8 (byte_at l i) * 256 + u8 (byte_at l (i + 1)).

(** [tolower] of the C locale. *)
Definition tolower (b : byte) : byte :=
  if (65 <=? u8 b) && (u8 b <=? 90) then byte_of_Z (u8 b + 32) else b.

(** [isspace] of the C locale: space, \t, \n, \v, \f, \r. *)
Definition isspace (b : byte) : bool :=
  (u8 b =? 32) || ((9 <=? u8 b) && (u8 b <=? 13)).

(** [memcmp(l + i, s, |s|) == 0] *)
Definition mem_eq (l : list byte) (i : Z) (s : list byte) : bool :=
  forallb (fun k => Byte.eqb (byte_at l (i + Z.of_nat k)) (nth k s x00))
          (seq 0 (length s)).

(** [strncasecmp(s1, s2, n) == 0]: the loop of the C library, which stops at
    the first difference, at a NUL, or after [n] characters. *)
Fixpoint strncasecmp_eq (s1 s2 : list byte) (n : nat) : bool :=
  match n with
  | O => true
  | S n' =>
      let c1 := tolower (hd x00 s1) in
      let c2 := tolower (hd x00 s2) in
      if negb (Byte.eqb c1 c2) then false
      else if Byte.eqb c1 x00 then true
      else strncasecmp_eq (tl s1) (tl s2) n'
  end.

(** [strcasecmp(s1, s2) == 0] for a NUL-terminated literal [s2]. *)
Definition strcasecmp_eq (s1 lit2 : list byte) : bool :=
  strncasecmp_eq s1 (lit2 ++ [x00]) (S (length lit2)).

(** [strncmp(s1, s2, |s2|) == 0] for a literal [s2] without NUL. *)
Fixpoint strncmp_eq (s1 s2 : list byte) : bool :=
  match s2 with
  | [] => true
  | c :: r2 =>
      match s1 with
      | [] => false
      | d :: r1 => Byte.eqb c d && strncmp_eq r1 r2
      end
  end.

(** Decimal digits of [%u] and [%d]. *)
Definition dec (z : Z) : string := NilZero.string_of_int (Z.to_int z).

(* ===================================================================== *)
(** * Configuration and world *)
(* ===================================================================== *)

(** [struct rc_hash_cdreader]: each field is a function pointer, possibly
    NULL.  A track handle is a pointer, [0] being NULL. *)
Record rc_hash_cdreader := {
  open_track : option (list byte -> Z -> Z);
  read_sector : option (Z -> Z -> Z -> list byte);
  absolute_sector_to_track_sector : option (Z -> Z -> Z);
  close_track : option (Z -> unit)
}.

Record config := {
  (** Modelled from the spec: [md5.h] is not part of the sources.  The
      digest helper is a streaming accumulator; [md5_digest] is the 16-byte
      digest of everything appended since [md5_init]. *)
  md5_digest : list byte -> list byte;
  (** The file system behind the default file reader: the contents of the
      file [fopen] opens, or [None] when it cannot be opened. *)
  files : list byte -> option (list byte);
  (** The table installed by [rc_hash_init_custom_cdreader], if any. *)
  cdreader : option rc_hash_cdreader;
  (** Whether [malloc] of so many bytes succeeds. *)
  malloc_ok : Z -> bool;
  (** Contents of memory that has not been written yet. *)
  stack : nat -> byte;
  error_message_callback : bool;
  verbose_message_callback : bool
}.

Record world := {
  open_files : Z;            (* file handles opened and not yet closed *)
  open_tracks : Z;           (* track handles opened and not yet closed *)
  errors : list string;      (* messages the error sink received, in order *)
  sector_reads : list (Z * Z * Z)
                             (* calls that reached the [read_sector] hook:
                                handle, sector, requested bytes *)
}.

Definition world0 : world :=
  {| open_files := 0; open_tracks := 0; errors := []; sector_reads := [] |}.

(** State passing. *)
Definition M (A : Type) : Type := world -> A * world.

Definition ret {A} (a : A) : M A := fun w => (a, w).
Definition bind {A B} (m : M A) (k : A -> M B) : M B :=
  fun w => let (a, w') := m w in k a w'.

Declare Scope m_scope.
Delimit Scope m_scope with m.
Notation "x <- m ;; k" := (bind m (fun x => k))
  (at level 61, m at next level, right associativity) : m_scope.
Notation "m ;;; k" := (bind m (fun _ => k))
  (at level 61, right associativity) : m_scope.
Local Open Scope m_scope.

(** Fresh memory of [n] bytes. *)
Definition fresh (cfg : config) (n : Z) : list byte :=
  map (stack cfg) (seq 0 (Z.to_nat n)).

Definition MAX_BUFFER_SIZE : Z := 64 * 1024 * 1024.

(** [rc_hash_error]: hands the message to the error sink, returns 0. *)
Definition rc_hash_error (cfg : config) (message : string) : M Z :=
  fun w =>
    (0, if error_message_callback cfg
        then {| open_files := open_files w; open_tracks := open_tracks w;
                errors := errors w ++ [message];
                sector_reads := sector_reads w |}
        else w).

(* ===================================================================== *)
(** * File reader facade *)
(* ===================================================================== *)

(** A [FILE*] of the default reader: contents and position. *)
Record FILE := { fdata : list byte; fpos : Z }.

Definition files_delta (d : Z) : M unit :=
  fun w => (tt, {| open_files := open_files w + d; open_tracks := open_tracks w;
                   errors := errors w; sector_reads := sector_reads w |}).

Definition rc_file_open (cfg : config) (path : list byte) : M (option FILE) :=
  match files cfg (c_str path) with
  | Some d => files_delta 1 ;;; ret (Some {| fdata := d; fpos := 0 |})
  | None => ret None
  end.

Inductive whence := SEEK_SET | SEEK_END.

(** [fseek]: a negative target fails and leaves the position. *)
Definition rc_file_seek (f : FILE) (offset : Z) (origin : whence) : FILE :=
  let target := match origin with
                | SEEK_SET => offset
                | SEEK_END => len (fdata f) + offset
                end in
  if target <? 0 then f else {| fdata := fdata f; fpos := target |}.

Definition rc_file_tell (f : FILE) : Z := fpos f.

(** [fread]: the bytes read and the advanced handle. *)
Definition rc_file_read (f : FILE) (requested_bytes : Z) : list byte * FILE :=
  let data := take requested_bytes (drop (fpos f) (fdata f)) in
  (data, {| fdata := fdata f; fpos := fpos f + len data |}).

Definition rc_file_close (f : FILE) : M unit := files_delta (-1).

(* ===================================================================== *)
(** * Disc facade *)
(* ===================================================================== *)

Definition tracks_delta (d : Z) : M unit :=
  fun w => (tt, {| open_files := open_files w; open_tracks := open_tracks w + d;
                   errors := errors w; sector_reads := sector_reads w |}).

(** Records a call of the [read_sector] hook (most recent first). *)
Definition log_sector_read (h sector requested : Z) : M unit :=
  fun w => (tt, {| open_files := open_files w; open_tracks := open_tracks w;
                   errors := errors w;
                   sector_reads := (h, sector, requested) :: sector_reads w |}).

Definition RC_HASH_CDTRACK_FIRST_DATA : Z := u32 (-1).
Definition RC_HASH_CDTRACK_LAST : Z := u32 (-2).
Definition RC_HASH_CDTRACK_LARGEST : Z := u32 (-3).

Definition rc_cd_open_track (cfg : config) (path : list byte) (track : Z) : M Z :=
  match cdreader cfg with
  | Some r =>
      match open_track r with
      | Some hook =>
          let h := hook (c_str path) track in
          if h =? 0 then ret 0 else tracks_delta 1 ;;; ret h
      | None =>
          rc_hash_error cfg "no hook registered for cdreader_open_track" ;;; ret 0
      end
  | None =>
      rc_hash_error cfg "no hook registered for cdreader_open_track" ;;; ret 0
  end.

(** Returns the bytes the hook delivered (at most [requested_bytes]); the
    caller stores them at the start of its buffer, and their number is the
    C function's return value. *)
Definition rc_cd_read_sector (cfg : config) (track_handle sector requested_bytes : Z)
  : M (list byte) :=
  match cdreader cfg with
  | Some r =>
      match read_sector r with
      | Some hook =>
          log_sector_read track_handle (u32 sector) requested_bytes ;;;
          ret (take requested_bytes (hook track_handle (u32 sector) requested_bytes))
      | None =>
          rc_hash_error cfg "no hook registered for cdreader_read_sector" ;;; ret []
      end
  | None =>
      rc_hash_error cfg "no hook registered for cdreader_read_sector" ;;; ret []
  end.

Definition rc_cd_absolute_sector_to_track_sector (cfg : config) (track_handle sector : Z)
  : M Z :=
  match cdreader cfg with
  | Some r =>
      match absolute_sector_to_track_sector r with
      | Some hook => ret (u32 (hook track_handle (u32 sector)))
      | None =>
          rc_hash_error cfg
            "no hook registered for cdreader_absolute_sector_to_track_sector" ;;;
          ret (u32 sector)
      end
  | None =>
      rc_hash_error cfg
        "no hook registered for cdreader_absolute_sector_to_track_sector" ;;;
      ret (u32 sector)
  end.

(** The hook closes what it is given; only a handle that is not NULL was
    counted as open. *)
Definition rc_cd_close_track (cfg : config) (track_handle : Z) : M unit :=
  match cdreader cfg with
  | Some r =>
      match close_track r with
      | Some _ => if track_handle =? 0 then ret tt else tracks_delta (-1)
      | None =>
          rc_hash_error cfg "no hook registered for cdreader_close_track" ;;; ret tt
      end
  | None =>
      rc_hash_error cfg "no hook registered for cdreader_close_track" ;;; ret tt
  end.

(* ===================================================================== *)
(** * ISO-9660 locator *)
(* ===================================================================== *)

Fixpoint last_index (c : byte) (s : list byte) (i : Z) (found : option Z) : option Z :=
  match s with
  | [] => found
  | d :: r => last_index c r (i + 1) (if Byte.eqb d c then Some i else found)
  end.

(** [strrchr(s, c)], as an index into [s]. *)
Definition strrchr (s : list byte) (c : byte) : option Z :=
  last_index c (c_str s) 0 None.

(** The [while (tmp < buffer + sizeof(buffer))] loop of
    [rc_cd_find_file_sector]: the offset of the first record that matches.
    A record is at least one byte long, so 2048 rounds always suffice. *)
Fixpoint find_record (fuel : nat) (buffer : list byte) (tmp : Z)
    (path : list byte) (filename_length : Z) : option Z :=
  match fuel with
  | O => None
  | S fuel' =>
      if tmp <? 2048 then
        if Byte.eqb (byte_at buffer tmp) x00 then None
        else if (Byte.eqb (byte_at buffer (tmp + 33 + filename_length)) ";"
                 || Byte.eqb (byte_at buffer (tmp + 33 + filename_length)) x00)
                && strncasecmp_eq (drop (tmp + 33) buffer) path
                                  (Z.to_nat filename_length)
        then Some tmp
        else find_record fuel' buffer (tmp + u8 (byte_at buffer tmp))
                         path filename_length
      else None
  end.

(** "fetch and process the directory record": the part of
    [rc_cd_find_file_sector] after the directory sector is known.  The
    result is the extent sector and, on a match, the extent size. *)
Definition rc_cd_find_in_directory (cfg : config) (track_handle : Z)
    (buffer : list byte) (sector : Z) (path : list byte) (filename_length : Z)
  : M (Z * option Z) :=
  sector <- rc_cd_absolute_sector_to_track_sector cfg track_handle sector ;;
  data <- rc_cd_read_sector cfg track_handle sector 2048 ;;
  if len data =? 0 then ret (0, None)
  else
    let buffer := store buffer data in
    match find_record 2048 buffer 0 path filename_length with
    | None => ret (0, None)
    | Some tmp =>
        let sector := le24 buffer (tmp + 2) in
        let buffer :=
          if verbose_message_callback cfg
          then store buffer
                 (take 2047 (lit "Found " ++ path ++ lit " at sector "
                             ++ lit (dec sector)) ++ [x00])
          else buffer in
        ret (sector, Some (le32 buffer (tmp + 10)))
    end.

(** [rc_cd_find_file_sector]; [fuel] bounds the recursion on the path, one
    level per backslash. *)
Fixpoint rc_cd_find_file_sector_rec (fuel : nat) (cfg : config) (track_handle : Z)
    (path : list byte) : M (Z * option Z) :=
  if track_handle =? 0 then ret (0, None)
  else
    let buffer := fresh cfg 2048 in
    let filename_length := strlen path in
    match strrchr path "\" with
    | Some slash =>
        match fuel with
        | O => ret (0, None)
        | S fuel' =>
            (* find the directory record for the first part of the path *)
            let buffer := store buffer (take slash path ++ [x00]) in
            r <- rc_cd_find_file_sector_rec fuel' cfg track_handle (take slash path) ;;
            let sector := fst r in
            if sector =? 0 then ret (0, None)
            else
              rc_cd_find_in_directory cfg track_handle buffer sector
                (drop (slash + 1) (c_str path)) (filename_length - (slash + 1))
        end
    | None =>
        (* find the cd information *)
        data <- rc_cd_read_sector cfg track_handle 16 256 ;;
        if len data =? 0 then ret (0, None)
        else
          let buffer := store buffer data in
          let sector := le24 buffer (156 + 2) in
          rc_cd_find_in_directory cfg track_handle buffer sector
            (c_str path) filename_length
    end.

Definition rc_cd_find_file_sector (cfg : config) (track_handle : Z) (path : list byte)
  : M (Z * option Z) :=
  rc_cd_find_file_sector_rec (length path) cfg track_handle path.

(* ===================================================================== *)
(** * Digest helper *)
(* ===================================================================== *)

(** Modelled from the spec: [md5.h] is not part of the sources.  The state of
    the streaming accumulator is the message appended so far. *)
Definition md5_state_t : Type := list byte.

Definition md5_init : md5_state_t := [].

(** [md5_append(md5, data, nbytes)] with [nbytes] an [int]: nothing is
    appended when it is not positive.  The bytes appended are those of the
    list [data]: the model is the code on the calls that ask for no more
    bytes than [data] holds.  A call that asks for more reads outside the
    caller's array in C, which is undefined there and is no result of the
    model; the theorems on the recipes that can make such a call exclude it
    by hypothesis ([buffer_in_bounds], [arcade_in_bounds]). *)
Definition md5_append (md5 : md5_state_t) (data : list byte) (nbytes : Z)
  : md5_state_t :=
  md5 ++ take nbytes data.

Definition md5_finish (cfg : config) (md5 : md5_state_t) : list byte :=
  md5_digest cfg md5.

(** Conversion of an unsigned value to [int]. *)
Definition to_int (z : Z) : Z :=
  let r := u32 z in if r <? 2147483648 then r else r - 4294967296.

Definition hex_digit (n : Z) : byte :=
  nth (Z.to_nat n) (lit "0123456789abcdef") x00.

(** [%02x] of one digest byte. *)
Definition hex2 (b : byte) : list byte :=
  [hex_digit (u8 b / 16); hex_digit (u8 b mod 16)].

(** The 32 characters [snprintf] produces from [digest[0..15]]. *)
Definition render_hex (digest : list byte) : list byte :=
  flat_map (fun i => hex2 (nth i digest x00)) (seq 0 16).

(** [rc_hash_finalize]: writes 32 digits and the terminator, returns 1. *)
Definition rc_hash_finalize (cfg : config) (md5 : md5_state_t) (hash : list byte)
  : Z * list byte :=
  (1, store hash (render_hex (md5_finish cfg md5) ++ [x00])).

(** [size_t] arithmetic wraps at 64 bits. *)
Definition usize (z : Z) : Z := z mod 18446744073709551616.

Definition rc_hash_buffer (cfg : config) (hash : list byte)
    (buffer : list byte) (buffer_size : Z) : Z * list byte :=
  let md5 := md5_init in
  let buffer_size :=
    if buffer_size >? MAX_BUFFER_SIZE then MAX_BUFFER_SIZE else buffer_size in
  let md5 := md5_append md5 buffer (to_int buffer_size) in
  rc_hash_finalize cfg md5 hash.

(** The [do ... while (num_read > 0)] loop of [rc_hash_cd_file], entered
    with the [data] of the latest read.  After the first round [size] is at
    least the number of bytes a read may deliver, so it decreases with every
    round; [fuel] is that bound. *)
Fixpoint rc_hash_cd_file_loop (fuel : nat) (cfg : config) (md5 : md5_state_t)
    (track_handle : Z) (data : list byte) (sector size : Z) : M md5_state_t :=
  let md5 := md5_append md5 data (to_int (len data)) in
  let size := u32 (size - len data) in
  if size =? 0 then ret md5
  else
    match fuel with
    | O => ret md5
    | S fuel' =>
        let sector := sector + 1 in
        data <- rc_cd_read_sector cfg track_handle sector
                  (if size >=? 2048 then 2048 else size) ;;
        if len data >? 0
        then rc_hash_cd_file_loop fuel' cfg md5 track_handle data sector size
        else ret md5
    end.

Definition rc_hash_cd_file (cfg : config) (md5 : md5_state_t) (track_handle : Z)
    (sector : Z) (size : Z) (description : string) : M (Z * md5_state_t) :=
  data <- rc_cd_read_sector cfg track_handle sector 2048 ;;
  if len data <? 2048
  then r <- rc_hash_error cfg ("Could not read " ++ description)%string ;; ret (r, md5)
  else
    let size := if size >? MAX_BUFFER_SIZE then MAX_BUFFER_SIZE else size in
    md5 <- rc_hash_cd_file_loop (Z.to_nat (u32 (size - 2048))) cfg md5
             track_handle data sector size ;;
    ret (1, md5).

(* ===================================================================== *)
(** * Path utilities *)
(* ===================================================================== *)

Definition is_separator (b : byte) : bool := Byte.eqb b "/" || Byte.eqb b "\".

(** The [do ... while (ptr > path)] loop of [rc_path_get_filename], on
    indices into the string [s]; [path] is the index the C pointer [path]
    points to. *)
Fixpoint get_filename_loop (fuel : nat) (s : list byte) (path ptr : Z) : Z :=
  if is_separator (byte_at s (ptr - 1)) then ptr
  else
    let ptr := ptr - 1 in
    match fuel with
    | O => ptr
    | S fuel' => if ptr >? path then get_filename_loop fuel' s path ptr else ptr
    end.

Definition rc_path_get_filename (s : list byte) (path : Z) : Z :=
  let ptr := path + strlen (drop path s) in
  get_filename_loop (Z.to_nat (ptr - path)) s path ptr.

Fixpoint get_extension_loop (fuel : nat) (s : list byte) (path ptr : Z) : option Z :=
  if Byte.eqb (byte_at s (ptr - 1)) "." then Some ptr
  else
    let ptr := ptr - 1 in
    match fuel with
    | O => None
    | S fuel' => if ptr >? path then get_extension_loop fuel' s path ptr else None
    end.

Definition rc_path_get_extension (s : list byte) (path : Z) : Z :=
  let ptr := path + strlen (drop path s) in
  match get_extension_loop (Z.to_nat (ptr - path)) s path ptr with
  | Some e => e
  | None => path + strlen (drop path s)
  end.

(** The [do ... while ( *ptr )] loop of [rc_path_compare_extension]. *)
Fixpoint compare_extension_loop (fuel : nat) (s : list byte) (ptr : Z)
    (ext : list byte) : Z :=
  if negb (Byte.eqb (tolower (byte_at s ptr)) (hd x00 ext)) then 0
  else
    match fuel with
    | O => 1
    | S fuel' =>
        if Byte.eqb (byte_at s (ptr + 1)) x00 then 1
        else compare_extension_loop fuel' s (ptr + 1) (tl ext)
    end.

(** [rc_path_compare_extension(s + path, ext)].  The function looks at the
    end of the string, wherever [path] points. *)
Definition rc_path_compare_extension (s : list byte) (path : Z) (ext : list byte) : Z :=
  let path_len := strlen (drop path s) in
  let ext_len := len ext in
  let ptr := path + path_len - ext_len in
  if negb (Byte.eqb (byte_at s (ptr - 1)) ".") then 0
  else if mem_eq s ptr ext then 1
  else compare_extension_loop (Z.to_nat ext_len) s ptr ext.

(* ===================================================================== *)
(** * ROM recipes on a buffer *)
(* ===================================================================== *)

Definition rc_hash_7800 (cfg : config) (hash : list byte)
    (buffer : list byte) (buffer_size : Z) : Z * list byte :=
  if mem_eq buffer 1 (lit "ATARI7800")
  then rc_hash_buffer cfg hash (drop 128 buffer) (usize (buffer_size - 128))
  else rc_hash_buffer cfg hash buffer buffer_size.

Definition rc_hash_lynx (cfg : config) (hash : list byte)
    (buffer : list byte) (buffer_size : Z) : Z * list byte :=
  if mem_eq buffer 0 (lit "LYNX" ++ [x00])
  then rc_hash_buffer cfg hash (drop 64 buffer) (usize (buffer_size - 64))
  else rc_hash_buffer cfg hash buffer buffer_size.

Definition rc_hash_nes (cfg : config) (hash : list byte)
    (buffer : list byte) (buffer_size : Z) : Z * list byte :=
  if mem_eq buffer 0 (lit "NES" ++ [x1a])
  then rc_hash_buffer cfg hash (drop 16 buffer) (usize (buffer_size - 16))
  else if mem_eq buffer 0 (lit "FDS" ++ [x1a])
  then rc_hash_buffer cfg hash (drop 16 buffer) (usize (buffer_size - 16))
  else rc_hash_buffer cfg hash buffer buffer_size.

Definition rc_hash_pce (cfg : config) (hash : list byte)
    (buffer : list byte) (buffer_size : Z) : Z * list byte :=
  let calc_size := u32 (u32 buffer_size / 131072 * 131072) in
  if usize (buffer_size - calc_size) =? 512
  then rc_hash_buffer cfg hash (drop 512 buffer) (usize (buffer_size - 512))
  else rc_hash_buffer cfg hash buffer buffer_size.

Definition rc_hash_snes (cfg : config) (hash : list byte)
    (buffer : list byte) (buffer_size : Z) : Z * list byte :=
  let calc_size := u32 (u32 buffer_size / 8192 * 8192) in
  if usize (buffer_size - calc_size) =? 512
  then rc_hash_buffer cfg hash (drop 512 buffer) (usize (buffer_size - 512))
  else rc_hash_buffer cfg hash buffer buffer_size.

(* ===================================================================== *)
(** * Arcade *)
(* ===================================================================== *)

(** The [do ... while (folder > path)] loop of [rc_hash_arcade]. *)
Fixpoint arcade_folder_loop (fuel : nat) (s : list byte) (folder : Z) : Z :=
  if is_separator (byte_at s (folder - 1)) then folder
  else
    let folder := folder - 1 in
    match fuel with
    | O => folder
    | S fuel' => if folder >? 0 then arcade_folder_loop fuel' s folder else folder
    end.

Definition arcade_include_folder (s : list byte) (folder parent_folder_length : Z) : bool :=
  if parent_folder_length =? 3 then
    mem_eq s folder (lit "nes") || mem_eq s folder (lit "fds")
    || mem_eq s folder (lit "sms") || mem_eq s folder (lit "msx")
    || mem_eq s folder (lit "ngp") || mem_eq s folder (lit "pce")
    || mem_eq s folder (lit "sgx")
  else if parent_folder_length =? 4 then mem_eq s folder (lit "tg16")
  else if parent_folder_length =? 6 then
    mem_eq s folder (lit "coleco") || mem_eq s folder (lit "sg1000")
  else if parent_folder_length =? 8 then
    mem_eq s folder (lit "gamegear") || mem_eq s folder (lit "megadriv")
    || mem_eq s folder (lit "spectrum")
  else false.

(** [rc_hash_arcade].  For a path without a file name (empty, or ending in
    a separator) [filename_length] is -1 as a [size_t], and the copies and
    the digest of that many bytes leave the string in C; the model is the
    code on the other paths ([arcade_in_bounds]). *)
Definition rc_hash_arcade (cfg : config) (hash : list byte) (path : list byte)
  : Z * list byte :=
  let s := c_str path in
  let filename := rc_path_get_filename s 0 in
  let ext := rc_path_get_extension s filename in
  let filename_length := usize (ext - filename - 1) in
  let plain := rc_hash_buffer cfg hash (drop filename s) filename_length in
  if filename >? 0 + 1 then
    let folder := arcade_folder_loop (Z.to_nat (filename - 1)) s (filename - 1) in
    let parent_folder_length := usize (filename - folder - 1) in
    if arcade_include_folder s folder parent_folder_length then
      if usize (parent_folder_length + filename_length + 1) <? 128 then
        let buffer :=
          take parent_folder_length (drop folder s) ++ ["_"%byte]
          ++ take filename_length (drop filename s) in
        rc_hash_buffer cfg hash buffer
          (usize (parent_folder_length + filename_length + 1))
      else plain
    else plain
  else plain.

(* ===================================================================== *)
(** * Disc recipes *)
(* ===================================================================== *)

(** [while (size > sizeof(buffer))]: reads and digests whole sectors. *)
Fixpoint hash_full_sectors (fuel : nat) (cfg : config) (track_handle : Z)
    (md5 : md5_state_t) (buffer : list byte) (sector size : Z)
  : M (md5_state_t * list byte * Z * Z) :=
  match fuel with
  | O => ret (md5, buffer, sector, size)
  | S fuel' =>
      if size >? 2048 then
        data <- rc_cd_read_sector cfg track_handle sector 2048 ;;
        let buffer := store buffer data in
        let md5 := md5_append md5 buffer 2048 in
        hash_full_sectors fuel' cfg track_handle md5 buffer (sector + 1) (size - 2048)
      else ret (md5, buffer, sector, size)
  end.

(** [while (num_sectors > 0)]: reads and digests [num_sectors] sectors. *)
Fixpoint hash_num_sectors (num_sectors : nat) (cfg : config) (track_handle : Z)
    (md5 : md5_state_t) (buffer : list byte) (sector : Z)
  : M (md5_state_t * list byte) :=
  match num_sectors with
  | O => ret (md5, buffer)
  | S n =>
      data <- rc_cd_read_sector cfg track_handle sector 2048 ;;
      let buffer := store buffer data in
      let md5 := md5_append md5 buffer 2048 in
      hash_num_sectors n cfg track_handle md5 buffer (sector + 1)
  end.

(** The [while (offset < stop)] loop of [rc_hash_3do] over the entries of
    one directory block.  The state is [(block_size, block_location, size)];
    a file called LaunchMe overwrites it and ends the loop. *)
Fixpoint find_launchme (fuel : nat) (buffer : list byte) (offset stop : Z)
    (st : Z * Z * Z) : Z * Z * Z :=
  match fuel with
  | O => st
  | S fuel' =>
      if offset <? stop then
        if (u8 (byte_at buffer (offset + 3)) =? 2)
           && strcasecmp_eq (drop (offset + 32) buffer) (lit "LaunchMe")
        then
          let block_size := be24 buffer (offset + 13) in
          let block_location := to_int (be24 buffer (offset + 69) * block_size) in
          (block_size, block_location, be24 buffer (offset + 17))
        else
          find_launchme fuel' buffer
            (offset + 72 + u8 (byte_at buffer (offset + 67)) * 4) stop st
      else st
  end.

(** The outer [do ... while (1)] loop of [rc_hash_3do] over the directory
    blocks; [None] when [fuel] blocks did not end the search. *)
Fixpoint rc_hash_3do_directory (fuel : nat) (cfg : config) (track_handle : Z)
    (buffer : list byte) (sector block_size block_location : Z)
  : M (option (list byte * Z * Z)) :=
  match fuel with
  | O => ret None
  | S fuel' =>
      data <- rc_cd_read_sector cfg track_handle sector 2048 ;;
      let buffer := store buffer data in
      let offset := be16 buffer 18 in
      let stop := be24 buffer 13 in
      match find_launchme (Z.to_nat stop) buffer offset stop
              (block_size, block_location, 0) with
      | (block_size, block_location, size) =>
          if negb (size =? 0) then ret (Some (buffer, block_location, size))
          else
            let offset := be16 buffer 2 in
            if offset =? 65535 then ret (Some (buffer, block_location, size))
            else
              let offset := to_int (offset * block_size) in
              let sector := Z.quot (to_int (block_location + offset)) 2048 in
              rc_hash_3do_directory fuel' cfg track_handle buffer sector
                block_size block_location
      end
  end.

(** A recipe that may run forever returns [None] when its fuel is used up. *)
Definition rc_hash_3do (fuel : nat) (cfg : config) (hash : list byte)
    (path : list byte) : M (option (Z * list byte)) :=
  track_handle <- rc_cd_open_track cfg path 1 ;;
  if track_handle =? 0
  then r <- rc_hash_error cfg "Could not open track" ;; ret (Some (r, hash))
  else
    data <- rc_cd_read_sector cfg track_handle 0 132 ;;
    let buffer := store (fresh cfg 2048) data in
    if mem_eq buffer 0 [x01; x5a; x5a; x5a; x5a; x5a; x01] then
      let md5 := md5_append md5_init buffer 132 in
      let block_size := be24 buffer 77 in
      let block_location := to_int (be24 buffer 101 * block_size) in
      let sector := Z.quot block_location 2048 in
      found <- rc_hash_3do_directory fuel cfg track_handle buffer sector
                 block_size block_location ;;
      match found with
      | None => ret None
      | Some (buffer, block_location, size) =>
          if size =? 0 then
            rc_cd_close_track cfg track_handle ;;;
            r <- rc_hash_error cfg "Could not find LaunchMe" ;; ret (Some (r, hash))
          else
            let sector := Z.quot block_location 2048 in
            st <- hash_full_sectors (Z.to_nat (size / 2048)) cfg track_handle
                    md5 buffer sector size ;;
            match st with
            | (md5, buffer, sector, size) =>
                data <- rc_cd_read_sector cfg track_handle sector size ;;
                let buffer := store buffer data in
                let md5 := md5_append md5 buffer (to_int size) in
                rc_cd_close_track cfg track_handle ;;;
                ret (Some (rc_hash_finalize cfg md5 hash))
            end
      end
    else
      rc_cd_close_track cfg track_handle ;;;
      r <- rc_hash_error cfg "Not a 3DO CD" ;; ret (Some (r, hash)).

Definition rc_hash_pce_track (cfg : config) (hash : list byte) (track_handle : Z)
  : M (Z * list byte) :=
  data <- rc_cd_read_sector cfg track_handle 1 128 ;;
  if len data <? 128
  then r <- rc_hash_error cfg "Not a PC Engine CD" ;; ret (r, hash)
  else
    let buffer := store (fresh cfg 2048) data in
    if mem_eq buffer 32 (lit "PC Engine CD-ROM SYSTEM") then
      let md5 := md5_append md5_init (drop 106 buffer) 22 in
      let buffer :=
        if verbose_message_callback cfg
        then take 128 buffer ++ [x00] ++ drop 129 buffer else buffer in
      let sector := Z.shiftl (u8 (byte_at buffer 0)) 16
                    + Z.shiftl (u8 (byte_at buffer 1)) 8 + u8 (byte_at buffer 2) in
      let num_sectors := u8 (byte_at buffer 3) in
      st <- hash_num_sectors (Z.to_nat num_sectors) cfg track_handle md5 buffer sector ;;
      ret (rc_hash_finalize cfg (fst st) hash)
    else
      r <- rc_cd_find_file_sector cfg track_handle (lit "BOOT.BIN") ;;
      match r with
      | (sector, osize) =>
          let size := match osize with
                      | Some v => v
                      | None => le32 (fresh cfg 4) 0
                      end in
          if negb (sector =? 0) && (size <? MAX_BUFFER_SIZE) then
            st <- hash_full_sectors (Z.to_nat (size / 2048)) cfg track_handle
                    md5_init buffer sector size ;;
            match st with
            | (md5, buffer, sector, size) =>
                if size >? 0 then
                  data <- rc_cd_read_sector cfg track_handle sector size ;;
                  let buffer := store buffer data in
                  let md5 := md5_append md5 buffer (to_int size) in
                  ret (rc_hash_finalize cfg md5 hash)
                else ret (rc_hash_finalize cfg md5 hash)
            end
          else r <- rc_hash_error cfg "Not a PC Engine CD" ;; ret (r, hash)
      end.

Definition rc_hash_pce_cd (cfg : config) (hash : list byte) (path : list byte)
  : M (Z * list byte) :=
  track_handle <- rc_cd_open_track cfg path RC_HASH_CDTRACK_FIRST_DATA ;;
  if track_handle =? 0
  then r <- rc_hash_error cfg "Could not open track" ;; ret (r, hash)
  else
    result <- rc_hash_pce_track cfg hash track_handle ;;
    rc_cd_close_track cfg track_handle ;;;
    ret result.

(** The part of [rc_hash_pcfx_cd] after a track has been chosen and the
    first 32 bytes of its sector 0 are in [buffer]. *)
Definition rc_hash_pcfx_track (cfg : config) (hash : list byte)
    (track_handle : Z) (buffer : list byte) : M (Z * list byte) :=
  if mem_eq buffer 0 (lit "PC-FX:Hu_CD-ROM") then
    data <- rc_cd_read_sector cfg track_handle 1 128 ;;
    let buffer := store buffer data in
    let md5 := md5_append md5_init buffer 128 in
    let buffer :=
      if verbose_message_callback cfg
      then take 128 buffer ++ [x00] ++ drop 129 buffer else buffer in
    let sector := Z.shiftl (u8 (byte_at buffer 34)) 16
                  + Z.shiftl (u8 (byte_at buffer 33)) 8 + u8 (byte_at buffer 32) in
    let num_sectors := Z.shiftl (u8 (byte_at buffer 38)) 16
                  + Z.shiftl (u8 (byte_at buffer 37)) 8 + u8 (byte_at buffer 36) in
    st <- hash_num_sectors (Z.to_nat num_sectors) cfg track_handle md5 buffer sector ;;
    rc_cd_close_track cfg track_handle ;;;
    ret (rc_hash_finalize cfg (fst st) hash)
  else
    data <- rc_cd_read_sector cfg track_handle 1 128 ;;
    let buffer := store buffer data in
    result <- (if mem_eq buffer 32 (lit "PC Engine CD-ROM SYSTEM")
               then rc_hash_pce_track cfg hash track_handle
               else ret (0, hash)) ;;
    rc_cd_close_track cfg track_handle ;;;
    if negb (fst result =? 0) then ret result
    else r <- rc_hash_error cfg "Not a PC-FX CD" ;; ret (r, snd result).

Definition rc_hash_pcfx_cd (cfg : config) (hash : list byte) (path : list byte)
  : M (Z * list byte) :=
  track_handle <- rc_cd_open_track cfg path RC_HASH_CDTRACK_LARGEST ;;
  if track_handle =? 0
  then r <- rc_hash_error cfg "Could not open track" ;; ret (r, hash)
  else
    data <- rc_cd_read_sector cfg track_handle 0 32 ;;
    let buffer := store (fresh cfg 2048) data in
    if negb (mem_eq buffer 0 (lit "PC-FX:Hu_CD-ROM")) then
      rc_cd_close_track cfg track_handle ;;;
      track_handle <- rc_cd_open_track cfg path 2 ;;
      if track_handle =? 0
      then r <- rc_hash_error cfg "Could not open track" ;; ret (r, hash)
      else
        data <- rc_cd_read_sector cfg track_handle 0 32 ;;
        rc_hash_pcfx_track cfg hash track_handle (store buffer data)
    else rc_hash_pcfx_track cfg hash track_handle buffer.

(** [while (!isspace(buffer[96 + i]) && i < 16) ++i] *)
Fixpoint dreamcast_boot_length (fuel : nat) (buffer : list byte) (i : Z) : Z :=
  match fuel with
  | O => i
  | S fuel' =>
      if negb (isspace (byte_at buffer (96 + i))) && (i <? 16)
      then dreamcast_boot_length fuel' buffer (i + 1)
      else i
  end.

Definition rc_hash_dreamcast (cfg : config) (hash : list byte) (path : list byte)
  : M (Z * list byte) :=
  track_handle <- rc_cd_open_track cfg path 3 ;;
  if track_handle =? 0
  then r <- rc_hash_error cfg "Could not open track" ;; ret (r, hash)
  else
    data <- rc_cd_read_sector cfg track_handle 0 256 ;;
    let buffer := store (fresh cfg 256) data in
    if negb (mem_eq buffer 0 (lit "SEGA SEGAKATANA ")) then
      rc_cd_close_track cfg track_handle ;;;
      r <- rc_hash_error cfg "Not a Dreamcast CD" ;; ret (r, hash)
    else
      let md5 := md5_append md5_init buffer 256 in
      let i := dreamcast_boot_length 17 buffer 0 in
      if i =? 0 then
        rc_cd_close_track cfg track_handle ;;;
        r <- rc_hash_error cfg "Boot executable not specified on IP.BIN" ;;
        ret (r, hash)
      else
        let exe_file := take i (drop 96 buffer) ++ [x00] in
        found <- rc_cd_find_file_sector cfg track_handle exe_file ;;
        rc_cd_close_track cfg track_handle ;;;
        match found with
        | (sector, osize) =>
            let size := match osize with
                        | Some v => v
                        | None => le32 (fresh cfg 4) 0
                        end in
            if sector =? 0
            then r <- rc_hash_error cfg "Could not locate boot executable" ;;
                 ret (r, hash)
            else
              last_track_handle <- rc_cd_open_track cfg path RC_HASH_CDTRACK_LAST ;;
              track_sector <- rc_cd_absolute_sector_to_track_sector cfg
                                last_track_handle sector ;;
              reopened <-
                (if to_int track_sector <? 0 then
                   rc_cd_close_track cfg last_track_handle ;;;
                   last_track_handle <- rc_cd_open_track cfg path 3 ;;
                   track_sector <- rc_cd_absolute_sector_to_track_sector cfg
                                     last_track_handle sector ;;
                   ret (last_track_handle, track_sector)
                 else ret (last_track_handle, track_sector)) ;;
              match reopened with
              | (last_track_handle, track_sector) =>
                  r <- rc_hash_cd_file cfg md5 last_track_handle track_sector size
                         "boot executable" ;;
                  rc_cd_close_track cfg last_track_handle ;;;
                  ret (fst r, snd (rc_hash_finalize cfg (snd r) hash))
              end
        end.

(** [while (p( *ptr )) ++ptr], stopping at the end of the array at the
    latest. *)
Fixpoint scan_while (fuel : nat) (p : byte -> bool) (buffer : list byte) (ptr : Z) : Z :=
  match fuel with
  | O => ptr
  | S fuel' =>
      if p (byte_at buffer ptr) then scan_while fuel' p buffer (ptr + 1) else ptr
  end.

Definition scan (p : byte -> bool) (buffer : list byte) (ptr : Z) : Z :=
  scan_while (Z.to_nat (len buffer - ptr)) p buffer ptr.

(** The [for (ptr = buffer; *ptr; ++ptr)] loop of
    [rc_hash_find_playstation_executable]: where the name of the boot
    executable starts and ends, if a line assigns the boot key. *)
Fixpoint find_boot_line (fuel : nat) (buffer : list byte) (ptr : Z)
    (boot_key cdrom_prefix : list byte) : option (Z * Z) :=
  match fuel with
  | O => None
  | S fuel' =>
      if Byte.eqb (byte_at buffer ptr) x00 then None
      else
        let hit :=
          if strncmp_eq (drop ptr buffer) boot_key then
            let ptr := ptr + len boot_key in
            let ptr := scan isspace buffer ptr in
            if Byte.eqb (byte_at buffer ptr) "=" then
              let ptr := ptr + 1 in
              let ptr := scan isspace buffer ptr in
              let ptr := if strncmp_eq (drop ptr buffer) cdrom_prefix
                         then ptr + len cdrom_prefix else ptr in
              let ptr := if Byte.eqb (byte_at buffer ptr) "\" then ptr + 1 else ptr in
              let start := ptr in
              let ptr := scan (fun c => negb (isspace c) && negb (Byte.eqb c ";"))
                              buffer ptr in
              inl (start, ptr)
            else inr ptr
          else inr ptr in
        match hit with
        | inl r => Some r
        | inr ptr =>
            (* advance to end of line *)
            let ptr := scan (fun c => negb (Byte.eqb c x00) && negb (Byte.eqb c x0a))
                            buffer ptr in
            find_boot_line fuel' buffer (ptr + 1) boot_key cdrom_prefix
        end
  end.

(** Returns the sector, the executable's name ([exe_name], a C string) and
    the extent size when the locator wrote it. *)
Definition rc_hash_find_playstation_executable (cfg : config) (track_handle : Z)
    (boot_key cdrom_prefix : list byte) (exe_name : list byte) (exe_name_size : Z)
  : M (Z * list byte * option Z) :=
  r <- rc_cd_find_file_sector cfg track_handle (lit "SYSTEM.CNF") ;;
  let sector := fst r in
  if sector =? 0 then ret (0, exe_name, None)
  else
    data <- rc_cd_read_sector cfg track_handle sector (2048 - 1) ;;
    let size := len data in
    let buffer := store (fresh cfg 2048) data in
    let buffer := take size buffer ++ [x00] ++ drop (size + 1) buffer in
    match find_boot_line 2048 buffer 0 boot_key cdrom_prefix with
    | Some (start, ptr) =>
        let size := u32 (ptr - start) in
        let size := if size >=? exe_name_size then exe_name_size - 1 else size in
        let exe_name :=
          store exe_name (take size (drop start buffer) ++ [x00]) in
        r <- rc_cd_find_file_sector cfg track_handle exe_name ;;
        ret (fst r, exe_name, snd r)
    | None => ret (sector, exe_name, None)
    end.

(** The first part of [rc_hash_psx]: the sector of the primary executable,
    its name and the size the locator reported. *)
Definition rc_hash_psx_locate (cfg : config) (track_handle : Z)
  : M (Z * list byte * Z) :=
  let exe_name := repeat x00 64 in
  found <- rc_hash_find_playstation_executable cfg track_handle
             (lit "BOOT") (lit "cdrom:") exe_name 64 ;;
  match found with
  | (sector, exe_name, osize) =>
      let size := match osize with
                  | Some v => v
                  | None => le32 (fresh cfg 4) 0
                  end in
      if sector =? 0 then
        r <- rc_cd_find_file_sector cfg track_handle (lit "PSX.EXE") ;;
        let size := match snd r with Some v => v | None => size end in
        if negb (fst r =? 0)
        then ret (fst r, store exe_name (lit "PSX.EXE" ++ [x00]), size)
        else ret (fst r, exe_name, size)
      else ret (sector, exe_name, size)
  end.

(** The second part of [rc_hash_psx]: the [if (!sector) ... else if ... else]
    that digests the executable. *)
Definition rc_hash_psx_executable (cfg : config) (hash : list byte)
    (track_handle sector : Z) (exe_name : list byte) (size : Z)
  : M (Z * list byte) :=
  if sector =? 0 then
    rc_hash_error cfg "Could not locate primary executable" ;;;
    ret (0, hash)
  else
    data <- rc_cd_read_sector cfg track_handle sector 32 ;;
    if len data <? 32 then
      rc_hash_error cfg "Could not read primary executable" ;;;
      ret (0, hash)
    else
      let buffer := store (fresh cfg 32) data in
      let size :=
        if negb (mem_eq buffer 0 (take 7 (lit "PS-X EXE"))) then size
        else u32 (le32 buffer 28 + 2048) in
      let md5 := md5_append md5_init exe_name (to_int (strlen exe_name)) in
      r <- rc_hash_cd_file cfg md5 track_handle sector size
             "primary executable" ;;
      ret (fst r, snd (rc_hash_finalize cfg (snd r) hash)).

Definition rc_hash_psx (cfg : config) (hash : list byte) (path : list byte)
  : M (Z * list byte) :=
  track_handle <- rc_cd_open_track cfg path 1 ;;
  if track_handle =? 0
  then r <- rc_hash_error cfg "Could not open track" ;; ret (r, hash)
  else
    located <- rc_hash_psx_locate cfg track_handle ;;
    match located with
    | (sector, exe_name, size) =>
        result <- rc_hash_psx_executable cfg hash track_handle sector exe_name size ;;
        rc_cd_close_track cfg track_handle ;;;
        ret result
    end.

Definition rc_hash_ps2 (cfg : config) (hash : list byte) (path : list byte)
  : M (Z * list byte) :=
  let exe_name := repeat x00 64 in
  track_handle <- rc_cd_open_track cfg path 1 ;;
  if track_handle =? 0
  then r <- rc_hash_error cfg "Could not open track" ;; ret (r, hash)
  else
    found <- rc_hash_find_playstation_executable cfg track_handle
               (lit "BOOT2") (lit "cdrom0:") exe_name 64 ;;
    match found with
    | (sector, exe_name, osize) =>
        let size := match osize with
                    | Some v => v
                    | None => le32 (fresh cfg 4) 0
                    end in
        result <-
          (if sector =? 0 then
             rc_hash_error cfg "Could not locate primary executable" ;;;
             ret (0, hash)
           else
             data <- rc_cd_read_sector cfg track_handle sector 4 ;;
             if len data <? 4 then
               rc_hash_error cfg "Could not read primary executable" ;;;
               ret (0, hash)
             else
               let md5 := md5_append md5_init exe_name (to_int (strlen exe_name)) in
               r <- rc_hash_cd_file cfg md5 track_handle sector size
                      "primary executable" ;;
               ret (fst r, snd (rc_hash_finalize cfg (snd r) hash))) ;;
        rc_cd_close_track cfg track_handle ;;;
        ret result
    end.

Definition rc_hash_sega_cd (cfg : config) (hash : list byte) (path : list byte)
  : M (Z * list byte) :=
  track_handle <- rc_cd_open_track cfg path 1 ;;
  if track_handle =? 0
  then r <- rc_hash_error cfg "Could not open track" ;; ret (r, hash)
  else
    data <- rc_cd_read_sector cfg track_handle 0 512 ;;
    let buffer := store (fresh cfg 512) data in
    rc_cd_close_track cfg track_handle ;;;
    if negb (mem_eq buffer 0 (lit "SEGADISCSYSTEM  "))
       && negb (mem_eq buffer 0 (lit "SEGA SEGASATURN "))
    then r <- rc_hash_error cfg "Not a Sega CD" ;; ret (r, hash)
    else ret (rc_hash_buffer cfg hash buffer 512).

(* ===================================================================== *)
(** * Nintendo DS *)
(* ===================================================================== *)

Definition rc_hash_nintendo_ds (cfg : config) (hash : list byte) (path : list byte)
  : M (Z * list byte) :=
  file <- rc_file_open cfg path ;;
  match file with
  | None => r <- rc_hash_error cfg "Could not open file" ;; ret (r, hash)
  | Some file_handle =>
      let file_handle := rc_file_seek file_handle 0 SEEK_SET in
      let (data, file_handle) := rc_file_read file_handle 512 in
      let header := store (fresh cfg 512) data in
      if negb (len data =? 512)
      then r <- rc_hash_error cfg "Failed to read header" ;; ret (r, hash)
      else
        let supercard :=
          mem_eq header 0 [x2e; x00; x00; xea]
          && mem_eq header 176 [x44; x46; x96; x00] in
        let offset := if supercard then 512 else 0 in
        let file_handle :=
          if supercard then rc_file_seek file_handle offset SEEK_SET
          else file_handle in
        let (data, file_handle) :=
          if supercard then rc_file_read file_handle 512 else ([], file_handle) in
        let header := store header data in
        let arm9_addr := le32 header 32 in
        let arm9_size := le32 header 44 in
        let arm7_addr := le32 header 48 in
        let arm7_size := le32 header 60 in
        let icon_addr := le32 header 104 in
        if u32 (arm9_size + arm7_size) >? 16 * 1024 * 1024 then
          r <- rc_hash_error cfg
                 ("arm9 code size (" ++ dec arm9_size ++ ") + arm7 code size ("
                  ++ dec arm7_size ++ ") exceeds 16MB")%string ;;
          ret (r, hash)
        else
          let hash_size := 2560 in
          let hash_size := if arm9_size >? hash_size then arm9_size else hash_size in
          let hash_size := if arm7_size >? hash_size then arm7_size else hash_size in
          if negb (malloc_ok cfg hash_size) then
            rc_file_close file_handle ;;;
            r <- rc_hash_error cfg
                   ("Failed to allocate " ++ dec hash_size ++ " bytes")%string ;;
            ret (r, hash)
          else
            let hash_buffer := fresh cfg hash_size in
            let md5 := md5_append md5_init header 352 in
            let file_handle := rc_file_seek file_handle (arm9_addr + offset) SEEK_SET in
            let (data, file_handle) :=
              rc_file_read file_handle (usize (to_int arm9_size)) in
            let hash_buffer := store hash_buffer data in
            let md5 := md5_append md5 hash_buffer (to_int arm9_size) in
            let file_handle := rc_file_seek file_handle (arm7_addr + offset) SEEK_SET in
            let (data, file_handle) :=
              rc_file_read file_handle (usize (to_int arm7_size)) in
            let hash_buffer := store hash_buffer data in
            let md5 := md5_append md5 hash_buffer (to_int arm7_size) in
            let file_handle := rc_file_seek file_handle (icon_addr + offset) SEEK_SET in
            let (data, file_handle) := rc_file_read file_handle 2560 in
            let num_read := len data in
            let hash_buffer := store hash_buffer data in
            let hash_buffer :=
              if num_read <? 2560
              then take num_read hash_buffer
                   ++ repeat x00 (Z.to_nat (2560 - num_read))
                   ++ drop 2560 hash_buffer
              else hash_buffer in
            let md5 := md5_append md5 hash_buffer 2560 in
            rc_file_close file_handle ;;;
            ret (rc_hash_finalize cfg md5 hash)
  end.

(* ===================================================================== *)
(** * Console identifiers *)
(* ===================================================================== *)

(** Modelled from the spec: [rc_consoles.h] is not part of the sources.  The
    core only matches against these values; they are those of the rcheevos
    header, all different and none of them 0. *)
Definition RC_CONSOLE_MEGA_DRIVE : Z := 1.
Definition RC_CONSOLE_NINTENDO_64 : Z := 2.
Definition RC_CONSOLE_SUPER_NINTENDO : Z := 3.
Definition RC_CONSOLE_GAMEBOY : Z := 4.
Definition RC_CONSOLE_GAMEBOY_ADVANCE : Z := 5.
Definition RC_CONSOLE_GAMEBOY_COLOR : Z := 6.
Definition RC_CONSOLE_NINTENDO : Z := 7.
Definition RC_CONSOLE_PC_ENGINE : Z := 8.
Definition RC_CONSOLE_SEGA_CD : Z := 9.
Definition RC_CONSOLE_SEGA_32X : Z := 10.
Definition RC_CONSOLE_MASTER_SYSTEM : Z := 11.
Definition RC_CONSOLE_PLAYSTATION : Z := 12.
Definition RC_CONSOLE_ATARI_LYNX : Z := 13.
Definition RC_CONSOLE_NEOGEO_POCKET : Z := 14.
Definition RC_CONSOLE_GAME_GEAR : Z := 15.
Definition RC_CONSOLE_ATARI_JAGUAR : Z := 17.
Definition RC_CONSOLE_NINTENDO_DS : Z := 18.
Definition RC_CONSOLE_PLAYSTATION_2 : Z := 21.
Definition RC_CONSOLE_MAGNAVOX_ODYSSEY2 : Z := 23.
Definition RC_CONSOLE_POKEMON_MINI : Z := 24.
Definition RC_CONSOLE_ATARI_2600 : Z := 25.
Definition RC_CONSOLE_ARCADE : Z := 27.
Definition RC_CONSOLE_VIRTUAL_BOY : Z := 28.
Definition RC_CONSOLE_MSX : Z := 29.
Definition RC_CONSOLE_ORIC : Z := 32.
Definition RC_CONSOLE_SG1000 : Z := 33.
Definition RC_CONSOLE_APPLE_II : Z := 38.
Definition RC_CONSOLE_SATURN : Z := 39.
Definition RC_CONSOLE_DREAMCAST : Z := 40.
Definition RC_CONSOLE_3DO : Z := 43.
Definition RC_CONSOLE_COLECOVISION : Z := 44.
Definition RC_CONSOLE_INTELLIVISION : Z := 45.
Definition RC_CONSOLE_VECTREX : Z := 46.
Definition RC_CONSOLE_PC8800 : Z := 47.
Definition RC_CONSOLE_PCFX : Z := 49.
Definition RC_CONSOLE_ATARI_7800 : Z := 51.
Definition RC_CONSOLE_WONDERSWAN : Z := 53.
Definition RC_CONSOLE_SUPERVISION : Z := 63.
Definition RC_CONSOLE_SHARPX1 : Z := 64.
Definition RC_CONSOLE_TIC80 : Z := 65.
Definition RC_CONSOLE_THOMSONTO8 : Z := 66.

(** [case] labels that share one body. *)
Definition one_of (console_id : Z) (labels : list Z) : bool :=
  existsb (Z.eqb console_id) labels.

(* ===================================================================== *)
(** * Dispatch on a buffer, whole-file hashers *)
(* ===================================================================== *)

Definition rc_hash_generate_from_buffer (cfg : config) (hash : list byte)
    (console_id : Z) (buffer : list byte) (buffer_size : Z) : M (Z * list byte) :=
  if one_of console_id
       [RC_CONSOLE_APPLE_II; RC_CONSOLE_ATARI_2600; RC_CONSOLE_ATARI_JAGUAR;
        RC_CONSOLE_COLECOVISION; RC_CONSOLE_GAMEBOY; RC_CONSOLE_GAMEBOY_ADVANCE;
        RC_CONSOLE_GAMEBOY_COLOR; RC_CONSOLE_GAME_GEAR; RC_CONSOLE_INTELLIVISION;
        RC_CONSOLE_MAGNAVOX_ODYSSEY2; RC_CONSOLE_MASTER_SYSTEM;
        RC_CONSOLE_MEGA_DRIVE; RC_CONSOLE_MSX; RC_CONSOLE_NEOGEO_POCKET;
        RC_CONSOLE_NINTENDO_64; RC_CONSOLE_ORIC; RC_CONSOLE_PC8800;
        RC_CONSOLE_POKEMON_MINI; RC_CONSOLE_SEGA_32X; RC_CONSOLE_SG1000;
        RC_CONSOLE_SUPERVISION; RC_CONSOLE_TIC80; RC_CONSOLE_VECTREX;
        RC_CONSOLE_VIRTUAL_BOY; RC_CONSOLE_WONDERSWAN]
  then ret (rc_hash_buffer cfg hash buffer buffer_size)
  else if console_id =? RC_CONSOLE_ATARI_7800
  then ret (rc_hash_7800 cfg hash buffer buffer_size)
  else if console_id =? RC_CONSOLE_ATARI_LYNX
  then ret (rc_hash_lynx cfg hash buffer buffer_size)
  else if console_id =? RC_CONSOLE_NINTENDO
  then ret (rc_hash_nes cfg hash buffer buffer_size)
  else if console_id =? RC_CONSOLE_PC_ENGINE
  then ret (rc_hash_pce cfg hash buffer buffer_size)
  else if console_id =? RC_CONSOLE_SUPER_NINTENDO
  then ret (rc_hash_snes cfg hash buffer buffer_size)
  else
    r <- rc_hash_error cfg
           ("Unsupported console for buffer hash: " ++ dec console_id)%string ;;
    ret (r, hash).

(** [while (remaining >= buffer_size)] of [rc_hash_whole_file]. *)
Fixpoint whole_file_loop (fuel : nat) (file_handle : FILE) (md5 : md5_state_t)
    (buffer : list byte) (remaining : Z)
  : FILE * md5_state_t * list byte * Z :=
  match fuel with
  | O => (file_handle, md5, buffer, remaining)
  | S fuel' =>
      if remaining >=? 65536 then
        let (data, file_handle) := rc_file_read file_handle 65536 in
        let buffer := store buffer data in
        let md5 := md5_append md5 buffer 65536 in
        whole_file_loop fuel' file_handle md5 buffer (remaining - 65536)
      else (file_handle, md5, buffer, remaining)
  end.

Definition rc_hash_whole_file (cfg : config) (hash : list byte) (console_id : Z)
    (path : list byte) : M (Z * list byte) :=
  let buffer_size := 65536 in
  file <- rc_file_open cfg path ;;
  match file with
  | None => r <- rc_hash_error cfg "Could not open file" ;; ret (r, hash)
  | Some file_handle =>
      let file_handle := rc_file_seek file_handle 0 SEEK_END in
      let size := rc_file_tell file_handle in
      let remaining := if size >? MAX_BUFFER_SIZE then MAX_BUFFER_SIZE else size in
      let md5 := md5_init in
      result <-
        (if malloc_ok cfg buffer_size then
           let buffer := fresh cfg buffer_size in
           let file_handle := rc_file_seek file_handle 0 SEEK_SET in
           match whole_file_loop (Z.to_nat (remaining / 65536)) file_handle md5
                   buffer remaining with
           | (file_handle, md5, buffer, remaining) =>
               if remaining >? 0 then
                 let (data, file_handle) := rc_file_read file_handle remaining in
                 let buffer := store buffer data in
                 let md5 := md5_append md5 buffer (to_int remaining) in
                 ret (rc_hash_finalize cfg md5 hash)
               else ret (rc_hash_finalize cfg md5 hash)
           end
         else ret (0, hash)) ;;
      rc_file_close file_handle ;;;
      ret result
  end.

Definition rc_hash_buffered_file (cfg : config) (hash : list byte) (console_id : Z)
    (path : list byte) : M (Z * list byte) :=
  file <- rc_file_open cfg path ;;
  match file with
  | None => r <- rc_hash_error cfg "Could not open file" ;; ret (r, hash)
  | Some file_handle =>
      let file_handle := rc_file_seek file_handle 0 SEEK_END in
      let size := rc_file_tell file_handle in
      let size := if size >? MAX_BUFFER_SIZE then MAX_BUFFER_SIZE else size in
      result <-
        (if malloc_ok cfg size then
           let buffer := fresh cfg size in
           let file_handle := rc_file_seek file_handle 0 SEEK_SET in
           let (data, file_handle) := rc_file_read file_handle (to_int size) in
           let buffer := store buffer data in
           rc_hash_generate_from_buffer cfg hash console_id buffer size
         else ret (0, hash)) ;;
      rc_file_close file_handle ;;;
      ret result
  end.

(* ===================================================================== *)
(** * Playlists *)
(* ===================================================================== *)

(** The [while ( *path )] loop of [rc_hash_path_is_absolute]. *)
Fixpoint has_scheme (path : list byte) : bool :=
  match path with
  | [] => false
  | c :: r => (Byte.eqb c ":" && Byte.eqb (hd x00 r) "/") || has_scheme r
  end.

Definition rc_hash_path_is_absolute (path : list byte) : bool :=
  let path := c_str path in
  if Byte.eqb (byte_at path 0) x00 then false
  else if Byte.eqb (byte_at path 0) "/" || Byte.eqb (byte_at path 0) "\" then true
  else if Byte.eqb (byte_at path 1) ":" && Byte.eqb (byte_at path 2) "\" then true
  else has_scheme path.

(** [while ( *ptr && *ptr != '\n') ++ptr; if ( *ptr ) ++ptr;] on the text
    from [ptr] on. *)
Fixpoint skip_line (ptr : list byte) : list byte :=
  match ptr with
  | [] => []
  | c :: r => if Byte.eqb c x0a then r else skip_line r
  end.

(** [while ( *ptr == '#' || *ptr == '\r' || *ptr == '\n')]: ignore empty and
    commented lines. *)
Fixpoint skip_comments (fuel : nat) (ptr : list byte) : list byte :=
  match fuel with
  | O => ptr
  | S fuel' =>
      match ptr with
      | [] => []
      | c :: _ =>
          if Byte.eqb c "#" || Byte.eqb c x0d || Byte.eqb c x0a
          then skip_comments fuel' (skip_line ptr)
          else ptr
      end
  end.

(** The current line, up to the newline, and the text from the newline on. *)
Fixpoint line_of (ptr : list byte) : list byte * list byte :=
  match ptr with
  | [] => ([], [])
  | c :: r =>
      if Byte.eqb c x0a then ([], ptr)
      else let (l, next) := line_of r in (c :: l, next)
  end.

(** [while (ptr > start && isspace(ptr[-1])) --ptr] on the reversed line. *)
Fixpoint drop_spaces (rev_line : list byte) : list byte :=
  match rev_line with
  | [] => []
  | c :: r => if isspace c then drop_spaces r else rev_line
  end.

Definition strip_trailing (line : list byte) : list byte :=
  rev (drop_spaces (rev line)).

(** The [do ... while (1)] loop of [rc_hash_get_first_item_from_playlist]:
    the first line that is neither empty nor a comment. *)
Fixpoint first_playlist_line (fuel : nat) (ptr : list byte) : option (list byte) :=
  match fuel with
  | O => None
  | S fuel' =>
      let ptr := skip_comments (length ptr) ptr in
      let (line, next) := line_of ptr in
      let line := strip_trailing line in
      if negb (len line =? 0) then Some line
      else
        match next with
        | [] => None
        | _ :: after => first_playlist_line fuel' after
        end
  end.

Definition rc_hash_get_first_item_from_playlist (cfg : config) (path : list byte)
  : M (option (list byte)) :=
  file <- rc_file_open cfg path ;;
  match file with
  | None => rc_hash_error cfg "Could not open playlist" ;;; ret None
  | Some file_handle =>
      let (data, file_handle) := rc_file_read file_handle (1024 - 1) in
      rc_file_close file_handle ;;;
      let text := c_str data in
      match first_playlist_line (S (length text)) text with
      | None => ret None
      | Some start =>
          let file_len := len start + 1 in
          let s := c_str path in
          let path_len :=
            if rc_hash_path_is_absolute start then 0
            else rc_path_get_filename s 0 in
          if malloc_ok cfg (path_len + file_len + 1)
          then ret (Some (take path_len s ++ start))
          else ret None
      end
  end.

(* ===================================================================== *)
(** * Dispatch on a file *)
(* ===================================================================== *)

(** A computation that may not come back: [None] when the fuel given to its
    loops is used up. *)
Definition lift {A} (m : M A) : M (option A) := a <- m ;; ret (Some a).

(** [rc_hash_generate_from_playlist]; [recurse] is the call back into
    [rc_hash_generate_from_file]. *)
Definition rc_hash_generate_from_playlist (cfg : config) (hash : list byte)
    (path : list byte) (recurse : list byte -> M (option (Z * list byte)))
  : M (option (Z * list byte)) :=
  disc_path <- rc_hash_get_first_item_from_playlist cfg path ;;
  match disc_path with
  | None =>
      r <- rc_hash_error cfg "Failed to get first item from playlist" ;;
      ret (Some (r, hash))
  | Some disc_path => recurse disc_path
  end.

Definition is_ext (s : list byte) (path : Z) (ext : string) : bool :=
  negb (rc_path_compare_extension s path (lit ext) =? 0).

Definition whole_file_consoles : list Z :=
  [RC_CONSOLE_APPLE_II; RC_CONSOLE_ATARI_2600; RC_CONSOLE_ATARI_JAGUAR;
   RC_CONSOLE_COLECOVISION; RC_CONSOLE_GAMEBOY; RC_CONSOLE_GAMEBOY_ADVANCE;
   RC_CONSOLE_GAMEBOY_COLOR; RC_CONSOLE_GAME_GEAR; RC_CONSOLE_INTELLIVISION;
   RC_CONSOLE_MAGNAVOX_ODYSSEY2; RC_CONSOLE_MASTER_SYSTEM; RC_CONSOLE_MEGA_DRIVE;
   RC_CONSOLE_NEOGEO_POCKET; RC_CONSOLE_NINTENDO_64; RC_CONSOLE_ORIC;
   RC_CONSOLE_POKEMON_MINI; RC_CONSOLE_SEGA_32X; RC_CONSOLE_SG1000;
   RC_CONSOLE_SUPERVISION; RC_CONSOLE_TIC80; RC_CONSOLE_VECTREX;
   RC_CONSOLE_VIRTUAL_BOY; RC_CONSOLE_WONDERSWAN].

(** [rc_hash_generate_from_file]; [fuel] bounds the chain of playlists and
    the directory walk of the 3DO recipe. *)
Fixpoint rc_hash_generate_from_file (fuel : nat) (cfg : config) (hash : list byte)
    (console_id : Z) (path : list byte) : M (option (Z * list byte)) :=
  let s := c_str path in
  let playlist :=
    match fuel with
    | O => ret None
    | S fuel' =>
        rc_hash_generate_from_playlist cfg hash path
          (rc_hash_generate_from_file fuel' cfg hash console_id)
    end in
  if one_of console_id whole_file_consoles
  then lift (rc_hash_whole_file cfg hash console_id path)
  else if one_of console_id [RC_CONSOLE_MSX; RC_CONSOLE_PC8800] then
    if is_ext s 0 "m3u" then playlist
    else lift (rc_hash_whole_file cfg hash console_id path)
  else if one_of console_id
            [RC_CONSOLE_ATARI_7800; RC_CONSOLE_ATARI_LYNX; RC_CONSOLE_NINTENDO;
             RC_CONSOLE_SUPER_NINTENDO]
  then lift (rc_hash_buffered_file cfg hash console_id path)
  else if console_id =? RC_CONSOLE_3DO then
    if is_ext s 0 "m3u" then playlist else rc_hash_3do fuel cfg hash path
  else if console_id =? RC_CONSOLE_ARCADE
  then ret (Some (rc_hash_arcade cfg hash path))
  else if console_id =? RC_CONSOLE_NINTENDO_DS
  then lift (rc_hash_nintendo_ds cfg hash path)
  else if console_id =? RC_CONSOLE_PC_ENGINE then
    if is_ext s 0 "cue" || is_ext s 0 "chd" then lift (rc_hash_pce_cd cfg hash path)
    else if is_ext s 0 "m3u" then playlist
    else lift (rc_hash_buffered_file cfg hash console_id path)
  else if console_id =? RC_CONSOLE_PCFX then
    if is_ext s 0 "m3u" then playlist else lift (rc_hash_pcfx_cd cfg hash path)
  else if console_id =? RC_CONSOLE_PLAYSTATION then
    if is_ext s 0 "m3u" then playlist else lift (rc_hash_psx cfg hash path)
  else if console_id =? RC_CONSOLE_PLAYSTATION_2 then
    if is_ext s 0 "m3u" then playlist else lift (rc_hash_ps2 cfg hash path)
  else if console_id =? RC_CONSOLE_DREAMCAST then
    if is_ext s 0 "m3u" then playlist else lift (rc_hash_dreamcast cfg hash path)
  else if one_of console_id [RC_CONSOLE_SEGA_CD; RC_CONSOLE_SATURN] then
    if is_ext s 0 "m3u" then playlist else lift (rc_hash_sega_cd cfg hash path)
  else
    r <- rc_hash_error cfg
           ("Unsupported console for file hash: " ++ dec console_id)%string ;;
    ret (Some (r, hash)).

(* ===================================================================== *)
(** * Iterator *)
(* ===================================================================== *)

(** Modelled from the spec: [struct rc_hash_iterator] is declared in
    [rc_hash.h], which is not part of the sources: a buffer pointer
    (possibly NULL) and its size, twelve candidate consoles ended by 0, the
    index of the next candidate, and an owned path (possibly NULL). *)
Record rc_hash_iterator := {
  buffer : option (list byte);
  buffer_size : Z;
  consoles : list Z;
  index : Z;
  path : option (list byte)
}.

Definition set_buffer (it : rc_hash_iterator) (b : option (list byte)) :=
  {| buffer := b; buffer_size := buffer_size it; consoles := consoles it;
     index := index it; path := path it |}.

Definition set_path (it : rc_hash_iterator) (p : option (list byte)) :=
  {| buffer := buffer it; buffer_size := buffer_size it; consoles := consoles it;
     index := index it; path := p |}.

Definition set_index (it : rc_hash_iterator) (i : Z) :=
  {| buffer := buffer it; buffer_size := buffer_size it; consoles := consoles it;
     index := i; path := path it |}.

Fixpoint upd (l : list Z) (i : nat) (v : Z) : list Z :=
  match l, i with
  | [], _ => []
  | _ :: r, O => v :: r
  | c :: r, S j => c :: upd r j v
  end.

(** [iterator->consoles[i] = console_id] *)
Definition set_console (it : rc_hash_iterator) (i : nat) (console_id : Z) :=
  {| buffer := buffer it; buffer_size := buffer_size it;
     consoles := upd (consoles it) i console_id;
     index := index it; path := path it |}.

(** [consoles[0] = c0; consoles[1] = c1; ...] *)
Fixpoint set_consoles_from (it : rc_hash_iterator) (i : nat) (cs : list Z) :=
  match cs with
  | [] => it
  | c :: r => set_consoles_from (set_console it i c) (S i) r
  end.

Definition set_consoles (it : rc_hash_iterator) (cs : list Z) :=
  set_consoles_from it 0 cs.

Definition console_at (it : rc_hash_iterator) (i : Z) : Z :=
  if i <? 0 then 0 else nth (Z.to_nat i) (consoles it) 0.

Fixpoint append_console_loop (fuel : nat) (it : rc_hash_iterator) (i : nat)
    (console_id : Z) : rc_hash_iterator :=
  if nth i (consoles it) 0 =? 0 then set_console it i console_id
  else if nth i (consoles it) 0 =? console_id then it
  else
    match fuel with
    | O => it
    | S fuel' => append_console_loop fuel' it (S i) console_id
    end.

Definition rc_hash_iterator_append_console (it : rc_hash_iterator) (console_id : Z) :=
  append_console_loop (length (consoles it)) it 0 console_id.

Definition rc_hash_initialize_dsk_iterator (cfg : config) (it : rc_hash_iterator)
    (path : list byte) : M rc_hash_iterator :=
  size <-
    (if buffer_size it =? 0 then
       file <- rc_file_open cfg path ;;
       match file with
       | Some file =>
           let file := rc_file_seek file 0 SEEK_END in
           let size := rc_file_tell file in
           rc_file_close file ;;; ret size
       | None => ret 0
       end
     else ret (buffer_size it)) ;;
  let it :=
    if size =? 512 * 9 * 80 then set_console it 0 RC_CONSOLE_MSX
    else if size =? 512 * 9 * 80 * 2 then set_console it 0 RC_CONSOLE_MSX
    else if size =? 512 * 9 * 40 then set_console it 0 RC_CONSOLE_MSX
    else if size =? 256 * 16 * 35 then set_console it 0 RC_CONSOLE_APPLE_II
    else if size =? 256 * 13 * 35 then set_console it 0 RC_CONSOLE_APPLE_II
    else it in
  let it := rc_hash_iterator_append_console it RC_CONSOLE_MSX in
  ret (rc_hash_iterator_append_console it RC_CONSOLE_APPLE_II).

(** The [switch (tolower( *ext ))] of [rc_hash_initialize_iterator], apart
    from the [m3u] case: the iterator with its candidates, and [need_path]. *)
Definition rc_hash_iterator_classify (cfg : config) (it : rc_hash_iterator)
    (path_arg : list byte) (buffer_size_arg : Z) (need_path : bool)
  : M (rc_hash_iterator * bool) :=
  let s := c_str path_arg in
  let ext := rc_path_get_extension s 0 in
  let c := tolower (byte_at s ext) in
  let one console := ret (set_console it 0 console, need_path) in
  let none := ret (it, need_path) in
  if Byte.eqb c "2" then
    if is_ext s ext "2d" then one RC_CONSOLE_SHARPX1 else none
  else if Byte.eqb c "7" then
    if is_ext s ext "7z" then ret (set_console it 0 RC_CONSOLE_ARCADE, true) else none
  else if Byte.eqb c "a" then
    if is_ext s ext "a78" then one RC_CONSOLE_ATARI_7800 else none
  else if Byte.eqb c "b" then
    if is_ext s ext "bin" then
      big <-
        (if buffer_size_arg =? 0 then
           file <- rc_file_open cfg path_arg ;;
           match file with
           | Some file =>
               let file := rc_file_seek file 0 SEEK_END in
               let size := rc_file_tell file in
               rc_file_close file ;;; ret (size >? 32 * 1024 * 1024)
           | None => ret false
           end
         else ret false) ;;
      if big : bool then
        ret (set_consoles it
               [RC_CONSOLE_3DO; RC_CONSOLE_PLAYSTATION; RC_CONSOLE_PLAYSTATION_2;
                RC_CONSOLE_SEGA_CD; RC_CONSOLE_MEGA_DRIVE], need_path)
      else one RC_CONSOLE_MEGA_DRIVE
    else if is_ext s ext "bs" then one RC_CONSOLE_SUPER_NINTENDO
    else none
  else if Byte.eqb c "c" then
    if is_ext s ext "cue" then
      ret (set_consoles it
             [RC_CONSOLE_PLAYSTATION; RC_CONSOLE_PLAYSTATION_2; RC_CONSOLE_PC_ENGINE;
              RC_CONSOLE_3DO; RC_CONSOLE_PCFX; RC_CONSOLE_SEGA_CD], true)
    else if is_ext s ext "chd" then
      ret (set_consoles it
             [RC_CONSOLE_PLAYSTATION; RC_CONSOLE_PLAYSTATION_2; RC_CONSOLE_DREAMCAST;
              RC_CONSOLE_PC_ENGINE; RC_CONSOLE_3DO; RC_CONSOLE_PCFX;
              RC_CONSOLE_SEGA_CD], true)
    else if is_ext s ext "col" then one RC_CONSOLE_COLECOVISION
    else if is_ext s ext "cas" then one RC_CONSOLE_MSX
    else none
  else if Byte.eqb c "d" then
    if is_ext s ext "dsk" then
      it <- rc_hash_initialize_dsk_iterator cfg it path_arg ;; ret (it, need_path)
    else if is_ext s ext "d88" then
      ret (set_consoles it [RC_CONSOLE_PC8800; RC_CONSOLE_SHARPX1], need_path)
    else none
  else if Byte.eqb c "f" then
    if is_ext s ext "fig" then one RC_CONSOLE_SUPER_NINTENDO
    else if is_ext s ext "fds" then one RC_CONSOLE_NINTENDO
    else if is_ext s ext "fd" then one RC_CONSOLE_THOMSONTO8
    else none
  else if Byte.eqb c "g" then
    if is_ext s ext "gba" then one RC_CONSOLE_GAMEBOY_ADVANCE
    else if is_ext s ext "gbc" then one RC_CONSOLE_GAMEBOY_COLOR
    else if is_ext s ext "gb" then one RC_CONSOLE_GAMEBOY
    else if is_ext s ext "gg" then one RC_CONSOLE_GAME_GEAR
    else if is_ext s ext "gdi" then one RC_CONSOLE_DREAMCAST
    else none
  else if Byte.eqb c "i" then
    if is_ext s ext "iso" then
      ret (set_consoles it
             [RC_CONSOLE_PLAYSTATION_2; RC_CONSOLE_3DO; RC_CONSOLE_SEGA_CD], true)
    else none
  else if Byte.eqb c "j" then
    if is_ext s ext "jag" then one RC_CONSOLE_ATARI_JAGUAR else none
  else if Byte.eqb c "k" then
    if is_ext s ext "k7" then one RC_CONSOLE_THOMSONTO8 else none
  else if Byte.eqb c "l" then
    if is_ext s ext "lnx" then one RC_CONSOLE_ATARI_LYNX else none
  else if Byte.eqb c "m" then
    if is_ext s ext "md" then one RC_CONSOLE_MEGA_DRIVE
    else if is_ext s ext "min" then one RC_CONSOLE_POKEMON_MINI
    else if is_ext s ext "mx1" then one RC_CONSOLE_MSX
    else if is_ext s ext "mx2" then one RC_CONSOLE_MSX
    else if is_ext s ext "m5" then one RC_CONSOLE_THOMSONTO8
    else if is_ext s ext "m7" then one RC_CONSOLE_THOMSONTO8
    else none
  else if Byte.eqb c "n" then
    if is_ext s ext "nes" then one RC_CONSOLE_NINTENDO
    else if is_ext s ext "nds" then one RC_CONSOLE_NINTENDO_DS
    else if is_ext s ext "n64" || is_ext s ext "ndd" then one RC_CONSOLE_NINTENDO_64
    else if is_ext s ext "ngc" then one RC_CONSOLE_NEOGEO_POCKET
    else none
  else if Byte.eqb c "p" then
    if is_ext s ext "pce" then one RC_CONSOLE_PC_ENGINE else none
  else if Byte.eqb c "r" then
    let it := if is_ext s ext "rom"
              then set_consoles it [RC_CONSOLE_MSX; RC_CONSOLE_THOMSONTO8]
              else it in
    let it := if is_ext s ext "ri" then set_console it 0 RC_CONSOLE_MSX else it in
    ret (it, need_path)
  else if Byte.eqb c "s" then
    if is_ext s ext "smc" || is_ext s ext "sfc" || is_ext s ext "swc" then one RC_CONSOLE_SUPER_NINTENDO
    else if is_ext s ext "sg" then one RC_CONSOLE_SG1000
    else if is_ext s ext "sgx" then one RC_CONSOLE_PC_ENGINE
    else if is_ext s ext "sv" then one RC_CONSOLE_SUPERVISION
    else if is_ext s ext "sap" then one RC_CONSOLE_THOMSONTO8
    else none
  else if Byte.eqb c "t" then
    if is_ext s ext "tap" then one RC_CONSOLE_ORIC
    else if is_ext s ext "tic" then one RC_CONSOLE_TIC80
    else none
  else if Byte.eqb c "v" then
    if is_ext s ext "vb" then one RC_CONSOLE_VIRTUAL_BOY else none
  else if Byte.eqb c "w" then
    if is_ext s ext "wsc" then one RC_CONSOLE_WONDERSWAN
    else if is_ext s ext "woz" then one RC_CONSOLE_APPLE_II
    else none
  else if Byte.eqb c "z" then
    if is_ext s ext "zip" then ret (set_console it 0 RC_CONSOLE_ARCADE, true) else none
  else none.

(** [case 'm': if (rc_path_compare_extension(ext, "m3u"))] *)
Definition path_is_m3u (path_arg : list byte) : bool :=
  let s := c_str path_arg in
  let ext := rc_path_get_extension s 0 in
  Byte.eqb (tolower (byte_at s ext)) "m" && is_ext s ext "m3u".

(** How the [do ... while (1)] loop of [rc_hash_initialize_iterator] ends. *)
Inductive classified :=
| Returned (it : rc_hash_iterator)
    (* the [return] of the [m3u] case: no disc found *)
| Classified (it : rc_hash_iterator) (path_arg : list byte) (need_path : bool).

(** The loop runs again for every playlist that names another file; [None]
    when [fuel] playlists did not end the chain. *)
Fixpoint rc_hash_initialize_iterator_loop (fuel : nat) (cfg : config)
    (it : rc_hash_iterator) (path_arg : list byte) (buffer_size_arg : Z)
    (need_path : bool) : M (option classified) :=
  if path_is_m3u path_arg then
    disc_path <- rc_hash_get_first_item_from_playlist cfg path_arg ;;
    match disc_path with
    | None => ret (Some (Returned it))
    | Some disc_path =>
        match fuel with
        | O => ret None
        | S fuel' =>
            rc_hash_initialize_iterator_loop fuel' cfg
              (set_path (set_buffer it None) (Some disc_path))
              disc_path buffer_size_arg need_path
        end
    end
  else
    r <- rc_hash_iterator_classify cfg it path_arg buffer_size_arg need_path ;;
    ret (Some (Classified (fst r) path_arg (snd r))).

(** [strdup] is taken to succeed. *)
Definition rc_hash_initialize_iterator (fuel : nat) (cfg : config)
    (path_arg : list byte) (buffer_arg : option (list byte)) (buffer_size_arg : Z)
  : M (option rc_hash_iterator) :=
  let need_path := match buffer_arg with None => true | Some _ => false end in
  let it := {| buffer := buffer_arg; buffer_size := buffer_size_arg;
               consoles := repeat 0 12; index := 0; path := None |} in
  r <- rc_hash_initialize_iterator_loop fuel cfg it path_arg buffer_size_arg
         need_path ;;
  match r with
  | None => ret None
  | Some (Returned it) => ret (Some it)
  | Some (Classified it path_arg need_path) =>
      let it :=
        match path it with
        | None => if need_path then set_path it (Some (c_str path_arg)) else it
        | Some _ => it
        end in
      let it := if console_at it 0 =? 0
                then set_console it 0 RC_CONSOLE_GAMEBOY else it in
      ret (Some it)
  end.

Definition rc_hash_destroy_iterator (it : rc_hash_iterator) : rc_hash_iterator :=
  set_path it None.

(** The [do ... while (!result)] loop of [rc_hash_iterate].  [rounds] is the
    number of candidates the array can hold; [fuel] goes to the dispatcher.
    A NULL path is not passed on: the model has no result then. *)
Fixpoint rc_hash_iterate_loop (rounds fuel : nat) (cfg : config) (hash : list byte)
    (it : rc_hash_iterator) : M (option (Z * list byte * rc_hash_iterator)) :=
  let next_console := console_at it (index it) in
  if next_console =? 0 then ret (Some (0, store hash [x00], it))
  else
    match rounds with
    | O => ret None
    | S rounds' =>
        let it := set_index it (index it + 1) in
        r <- (match buffer it with
              | Some b =>
                  lift (rc_hash_generate_from_buffer cfg hash next_console b
                          (buffer_size it))
              | None =>
                  match path it with
                  | Some p => rc_hash_generate_from_file fuel cfg hash next_console p
                  | None => ret None
                  end
              end) ;;
        match r with
        | None => ret None
        | Some (result, hash) =>
            if result =? 0 then rc_hash_iterate_loop rounds' fuel cfg hash it
            else ret (Some (result, hash, it))
        end
    end.

Definition rc_hash_iterate (fuel : nat) (cfg : config) (hash : list byte)
    (it : rc_hash_iterator) : M (option (Z * list byte * rc_hash_iterator)) :=
  rc_hash_iterate_loop (length (consoles it)) fuel cfg hash it.

(* ===================================================================== *)
(** * MD5 *)
(* ===================================================================== *)

(** Modelled from the spec: [md5.c] is not part of the sources.  This is the
    MD5 of RFC 1321, used to run the model on concrete inputs; the theorems
    hold for any digest function. *)
Definition md5_shift : list Z :=
  [7; 12; 17; 22; 7; 12; 17; 22; 7; 12; 17; 22; 7; 12; 17; 22;
   5; 9; 14; 20; 5; 9; 14; 20; 5; 9; 14; 20; 5; 9; 14; 20;
   4; 11; 16; 23; 4; 11; 16; 23; 4; 11; 16; 23; 4; 11; 16; 23;
   6; 10; 15; 21; 6; 10; 15; 21; 6; 10; 15; 21; 6; 10; 15; 21].

Definition md5_sine : list Z :=
  [3614090360; 3905402710; 606105819; 3250441966;
   4118548399; 1200080426; 2821735955; 4249261313;
   1770035416; 2336552879; 4294925233; 2304563134;
   1804603682; 4254626195; 2792965006; 1236535329;
   4129170786; 3225465664; 643717713; 3921069994;
   3593408605; 38016083; 3634488961; 3889429448;
   568446438; 3275163606; 4107603335; 1163531501;
   2850285829; 4243563512; 1735328473; 2368359562;
   4294588738; 2272392833; 1839030562; 4259657740;
   2763975236; 1272893353; 4139469664; 3200236656;
   681279174; 3936430074; 3572445317; 76029189;
   3654602809; 3873151461; 530742520; 3299628645;
   4096336452; 1126891415; 2878612391; 4237533241;
   1700485571; 2399980690; 4293915773; 2240044497;
   1873313359; 4264355552; 2734768916; 1309151649;
   4149444226; 3174756917; 718787259; 3951481745].

Definition rotl32 (x c : Z) : Z :=
  u32 (Z.lor (Z.shiftl x c) (Z.shiftr x (32 - c))).

Definition not32 (x : Z) : Z := Z.lxor x 4294967295.

Definition md5_step (m : list Z) (st : Z * Z * Z * Z) (i : nat) : Z * Z * Z * Z :=
  match st with
  | (a, b, c, d) =>
      let iz := Z.of_nat i in
      let f := if iz <? 16 then Z.lor (Z.land b c) (Z.land (not32 b) d)
               else if iz <? 32 then Z.lor (Z.land d b) (Z.land (not32 d) c)
               else if iz <? 48 then Z.lxor b (Z.lxor c d)
               else Z.lxor c (Z.lor b (not32 d)) in
      let g := if iz <? 16 then iz
               else if iz <? 32 then (5 * iz + 1) mod 16
               else if iz <? 48 then (3 * iz + 5) mod 16
               else (7 * iz) mod 16 in
      let x := u32 (f + a + nth i md5_sine 0 + nth (Z.to_nat g) m 0) in
      (d, u32 (b + rotl32 x (nth i md5_shift 0)), b, c)
  end.

Definition md5_block (st : Z * Z * Z * Z) (block : list byte) : Z * Z * Z * Z :=
  let m := map (fun k => le32 block (4 * Z.of_nat k)) (seq 0 16) in
  match st, fold_left (md5_step m) (seq 0 64) st with
  | (a0, b0, c0, d0), (a, b, c, d) =>
      (u32 (a0 + a), u32 (b0 + b), u32 (c0 + c), u32 (d0 + d))
  end.

Fixpoint md5_blocks (n : nat) (st : Z * Z * Z * Z) (msg : list byte) : Z * Z * Z * Z :=
  match n with
  | O => st
  | S n' => md5_blocks n' (md5_block st (firstn 64 msg)) (skipn 64 msg)
  end.

Definition le_bytes (n : nat) (z : Z) : list byte :=
  map (fun k => byte_of_Z (Z.shiftr z (8 * Z.of_nat k))) (seq 0 n).

Definition md5_pad (msg : list byte) : list byte :=
  let zeros := (55 - len msg) mod 64 in
  msg ++ [x80] ++ repeat x00 (Z.to_nat zeros) ++ le_bytes 8 (8 * len msg).

Definition md5 (msg : list byte) : list byte :=
  let padded := md5_pad msg in
  match md5_blocks (length padded / 64) 
          (1732584193, 4023233417, 2562383102, 271733878) padded with
  | (a, b, c, d) => le_bytes 4 a ++ le_bytes 4 b ++ le_bytes 4 c ++ le_bytes 4 d
  end.


(* ===================================================================== *)
(** * Recipes and their contract *)
(* ===================================================================== *)

Definition is_lower_hex (b : byte) : bool :=
  existsb (Byte.eqb b) (lit "0123456789abcdef").

(** [hash'] is [hash] with 32 lowercase hex digits and a terminator written
    at its start. *)
Definition fingerprint_written (hash hash' : list byte) : Prop :=
  exists digits,
    length digits = 32%nat /\ forallb is_lower_hex digits = true /\
    hash' = store hash (digits ++ [x00]).

Inductive recipe :=
| Buffer | Atari7800 | Lynx | Nes | Pce | Snes | Arcade | ThreeDO | PceTrack | PceCd
| PcfxCd | Dreamcast | Psx | Ps2 | SegaCd | NintendoDs | WholeFile | BufferedFile
| GenerateFromBuffer | GenerateFromFile.

Record recipe_input := {
  in_path : list byte;
  in_buffer : list byte;
  in_buffer_size : Z;
  in_console : Z;
  in_track : Z
}.

Definition run_recipe (r : recipe) (fuel : nat) (cfg : config) (hash : list byte)
    (i : recipe_input) : M (option (Z * list byte)) :=
  match r with
  | Buffer => ret (Some (rc_hash_buffer cfg hash (in_buffer i) (in_buffer_size i)))
  | Atari7800 => ret (Some (rc_hash_7800 cfg hash (in_buffer i) (in_buffer_size i)))
  | Lynx => ret (Some (rc_hash_lynx cfg hash (in_buffer i) (in_buffer_size i)))
  | Nes => ret (Some (rc_hash_nes cfg hash (in_buffer i) (in_buffer_size i)))
  | Pce => ret (Some (rc_hash_pce cfg hash (in_buffer i) (in_buffer_size i)))
  | Snes => ret (Some (rc_hash_snes cfg hash (in_buffer i) (in_buffer_size i)))
  | Arcade => ret (Some (rc_hash_arcade cfg hash (in_path i)))
  | ThreeDO => rc_hash_3do fuel cfg hash (in_path i)
  | PceTrack => lift (rc_hash_pce_track cfg hash (in_track i))
  | PceCd => lift (rc_hash_pce_cd cfg hash (in_path i))
  | PcfxCd => lift (rc_hash_pcfx_cd cfg hash (in_path i))
  | Dreamcast => lift (rc_hash_dreamcast cfg hash (in_path i))
  | Psx => lift (rc_hash_psx cfg hash (in_path i))
  | Ps2 => lift (rc_hash_ps2 cfg hash (in_path i))
  | SegaCd => lift (rc_hash_sega_cd cfg hash (in_path i))
  | NintendoDs => lift (rc_hash_nintendo_ds cfg hash (in_path i))
  | WholeFile => lift (rc_hash_whole_file cfg hash (in_console i) (in_path i))
  | BufferedFile => lift (rc_hash_buffered_file cfg hash (in_console i) (in_path i))
  | GenerateFromBuffer =>
      lift (rc_hash_generate_from_buffer cfg hash (in_console i) (in_buffer i)
              (in_buffer_size i))
  | GenerateFromFile => rc_hash_generate_from_file fuel cfg hash (in_console i) (in_path i)
  end.

(** The recipes that finalize the digest whatever [rc_hash_cd_file]
    returned. *)
Definition finalizes_on_failure (r : recipe) (i : recipe_input) : bool :=
  match r with
  | Dreamcast | Psx | Ps2 => true
  | GenerateFromFile =>
      one_of (in_console i)
        [RC_CONSOLE_DREAMCAST; RC_CONSOLE_PLAYSTATION; RC_CONSOLE_PLAYSTATION_2]
  | _ => false
  end.

(** What a recipe has done to the output when it returns [res]: success
    with a fingerprint written, failure with the output untouched or, when
    [dirty], failure with a fingerprint written. *)
Definition outcome_shape (dirty : bool) (hash : list byte) (res : Z * list byte)
  : Prop :=
  (fst res = 1 /\ fingerprint_written hash (snd res)) \/
  (fst res = 0 /\ snd res = hash) \/
  (dirty = true /\ fst res = 0 /\ fingerprint_written hash (snd res)).

Definition Outcome (dirty : bool) (hash : list byte) (m : M (Z * list byte)) : Prop :=
  forall w, outcome_shape dirty hash (fst (m w)).

Definition OutcomeOpt (dirty : bool) (hash : list byte) (m : M (option (Z * list byte)))
  : Prop :=
  forall w, match fst (m w) with
            | Some res => outcome_shape dirty hash res
            | None => True
            end.

(** The hook does not deliver the 2048 bytes of the sector [sector] of the
    track [track_handle]: on such a sector at the start of an extent
    [rc_hash_cd_file] gives up. *)
Definition first_sector_short (cfg : config) (track_handle sector : Z) : Prop :=
  len (fst (rc_cd_read_sector cfg track_handle sector 2048 world0)) < 2048.

(** The last read that reached the hook, in the world [w], asked for the
    2048 bytes of a sector and did not get them: what the world looks like
    when [rc_hash_cd_file] has just given up. *)
Definition last_read_short (cfg : config) (w : world) : Prop :=
  exists track_handle sector earlier,
    sector_reads w = (track_handle, sector, 2048) :: earlier /\
    first_sector_short cfg track_handle sector.

(** What a recipe that returns [res] and leaves the world [w] has done to
    the output: success with a fingerprint written, failure with the output
    untouched, or, for the recipes that finalize whatever [rc_hash_cd_file]
    returned, failure with a fingerprint written after [rc_hash_cd_file]
    gave up. *)
Definition outcome (cfg : config) (dirty : bool) (hash : list byte) (w : world)
    (res : Z * list byte) : Prop :=
  (fst res = 1 /\ fingerprint_written hash (snd res)) \/
  (fst res = 0 /\ snd res = hash) \/
  (dirty = true /\ fst res = 0 /\ fingerprint_written hash (snd res) /\
   last_read_short cfg w).

(** A failure that has written to the output comes from [rc_hash_cd_file]. *)
Definition tied (cfg : config) (hash : list byte) (w : world) (res : Z * list byte)
  : Prop :=
  fst res = 0 -> snd res = hash \/ last_read_short cfg w.

Definition Tied (cfg : config) (hash : list byte) (m : M (Z * list byte)) : Prop :=
  forall w, tied cfg hash (snd (m w)) (fst (m w)).

Definition TiedOpt (cfg : config) (hash : list byte) (m : M (option (Z * list byte)))
  : Prop :=
  forall w, match fst (m w) with
            | Some res => tied cfg hash (snd (m w)) res
            | None => True
            end.

(** The disc reader has a hook for reading sectors. *)
Definition reads_sectors (cfg : config) : bool :=
  match cdreader cfg with
  | Some r => match read_sector r with Some _ => true | None => false end
  | None => false
  end.

Definition dirty_console (console_id : Z) : bool :=
  one_of console_id
    [RC_CONSOLE_DREAMCAST; RC_CONSOLE_PLAYSTATION; RC_CONSOLE_PLAYSTATION_2].

(** The contract of a recipe as the specification words it: success with a
    fingerprint written, or failure with the output untouched. *)
Definition recipe_contract (hash : list byte) (res : Z * list byte) : Prop :=
  (fst res = 1 /\ fingerprint_written hash (snd res)) \/
  (fst res = 0 /\ snd res = hash).

(** The recipes that open a disc track first. *)
Definition disc_recipes
  : list (nat -> config -> list byte -> list byte -> M (option (Z * list byte))) :=
  [ rc_hash_3do;
    (fun _ cfg hash path => lift (rc_hash_pce_cd cfg hash path));
    (fun _ cfg hash path => lift (rc_hash_pcfx_cd cfg hash path));
    (fun _ cfg hash path => lift (rc_hash_dreamcast cfg hash path));
    (fun _ cfg hash path => lift (rc_hash_psx cfg hash path));
    (fun _ cfg hash path => lift (rc_hash_ps2 cfg hash path));
    (fun _ cfg hash path => lift (rc_hash_sega_cd cfg hash path)) ].

Definition add_errors (w : world) (msgs : list string) : world :=
  {| open_files := open_files w; open_tracks := open_tracks w;
     errors := errors w ++ msgs; sector_reads := sector_reads w |}.

(* ===================================================================== *)
(** * Candidates of an iterator *)
(* ===================================================================== *)

Fixpoint until_zero (cs : list Z) : list Z :=
  match cs with
  | [] => []
  | c :: r => if c =? 0 then [] else c :: until_zero r
  end.

(** The candidates that are still to be tried: from the index up to the
    terminator. *)
Definition candidates (it : rc_hash_iterator) : list Z :=
  until_zero (skipn (Z.to_nat (index it)) (consoles it)).

(** The dispatcher call [rc_hash_iterate] makes for one candidate. *)
Definition try_console (fuel : nat) (cfg : config) (hash : list byte)
    (it : rc_hash_iterator) (console_id : Z) : M (option (Z * list byte)) :=
  match buffer it with
  | Some b =>
      lift (rc_hash_generate_from_buffer cfg hash console_id b (buffer_size it))
  | None =>
      match path it with
      | Some p => rc_hash_generate_from_file fuel cfg hash console_id p
      | None => ret None
      end
  end.

(** Runs the candidates [cs] one after the other, each on the output and
    the world the one before left; [Some] when every one of them returned
    failure. *)
Fixpoint run_failing (fuel : nat) (cfg : config) (it : rc_hash_iterator)
    (cs : list Z) (hash : list byte) (w : world) : option (list byte * world) :=
  match cs with
  | [] => Some (hash, w)
  | c :: r =>
      match try_console fuel cfg hash it c w with
      | (Some (result, hash'), w') =>
          if result =? 0 then run_failing fuel cfg it r hash' w' else None
      | (None, _) => None
      end
  end.

(* ===================================================================== *)
(** * Directory records, as the specification describes them *)
(* ===================================================================== *)

Definition list_eqb (a b : list byte) : bool :=
  (length a =? length b)%nat && forallb (fun p => Byte.eqb (fst p) (snd p)) (combine a b).

(** The offsets of the records of a directory sector, in order: a record
    starts with its length, a record-length byte of zero ends the
    directory. *)
Fixpoint record_offsets (fuel : nat) (sector : list byte) (offset : Z) : list Z :=
  match fuel with
  | O => []
  | S fuel' =>
      if (offset <? 2048) && negb (Byte.eqb (byte_at sector offset) x00)
      then offset :: record_offsets fuel' sector (offset + u8 (byte_at sector offset))
      else []
  end.

Definition directory_records (sector : list byte) : list Z :=
  record_offsets 2048 sector 0.

(** The name field of the record at [offset]: the string that starts at
    byte 33, "FILENAME;version" or "DIRECTORY". *)
Definition record_name (sector : list byte) (offset : Z) : list byte :=
  c_str (drop (offset + 33) sector).

(** A name trimmed at a [';'] or at its end. *)
Fixpoint trimmings (name : list byte) : list (list byte) :=
  match name with
  | [] => [[]]
  | c :: r => (if Byte.eqb c ";" then [[]] else []) ++ map (cons c) (trimmings r)
  end.

(** Equality of two names without regard to case. *)
Definition caseless_eq (a b : list byte) : bool :=
  list_eqb (map tolower a) (map tolower b).

(** The given name equals, without regard to case, the record's name trimmed
    at a [';'] or at its end. *)
Definition record_name_matches (sector : list byte) (name : list byte) (offset : Z)
  : bool :=
  existsb (caseless_eq name) (trimmings (record_name sector offset)).

(** The extent sector of the first record that matches, 0 when there is
    none. *)
Definition first_matching_extent (sector : list byte) (name : list byte) : Z :=
  match find (record_name_matches sector name) (directory_records sector) with
  | Some offset => le24 sector (offset + 2)
  | None => 0
  end.

(** What may follow a matching name in a record: the version separator or
    the end of the name. *)
Definition is_terminator (c : byte) : bool := Byte.eqb c ";" || Byte.eqb c x00.

(* ===================================================================== *)
(** * Extents *)
(* ===================================================================== *)

(** The first [size] bytes of the extent that starts at [sector], as the
    hook [rd] delivers them for track handle [h]: whole sectors, then the
    rest of the last one.  [fuel] is the number of sectors at most. *)
Fixpoint extent_bytes (fuel : nat) (rd : Z -> Z -> Z -> list byte) (h sector size : Z)
  : list byte :=
  match fuel with
  | O => []
  | S fuel' =>
      if size <=? 0 then []
      else
        let k := if size >=? 2048 then 2048 else size in
        take k (rd h (u32 sector) k) ++ extent_bytes fuel' rd h (sector + 1) (size - k)
  end.

Definition extent (rd : Z -> Z -> Z -> list byte) (h sector size : Z) : list byte :=
  extent_bytes (Z.to_nat size) rd h sector size.


(* ===================================================================== *)
(** * Playlists, as the specification describes them *)
(* ===================================================================== *)

(** The lines of a text, without their newlines. *)
Fixpoint lines_of (text : list byte) : list (list byte) :=
  match text with
  | [] => [[]]
  | c :: r =>
      if Byte.eqb c x0a then [] :: lines_of r
      else
        match lines_of r with
        | l :: ls => (c :: l) :: ls
        | [] => [[c]]
        end
  end.

(** The text whose lines are [ls]: the lines with a newline between each
    two of them. *)
Fixpoint unlines (ls : list (list byte)) : list byte :=
  match ls with
  | [] => []
  | l :: ls' =>
      match ls' with
      | [] => l
      | _ :: _ => l ++ x0a :: unlines ls'
      end
  end.

Definition is_blank (line : list byte) : bool := forallb isspace line.

(** A line holds no newline. *)
Definition no_newline (l : list byte) : Prop :=
  forallb (fun c => negb (Byte.eqb c x0a)) l = true.

(** What follows a line in the text of it and the lines [ls]. *)
Definition rest_of (ls : list (list byte)) : list byte :=
  match ls with
  | [] => []
  | _ :: _ => x0a :: unlines ls
  end.

Definition is_comment (line : list byte) : bool :=
  match line with
  | c :: _ => Byte.eqb c "#"
  | [] => false
  end.

Definition starts_with_cr (line : list byte) : bool :=
  match line with
  | c :: _ => Byte.eqb c x0d
  | [] => false
  end.

(** A line that is no entry of a playlist. *)
Definition no_entry (line : list byte) : bool := is_blank line || is_comment line.

(** The first of the lines [ls] that is neither blank nor a comment, with
    trailing whitespace stripped. *)
Definition first_entry_of (ls : list (list byte)) : option (list byte) :=
  match filter (fun l => negb (is_blank l) && negb (is_comment l)) ls with
  | l :: _ => Some (strip_trailing l)
  | [] => None
  end.

(** The first entry of a playlist, as the specification has it. *)
Definition playlist_first_entry (text : list byte) : option (list byte) :=
  first_entry_of (lines_of text).

(** No line that starts with a carriage return has anything but whitespace
    on it. *)
Definition cr_lines_blank (text : list byte) : bool :=
  forallb (fun l => negb (starts_with_cr l) || is_blank l) (lines_of text).

(** An entry of the playlist at [path_arg], resolved against the playlist's
    directory when it is not absolute. *)
Definition resolve_entry (path_arg entry : list byte) : list byte :=
  let s := c_str path_arg in
  if rc_hash_path_is_absolute entry then entry
  else take (rc_path_get_filename s 0) s ++ entry.

(** The bytes [rc_hash_get_first_item_from_playlist] allocates for the
    resolved entry. *)
Definition entry_allocation (path_arg entry : list byte) : Z :=
  (if rc_hash_path_is_absolute entry then 0
   else rc_path_get_filename (c_str path_arg) 0) + (len entry + 1) + 1.

(** The consoles whose dispatch looks for a playlist. *)
Definition playlist_consoles : list Z :=
  [RC_CONSOLE_MSX; RC_CONSOLE_PC8800; RC_CONSOLE_3DO; RC_CONSOLE_PC_ENGINE;
   RC_CONSOLE_PCFX; RC_CONSOLE_PLAYSTATION; RC_CONSOLE_PLAYSTATION_2;
   RC_CONSOLE_DREAMCAST; RC_CONSOLE_SEGA_CD; RC_CONSOLE_SATURN].

(* ===================================================================== *)
(** * Concrete inputs *)
(* ===================================================================== *)

Definition base_config : config :=
  {| md5_digest := md5; files := fun _ => None; cdreader := None;
     malloc_ok := fun _ => true; stack := fun _ => x00;
     error_message_callback := true; verbose_message_callback := false |}.

Definition with_files (cfg : config) (f : list byte -> option (list byte)) : config :=
  {| md5_digest := md5_digest cfg; files := f; cdreader := cdreader cfg;
     malloc_ok := malloc_ok cfg; stack := stack cfg;
     error_message_callback := error_message_callback cfg;
     verbose_message_callback := verbose_message_callback cfg |}.

Definition with_cdreader (cfg : config) (r : option rc_hash_cdreader) : config :=
  {| md5_digest := md5_digest cfg; files := files cfg; cdreader := r;
     malloc_ok := malloc_ok cfg; stack := stack cfg;
     error_message_callback := error_message_callback cfg;
     verbose_message_callback := verbose_message_callback cfg |}.

Definition with_digest (cfg : config) (d : list byte -> list byte) : config :=
  {| md5_digest := d; files := files cfg; cdreader := cdreader cfg;
     malloc_ok := malloc_ok cfg; stack := stack cfg;
     error_message_callback := error_message_callback cfg;
     verbose_message_callback := verbose_message_callback cfg |}.

(** A file system with the given files. *)
Fixpoint file_system (fs : list (string * list byte)) (path : list byte)
  : option (list byte) :=
  match fs with
  | [] => None
  | (name, data) :: r =>
      if list_eqb (lit name) path then Some data else file_system r path
  end.

(** [l], cut or filled with zeros to [n] bytes. *)
Definition pad (n : Z) (l : list byte) : list byte :=
  take n (l ++ repeat x00 (Z.to_nat n)).

(** An ISO-9660 directory record: length, extent, size, name length, name,
    one byte of padding. *)
Definition dir_record (name : list byte) (extent size : Z) : list byte :=
  [byte_of_Z (33 + len name + 1); x00] ++ le_bytes 4 extent ++ repeat x00 4
  ++ le_bytes 4 size ++ repeat x00 18 ++ [byte_of_Z (len name)] ++ name ++ [x00].

(** A primary volume descriptor whose root directory is at [root]. *)
Definition pvd (root : Z) : list byte :=
  pad 2048 (repeat x00 158 ++ le_bytes 4 root).

Definition directory (records : list (list byte)) : list byte :=
  pad 2048 (concat records).

(** The "." and ".." records every directory starts with. *)
Definition dot_records (self : Z) : list (list byte) :=
  [dir_record [x00] self 2048; dir_record [x01] self 2048].

(** A hook table over a disc given as a function from track handle and
    sector to the sector's bytes; [tracks] maps a track number to its
    handle. *)
Definition disc_reader (tracks : Z -> Z) (sectors : Z -> Z -> list byte)
  : rc_hash_cdreader :=
  {| open_track := Some (fun _ track => tracks track);
     read_sector := Some (fun h sector _ => sectors h sector);
     absolute_sector_to_track_sector := Some (fun _ sector => sector);
     close_track := Some (fun _ => tt) |}.

Definition stars : list byte := repeat "*"%byte 33.

(** A Dreamcast disc whose boot executable cannot be read: track 3 holds
    IP.BIN and the directory, the last track ends inside the executable's
    first sector. *)
Definition ip_bin : list byte :=
  pad 2048 (lit "SEGA SEGAKATANA SEGA ENTERPRISES" ++ repeat " "%byte 64
            ++ lit "1ST_READ.BIN    ").

Definition dreamcast_truncated_sectors (h sector : Z) : list byte :=
  if h =? 3 then
    if sector =? 0 then ip_bin
    else if sector =? 16 then pvd 20
    else if sector =? 20
    then directory (dot_records 20 ++ [dir_record (lit "1ST_READ.BIN;1") 30 5000])
    else []
  else if (h =? 9) && (sector =? 30) then repeat x11 100
  else [].

Definition dreamcast_truncated : config :=
  with_cdreader base_config
    (Some (disc_reader
             (fun track => if track =? 3 then 3
                           else if track =? RC_HASH_CDTRACK_LAST then 9 else 0)
             dreamcast_truncated_sectors)).

(** A file too short to hold a Nintendo DS header. *)
Definition short_nds : config :=
  with_files base_config (file_system [("short.nds"%string, repeat x00 100)]).

(** A 512-byte Nintendo DS header that declares 32 MiB of ARM9 code. *)
Definition oversized_nds : config :=
  with_files base_config
    (file_system [("big.nds"%string,
                   repeat x00 44 ++ le_bytes 4 33554432 ++ repeat x00 464)]).

(** A Sega CD disc: sector 0 of track 1 carries the Sega CD header and
    there is no ISO-9660 volume descriptor. *)
Definition sega_cd_disc : config :=
  with_cdreader base_config
    (Some (disc_reader
             (fun track => if track =? 1 then 1 else 0)
             (fun h sector =>
                if (h =? 1) && (sector =? 0)
                then pad 2048 (lit "SEGADISCSYSTEM  SEGAIPSAMP ")
                else []))).

(** The iterator [rc_hash_initialize_iterator] builds for an [iso] file. *)
Definition iso_iterator : rc_hash_iterator :=
  {| buffer := None; buffer_size := 0;
     consoles := [RC_CONSOLE_PLAYSTATION_2; RC_CONSOLE_3DO; RC_CONSOLE_SEGA_CD;
                  0; 0; 0; 0; 0; 0; 0; 0; 0];
     index := 0; path := Some (lit "game.iso") |}.

(** A playlist of comments only, and one that cannot be opened. *)
Definition empty_playlist : config :=
  with_files base_config
    (file_system [("disc.m3u"%string, lit "# no discs" ++ [x0d; x0a; x0a])]).

(** What it means that the first entry of the playlist at [path_arg] cannot
    be resolved: the file cannot be opened, or it has no line that is
    neither blank nor a comment. *)
Definition playlist_unresolved (cfg : config) (path_arg : list byte) : Prop :=
  files cfg (c_str path_arg) = None \/
  exists data,
    files cfg (c_str path_arg) = Some data /\ playlist_first_entry data = None.

(** A digest that tells messages of different lengths apart, as MD5 does
    for the messages below; it stands in for MD5 where the message is too
    long to run MD5 on it. *)
Definition length_digest (msg : list byte) : list byte := le_bytes 16 (len msg).

(** A SNES image of 64 MiB and 8 KiB behind a 512-byte copier header. *)
Definition big_snes_buffer : list byte := repeat x00 (Z.to_nat 67117568).

(** An 8 KiB SNES image behind a 512-byte copier header. *)
Definition small_snes_buffer : list byte :=
  repeat xff 512 ++ repeat x00 (Z.to_nat 8192).

(** A file of 70 000 000 bytes, more than the 64 MiB cap, and the same file
    with one more byte at its end. *)
Definition big_file : list byte := repeat x00 (Z.to_nat 70000000).

Definition big_file_grown : list byte := big_file ++ [x01].

(** A PlayStation disc: SYSTEM.CNF names SLUS_000.01, an executable of two
    sectors with the PS-X EXE header. *)
Definition psx_sectors (h sector : Z) : list byte :=
  if sector =? 16 then pvd 20
  else if sector =? 20 then
    directory (dot_records 20
               ++ [dir_record (lit "SYSTEM.CNF;1") 21 60;
                   dir_record (lit "SLUS_000.01;1") 22 4096])
  else if sector =? 21 then
    pad 2048 (lit "BOOT = cdrom:\SLUS_000.01;1" ++ [x0d; x0a]
              ++ lit "TCB = 4" ++ [x0d; x0a])
  else if sector =? 22 then
    pad 2048 (lit "PS-X EXE" ++ repeat x00 20 ++ le_bytes 4 2048 ++ repeat x11 100)
  else repeat x22 (Z.to_nat 2048).

Definition psx_reader : rc_hash_cdreader :=
  disc_reader (fun track => if track =? 1 then 7 else 0) psx_sectors.

Definition psx_disc : config := with_cdreader base_config (Some psx_reader).




(** A playlist next to the image it names, and one whose only entry lies
    behind more than 1023 bytes of comment. *)
Definition playlist_files : config :=
  with_files base_config
    (file_system
       [("roms/game.m3u"%string,
         lit "# disc 1" ++ [x0d; x0a; x0a] ++ lit "game.rom  " ++ [x0d; x0a]);
        ("roms/long.m3u"%string,
         lit "#" ++ repeat "c"%byte 1100 ++ [x0a] ++ lit "game.rom" ++ [x0a]);
        ("roms/game.rom"%string, repeat x41 300)]).

(* ===================================================================== *)
(** * Vocabulary for paths and fingerprints *)
(* ===================================================================== *)

(** A string proper: no NUL among its bytes. *)
Definition no_nul (s : list byte) : bool :=
  forallb (fun c => negb (Byte.eqb c x00)) s.

Definition no_separator (s : list byte) : bool :=
  forallb (fun c => negb (is_separator c)) s.

Definition no_dot (s : list byte) : bool :=
  forallb (fun c => negb (Byte.eqb c ".")) s.

(** The last byte of [s] satisfies [p], or [s] is empty. *)
Definition ends_with (p : byte -> bool) (s : list byte) : bool :=
  match rev s with
  | [] => true
  | c :: _ => p c
  end.

(** No upper-case letter among the bytes of [s]. *)
Definition is_lower (s : list byte) : bool :=
  forallb (fun c => Byte.eqb (tolower c) c) s.

(** The value of a hexadecimal digit, 0 for any other byte. *)
Definition hex_value (c : byte) : Z :=
  if (48 <=? u8 c) && (u8 c <=? 57) then u8 c - 48
  else if (97 <=? u8 c) && (u8 c <=? 102) then u8 c - 87
  else 0.

(** The bytes a string of hexadecimal digits stands for, two digits a
    byte. *)
Fixpoint unhex (digits : list byte) : list byte :=
  match digits with
  | hi :: lo :: r => byte_of_Z (16 * hex_value hi + hex_value lo) :: unhex r
  | _ => []
  end.

(** The consoles [rc_hash_generate_from_buffer] has a case for. *)
Definition buffer_consoles : list Z :=
  [RC_CONSOLE_APPLE_II; RC_CONSOLE_ATARI_2600; RC_CONSOLE_ATARI_JAGUAR;
   RC_CONSOLE_COLECOVISION; RC_CONSOLE_GAMEBOY; RC_CONSOLE_GAMEBOY_ADVANCE;
   RC_CONSOLE_GAMEBOY_COLOR; RC_CONSOLE_GAME_GEAR; RC_CONSOLE_INTELLIVISION;
   RC_CONSOLE_MAGNAVOX_ODYSSEY2; RC_CONSOLE_MASTER_SYSTEM;
   RC_CONSOLE_MEGA_DRIVE; RC_CONSOLE_MSX; RC_CONSOLE_NEOGEO_POCKET;
   RC_CONSOLE_NINTENDO_64; RC_CONSOLE_ORIC; RC_CONSOLE_PC8800;
   RC_CONSOLE_POKEMON_MINI; RC_CONSOLE_SEGA_32X; RC_CONSOLE_SG1000;
   RC_CONSOLE_SUPERVISION; RC_CONSOLE_TIC80; RC_CONSOLE_VECTREX;
   RC_CONSOLE_VIRTUAL_BOY; RC_CONSOLE_WONDERSWAN;
   RC_CONSOLE_ATARI_7800; RC_CONSOLE_ATARI_LYNX; RC_CONSOLE_NINTENDO;
   RC_CONSOLE_PC_ENGINE; RC_CONSOLE_SUPER_NINTENDO].

(** The world after the error sink, if one is installed, received [msg]. *)
Definition with_error (cfg : config) (w : world) (msg : string) : world :=
  if error_message_callback cfg then add_errors w [msg] else w.

(** The consoles that have a buffer recipe and whose file recipe does not
    look at the extension of the path. *)
Definition file_buffer_consoles : list Z :=
  whole_file_consoles ++
  [RC_CONSOLE_ATARI_7800; RC_CONSOLE_ATARI_LYNX; RC_CONSOLE_NINTENDO;
   RC_CONSOLE_SUPER_NINTENDO].

(* ===================================================================== *)
(** * Accounting of handles *)
(* ===================================================================== *)

(** [Q] holds of the result of [m] and of the numbers of file handles and
    of track handles it opened and did not close. *)
Definition Post {A} (m : M A) (Q : A -> Z -> Z -> Prop) : Prop :=
  forall w,
    Q (fst (m w)) (open_files (snd (m w)) - open_files w)
      (open_tracks (snd (m w)) - open_tracks w).

(** [m] leaves as many handles open as it found. *)
Definition Kept {A} (m : M A) : Prop := Post m (fun _ f t => f = 0 /\ t = 0).

(** [m], when it returns, leaves as many handles open as it found; [None]
    stands for a computation that does not return. *)
Definition KeptOpt {A} (m : M (option A)) : Prop :=
  Post m (fun r f t => r = None \/ (f = 0 /\ t = 0)).

(** The disc reader has a hook that opens tracks, and one that closes
    them. *)
Definition opens (cfg : config) : bool :=
  match cdreader cfg with
  | Some r => match open_track r with Some _ => true | None => false end
  | None => false
  end.

Definition closes (cfg : config) : bool :=
  match cdreader cfg with
  | Some r => match close_track r with Some _ => true | None => false end
  | None => false
  end.

(** A reader that can open tracks can close them. *)
Definition hooks_paired (cfg : config) : bool := implb (opens cfg) (closes cfg).

(** The recipes that read the Nintendo DS header. *)
Definition reads_nds_header (r : recipe) (i : recipe_input) : bool :=
  match r with
  | NintendoDs => true
  | GenerateFromFile => in_console i =? RC_CONSOLE_NINTENDO_DS
  | _ => false
  end.

(* ===================================================================== *)
(** * Vocabulary for iterators *)
(* ===================================================================== *)

(** What appending [console_id] does to the array of candidates: it goes
    into the first free slot, unless it is found before. *)
Fixpoint append_list (cs : list Z) (console_id : Z) : list Z :=
  match cs with
  | [] => []
  | c :: r =>
      if c =? 0 then console_id :: r
      else if c =? console_id then cs
      else c :: append_list r console_id
  end.

(** [it'] is [it] with other candidates: nothing but the array of consoles
    differs, and the array has kept its length. *)
Definition same_but_consoles (it it' : rc_hash_iterator) : Prop :=
  buffer it' = buffer it /\ buffer_size it' = buffer_size it /\
  index it' = index it /\ path it' = path it /\
  length (consoles it') = length (consoles it).

(** The folder names [rc_hash_arcade] includes in the fingerprint. *)
Definition subsystem_folders : list (list byte) :=
  map lit ["nes"; "fds"; "sms"; "msx"; "ngp"; "pce"; "sgx"; "tg16"; "coleco";
           "sg1000"; "gamegear"; "megadriv"; "spectrum"]%string.

(** What [rc_hash_arcade] digests for a file called [name] (without its
    extension) in a folder called [parent]. *)
Definition arcade_title (parent name : list byte) : list byte :=
  if existsb (list_eqb parent) subsystem_folders
     && (len parent + len name + 1 <? 128)
  then parent ++ ["_"%byte] ++ name
  else name.

(** [b] is what is left of [a] behind some of its first bytes. *)
Definition suffix_of (b a : list byte) : Prop := exists pre, a = pre ++ b.

(* ===================================================================== *)
(** * Vocabulary for the Nintendo DS recipe *)
(* ===================================================================== *)

(** [n] bytes of [data] from position [a] on, as many as there are. *)
Definition slice (data : list byte) (a n : Z) : list byte := take n (drop a data).

(** The two marks of a SuperCard header. *)
Definition is_supercard (header : list byte) : bool :=
  mem_eq header 0 [x2e; x00; x00; xea] && mem_eq header 176 [x44; x46; x96; x00].

(** Where the cartridge header of the image [data] starts. *)
Definition nds_offset (data : list byte) : Z :=
  if is_supercard (take 512 data) then 512 else 0.

Definition nds_header (data : list byte) : list byte := slice data (nds_offset data) 512.

(** What the recipe digests of a Nintendo DS image: 352 bytes of the
    cartridge header, the ARM9 and the ARM7 code the header points at, and
    2560 bytes of icon and title, with zeros for what the image lacks of
    them. *)
Definition nds_message (data : list byte) : list byte :=
  let offset := nds_offset data in
  let header := nds_header data in
  let icon := slice data (le32 header 104 + offset) 2560 in
  take 352 header
  ++ slice data (le32 header 32 + offset) (le32 header 44)
  ++ slice data (le32 header 48 + offset) (le32 header 60)
  ++ icon ++ repeat x00 (Z.to_nat (2560 - len icon)).

(** A small Nintendo DS image: the header, four bytes of ARM9 code, four of
    ARM7 code and four bytes of what would be the icon. *)
Definition small_nds_image : list byte :=
  repeat x00 32 ++ le_bytes 4 512 ++ repeat x00 8 ++ le_bytes 4 4
  ++ le_bytes 4 516 ++ repeat x00 8 ++ le_bytes 4 4 ++ repeat x00 40
  ++ le_bytes 4 520 ++ repeat x00 404 ++ lit "ARM9ARM7icon".

Definition small_nds : config :=
  with_files base_config (file_system [("small.nds"%string, small_nds_image)]).

(* ===================================================================== *)
(** * Vocabulary for the candidates of an iterator *)
(* ===================================================================== *)

(** The consoles [rc_hash_initialize_iterator] names. *)
Definition iterator_consoles : list Z :=
  [RC_CONSOLE_3DO; RC_CONSOLE_APPLE_II; RC_CONSOLE_ARCADE; RC_CONSOLE_ATARI_7800;
   RC_CONSOLE_ATARI_JAGUAR; RC_CONSOLE_ATARI_LYNX; RC_CONSOLE_COLECOVISION;
   RC_CONSOLE_DREAMCAST; RC_CONSOLE_GAMEBOY; RC_CONSOLE_GAMEBOY_ADVANCE;
   RC_CONSOLE_GAMEBOY_COLOR; RC_CONSOLE_GAME_GEAR; RC_CONSOLE_MEGA_DRIVE;
   RC_CONSOLE_MSX; RC_CONSOLE_NEOGEO_POCKET; RC_CONSOLE_NINTENDO;
   RC_CONSOLE_NINTENDO_64; RC_CONSOLE_NINTENDO_DS; RC_CONSOLE_ORIC;
   RC_CONSOLE_PC8800; RC_CONSOLE_PCFX; RC_CONSOLE_PC_ENGINE;
   RC_CONSOLE_PLAYSTATION; RC_CONSOLE_PLAYSTATION_2; RC_CONSOLE_POKEMON_MINI;
   RC_CONSOLE_SEGA_CD; RC_CONSOLE_SG1000; RC_CONSOLE_SHARPX1;
   RC_CONSOLE_SUPERVISION; RC_CONSOLE_SUPER_NINTENDO; RC_CONSOLE_THOMSONTO8;
   RC_CONSOLE_TIC80; RC_CONSOLE_VIRTUAL_BOY; RC_CONSOLE_WONDERSWAN].

Fixpoint zlist_eqb (a b : list Z) : bool :=
  match a, b with
  | [], [] => true
  | x :: a', y :: b' => (x =? y) && zlist_eqb a' b'
  | _, _ => false
  end.

Fixpoint nodupb (l : list Z) : bool :=
  match l with
  | [] => true
  | x :: r => negb (existsb (Z.eqb x) r) && nodupb r
  end.

(** An array of twelve consoles in good shape: the entries before the first
    zero, at most seven, all different and all among [iterator_consoles],
    then zeros. *)
Definition candidates_ok (cs : list Z) : bool :=
  let cands := until_zero cs in
  zlist_eqb cs (cands ++ repeat 0 (12 - length cands))
  && (length cands <=? 7)%nat
  && nodupb cands
  && forallb (fun c => one_of c iterator_consoles) cands.

(** The iterator for the path [game.chd]. *)
Definition chd_iterator : rc_hash_iterator :=
  {| buffer := None; buffer_size := 0;
     consoles := [RC_CONSOLE_PLAYSTATION; RC_CONSOLE_PLAYSTATION_2;
                  RC_CONSOLE_DREAMCAST; RC_CONSOLE_PC_ENGINE; RC_CONSOLE_3DO;
                  RC_CONSOLE_PCFX; RC_CONSOLE_SEGA_CD] ++ repeat 0 5;
     index := 0; path := Some (lit "game.chd") |}.

(** The consoles [rc_hash_generate_from_file] has a case for. *)
Definition file_consoles : list Z :=
  whole_file_consoles ++
  [RC_CONSOLE_MSX; RC_CONSOLE_PC8800; RC_CONSOLE_ATARI_7800; RC_CONSOLE_ATARI_LYNX;
   RC_CONSOLE_NINTENDO; RC_CONSOLE_SUPER_NINTENDO; RC_CONSOLE_3DO;
   RC_CONSOLE_ARCADE; RC_CONSOLE_NINTENDO_DS; RC_CONSOLE_PC_ENGINE;
   RC_CONSOLE_PCFX; RC_CONSOLE_PLAYSTATION; RC_CONSOLE_PLAYSTATION_2;
   RC_CONSOLE_DREAMCAST; RC_CONSOLE_SEGA_CD; RC_CONSOLE_SATURN].

(* ===================================================================== *)
(** * Vocabulary for SYSTEM.CNF *)
(* ===================================================================== *)

(** A byte of the name of a boot executable: no whitespace, no semicolon. *)
Definition is_name_byte (c : byte) : bool :=
  negb (isspace c) && negb (Byte.eqb c ";").

(** A line that assigns the boot executable: the key, an equals sign with
    whitespace around it, the drive prefix, a backslash, the name, and the
    byte [t] that ends the name. *)
Definition boot_line (key ws1 ws2 prefix name : list byte) (t : byte) : list byte :=
  key ++ ws1 ++ "="%byte :: ws2 ++ prefix ++ "\"%byte :: name ++ [t].

(** A byte within a line of text: neither NUL nor newline. *)
Definition is_line_byte (c : byte) : bool :=
  negb (Byte.eqb c x00) && negb (Byte.eqb c x0a).

(** The text of the lines [ls], each one ended by a newline. *)
Definition text_of_lines (ls : list (list byte)) : list byte :=
  concat (map (fun l => l ++ [x0a]) ls).

(** A line that does not start with [key]. *)
Definition other_line (key l : list byte) : bool :=
  forallb is_line_byte l && negb (strncmp_eq (l ++ [x0a]) key).





(* ===================================================================== *)
(** * Reads inside the buffer *)
(* ===================================================================== *)

(** The C code reads through pointers, and a read outside the array a
    pointer points into is undefined there; the model reads lists, where
    [take] and [byte_at] find nothing, or [x00], outside the list.  The two
    agree on the calls whose reads stay inside the array.  The recipes
    below can leave it: the Atari 7800, Lynx and NES recipes compare the
    first bytes of the buffer with a mark without looking at its size, and
    skip a header without asking whether the buffer holds one; the arcade
    recipe computes the length of an empty file name as -1.  The
    definitions of this section say when they do not. *)

(** The bytes a recipe compares with its mark. *)
Definition marker_room (console_id : Z) : Z :=
  if console_id =? RC_CONSOLE_ATARI_7800 then 10
  else if console_id =? RC_CONSOLE_ATARI_LYNX then 5
  else if console_id =? RC_CONSOLE_NINTENDO then 4
  else 0.

(** The bytes a recipe skips at the start of the buffer. *)
Definition header_room (console_id : Z) (buffer : list byte) : Z :=
  if console_id =? RC_CONSOLE_ATARI_7800
  then (if mem_eq buffer 1 (lit "ATARI7800") then 128 else 0)
  else if console_id =? RC_CONSOLE_ATARI_LYNX
  then (if mem_eq buffer 0 (lit "LYNX" ++ [x00]) then 64 else 0)
  else if console_id =? RC_CONSOLE_NINTENDO
  then (if mem_eq buffer 0 (lit "NES" ++ [x1a]) || mem_eq buffer 0 (lit "FDS" ++ [x1a])
        then 16 else 0)
  else 0.

(** The array [buffer] holds the [buffer_size] bytes the caller announces,
    and these hold what the recipe of [console_id] compares and skips. *)
Definition buffer_in_bounds (console_id : Z) (buffer : list byte) (buffer_size : Z)
  : bool :=
  (0 <=? buffer_size) && (buffer_size <=? len buffer)
  && (marker_room console_id <=? buffer_size)
  && (header_room console_id buffer <=? buffer_size).

(** The same for the buffer [rc_hash_buffered_file] fills from the file at
    [path]: its first 64 MiB. *)
Definition file_in_bounds (cfg : config) (console_id : Z) (path : list byte) : bool :=
  match files cfg (c_str path) with
  | Some data =>
      buffer_in_bounds console_id (take MAX_BUFFER_SIZE data)
        (len (take MAX_BUFFER_SIZE data))
  | None => true
  end.

(** The path names a file: it is not empty and does not end in a
    separator. *)
Definition arcade_in_bounds (path : list byte) : bool :=
  negb (ends_with is_separator (c_str path)).

(** The reads of the recipe [r] on the input [i] stay inside the buffer, the
    file or the path it is given. *)
Definition reads_in_bounds (r : recipe) (cfg : config) (i : recipe_input) : bool :=
  match r with
  | Buffer | Pce | Snes => buffer_in_bounds 0 (in_buffer i) (in_buffer_size i)
  | Atari7800 => buffer_in_bounds RC_CONSOLE_ATARI_7800 (in_buffer i) (in_buffer_size i)
  | Lynx => buffer_in_bounds RC_CONSOLE_ATARI_LYNX (in_buffer i) (in_buffer_size i)
  | Nes => buffer_in_bounds RC_CONSOLE_NINTENDO (in_buffer i) (in_buffer_size i)
  | GenerateFromBuffer =>
      buffer_in_bounds (in_console i) (in_buffer i) (in_buffer_size i)
  | Arcade => arcade_in_bounds (in_path i)
  | BufferedFile => file_in_bounds cfg (in_console i) (in_path i)
  | GenerateFromFile =>
      if in_console i =? RC_CONSOLE_ARCADE then arcade_in_bounds (in_path i)
      else file_in_bounds cfg (in_console i) (in_path i)
  | _ => true
  end.

(** A NES image of 32 bytes behind its 16-byte header. *)
Definition nes_input : recipe_input :=
  {| in_path := []; in_buffer := lit "NES" ++ [x1a] ++ repeat x00 12 ++ repeat x41 32;
     in_buffer_size := 48; in_console := RC_CONSOLE_NINTENDO; in_track := 0 |}.

(* ===================================================================== *)
(** * Directory records by their length byte *)
(* ===================================================================== *)

(** The name of the record at [offset] as ISO 9660 stores it: byte 32 holds
    its length, the name follows. *)
Definition iso_record_name (sector : list byte) (offset : Z) : list byte :=
  take (u8 (byte_at sector (offset + 32))) (drop (offset + 33) sector).

(** A name without its version suffix: trimmed at the first [';'], or at
    its end. *)
Fixpoint trim_version (name : list byte) : list byte :=
  match name with
  | [] => []
  | c :: r => if Byte.eqb c ";" then [] else c :: trim_version r
  end.

(** The given name equals, without regard to case, the record's name
    without its version suffix. *)
Definition iso_name_matches (sector : list byte) (name : list byte) (offset : Z)
  : bool :=
  caseless_eq name (trim_version (iso_record_name sector offset)).

(** The extent sector of the first record of that name, 0 when there is
    none. *)
Definition iso_locate (sector : list byte) (name : list byte) : Z :=
  match find (iso_name_matches sector name) (directory_records sector) with
  | Some offset => le24 sector (offset + 2)
  | None => 0
  end.

(** A directory record as ISO 9660 lays it out: a pad byte follows the name
    when the length of the name is even, and only then. *)
Definition iso_record (name : list byte) (extent size : Z) : list byte :=
  let padding := if Z.even (len name) then [x00] else [] in
  [byte_of_Z (33 + len name + len padding); x00] ++ le_bytes 4 extent ++ repeat x00 4
  ++ le_bytes 4 size ++ repeat x00 18 ++ [byte_of_Z (len name)] ++ name ++ padding.

(** A disc whose root directory, at sector 20, lists the directory BIN and
    the file DATA; the directory BIN, at sector 30, lists GAME.DAT. *)
Definition plain_iso_root : list byte :=
  directory (dot_records 20
             ++ [iso_record (lit "BIN") 30 2048; iso_record (lit "DATA") 31 100]).

Definition plain_iso_sectors (h sector : Z) : list byte :=
  if sector =? 16 then pvd 20
  else if sector =? 20 then plain_iso_root
  else if sector =? 30 then
    directory (dot_records 30 ++ [iso_record (lit "GAME.DAT;1") 40 100])
  else repeat x00 (Z.to_nat 2048).

Definition plain_iso_disc : config :=
  with_cdreader base_config
    (Some (disc_reader (fun track => if track =? 1 then 7 else 0) plain_iso_sectors)).

(* ===================================================================== *)
(** * The output contract of the recipes *)
(* ===================================================================== *)

Lemma hex_digit_lower_hi b : is_lower_hex (hex_digit (u8 b / 16)) = true.
Proof. destruct b; reflexivity. Qed.

Lemma hex_digit_lower_lo b : is_lower_hex (hex_digit (u8 b mod 16)) = true.
Proof. destruct b; reflexivity. Qed.

Lemma render_hex_digits digest :
  length (render_hex digest) = 32%nat /\ forallb is_lower_hex (render_hex digest) = true.
Proof.
  unfold render_hex. cbn [seq flat_map hex2 app length forallb].
  rewrite !hex_digit_lower_hi, !hex_digit_lower_lo. split; reflexivity.
Qed.

Lemma finalize_written cfg md5 hash :
  fst (rc_hash_finalize cfg md5 hash) = 1 /\
  fingerprint_written hash (snd (rc_hash_finalize cfg md5 hash)).
Proof.
  unfold rc_hash_finalize. split; [reflexivity|].
  exists (render_hex (md5_finish cfg md5)).
  destruct (render_hex_digits (md5_finish cfg md5)) as [A B]. auto.
Qed.

Lemma outcome_finalize d cfg md5 hash : outcome_shape d hash (rc_hash_finalize cfg md5 hash).
Proof. left. apply finalize_written. Qed.

Lemma outcome_buffer d cfg hash b n : outcome_shape d hash (rc_hash_buffer cfg hash b n).
Proof. unfold rc_hash_buffer. apply outcome_finalize. Qed.

Lemma Outcome_bind {A} d hash (m : M A) k :
  (forall a, Outcome d hash (k a)) -> Outcome d hash (bind m k).
Proof.
  intros H w. unfold bind. destruct (m w) as [a w']. apply H.
Qed.

Lemma Outcome_ret d hash res : outcome_shape d hash res -> Outcome d hash (ret res).
Proof. intros H w. exact H. Qed.

Lemma Outcome_error d cfg hash msg :
  Outcome d hash (r <- rc_hash_error cfg msg ;; ret (r, hash)).
Proof. intros w. right; left. split; reflexivity. Qed.

Lemma Outcome_error' d cfg hash msg :
  Outcome d hash (rc_hash_error cfg msg ;;; ret (0, hash)).
Proof. intros w. right; left. split; reflexivity. Qed.

Lemma OutcomeOpt_bind {A} d hash (m : M A) k :
  (forall a, OutcomeOpt d hash (k a)) -> OutcomeOpt d hash (bind m k).
Proof.
  intros H w. unfold bind. destruct (m w) as [a w']. apply H.
Qed.

Lemma OutcomeOpt_lift d hash m : Outcome d hash m -> OutcomeOpt d hash (lift m).
Proof.
  intros H w. unfold lift, bind, ret. specialize (H w). destruct (m w) as [a w']. exact H.
Qed.

Lemma OutcomeOpt_ret d hash res : outcome_shape d hash res -> OutcomeOpt d hash (ret (Some res)).
Proof. intros H w. exact H. Qed.

Lemma OutcomeOpt_error d cfg hash msg :
  OutcomeOpt d hash (r <- rc_hash_error cfg msg ;; ret (Some (r, hash))).
Proof. intros w. right; left. split; reflexivity. Qed.

Lemma OutcomeOpt_none d hash : OutcomeOpt d hash (ret None).
Proof. intros w. exact I. Qed.

Lemma Outcome_weaken hash m : Outcome false hash m -> forall d, Outcome d hash m.
Proof.
  intros H d w. destruct (H w) as [A | [A | [A _]]]; [left | right; left | discriminate]; exact A.
Qed.

Lemma Outcome_bind_result d hash (m : M (Z * list byte)) k :
  Outcome d hash m ->
  (forall res, outcome_shape d hash res -> Outcome d hash (k res)) ->
  Outcome d hash (bind m k).
Proof.
  intros Hm Hk w. unfold bind. specialize (Hm w). destruct (m w) as [a w'].
  apply Hk. exact Hm.
Qed.

Lemma Outcome_ret_failed d hash : Outcome d hash (ret (0, hash)).
Proof. intros w. right; left. split; reflexivity. Qed.

Lemma Outcome_error_snd d cfg hash msg res :
  outcome_shape d hash res -> negb (fst res =? 0) = false ->
  Outcome d hash (r <- rc_hash_error cfg msg ;; ret (r, snd res)).
Proof.
  intros H E w. apply negb_false_iff, Z.eqb_eq in E.
  destruct H as [[A _] | [[A B] | [D [A B]]]]; [lia | right; left | right; right];
    repeat split; auto.
Qed.

Lemma Outcome_bind_assoc {A B} d hash (m : M A) (k : A -> M B) k2 :
  Outcome d hash (bind m (fun a => bind (k a) k2)) ->
  Outcome d hash (bind (bind m k) k2).
Proof.
  intros H w. specialize (H w). unfold bind in *. destruct (m w) as [a w1]. exact H.
Qed.

Lemma Outcome_bind_ret {A} d hash (a : A) k :
  Outcome d hash (k a) -> Outcome d hash (bind (ret a) k).
Proof. intros H w. exact (H w). Qed.

Create HintDb outcome.
#[local] Hint Resolve Outcome_ret_failed : outcome.

Ltac outcome_step :=
  match goal with
  | |- Outcome _ _ (bind (rc_hash_error _ _) (fun r => ret (r, _))) => apply Outcome_error
  | |- Outcome _ _ (bind (rc_hash_error _ _) (fun _ => ret (0, _))) => apply Outcome_error'
  | H : outcome_shape _ _ ?res, E : negb (fst ?res =? 0) = false
    |- Outcome _ _ (bind (rc_hash_error _ _) (fun r => ret (r, snd ?res))) =>
      apply (Outcome_error_snd _ _ _ _ _ H E)
  | |- Outcome _ _ (bind (if ?c then _ else _) _) => destruct c eqn:?
  | |- Outcome _ _ (bind (match ?x with _ => _ end) _) => destruct x eqn:?
  | |- Outcome _ _ (bind (bind _ _) _) => apply Outcome_bind_assoc
  | |- Outcome _ _ (bind _ _) =>
      apply Outcome_bind_result; [solve [auto with outcome] | intros ? ?]
  | |- Outcome _ _ (bind (ret _) _) => apply Outcome_bind_ret
  | |- Outcome _ _ (bind _ _) => apply Outcome_bind; intros
  | |- Outcome _ _ (ret (rc_hash_finalize _ _ _)) => apply Outcome_ret, outcome_finalize
  | |- Outcome _ _ (ret (rc_hash_buffer _ _ _ _)) => apply Outcome_ret, outcome_buffer
  | H : outcome_shape _ _ ?res |- Outcome _ _ (ret ?res) => apply Outcome_ret, H
  | |- Outcome _ _ (if ?c then _ else _) => destruct c eqn:?
  | |- Outcome _ _ (match ?x with _ => _ end) => destruct x eqn:?
  | |- OutcomeOpt _ _ (bind (rc_hash_error _ _) (fun r => ret (Some (r, _)))) =>
      apply OutcomeOpt_error
  | |- OutcomeOpt _ _ (lift _) => apply OutcomeOpt_lift
  | |- OutcomeOpt _ _ (bind _ _) => apply OutcomeOpt_bind; intros
  | |- OutcomeOpt _ _ (ret (Some (rc_hash_finalize _ _ _))) =>
      apply OutcomeOpt_ret, outcome_finalize
  | |- OutcomeOpt _ _ (ret None) => apply OutcomeOpt_none
  | |- OutcomeOpt _ _ (if ?c then _ else _) => destruct c
  | |- OutcomeOpt _ _ (match ?x with _ => _ end) => destruct x
  end.

Ltac outcome_auto := cbv zeta; repeat outcome_step.

Lemma Outcome_pce_track cfg hash h : Outcome false hash (rc_hash_pce_track cfg hash h).
Proof. unfold rc_hash_pce_track. outcome_auto. Qed.

#[local] Hint Resolve Outcome_pce_track : outcome.

Lemma Outcome_pce_cd cfg hash p : Outcome false hash (rc_hash_pce_cd cfg hash p).
Proof. unfold rc_hash_pce_cd. outcome_auto. Qed.


Lemma Outcome_pcfx_track cfg hash h b : Outcome false hash (rc_hash_pcfx_track cfg hash h b).
Proof.
  unfold rc_hash_pcfx_track. outcome_auto.
Qed.

Lemma Outcome_pcfx_cd cfg hash p : Outcome false hash (rc_hash_pcfx_cd cfg hash p).
Proof.
  unfold rc_hash_pcfx_cd. outcome_auto; apply Outcome_pcfx_track.
Qed.

Lemma Outcome_sega_cd cfg hash p : Outcome false hash (rc_hash_sega_cd cfg hash p).
Proof. unfold rc_hash_sega_cd. outcome_auto. Qed.

Lemma Outcome_nintendo_ds cfg hash p : Outcome false hash (rc_hash_nintendo_ds cfg hash p).
Proof. unfold rc_hash_nintendo_ds. outcome_auto. Qed.

Lemma OutcomeOpt_3do fuel cfg hash p : OutcomeOpt false hash (rc_hash_3do fuel cfg hash p).
Proof. unfold rc_hash_3do. outcome_auto. Qed.

Lemma rc_hash_cd_file_result cfg md5 h sector size d w :
  fst (fst (rc_hash_cd_file cfg md5 h sector size d w)) = 0 \/
  fst (fst (rc_hash_cd_file cfg md5 h sector size d w)) = 1.
Proof.
  unfold rc_hash_cd_file, bind.
  destruct (rc_cd_read_sector cfg h sector 2048 w) as [data w1].
  destruct (len data <? 2048).
  - left. reflexivity.
  - right. cbv zeta.
    destruct (rc_hash_cd_file_loop _ _ _ _ _ _ _ _) as [m w2]. reflexivity.
Qed.

(** Finalizing after [rc_hash_cd_file], whatever it returned. *)
Lemma Outcome_cd_file_finalize cfg md5 h sector size d hash k :
  (forall r, (fst r = 0 \/ fst r = 1) -> Outcome true hash (k r)) ->
  Outcome true hash (r <- rc_hash_cd_file cfg md5 h sector size d ;; k r).
Proof.
  intros H w. unfold bind.
  pose proof (rc_hash_cd_file_result cfg md5 h sector size d w) as R.
  destruct (rc_hash_cd_file cfg md5 h sector size d w) as [r w1].
  apply H. exact R.
Qed.

Lemma outcome_finalize_any cfg md5 hash (r : Z * md5_state_t) :
  fst r = 0 \/ fst r = 1 ->
  outcome_shape true hash (fst r, snd (rc_hash_finalize cfg md5 hash)).
Proof.
  intros [E | E]; cbn [fst snd]; rewrite E.
  - right; right. repeat split. apply finalize_written.
  - left. split; [reflexivity | apply finalize_written].
Qed.

Ltac outcome_dirty :=
  cbv zeta;
  repeat first
    [ apply Outcome_cd_file_finalize; intros ? ?
    | match goal with
      | H : fst ?r = 0 \/ fst ?r = 1
        |- Outcome _ _ (bind _ (fun _ => ret (fst ?r, snd (rc_hash_finalize _ _ _)))) =>
          apply Outcome_bind; intros; apply Outcome_ret, outcome_finalize_any, H
      | H : fst ?r = 0 \/ fst ?r = 1
        |- Outcome _ _ (ret (fst ?r, snd (rc_hash_finalize _ _ _))) =>
          apply Outcome_ret, outcome_finalize_any, H
      end
    | outcome_step ].

Lemma Outcome_dreamcast cfg hash p : Outcome true hash (rc_hash_dreamcast cfg hash p).
Proof. unfold rc_hash_dreamcast. outcome_dirty. Qed.

Lemma Outcome_psx_executable cfg hash h sector exe_name size :
  Outcome true hash (rc_hash_psx_executable cfg hash h sector exe_name size).
Proof. unfold rc_hash_psx_executable. outcome_dirty. Qed.
#[local] Hint Resolve Outcome_psx_executable : outcome.

Lemma Outcome_psx cfg hash p : Outcome true hash (rc_hash_psx cfg hash p).
Proof. unfold rc_hash_psx. outcome_dirty. Qed.

Lemma Outcome_ps2 cfg hash p : Outcome true hash (rc_hash_ps2 cfg hash p).
Proof. unfold rc_hash_ps2. outcome_dirty. Qed.

Lemma Outcome_whole_file cfg hash c p : Outcome false hash (rc_hash_whole_file cfg hash c p).
Proof. unfold rc_hash_whole_file. outcome_auto. Qed.

Lemma outcome_rom cfg hash b n :
  outcome_shape false hash (rc_hash_7800 cfg hash b n) /\
  outcome_shape false hash (rc_hash_lynx cfg hash b n) /\
  outcome_shape false hash (rc_hash_nes cfg hash b n) /\
  outcome_shape false hash (rc_hash_pce cfg hash b n) /\
  outcome_shape false hash (rc_hash_snes cfg hash b n).
Proof.
  unfold rc_hash_7800, rc_hash_lynx, rc_hash_nes, rc_hash_pce, rc_hash_snes.
  cbv zeta.
  repeat split;
    repeat match goal with |- context [if ?c then _ else _] => destruct c end;
    apply outcome_buffer.
Qed.

Lemma outcome_arcade cfg hash p : outcome_shape false hash (rc_hash_arcade cfg hash p).
Proof.
  unfold rc_hash_arcade. cbv zeta.
  repeat match goal with |- context [if ?c then _ else _] => destruct c end;
    apply outcome_buffer.
Qed.

Lemma Outcome_generate_from_buffer cfg hash c b n :
  Outcome false hash (rc_hash_generate_from_buffer cfg hash c b n).
Proof.
  unfold rc_hash_generate_from_buffer.
  destruct (outcome_rom cfg hash b n) as (A & B & C & D & E).
  repeat match goal with
         | |- Outcome _ _ (if ?c then _ else _) => destruct c
         end; try (apply Outcome_ret; assumption); try apply Outcome_error.
  apply Outcome_ret, outcome_buffer.
Qed.
#[local] Hint Resolve Outcome_generate_from_buffer : outcome.

Lemma Outcome_buffered_file cfg hash c p :
  Outcome false hash (rc_hash_buffered_file cfg hash c p).
Proof. unfold rc_hash_buffered_file. outcome_auto. Qed.

Lemma OutcomeOpt_weaken hash m : OutcomeOpt false hash m -> forall d, OutcomeOpt d hash m.
Proof.
  intros H d w. specialize (H w). destruct (fst (m w)); [|exact I].
  destruct H as [A | [A | [A _]]]; [left | right; left | discriminate]; exact A.
Qed.

Lemma OutcomeOpt_playlist d cfg hash p recurse :
  (forall q, OutcomeOpt d hash (recurse q)) ->
  OutcomeOpt d hash (rc_hash_generate_from_playlist cfg hash p recurse).
Proof.
  intros H. unfold rc_hash_generate_from_playlist.
  apply OutcomeOpt_bind. intros [q|]; [apply H | apply OutcomeOpt_error].
Qed.

Ltac outcome_known :=
  match goal with
  | |- Outcome _ _ (rc_hash_whole_file _ _ _ _) => apply Outcome_whole_file
  | |- Outcome _ _ (rc_hash_buffered_file _ _ _ _) => apply Outcome_buffered_file
  | |- Outcome _ _ (rc_hash_nintendo_ds _ _ _) => apply Outcome_nintendo_ds
  | |- Outcome _ _ (rc_hash_pce_cd _ _ _) => apply Outcome_pce_cd
  | |- Outcome _ _ (rc_hash_pcfx_cd _ _ _) => apply Outcome_pcfx_cd
  | |- Outcome _ _ (rc_hash_sega_cd _ _ _) => apply Outcome_sega_cd
  | |- Outcome _ _ (rc_hash_psx _ _ _) => apply Outcome_psx
  | |- Outcome _ _ (rc_hash_ps2 _ _ _) => apply Outcome_ps2
  | |- Outcome _ _ (rc_hash_dreamcast _ _ _) => apply Outcome_dreamcast
  end.

Lemma dirty_console_cases c :
  dirty_console c = true \/
  (dirty_console c = false /\ c <> RC_CONSOLE_DREAMCAST /\
   c <> RC_CONSOLE_PLAYSTATION /\ c <> RC_CONSOLE_PLAYSTATION_2).
Proof.
  unfold dirty_console, one_of. cbn [existsb].
  destruct (Z.eqb_spec c RC_CONSOLE_DREAMCAST); [left; reflexivity|].
  destruct (Z.eqb_spec c RC_CONSOLE_PLAYSTATION); [left; reflexivity|].
  destruct (Z.eqb_spec c RC_CONSOLE_PLAYSTATION_2); [left; reflexivity|].
  right. auto.
Qed.

Lemma outcome_weaken d hash res : outcome_shape false hash res -> outcome_shape d hash res.
Proof.
  intros [A | [A | [A _]]]; [left | right; left | discriminate]; exact A.
Qed.

Lemma OutcomeOpt_generate_from_file fuel cfg hash c :
  forall p, OutcomeOpt (dirty_console c) hash (rc_hash_generate_from_file fuel cfg hash c p).
Proof.
  induction fuel as [|fuel IH]; intros p.
  all: cbn [rc_hash_generate_from_file]; cbv zeta.
  all: repeat match goal with
           | |- OutcomeOpt _ _ (if ?x =? ?y then _ else _) =>
               destruct (Z.eqb_spec x y)
           | |- OutcomeOpt _ _ (if ?b then _ else _) => destruct b eqn:?
           end.
  all: try apply OutcomeOpt_none.
  all: try (apply OutcomeOpt_playlist; exact IH).
  all: try apply OutcomeOpt_error.
  all: try (match goal with |- OutcomeOpt _ _ (ret (Some (rc_hash_arcade _ _ _))) =>
              apply OutcomeOpt_ret, outcome_weaken, outcome_arcade end).
  all: try (match goal with |- OutcomeOpt _ _ (rc_hash_3do _ _ _ _) =>
              apply OutcomeOpt_weaken, OutcomeOpt_3do end).
  all: apply OutcomeOpt_lift.
  all: try (subst c; change (dirty_console _) with true; outcome_known).
  all: apply Outcome_weaken; outcome_known.
Qed.

(** The shape of what a recipe returns. *)
Lemma recipe_output_shape :
  forall (r : recipe) fuel cfg hash i w,
    match fst (run_recipe r fuel cfg hash i w) with
    | Some res => outcome_shape (finalizes_on_failure r i) hash res
    | None => r = ThreeDO \/ r = GenerateFromFile
    end.
Proof.
  intros r fuel cfg hash i w.
  destruct (outcome_rom cfg hash (in_buffer i) (in_buffer_size i)) as (A & B & C & D & E).
  destruct r; cbn [run_recipe finalizes_on_failure];
    try (cbn [ret fst]; first [ apply outcome_buffer | assumption | apply outcome_arcade ]).
  - pose proof (OutcomeOpt_3do fuel cfg hash (in_path i) w) as H.
    destruct (fst (rc_hash_3do fuel cfg hash (in_path i) w)); auto.
  - pose proof (Outcome_pce_track cfg hash (in_track i) w) as H. revert H.
    unfold lift, bind, ret. destruct (rc_hash_pce_track _ _ _ _); auto.
  - pose proof (Outcome_pce_cd cfg hash (in_path i) w) as H. revert H.
    unfold lift, bind, ret. destruct (rc_hash_pce_cd _ _ _ _); auto.
  - pose proof (Outcome_pcfx_cd cfg hash (in_path i) w) as H. revert H.
    unfold lift, bind, ret. destruct (rc_hash_pcfx_cd _ _ _ _); auto.
  - pose proof (Outcome_dreamcast cfg hash (in_path i) w) as H. revert H.
    unfold lift, bind, ret. destruct (rc_hash_dreamcast _ _ _ _); auto.
  - pose proof (Outcome_psx cfg hash (in_path i) w) as H. revert H.
    unfold lift, bind, ret. destruct (rc_hash_psx _ _ _ _); auto.
  - pose proof (Outcome_ps2 cfg hash (in_path i) w) as H. revert H.
    unfold lift, bind, ret. destruct (rc_hash_ps2 _ _ _ _); auto.
  - pose proof (Outcome_sega_cd cfg hash (in_path i) w) as H. revert H.
    unfold lift, bind, ret. destruct (rc_hash_sega_cd _ _ _ _); auto.
  - pose proof (Outcome_nintendo_ds cfg hash (in_path i) w) as H. revert H.
    unfold lift, bind, ret. destruct (rc_hash_nintendo_ds _ _ _ _); auto.
  - pose proof (Outcome_whole_file cfg hash (in_console i) (in_path i) w) as H. revert H.
    unfold lift, bind, ret. destruct (rc_hash_whole_file _ _ _ _ _); auto.
  - pose proof (Outcome_buffered_file cfg hash (in_console i) (in_path i) w) as H. revert H.
    unfold lift, bind, ret. destruct (rc_hash_buffered_file _ _ _ _ _); auto.
  - pose proof (Outcome_generate_from_buffer cfg hash (in_console i) (in_buffer i)
                  (in_buffer_size i) w) as H. revert H.
    unfold lift, bind, ret. destruct (rc_hash_generate_from_buffer _ _ _ _ _ _); auto.
  - pose proof (OutcomeOpt_generate_from_file fuel cfg hash (in_console i) (in_path i) w) as H.
    unfold dirty_console in H.
    destruct (fst (rc_hash_generate_from_file fuel cfg hash (in_console i) (in_path i) w)); auto.
Qed.


(* ===================================================================== *)
(** * A fingerprint written on failure comes from rc_hash_cd_file *)
(* ===================================================================== *)

Lemma Tied_bind {A} cfg hash (m : M A) k :
  (forall a, Tied cfg hash (k a)) -> Tied cfg hash (bind m k).
Proof.
  intros H w. unfold bind. destruct (m w) as [a w']. apply H.
Qed.

Lemma Tied_bind_post {A} cfg hash (m : M A) (P : A -> Prop) k :
  (forall w, P (fst (m w))) -> (forall a, P a -> Tied cfg hash (k a)) ->
  Tied cfg hash (bind m k).
Proof.
  intros Hm H w. unfold bind. specialize (Hm w). destruct (m w) as [a w'].
  apply H. exact Hm.
Qed.

Lemma Tied_bind_assoc {A B} cfg hash (m : M A) (k : A -> M B) k2 :
  Tied cfg hash (bind m (fun a => bind (k a) k2)) ->
  Tied cfg hash (bind (bind m k) k2).
Proof.
  intros H w. specialize (H w). unfold bind in *. destruct (m w) as [a w1]. exact H.
Qed.

Lemma Tied_untouched cfg hash r : Tied cfg hash (ret (r, hash)).
Proof. intros w _. left. reflexivity. Qed.

Lemma Tied_error cfg hash msg :
  Tied cfg hash (r <- rc_hash_error cfg msg ;; ret (r, hash)).
Proof. intros w _. left. reflexivity. Qed.

Lemma Tied_error' cfg hash msg :
  Tied cfg hash (rc_hash_error cfg msg ;;; ret (0, hash)).
Proof. intros w _. left. reflexivity. Qed.

Lemma Tied_of_clean cfg hash m : Outcome false hash m -> Tied cfg hash m.
Proof.
  intros H w E. destruct (H w) as [[A _] | [[_ B] | [A _]]];
    [lia | left; exact B | discriminate].
Qed.

Lemma TiedOpt_of_clean cfg hash m : OutcomeOpt false hash m -> TiedOpt cfg hash m.
Proof.
  intros H w. specialize (H w). destruct (fst (m w)) as [res|]; [|exact I].
  intros E. destruct H as [[A _] | [[_ B] | [A _]]];
    [lia | left; exact B | discriminate].
Qed.

Lemma TiedOpt_lift cfg hash m : Tied cfg hash m -> TiedOpt cfg hash (lift m).
Proof.
  intros H w. unfold lift, bind, ret. specialize (H w). destruct (m w) as [a w']. exact H.
Qed.

Lemma TiedOpt_bind {A} cfg hash (m : M A) k :
  (forall a, TiedOpt cfg hash (k a)) -> TiedOpt cfg hash (bind m k).
Proof.
  intros H w. unfold bind. destruct (m w) as [a w']. apply H.
Qed.

Lemma TiedOpt_error cfg hash msg :
  TiedOpt cfg hash (r <- rc_hash_error cfg msg ;; ret (Some (r, hash))).
Proof. intros w _. left. reflexivity. Qed.

Lemma TiedOpt_none cfg hash : TiedOpt cfg hash (ret None).
Proof. intros w. exact I. Qed.

Lemma TiedOpt_playlist cfg hash p recurse :
  (forall q, TiedOpt cfg hash (recurse q)) ->
  TiedOpt cfg hash (rc_hash_generate_from_playlist cfg hash p recurse).
Proof.
  intros H. unfold rc_hash_generate_from_playlist.
  apply TiedOpt_bind. intros [q|]; [apply H | apply TiedOpt_error].
Qed.

(** ** What leaves the log of the reads alone *)

Lemma reads_error cfg msg w :
  sector_reads (snd (rc_hash_error cfg msg w)) = sector_reads w.
Proof. unfold rc_hash_error. cbn [snd]. destruct (error_message_callback cfg); reflexivity. Qed.

Lemma reads_close_track cfg h w :
  sector_reads (snd (rc_cd_close_track cfg h w)) = sector_reads w.
Proof.
  unfold rc_cd_close_track, bind, ret, tracks_delta.
  destruct (cdreader cfg) as [r|]; [destruct (close_track r); [destruct (h =? 0)|]|];
    cbn [snd sector_reads]; try reflexivity;
    pose proof (reads_error cfg "no hook registered for cdreader_close_track" w) as E;
    destruct (rc_hash_error cfg _ w); exact E.
Qed.

Lemma last_read_short_reads cfg w w' :
  sector_reads w' = sector_reads w -> last_read_short cfg w -> last_read_short cfg w'.
Proof. intros E (h & s & rest & L & S). exists h, s, rest. rewrite E. auto. Qed.

(** Closing the track behind a recipe changes nothing of what it returned
    and read. *)
Lemma Tied_then_close cfg hash m h :
  Tied cfg hash m ->
  Tied cfg hash (result <- m ;; rc_cd_close_track cfg h ;;; ret result).
Proof.
  intros H w. unfold bind, ret. specialize (H w). destruct (m w) as [res w1].
  pose proof (reads_close_track cfg h w1) as R.
  destruct (rc_cd_close_track cfg h w1) as [u w2]. cbn [fst snd] in *.
  intros E. destruct (H E) as [A | A]; [left; exact A | right].
  exact (last_read_short_reads cfg w1 w2 R A).
Qed.

(** ** With a hook for reading sectors *)

(** When [rc_hash_cd_file] returns 0, the last read was that of the first
    sector of the extent, and it was short. *)
Lemma rc_hash_cd_file_gave_up cfg r rd md5 h sector size d w :
  cdreader cfg = Some r -> read_sector r = Some rd ->
  fst (fst (rc_hash_cd_file cfg md5 h sector size d w)) = 0 ->
  last_read_short cfg (snd (rc_hash_cd_file cfg md5 h sector size d w)).
Proof.
  intros Hc Hr. unfold rc_hash_cd_file, rc_cd_read_sector. rewrite Hc, Hr.
  unfold bind, ret, log_sector_read. cbv beta iota.
  destruct (Z.ltb_spec (len (take 2048 (rd h (u32 sector) 2048))) 2048) as [L | L].
  - intros _. cbn [fst snd].
    exists h, (u32 sector), (sector_reads w). split.
    + unfold rc_hash_error. cbn [snd].
      destruct (error_message_callback cfg); reflexivity.
    + unfold first_sector_short, rc_cd_read_sector. rewrite Hc, Hr.
      unfold bind, ret, log_sector_read. cbn [fst].
      replace (u32 (u32 sector)) with (u32 sector)
        by (unfold u32; rewrite Z.mod_mod by lia; reflexivity).
      exact L.
  - cbv zeta. destruct (rc_hash_cd_file_loop _ _ _ _ _ _ _ _) as [m w2].
    cbn [fst]. discriminate.
Qed.

Lemma Tied_cd_file cfg r rd hash md5 h sector size d :
  cdreader cfg = Some r -> read_sector r = Some rd ->
  Tied cfg hash (r0 <- rc_hash_cd_file cfg md5 h sector size d ;;
                 ret (fst r0, snd (rc_hash_finalize cfg (snd r0) hash))).
Proof.
  intros Hc Hr w. unfold bind, ret.
  pose proof (rc_hash_cd_file_gave_up cfg r rd md5 h sector size d w Hc Hr) as G.
  destruct (rc_hash_cd_file cfg md5 h sector size d w) as [r0 w1]. cbn [fst snd] in *.
  intros E. right. exact (G E).
Qed.

Lemma Tied_cd_file_close cfg r rd hash md5 h sector size d h' :
  cdreader cfg = Some r -> read_sector r = Some rd ->
  Tied cfg hash (r0 <- rc_hash_cd_file cfg md5 h sector size d ;;
                 rc_cd_close_track cfg h' ;;;
                 ret (fst r0, snd (rc_hash_finalize cfg (snd r0) hash))).
Proof.
  intros Hc Hr w. unfold bind, ret.
  pose proof (rc_hash_cd_file_gave_up cfg r rd md5 h sector size d w Hc Hr) as G.
  destruct (rc_hash_cd_file cfg md5 h sector size d w) as [r0 w1]. cbn [fst snd] in *.
  pose proof (reads_close_track cfg h' w1) as R.
  destruct (rc_cd_close_track cfg h' w1) as [u w2]. cbn [fst snd] in *.
  intros E. right. exact (last_read_short_reads cfg w1 w2 R (G E)).
Qed.

(** One step through a recipe. *)
Ltac tied_step :=
  match goal with
  | |- Tied _ _ (bind (rc_hash_error _ _) (fun r => ret (r, _))) => apply Tied_error
  | |- Tied _ _ (bind (rc_hash_error _ _) (fun _ => ret (0, _))) => apply Tied_error'
  | Hc : cdreader ?cfg = Some ?r, Hr : read_sector ?r = Some ?rd
    |- Tied ?cfg _ (bind (rc_hash_cd_file _ _ _ _ _ _)
                      (fun r0 => bind (rc_cd_close_track _ _) _)) =>
      apply (Tied_cd_file_close cfg r rd _ _ _ _ _ _ _ Hc Hr)
  | Hc : cdreader ?cfg = Some ?r, Hr : read_sector ?r = Some ?rd
    |- Tied ?cfg _ (bind (rc_hash_cd_file _ _ _ _ _ _) _) =>
      apply (Tied_cd_file cfg r rd _ _ _ _ _ _ Hc Hr)
  | |- Tied _ _ (bind (if ?c then _ else _) _) => destruct c eqn:?
  | |- Tied _ _ (bind (match ?x with _ => _ end) _) => destruct x eqn:?
  | |- Tied _ _ (bind (bind _ _) _) => apply Tied_bind_assoc
  | |- Tied _ _ (bind _ _) => apply Tied_bind; intros
  | |- Tied _ _ (ret (_, ?hash)) => apply Tied_untouched
  | |- Tied _ _ (if ?c then _ else _) => destruct c eqn:?
  | |- Tied _ _ (match ?x with _ => _ end) => destruct x eqn:?
  end.

Ltac tied_auto := cbv zeta; repeat tied_step.

Section Hooked.
Variables (cfg : config) (r : rc_hash_cdreader) (rd : Z -> Z -> Z -> list byte).
Hypothesis Hc : cdreader cfg = Some r.
Hypothesis Hr : read_sector r = Some rd.

Lemma Tied_dreamcast_hooked hash p : Tied cfg hash (rc_hash_dreamcast cfg hash p).
Proof. unfold rc_hash_dreamcast. tied_auto. Qed.

Lemma Tied_psx_executable_hooked hash h sector exe_name size :
  Tied cfg hash (rc_hash_psx_executable cfg hash h sector exe_name size).
Proof. unfold rc_hash_psx_executable. tied_auto. Qed.

Lemma Tied_psx_hooked hash p : Tied cfg hash (rc_hash_psx cfg hash p).
Proof.
  unfold rc_hash_psx.
  apply Tied_bind; intros h. destruct (h =? 0); [apply Tied_error|].
  apply Tied_bind; intros [[sector exe_name] size].
  apply Tied_then_close, Tied_psx_executable_hooked.
Qed.

Lemma Tied_ps2_hooked hash p : Tied cfg hash (rc_hash_ps2 cfg hash p).
Proof.
  unfold rc_hash_ps2. cbv zeta.
  apply Tied_bind; intros h. destruct (h =? 0); [apply Tied_error|].
  apply Tied_bind; intros [[sector exe_name] osize].
  apply Tied_then_close. tied_auto.
Qed.

End Hooked.


(** ** Without a hook for reading sectors *)

Section Hookless.
Variable cfg : config.
Hypothesis Hn : reads_sectors cfg = false.

Lemma hookless_read h sector n w : fst (rc_cd_read_sector cfg h sector n w) = [].
Proof.
  unfold rc_cd_read_sector. unfold reads_sectors in Hn.
  destruct (cdreader cfg) as [r|]; [destruct (read_sector r); [discriminate|]|];
    unfold bind, ret; destruct (rc_hash_error cfg _ w); reflexivity.
Qed.

Lemma hookless_find_in_directory h buffer sector p n w :
  fst (fst (rc_cd_find_in_directory cfg h buffer sector p n w)) = 0.
Proof.
  unfold rc_cd_find_in_directory, bind.
  destruct (rc_cd_absolute_sector_to_track_sector cfg h sector w) as [s w1].
  pose proof (hookless_read h s 2048 w1) as E.
  destruct (rc_cd_read_sector cfg h s 2048 w1) as [data w2]. cbn [fst] in E. subst data.
  reflexivity.
Qed.

Lemma hookless_find_rec fuel : forall h p w,
  fst (fst (rc_cd_find_file_sector_rec fuel cfg h p w)) = 0.
Proof.
  induction fuel as [|fuel IH]; intros h p w; cbn [rc_cd_find_file_sector_rec]; cbv zeta.
  all: destruct (h =? 0); [reflexivity|].
  all: destruct (strrchr p "\") as [slash|]; try reflexivity.
  2: { unfold bind. specialize (IH h (take slash p) w).
       destruct (rc_cd_find_file_sector_rec fuel cfg h (take slash p) w) as [r w1].
       cbn [fst] in IH. rewrite IH. reflexivity. }
  all: unfold bind; pose proof (hookless_read h 16 256 w) as E;
    destruct (rc_cd_read_sector cfg h 16 256 w) as [data w1]; cbn [fst] in E; subst data;
    reflexivity.
Qed.

Lemma hookless_find_file_sector h p w :
  fst (fst (rc_cd_find_file_sector cfg h p w)) = 0.
Proof. apply hookless_find_rec. Qed.

Lemma hookless_find_playstation_executable h key prefix name n w :
  fst (fst (fst (rc_hash_find_playstation_executable cfg h key prefix name n w))) = 0.
Proof.
  unfold rc_hash_find_playstation_executable, bind.
  pose proof (hookless_find_file_sector h (lit "SYSTEM.CNF") w) as E.
  destruct (rc_cd_find_file_sector cfg h (lit "SYSTEM.CNF") w) as [r w1].
  cbn [fst] in E. cbv zeta. rewrite E. reflexivity.
Qed.

Lemma hookless_psx_locate h w :
  fst (fst (fst (rc_hash_psx_locate cfg h w))) = 0.
Proof.
  unfold rc_hash_psx_locate, bind. cbv zeta.
  pose proof (hookless_find_playstation_executable h (lit "BOOT") (lit "cdrom:")
                (repeat x00 64) 64 w) as E.
  destruct (rc_hash_find_playstation_executable cfg h _ _ _ _ w) as [[[sector name] osize] w1].
  cbn [fst] in E. subst sector. cbn [Z.eqb].
  pose proof (hookless_find_file_sector h (lit "PSX.EXE") w1) as F.
  destruct (rc_cd_find_file_sector cfg h (lit "PSX.EXE") w1) as [r w2].
  cbn [fst] in F. rewrite F. reflexivity.
Qed.

Lemma Tied_dreamcast_hookless hash p : Tied cfg hash (rc_hash_dreamcast cfg hash p).
Proof.
  unfold rc_hash_dreamcast. cbv zeta.
  apply Tied_bind; intros h. destruct (h =? 0); [apply Tied_error|].
  apply Tied_bind; intros data.
  destruct (negb _); [apply Tied_bind; intros; apply Tied_error|].
  destruct (_ =? 0); [apply Tied_bind; intros; apply Tied_error|].
  apply (Tied_bind_post cfg hash _ (fun found => fst found = 0)).
  - intros w. apply hookless_find_file_sector.
  - intros [sector osize] E. cbn [fst] in E. subst sector.
    apply Tied_bind; intros. apply Tied_error.
Qed.

Lemma Tied_psx_hookless hash p : Tied cfg hash (rc_hash_psx cfg hash p).
Proof.
  unfold rc_hash_psx.
  apply Tied_bind; intros h. destruct (h =? 0); [apply Tied_error|].
  apply (Tied_bind_post cfg hash _ (fun located => fst (fst located) = 0)).
  - intros w. apply hookless_psx_locate.
  - intros [[sector name] size] E. cbn [fst] in E. subst sector.
    apply Tied_then_close. unfold rc_hash_psx_executable. cbn [Z.eqb].
    apply Tied_error'.
Qed.

Lemma Tied_ps2_hookless hash p : Tied cfg hash (rc_hash_ps2 cfg hash p).
Proof.
  unfold rc_hash_ps2. cbv zeta.
  apply Tied_bind; intros h. destruct (h =? 0); [apply Tied_error|].
  apply (Tied_bind_post cfg hash _ (fun found => fst (fst found) = 0)).
  - intros w. apply hookless_find_playstation_executable.
  - intros [[sector name] osize] E. cbn [fst] in E. subst sector.
    apply Tied_then_close. cbn [Z.eqb]. apply Tied_error'.
Qed.

End Hookless.

Lemma reads_sectors_cases cfg :
  reads_sectors cfg = false \/
  exists r rd, cdreader cfg = Some r /\ read_sector r = Some rd.
Proof.
  unfold reads_sectors. destruct (cdreader cfg) as [r|]; [|left; reflexivity].
  destruct (read_sector r) as [rd|] eqn:E; [right | left; reflexivity].
  exists r, rd. split; [reflexivity | exact E].
Qed.

Lemma Tied_dreamcast cfg hash p : Tied cfg hash (rc_hash_dreamcast cfg hash p).
Proof.
  destruct (reads_sectors_cases cfg) as [H | (r & rd & Hc & Hr)].
  - apply Tied_dreamcast_hookless, H.
  - exact (Tied_dreamcast_hooked cfg r rd Hc Hr hash p).
Qed.

Lemma Tied_psx cfg hash p : Tied cfg hash (rc_hash_psx cfg hash p).
Proof.
  destruct (reads_sectors_cases cfg) as [H | (r & rd & Hc & Hr)].
  - apply Tied_psx_hookless, H.
  - exact (Tied_psx_hooked cfg r rd Hc Hr hash p).
Qed.

Lemma Tied_ps2 cfg hash p : Tied cfg hash (rc_hash_ps2 cfg hash p).
Proof.
  destruct (reads_sectors_cases cfg) as [H | (r & rd & Hc & Hr)].
  - apply Tied_ps2_hookless, H.
  - exact (Tied_ps2_hooked cfg r rd Hc Hr hash p).
Qed.

Lemma TiedOpt_generate_from_file fuel cfg hash c :
  forall p, TiedOpt cfg hash (rc_hash_generate_from_file fuel cfg hash c p).
Proof.
  induction fuel as [|fuel IH]; intros p.
  all: cbn [rc_hash_generate_from_file]; cbv zeta.
  all: repeat match goal with
           | |- TiedOpt _ _ (if ?x =? ?y then _ else _) =>
               destruct (Z.eqb_spec x y)
           | |- TiedOpt _ _ (if ?b then _ else _) => destruct b eqn:?
           end.
  all: try apply TiedOpt_none.
  all: try (apply TiedOpt_playlist; exact IH).
  all: try apply TiedOpt_error.
  all: try (match goal with |- TiedOpt _ _ (ret (Some (rc_hash_arcade _ _ _))) =>
              apply TiedOpt_of_clean, OutcomeOpt_ret, outcome_arcade end).
  all: try (match goal with |- TiedOpt _ _ (rc_hash_3do _ _ _ _) =>
              apply TiedOpt_of_clean, OutcomeOpt_3do end).
  all: apply TiedOpt_lift.
  all: try apply Tied_dreamcast.
  all: try apply Tied_psx.
  all: try apply Tied_ps2.
  all: apply Tied_of_clean; outcome_known.
Qed.

Lemma outcome_combine cfg d hash w res :
  outcome_shape d hash res -> (d = true -> tied cfg hash w res) ->
  outcome cfg d hash w res.
Proof.
  intros [A | [A | (D & F & G)]] T; [left; exact A | right; left; exact A |].
  destruct (T D F) as [U | U].
  - right; left. split; assumption.
  - right; right. repeat split; assumption.
Qed.

(** C1 (amended).  On an input whose reads stay inside what it holds
    ([reads_in_bounds]: a marked buffer has room for its marker and its
    header, the path of an arcade game does not end in a separator), every
    recipe that returns gives 1 with thirty-two lowercase hexadecimal digits
    and a terminator written to the output, or it gives 0.  When it gives 0
    the output is as it was, with one exception: the Dreamcast, PlayStation
    and PlayStation 2 recipes write a fingerprint and give 0 when
    [rc_hash_cd_file] gave up, and only then: the last sector the recipe
    read, a request for 2048 bytes, was not delivered in full.  The
    exhausted bounds of the model (3DO directory walk, playlist nesting) are
    the only way to get no result. *)
Theorem recipe_output_contract :
  forall (r : recipe) fuel cfg hash i w,
    reads_in_bounds r cfg i = true ->
    match fst (run_recipe r fuel cfg hash i w) with
    | Some res =>
        outcome cfg (finalizes_on_failure r i) hash
          (snd (run_recipe r fuel cfg hash i w)) res
    | None => r = ThreeDO \/ r = GenerateFromFile
    end.
Proof.
  intros r fuel cfg hash i w _.
  pose proof (recipe_output_shape r fuel cfg hash i w) as S.
  destruct (fst (run_recipe r fuel cfg hash i w)) as [res|] eqn:E; [|exact S].
  apply outcome_combine; [exact S|]. intros D.
  destruct r; cbn [finalizes_on_failure] in D; try discriminate.
  - pose proof (Tied_dreamcast cfg hash (in_path i) w) as T. revert E T.
    cbn [run_recipe]. unfold lift, bind, ret.
    destruct (rc_hash_dreamcast _ _ _ _) as [a w1]. cbn [fst snd].
    intros E. injection E as <-. auto.
  - pose proof (Tied_psx cfg hash (in_path i) w) as T. revert E T.
    cbn [run_recipe]. unfold lift, bind, ret.
    destruct (rc_hash_psx _ _ _ _) as [a w1]. cbn [fst snd].
    intros E. injection E as <-. auto.
  - pose proof (Tied_ps2 cfg hash (in_path i) w) as T. revert E T.
    cbn [run_recipe]. unfold lift, bind, ret.
    destruct (rc_hash_ps2 _ _ _ _) as [a w1]. cbn [fst snd].
    intros E. injection E as <-. auto.
  - pose proof (TiedOpt_generate_from_file fuel cfg hash (in_console i) (in_path i) w) as T.
    revert E T. cbn [run_recipe].
    destruct (rc_hash_generate_from_file _ _ _ _ _ _) as [a w1]. cbn [fst snd].
    intros ->. auto.
Qed.

Lemma recipe_output_contract_witness :
  outcome base_config false stars world0
    (rc_hash_nes base_config stars (in_buffer nes_input) (in_buffer_size nes_input)).
Proof.
  exact (recipe_output_contract Nes 0 base_config stars nes_input world0 eq_refl).
Defined.

(** C1 (counterexample).  On a Dreamcast disc whose boot executable cannot
    be read in full, [rc_hash_dreamcast] returns failure and has overwritten
    the output: neither half of the contract holds. *)
Lemma dreamcast_failure_writes_output :
  ~ recipe_contract stars
      (fst (rc_hash_dreamcast dreamcast_truncated stars (lit "game.gdi") world0)).
Proof.
  assert (E : fst (rc_hash_dreamcast dreamcast_truncated stars (lit "game.gdi") world0)
              = (0, lit "d210c665e738d793f11e1d67989c3f62" ++ [x00])).
  { vm_compute. reflexivity. }
  rewrite E. unfold recipe_contract. cbn [fst snd].
  intros [[A _] | [_ B]]; [discriminate A | vm_compute in B; discriminate B].
Qed.

(* ===================================================================== *)
(** * Handles *)
(* ===================================================================== *)

(** Whenever the header cannot be read in full, the Nintendo DS recipe
    returns without closing the file it opened. *)
Lemma nintendo_ds_short_header_leaks cfg hash path data w :
  files cfg (c_str path) = Some data ->
  len data < 512 ->
  fst (rc_hash_nintendo_ds cfg hash path w) = (0, hash) /\
  open_files (snd (rc_hash_nintendo_ds cfg hash path w)) = open_files w + 1.
Proof.
  intros Hf Hl.
  unfold rc_hash_nintendo_ds, bind, rc_file_open. rewrite Hf.
  unfold bind, files_delta, ret.
  unfold rc_file_read, rc_file_seek. cbn [fdata fpos].
  change (0 <? 0) with false. cbv iota. cbn [fdata fpos].
  assert (L : len (take 512 (drop 0 data)) = len data).
  { unfold take, drop, len in *. rewrite skipn_O, length_firstn. lia. }
  rewrite L.
  destruct (Z.eqb_spec (len data) 512) as [E|E]; [lia|].
  cbn [negb]. unfold rc_hash_error. cbn [fst snd].
  destruct (error_message_callback cfg); split; reflexivity.
Qed.

(** C2 (the code at the failing inputs).  After the Nintendo DS recipe has
    failed to read the header, and after it has rejected the code sizes, one
    file handle is still open. *)
Theorem nintendo_ds_leaves_file_open :
  (fst (rc_hash_nintendo_ds short_nds stars (lit "short.nds") world0) = (0, stars) /\
   open_files (snd (rc_hash_nintendo_ds short_nds stars (lit "short.nds") world0)) = 1)
  /\
  (fst (rc_hash_nintendo_ds oversized_nds stars (lit "big.nds") world0) = (0, stars) /\
   open_files (snd (rc_hash_nintendo_ds oversized_nds stars (lit "big.nds") world0)) = 1).
Proof. repeat split; vm_compute; reflexivity. Qed.

(* ===================================================================== *)
(** * Disc recipes without a disc reader *)
(* ===================================================================== *)

Lemma rc_cd_open_track_unconfigured cfg path track w :
  cdreader cfg = None ->
  rc_cd_open_track cfg path track w =
  (0, if error_message_callback cfg
      then add_errors w ["no hook registered for cdreader_open_track"%string]
      else w).
Proof.
  intros H. unfold rc_cd_open_track. rewrite H.
  unfold bind, rc_hash_error, ret, add_errors.
  destruct (error_message_callback cfg); reflexivity.
Qed.

Lemma unconfigured_disc_recipe cfg fuel hash path w recipe :
  In recipe disc_recipes ->
  cdreader cfg = None ->
  recipe fuel cfg hash path w =
  (Some (0, hash),
   if error_message_callback cfg
   then add_errors w ["no hook registered for cdreader_open_track"%string;
                      "Could not open track"%string]
   else w).
Proof.
  intros Hin H.
  unfold disc_recipes in Hin. simpl in Hin.
  repeat (destruct Hin as [<- | Hin]); try contradiction;
  unfold lift, rc_hash_3do, rc_hash_pce_cd, rc_hash_pcfx_cd, rc_hash_dreamcast,
         rc_hash_psx, rc_hash_ps2, rc_hash_sega_cd;
  unfold bind at 1; try unfold bind at 1;
  rewrite (rc_cd_open_track_unconfigured cfg _ _ w H);
  unfold bind, rc_hash_error, ret, add_errors; simpl;
  destruct (error_message_callback cfg); simpl; rewrite <- ?app_assoc; reflexivity.
Qed.

(** C9.  With no disc reader installed, every disc recipe returns failure
    with the output untouched, no call reaches a [read_sector] hook and no
    handle is opened; the error sink, when installed, first receives the
    message that names the missing [open_track] hook. *)
Theorem unconfigured_disc_recipe_fails :
  forall recipe fuel cfg hash path w,
    In recipe disc_recipes ->
    cdreader cfg = None ->
    let out := recipe fuel cfg hash path w in
    fst out = Some (0, hash) /\
    sector_reads (snd out) = sector_reads w /\
    open_tracks (snd out) = open_tracks w /\
    errors (snd out) =
      errors w ++
      (if error_message_callback cfg
       then ["no hook registered for cdreader_open_track"%string;
             "Could not open track"%string]
       else []).
Proof.
  intros recipe fuel cfg hash path w Hin H out. subst out.
  rewrite (unconfigured_disc_recipe cfg fuel hash path w recipe Hin H).
  destruct (error_message_callback cfg); cbn [fst snd add_errors sector_reads
    open_tracks errors]; rewrite ?app_nil_r; auto.
Qed.

Lemma unconfigured_disc_recipe_fails_witness :
  let out := (fun _ cfg hash path => lift (rc_hash_psx cfg hash path))
               O base_config stars (lit "game.cue") world0 in
  fst out = Some (0, stars) /\
  sector_reads (snd out) = [] /\
  open_tracks (snd out) = 0 /\
  errors (snd out) =
    ["no hook registered for cdreader_open_track"%string;
     "Could not open track"%string].
Proof.
  apply (unconfigured_disc_recipe_fails
           (fun _ cfg hash path => lift (rc_hash_psx cfg hash path))
           O base_config stars (lit "game.cue") world0).
  - simpl. tauto.
  - reflexivity.
Defined.

(* ===================================================================== *)
(** * The iterator *)
(* ===================================================================== *)

Lemma nth_hd_skipn (l : list Z) n : nth n l 0 = hd 0 (skipn n l).
Proof.
  revert l. induction n as [|n IH]; intros [|c l]; simpl; auto.
Qed.

Lemma skipn_S_tl (l : list Z) n : skipn (S n) l = tl (skipn n l).
Proof.
  revert l. induction n as [|n IH]; intros [|c l]; try reflexivity.
  change (skipn (S n) l = tl (skipn n l)). apply IH.
Qed.

Lemma until_zero_length cs : (length (until_zero cs) <= length cs)%nat.
Proof.
  induction cs as [|c r IH]; simpl; [lia|].
  destruct (c =? 0); simpl; lia.
Qed.

Lemma candidates_length it : (length (candidates it) <= length (consoles it))%nat.
Proof.
  unfold candidates.
  etransitivity; [apply until_zero_length|]. rewrite length_skipn. lia.
Qed.

Lemma candidates_nil it :
  0 <= index it -> candidates it = [] -> console_at it (index it) = 0.
Proof.
  intros Hi H. unfold console_at, candidates in *.
  destruct (Z.ltb_spec (index it) 0); [lia|].
  rewrite nth_hd_skipn.
  destruct (skipn (Z.to_nat (index it)) (consoles it)) as [|c r]; [reflexivity|].
  simpl in *. destruct (Z.eqb_spec c 0); [assumption | discriminate].
Qed.

Lemma candidates_cons it c r :
  0 <= index it -> candidates it = c :: r ->
  console_at it (index it) = c /\ c <> 0 /\
  candidates (set_index it (index it + 1)) = r.
Proof.
  intros Hi H. unfold console_at, candidates in *. cbn [index consoles set_index].
  destruct (Z.ltb_spec (index it) 0); [lia|].
  rewrite nth_hd_skipn.
  replace (Z.to_nat (index it + 1)) with (S (Z.to_nat (index it))) by lia.
  rewrite skipn_S_tl.
  destruct (skipn (Z.to_nat (index it)) (consoles it)) as [|c' r']; [discriminate|].
  simpl in *. destruct (Z.eqb_spec c' 0); [discriminate|].
  inversion H; subst. auto.
Qed.

Lemma run_failing_set_index fuel cfg it i cs :
  forall hash w,
    run_failing fuel cfg (set_index it i) cs hash w = run_failing fuel cfg it cs hash w.
Proof.
  induction cs as [|c r IH]; intros hash w; [reflexivity|].
  cbn [run_failing].
  change (try_console fuel cfg hash (set_index it i) c w)
    with (try_console fuel cfg hash it c w).
  destruct (try_console fuel cfg hash it c w) as [[[result hash']|] w']; auto.
  destruct (result =? 0); auto.
Qed.

Lemma set_index_set_index it i j : set_index (set_index it i) j = set_index it j.
Proof. reflexivity. Qed.

Lemma set_index_same it : set_index it (index it) = it.
Proof. destruct it; reflexivity. Qed.

(** One round of the loop on a candidate. *)
Lemma rc_hash_iterate_loop_round rounds fuel cfg hash it w c :
  console_at it (index it) = c -> c <> 0 ->
  rc_hash_iterate_loop (S rounds) fuel cfg hash it w =
  match try_console fuel cfg hash it c w with
  | (Some (result, hash'), w') =>
      if result =? 0
      then rc_hash_iterate_loop rounds fuel cfg hash' (set_index it (index it + 1)) w'
      else (Some (result, hash', set_index it (index it + 1)), w')
  | (None, w') => (None, w')
  end.
Proof.
  intros Hc Hnz. cbn [rc_hash_iterate_loop]. cbv zeta. rewrite Hc.
  destruct (Z.eqb_spec c 0); [contradiction|].
  unfold bind at 1.
  change (match buffer (set_index it (index it + 1)) with
          | Some b =>
              lift (rc_hash_generate_from_buffer cfg hash c b
                      (buffer_size (set_index it (index it + 1))))
          | None =>
              match path (set_index it (index it + 1)) with
              | Some p => rc_hash_generate_from_file fuel cfg hash c p
              | None => ret None
              end
          end) with (try_console fuel cfg hash it c).
  destruct (try_console fuel cfg hash it c w) as [[[result hash']|] w']; auto.
  destruct (result =? 0); reflexivity.
Qed.

(** The loop passes over candidates that fail. *)
Lemma rc_hash_iterate_loop_failing fuel cfg pre :
  forall rounds it hash w rest h1 w1,
    0 <= index it ->
    candidates it = pre ++ rest ->
    run_failing fuel cfg it pre hash w = Some (h1, w1) ->
    rc_hash_iterate_loop (length pre + rounds) fuel cfg hash it w =
    rc_hash_iterate_loop rounds fuel cfg h1
      (set_index it (index it + Z.of_nat (length pre))) w1.
Proof.
  induction pre as [|c pre IH]; intros rounds it hash w rest h1 w1 Hi Hc Hr.
  - cbn [run_failing] in Hr. inversion Hr; subst.
    cbn [length Nat.add Z.of_nat]. rewrite Z.add_0_r, set_index_same. reflexivity.
  - cbn [app] in Hc. destruct (candidates_cons it c (pre ++ rest) Hi Hc) as (A & B & C).
    cbn [length Nat.add]. rewrite (rc_hash_iterate_loop_round _ _ _ _ _ _ c A B).
    cbn [run_failing] in Hr.
    destruct (try_console fuel cfg hash it c w) as [[[result hash']|] w']; [|discriminate].
    destruct (result =? 0); [|discriminate].
    rewrite <- (run_failing_set_index fuel cfg it (index it + 1)) in Hr.
    rewrite (IH rounds (set_index it (index it + 1)) hash' w' rest h1 w1);
      [| cbn [index set_index]; lia | exact C | exact Hr].
    rewrite set_index_set_index. cbn [index set_index].
    f_equal. f_equal. lia.
Qed.

(** C6.  From any index on, [rc_hash_iterate] tries the remaining
    candidates in list order, each on the output and the world its
    predecessor left.  If the candidates before [c] all fail and [c]
    succeeds, it returns that success, with [c]'s fingerprint and the index
    just behind [c].  If all of them fail (or there is none), it returns
    failure and the output holds the empty string. *)
Theorem iterate_first_success :
  forall fuel cfg hash it w,
    0 <= index it ->
    (forall pre c post h1 w1 r h2 w2,
        candidates it = pre ++ c :: post ->
        run_failing fuel cfg it pre hash w = Some (h1, w1) ->
        try_console fuel cfg h1 it c w1 = (Some (r, h2), w2) ->
        r <> 0 ->
        rc_hash_iterate fuel cfg hash it w =
        (Some (r, h2, set_index it (index it + Z.of_nat (length pre) + 1)), w2))
    /\
    (forall h1 w1,
        run_failing fuel cfg it (candidates it) hash w = Some (h1, w1) ->
        rc_hash_iterate fuel cfg hash it w =
        (Some (0, store h1 [x00],
               set_index it (index it + Z.of_nat (length (candidates it)))), w1)
        /\ c_str (store h1 [x00]) = []).
Proof.
  intros fuel cfg hash it w Hi. split.
  - intros pre c post h1 w1 r h2 w2 Hc Hr Ht Hnz.
    unfold rc_hash_iterate.
    pose proof (candidates_length it) as L. rewrite Hc, length_app in L. cbn [length] in L.
    replace (length (consoles it))
      with (length pre + S (length (consoles it) - length pre - 1))%nat by lia.
    rewrite (rc_hash_iterate_loop_failing fuel cfg pre _ it hash w (c :: post) h1 w1 Hi Hc Hr).
    set (it' := set_index it (index it + Z.of_nat (length pre))).
    assert (C : candidates it' = c :: post).
    { clear - Hi Hc. unfold candidates in *. subst it'. cbn [index consoles set_index].
      replace (Z.to_nat (index it + Z.of_nat (length pre)))
        with (length pre + Z.to_nat (index it))%nat by lia.
      rewrite <- skipn_skipn.
      revert Hc. generalize (skipn (Z.to_nat (index it)) (consoles it)).
      induction pre as [|p pre IH]; intros l H; [exact H|].
      destruct l as [|x l]; [discriminate|]. cbn [until_zero app] in H.
      destruct (x =? 0); [discriminate|]. inversion H; subst.
      cbn [length skipn]. apply IH. assumption. }
    assert (Hi' : 0 <= index it') by (subst it'; cbn [index set_index]; lia).
    destruct (candidates_cons it' c post Hi' C) as (A & B & _).
    rewrite (rc_hash_iterate_loop_round _ _ _ _ _ _ c A B).
    change (try_console fuel cfg h1 it' c w1) with (try_console fuel cfg h1 it c w1).
    rewrite Ht. destruct (Z.eqb_spec r 0); [contradiction|].
    subst it'. reflexivity.
  - intros h1 w1 Hr. split; [|reflexivity].
    unfold rc_hash_iterate.
    pose proof (candidates_length it) as L.
    replace (length (consoles it))
      with (length (candidates it)
            + (length (consoles it) - length (candidates it)))%nat by lia.
    rewrite (rc_hash_iterate_loop_failing fuel cfg (candidates it) _ it hash w [] h1 w1 Hi
               (eq_sym (app_nil_r _)) Hr).
    set (it' := set_index it (index it + Z.of_nat (length (candidates it)))).
    assert (C : candidates it' = []).
    { unfold candidates in *. subst it'. cbn [index consoles set_index].
      replace (Z.to_nat (index it + Z.of_nat (length (until_zero
                 (skipn (Z.to_nat (index it)) (consoles it))))))
        with (length (until_zero (skipn (Z.to_nat (index it)) (consoles it)))
              + Z.to_nat (index it))%nat by lia.
      rewrite <- skipn_skipn.
      generalize (skipn (Z.to_nat (index it)) (consoles it)).
      induction l as [|x l IH]; [reflexivity|].
      cbn [until_zero]. destruct (Z.eqb_spec x 0) as [E|E].
      - cbn [length skipn until_zero]. subst x. reflexivity.
      - cbn [length skipn]. exact IH. }
    assert (Hi' : 0 <= index it') by (subst it'; cbn [index set_index]; lia).
    pose proof (candidates_nil it' Hi' C) as Z0.
    destruct (length (consoles it) - length (candidates it))%nat;
      cbn [rc_hash_iterate_loop]; cbv zeta; rewrite Z0; reflexivity.
Qed.

Lemma iterate_first_success_witness :
  0 <= index iso_iterator /\
  rc_hash_iterate 5 sega_cd_disc stars iso_iterator world0 =
  (Some (1, lit "37bf9d172e2df201e6b2cc6167c043d1" ++ [x00], set_index iso_iterator 3),
   {| open_files := 0; open_tracks := 0;
      errors := ["Could not locate primary executable"%string; "Not a 3DO CD"%string];
      sector_reads := [(1, 0, 512); (1, 0, 132); (1, 16, 256)] |})
  /\
  rc_hash_iterate 5 base_config stars iso_iterator world0 =
  (Some (0, store stars [x00], set_index iso_iterator 3),
   snd (rc_hash_iterate 5 base_config stars iso_iterator world0)).
Proof.
  assert (Hi : 0 <= index iso_iterator) by (vm_compute; discriminate).
  split; [exact Hi|]. split.
  - apply (proj1 (iterate_first_success 5 sega_cd_disc stars iso_iterator world0 Hi)
             [RC_CONSOLE_PLAYSTATION_2; RC_CONSOLE_3DO] RC_CONSOLE_SEGA_CD []
             stars
             {| open_files := 0; open_tracks := 0;
                errors := ["Could not locate primary executable"%string;
                           "Not a 3DO CD"%string];
                sector_reads := [(1, 0, 132); (1, 16, 256)] |}).
    + vm_compute. reflexivity.
    + vm_compute. reflexivity.
    + vm_compute. reflexivity.
    + discriminate.
  - destruct (run_failing 5 base_config iso_iterator (candidates iso_iterator) stars world0)
      as [[h1 w1]|] eqn:E; [|vm_compute in E; discriminate E].
    destruct (proj2 (iterate_first_success 5 base_config stars iso_iterator world0 Hi)
                h1 w1 E) as [R _].
    rewrite R. vm_compute in E. inversion E; subst. vm_compute. reflexivity.
Defined.

(* ===================================================================== *)
(** * Lengths *)
(* ===================================================================== *)

Lemma len_nonneg l : 0 <= len l.
Proof. unfold len. lia. Qed.

Lemma len_app a b : len (a ++ b) = len a + len b.
Proof. unfold len. rewrite length_app. lia. Qed.

Lemma len_take n l : 0 <= n -> len (take n l) = Z.min n (len l).
Proof. intros H. unfold len, take. rewrite length_firstn. lia. Qed.

Lemma len_drop n l : 0 <= n -> len (drop n l) = Z.max 0 (len l - n).
Proof. intros H. unfold len, drop. rewrite length_skipn. lia. Qed.

Lemma len_repeat (x : byte) n : 0 <= n -> len (repeat x (Z.to_nat n)) = n.
Proof. intros H. unfold len. rewrite repeat_length. lia. Qed.

Lemma take_all n l : len l <= n -> take n l = l.
Proof. intros H. unfold take, len in *. apply firstn_all2. lia. Qed.

Lemma take_app_exact n a b : len a = n -> take n (a ++ b) = a.
Proof.
  intros H. unfold take, len in *.
  replace (Z.to_nat n) with (length a + 0)%nat by lia.
  rewrite firstn_app_2. cbn [firstn]. apply app_nil_r.
Qed.

Lemma drop_app_exact n a b : len a = n -> drop n (a ++ b) = b.
Proof.
  intros H. unfold drop, len in *.
  replace (Z.to_nat n) with (length a) by lia.
  rewrite skipn_app, skipn_all, Nat.sub_diag. reflexivity.
Qed.

Lemma to_int_small z : 0 <= z < 2147483648 -> to_int z = z.
Proof.
  intros H. unfold to_int, u32. rewrite Z.mod_small by lia.
  destruct (Z.ltb_spec z 2147483648); lia.
Qed.

(* ===================================================================== *)
(** * Buffers and the cap *)
(* ===================================================================== *)

(** [rc_hash_buffer] digests the first 64 MiB of the buffer. *)
Lemma rc_hash_buffer_capped cfg hash buffer :
  rc_hash_buffer cfg hash buffer (len buffer) =
  rc_hash_finalize cfg (take MAX_BUFFER_SIZE buffer) hash.
Proof.
  unfold rc_hash_buffer, md5_append, md5_init. cbv zeta. cbn [app].
  pose proof (len_nonneg buffer) as N.
  assert (M : MAX_BUFFER_SIZE = 67108864) by reflexivity.
  destruct (Z.gtb_spec (len buffer) MAX_BUFFER_SIZE) as [G|G].
  - rewrite to_int_small by lia. reflexivity.
  - rewrite to_int_small by lia.
    rewrite (take_all (len buffer)) by lia. rewrite (take_all MAX_BUFFER_SIZE) by lia.
    reflexivity.
Qed.

(** What the SNES recipe digests, for a buffer of less than 4 GiB. *)
Lemma rc_hash_snes_capped cfg hash buffer :
  len buffer < 4294967296 ->
  rc_hash_snes cfg hash buffer (len buffer) =
  rc_hash_finalize cfg
    (take MAX_BUFFER_SIZE
       (if len buffer mod 8192 =? 512 then drop 512 buffer else buffer)) hash.
Proof.
  intros H. pose proof (len_nonneg buffer) as N.
  unfold rc_hash_snes. cbv zeta.
  assert (E : usize (len buffer - u32 (u32 (len buffer) / 8192 * 8192))
              = len buffer mod 8192).
  { unfold u32, usize. rewrite (Z.mod_small (len buffer)) by lia.
    pose proof (Z.mod_pos_bound (len buffer) 8192 ltac:(lia)) as B.
    pose proof (Z.div_mod (len buffer) 8192 ltac:(lia)) as D.
    rewrite (Z.mod_small (len buffer / 8192 * 8192)) by lia.
    rewrite Z.mod_small by lia. lia. }
  rewrite E.
  destruct (Z.eqb_spec (len buffer mod 8192) 512) as [C|C].
  - assert (L : 512 <= len buffer).
    { pose proof (Z.div_mod (len buffer) 8192 ltac:(lia)) as D.
      pose proof (Z.div_pos (len buffer) 8192 N ltac:(lia)). lia. }
    replace (usize (len buffer - 512)) with (len (drop 512 buffer)).
    + apply rc_hash_buffer_capped.
    + rewrite len_drop by lia. unfold usize. rewrite Z.mod_small by lia. lia.
  - apply rc_hash_buffer_capped.
Qed.

(** C7 (amended).  For a buffer of less than 4 GiB the SNES recipe digests
    the first 64 MiB of what is left after a 512-byte header is removed
    when the size modulo 8192 is 512, and the first 64 MiB of the whole
    buffer otherwise.  So up to 64 MiB behind the header the fingerprint is
    the plain MD5 of the buffer without its first 512 bytes (for an 8 KiB
    payload behind a 512-byte header, the MD5 of the payload), and up to
    64 MiB without a header it is the MD5 of the whole buffer. *)
Theorem snes_header_stripped :
  forall cfg hash buffer,
    len buffer < 4294967296 ->
    rc_hash_snes cfg hash buffer (len buffer) =
    rc_hash_finalize cfg
      (take MAX_BUFFER_SIZE
         (if len buffer mod 8192 =? 512 then drop 512 buffer else buffer)) hash
    /\
    (len buffer mod 8192 = 512 -> len buffer - 512 <= MAX_BUFFER_SIZE ->
     rc_hash_snes cfg hash buffer (len buffer) =
     rc_hash_finalize cfg (drop 512 buffer) hash)
    /\
    (len buffer mod 8192 <> 512 -> len buffer <= MAX_BUFFER_SIZE ->
     rc_hash_snes cfg hash buffer (len buffer) = rc_hash_finalize cfg buffer hash)
    /\
    (forall header payload,
        buffer = header ++ payload -> len header = 512 -> len payload = 8192 ->
        rc_hash_snes cfg hash buffer (len buffer) = rc_hash_finalize cfg payload hash).
Proof.
  intros cfg hash buffer H.
  pose proof (rc_hash_snes_capped cfg hash buffer H) as E.
  split; [exact E|]. split; [|split].
  - intros C L. rewrite E.
    destruct (Z.eqb_spec (len buffer mod 8192) 512); [|contradiction].
    rewrite take_all; [reflexivity|].
    rewrite len_drop by lia. pose proof (len_nonneg buffer).
    unfold MAX_BUFFER_SIZE in *. lia.
  - intros C L. rewrite E.
    destruct (Z.eqb_spec (len buffer mod 8192) 512); [contradiction|].
    rewrite take_all by lia. reflexivity.
  - intros header payload -> Lh Lp. rewrite E.
    rewrite len_app, Lh, Lp. change ((512 + 8192) mod 8192 =? 512) with true.
    cbv iota. rewrite (drop_app_exact 512 header payload Lh).
    rewrite take_all; [reflexivity|]. rewrite Lp. unfold MAX_BUFFER_SIZE. lia.
Qed.

Lemma snes_header_stripped_witness :
  len small_snes_buffer < 4294967296 /\
  rc_hash_snes base_config stars small_snes_buffer (len small_snes_buffer) =
  (1, lit "0829f71740aab1ab98b33eae21dee122" ++ [x00]).
Proof.
  assert (L : len small_snes_buffer < 4294967296) by (vm_compute; reflexivity).
  split; [exact L|].
  destruct (snes_header_stripped base_config stars small_snes_buffer L)
    as (_ & _ & _ & P).
  rewrite (P (repeat xff 512) (repeat x00 (Z.to_nat 8192)) eq_refl eq_refl eq_refl).
  vm_compute. reflexivity.
Defined.

(** The fingerprint under [length_digest]. *)
Lemma finalize_length_digest msg hash :
  rc_hash_finalize (with_digest base_config length_digest) msg hash =
  (1, store hash (render_hex (le_bytes 16 (len msg)) ++ [x00])).
Proof. reflexivity. Qed.

Lemma len_big_snes_buffer : len big_snes_buffer = 67117568.
Proof. unfold big_snes_buffer. apply len_repeat. lia. Qed.

(** C7 (counterexample).  A buffer of 64 MiB + 8 KiB + 512 bytes has a size
    that is 512 modulo 8192, yet its fingerprint is not the digest of the
    buffer without its first 512 bytes for every digest function: only
    64 MiB are digested, so a digest that separates messages of different
    lengths gives two different fingerprints. *)
Lemma snes_big_buffer_is_capped :
  len big_snes_buffer mod 8192 = 512 /\
  ~ (forall cfg hash,
        rc_hash_snes cfg hash big_snes_buffer (len big_snes_buffer) =
        rc_hash_finalize cfg (drop 512 big_snes_buffer) hash).
Proof.
  split; [rewrite len_big_snes_buffer; reflexivity|].
  intros H. specialize (H (with_digest base_config length_digest) []).
  rewrite rc_hash_snes_capped in H by (rewrite len_big_snes_buffer; lia).
  rewrite len_big_snes_buffer in H.
  replace (67117568 mod 8192 =? 512) with true in H by reflexivity.
  rewrite !finalize_length_digest in H.
  rewrite len_take, !len_drop, len_big_snes_buffer in H by (unfold MAX_BUFFER_SIZE; lia).
  vm_compute in H. discriminate H.
Qed.

(* ===================================================================== *)
(** * Whole files and the cap *)
(* ===================================================================== *)

Lemma len_fresh cfg n : 0 <= n -> len (fresh cfg n) = n.
Proof. intros H. unfold len, fresh. rewrite length_map, length_seq. lia. Qed.

Lemma take_add a b l : 0 <= a -> 0 <= b -> take (a + b) l = take a l ++ take b (drop a l).
Proof.
  intros Ha Hb. unfold take, drop. rewrite Z2Nat.inj_add by lia.
  revert l. induction (Z.to_nat a) as [|n IH]; intros l; [reflexivity|].
  destruct l as [|x l]; cbn [Nat.add firstn skipn app].
  - rewrite firstn_nil. reflexivity.
  - rewrite IH. reflexivity.
Qed.

Lemma drop_drop a b l : 0 <= a -> 0 <= b -> drop b (drop a l) = drop (a + b) l.
Proof.
  intros Ha Hb. unfold drop. rewrite skipn_skipn. f_equal. lia.
Qed.

Lemma take_app_le n a b : n <= len a -> take n (a ++ b) = take n a.
Proof.
  intros H. unfold take, len in *. rewrite firstn_app.
  replace (Z.to_nat n - length a)%nat with 0%nat by lia.
  cbn [firstn]. apply app_nil_r.
Qed.

Lemma store_full buffer data : len buffer = len data -> store buffer data = data.
Proof.
  intros H. apply Nat2Z.inj in H. unfold store. rewrite <- H, skipn_all. apply app_nil_r.
Qed.

(** The chunk loop digests the next [65536 * (remaining / 65536)] bytes of
    the file, as long as the file has them. *)
Lemma whole_file_loop_spec fuel :
  forall f md5 buffer remaining,
    fuel = Z.to_nat (remaining / 65536) ->
    0 <= fpos f -> 0 <= remaining ->
    fpos f + remaining <= len (fdata f) ->
    len buffer = 65536 ->
    exists f' buffer',
      whole_file_loop fuel f md5 buffer remaining =
      (f', md5 ++ take (65536 * (remaining / 65536)) (drop (fpos f) (fdata f)),
       buffer', remaining mod 65536)
      /\ fdata f' = fdata f
      /\ fpos f' = fpos f + 65536 * (remaining / 65536).
Proof.
  induction fuel as [|fuel IH]; intros f md5 buffer remaining Hf Hp Hr Hl Hb.
  - assert (Q : remaining / 65536 = 0).
    { pose proof (Z.div_pos remaining 65536 Hr ltac:(lia)). lia. }
    exists f, buffer. cbn [whole_file_loop]. rewrite Q.
    assert (R : remaining mod 65536 = remaining).
    { pose proof (Z.div_mod remaining 65536 ltac:(lia)). lia. }
    rewrite R. change (65536 * 0) with 0. change (take 0 (drop (fpos f) (fdata f))) with (@nil byte).
    rewrite app_nil_r. repeat split. lia.
  - assert (Q : 1 <= remaining / 65536) by lia.
    assert (G : 65536 <= remaining).
    { pose proof (Z.div_mod remaining 65536 ltac:(lia)).
      pose proof (Z.mod_pos_bound remaining 65536 ltac:(lia)). nia. }
    cbn [whole_file_loop].
    destruct (Z.geb_spec remaining 65536) as [_|C]; [|lia].
    unfold rc_file_read.
    remember (take 65536 (drop (fpos f) (fdata f))) as data eqn:Hd.
    assert (Ld : len data = 65536).
    { rewrite Hd, len_take, len_drop by lia. lia. }
    assert (S1 : store buffer data = data).
    { apply store_full. rewrite Hb, Ld. reflexivity. }
    rewrite S1.
    assert (A : md5_append md5 data 65536 = md5 ++ data).
    { unfold md5_append. rewrite take_all by lia. reflexivity. }
    rewrite A.
    assert (D : (remaining - 65536) / 65536 = remaining / 65536 - 1).
    { replace remaining with ((remaining - 65536) + 1 * 65536) at 2 by lia.
      rewrite Z.div_add by lia. lia. }
    assert (Mo : (remaining - 65536) mod 65536 = remaining mod 65536).
    { replace remaining with ((remaining - 65536) + 1 * 65536) at 2 by lia.
      rewrite Z.mod_add by lia. reflexivity. }
    destruct (IH {| fdata := fdata f; fpos := fpos f + len data |} (md5 ++ data) data
                 (remaining - 65536)) as (f' & buffer' & E & F1 & F2);
      cbn [fdata fpos]; try lia.
    exists f', buffer'. rewrite E. cbn [fdata fpos] in *.
    rewrite D, Mo, Ld. repeat split; [|assumption|lia].
    f_equal. f_equal. f_equal.
    rewrite <- app_assoc. f_equal.
    replace (65536 * (remaining / 65536)) with (65536 + 65536 * (remaining / 65536 - 1))
      by lia.
    rewrite take_add by lia. rewrite Hd. f_equal.
    rewrite drop_drop by lia. reflexivity.
Qed.

(** A file of more than 64 MiB: the whole-file recipe digests its first
    64 MiB and closes it. *)
Lemma rc_hash_whole_file_capped cfg hash console_id path data w :
  files cfg (c_str path) = Some data ->
  MAX_BUFFER_SIZE < len data ->
  exists w',
    rc_hash_whole_file cfg hash console_id path w =
    (if malloc_ok cfg 65536
     then rc_hash_finalize cfg (take MAX_BUFFER_SIZE data) hash
     else (0, hash), w')
    /\ open_files w' = open_files w.
Proof.
  intros Hf Hl.
  assert (M : MAX_BUFFER_SIZE = 67108864) by reflexivity.
  assert (S1 : rc_file_seek {| fdata := data; fpos := 0 |} 0 SEEK_END
               = {| fdata := data; fpos := len data |}).
  { unfold rc_file_seek. cbn [fdata fpos]. rewrite Z.add_0_r.
    destruct (Z.ltb_spec (len data) 0); [pose proof (len_nonneg data); lia | reflexivity]. }
  unfold rc_hash_whole_file. cbv zeta. unfold rc_file_open. rewrite Hf.
  unfold bind at 1. unfold bind at 1. unfold files_delta at 1. unfold ret at 1.
  rewrite S1. unfold rc_file_tell. cbn [fpos].
  destruct (Z.gtb_spec (len data) MAX_BUFFER_SIZE) as [_|C]; [|lia].
  change (rc_file_seek {| fdata := data; fpos := len data |} 0 SEEK_SET)
    with {| fdata := data; fpos := 0 |}.
  destruct (malloc_ok cfg 65536).
  - destruct (whole_file_loop_spec (Z.to_nat (MAX_BUFFER_SIZE / 65536))
                {| fdata := data; fpos := 0 |} md5_init (fresh cfg 65536)
                MAX_BUFFER_SIZE eq_refl) as (f' & buffer' & E & F1 & F2);
      cbn [fdata fpos]; try lia.
    { apply len_fresh. lia. }
    rewrite E.
    replace (MAX_BUFFER_SIZE mod 65536 >? 0) with false by reflexivity.
    replace (65536 * (MAX_BUFFER_SIZE / 65536)) with MAX_BUFFER_SIZE by reflexivity.
    cbn [fdata fpos]. change (drop 0 data) with data.
    unfold bind, ret, rc_file_close, files_delta, md5_init. cbn [app].
    eexists. split; [reflexivity|]. cbn [open_files]. lia.
  - unfold bind, ret, rc_file_close, files_delta.
    eexists. split; [reflexivity|]. cbn [open_files]. lia.
Qed.

(** C8.  Two files of more than 64 MiB that agree on their first 64 MiB
    have the same result under the whole-file recipe, whatever follows the
    64 MiB prefix in either; and when the 64 KiB working buffer can be
    allocated that result is success, with the fingerprint of the first
    64 MiB: exceeding the cap truncates and does not fail. *)
Theorem whole_file_cap_idempotent :
  forall cfg f1 f2 hash console_id path d1 d2 w,
    f1 (c_str path) = Some d1 ->
    f2 (c_str path) = Some d2 ->
    MAX_BUFFER_SIZE < len d1 ->
    MAX_BUFFER_SIZE < len d2 ->
    take MAX_BUFFER_SIZE d1 = take MAX_BUFFER_SIZE d2 ->
    fst (rc_hash_whole_file (with_files cfg f1) hash console_id path w) =
    fst (rc_hash_whole_file (with_files cfg f2) hash console_id path w)
    /\
    (malloc_ok cfg 65536 = true ->
     fst (rc_hash_whole_file (with_files cfg f1) hash console_id path w) =
     rc_hash_finalize cfg (take MAX_BUFFER_SIZE d1) hash
     /\ fst (fst (rc_hash_whole_file (with_files cfg f1) hash console_id path w)) = 1).
Proof.
  intros cfg f1 f2 hash console_id path d1 d2 w H1 H2 L1 L2 E.
  destruct (rc_hash_whole_file_capped (with_files cfg f1) hash console_id path d1 w H1 L1)
    as (w1 & A1 & _).
  destruct (rc_hash_whole_file_capped (with_files cfg f2) hash console_id path d2 w H2 L2)
    as (w2 & A2 & _).
  cbn [malloc_ok with_files] in A1, A2.
  rewrite A1, A2, E. cbn [fst]. split.
  - reflexivity.
  - intros Hm. rewrite Hm. split; reflexivity.
Qed.

Lemma len_big_file : len big_file = 70000000.
Proof. unfold big_file. apply len_repeat. lia. Qed.

Lemma whole_file_cap_idempotent_witness :
  fst (rc_hash_whole_file (with_files base_config (fun _ => Some big_file))
         stars RC_CONSOLE_GAMEBOY (lit "game.gb") world0) =
  fst (rc_hash_whole_file (with_files base_config (fun _ => Some big_file_grown))
         stars RC_CONSOLE_GAMEBOY (lit "game.gb") world0)
  /\
  (malloc_ok base_config 65536 = true ->
   fst (rc_hash_whole_file (with_files base_config (fun _ => Some big_file))
          stars RC_CONSOLE_GAMEBOY (lit "game.gb") world0) =
   rc_hash_finalize base_config (take MAX_BUFFER_SIZE big_file) stars
   /\ fst (fst (rc_hash_whole_file (with_files base_config (fun _ => Some big_file))
                  stars RC_CONSOLE_GAMEBOY (lit "game.gb") world0)) = 1).
Proof.
  apply (whole_file_cap_idempotent base_config (fun _ => Some big_file)
           (fun _ => Some big_file_grown) stars RC_CONSOLE_GAMEBOY (lit "game.gb")
           big_file big_file_grown world0).
  - reflexivity.
  - reflexivity.
  - rewrite len_big_file. unfold MAX_BUFFER_SIZE. lia.
  - unfold big_file_grown. rewrite len_app, len_big_file. unfold MAX_BUFFER_SIZE, len.
    cbn [length]. lia.
  - unfold big_file_grown. symmetry. apply take_app_le.
    rewrite len_big_file. unfold MAX_BUFFER_SIZE. lia.
Defined.

(* ===================================================================== *)
(** * The ISO-9660 locator *)
(* ===================================================================== *)

Lemma byte_eqb_refl b : Byte.eqb b b = true.
Proof. apply Byte.byte_dec_lb. reflexivity. Qed.

Lemma byte_eqb_eq a b : Byte.eqb a b = true <-> a = b.
Proof.
  split; [apply Byte.byte_dec_bl | intros ->; apply byte_eqb_refl].
Qed.

Lemma byte_eqb_sym a b : Byte.eqb a b = Byte.eqb b a.
Proof.
  destruct (Byte.eqb a b) eqn:E.
  - apply byte_eqb_eq in E. subst. symmetry. apply byte_eqb_refl.
  - destruct (Byte.eqb b a) eqn:F; [|reflexivity].
    apply byte_eqb_eq in F. subst. rewrite byte_eqb_refl in E. discriminate.
Qed.

Lemma tolower_nul c : Byte.eqb (tolower c) x00 = Byte.eqb c x00.
Proof. destruct c; reflexivity. Qed.

Lemma c_str_nonzero s : Forall (fun c => Byte.eqb c x00 = false) (c_str s).
Proof.
  induction s as [|c r IH]; cbn [c_str]; [constructor|].
  destruct (Byte.eqb c x00) eqn:E; constructor; assumption.
Qed.

Lemma list_eqb_cons x y a b :
  list_eqb (x :: a) (y :: b) = Byte.eqb x y && list_eqb a b.
Proof.
  unfold list_eqb. cbn [length combine forallb fst snd Nat.eqb].
  destruct (Nat.eqb (length a) (length b)), (Byte.eqb x y); reflexivity.
Qed.

Lemma caseless_eq_cons x y a b :
  caseless_eq (x :: a) (y :: b) = Byte.eqb (tolower x) (tolower y) && caseless_eq a b.
Proof. unfold caseless_eq. cbn [map]. apply list_eqb_cons. Qed.

Lemma existsb_map_cons (p : list byte -> bool) (d : byte) l :
  existsb p (map (cons d) l) = existsb (fun t => p (d :: t)) l.
Proof. induction l as [|t l IH]; cbn [map existsb]; [reflexivity|]. rewrite IH. reflexivity. Qed.

Lemma existsb_and_const {A} (b : bool) (p : A -> bool) l :
  existsb (fun t => b && p t) l = b && existsb p l.
Proof.
  induction l as [|t l IH]; cbn [existsb]; [destruct b; reflexivity|].
  rewrite IH. destruct b, (p t); reflexivity.
Qed.

(** [strncasecmp] over the length of a name without NUL compares the name
    with as many characters of the other string, without regard to case. *)
Lemma strncasecmp_eq_caseless name :
  Forall (fun c => Byte.eqb c x00 = false) name ->
  forall s,
    strncasecmp_eq s name (length name) = caseless_eq name (firstn (length name) s).
Proof.
  induction 1 as [|c r Hc Hr IH]; intros s; [reflexivity|].
  cbn [length strncasecmp_eq hd tl].
  destruct s as [|d s']; cbn [hd tl firstn].
  - change (tolower x00) with x00.
    rewrite byte_eqb_sym, tolower_nul, Hc. reflexivity.
  - rewrite caseless_eq_cons, (byte_eqb_sym (tolower d)).
    destruct (Byte.eqb (tolower c) (tolower d)) eqn:E; cbn [negb andb]; [|reflexivity].
    apply byte_eqb_eq in E. rewrite <- E, tolower_nul, Hc. apply IH.
Qed.


(** The test the code makes on a record agrees with the wording of the
    specification. *)
Lemma match_test_trimmings name :
  Forall (fun c => Byte.eqb c x00 = false) name ->
  forall field,
    is_terminator (nth (length name) field x00)
    && caseless_eq name (firstn (length name) field)
    = existsb (caseless_eq name) (trimmings (c_str field)).
Proof.
  induction 1 as [|c r Hc Hr IH]; intros field.
  - cbn [length nth firstn]. rewrite andb_true_r.
    destruct field as [|d f]; [reflexivity|]. cbn [c_str nth].
    unfold is_terminator.
    destruct (Byte.eqb d x00) eqn:Z0; [rewrite orb_true_r; reflexivity|].
    rewrite orb_false_r. cbn [trimmings].
    destruct (Byte.eqb d ";") eqn:S0; [reflexivity|].
    cbn [app]. rewrite existsb_map_cons.
    induction (trimmings (c_str f)) as [|t l IHl]; [reflexivity|].
    cbn [existsb]. rewrite <- IHl. reflexivity.
  - cbn [length nth firstn].
    destruct field as [|d f].
    + cbn [nth firstn c_str trimmings existsb]. rewrite orb_false_r.
      destruct (is_terminator _); reflexivity.
    + cbn [nth firstn c_str]. rewrite caseless_eq_cons.
      destruct (Byte.eqb d x00) eqn:Z0.
      * apply byte_eqb_eq in Z0. subst d. change (tolower x00) with x00.
        rewrite tolower_nul, Hc. cbn [andb trimmings existsb].
        rewrite andb_false_r. reflexivity.
      * cbn [trimmings].
        assert (R : existsb (caseless_eq (c :: r)) (map (cons d) (trimmings (c_str f)))
                    = Byte.eqb (tolower c) (tolower d)
                      && existsb (caseless_eq r) (trimmings (c_str f))).
        { rewrite existsb_map_cons, <- existsb_and_const.
          induction (trimmings (c_str f)) as [|t l IHl]; [reflexivity|].
          cbn [existsb]. rewrite IHl, caseless_eq_cons. reflexivity. }
        rewrite existsb_app, R, <- IH.
        destruct (Byte.eqb d ";"); cbn [existsb orb];
          destruct (Byte.eqb (tolower c) (tolower d)),
                   (is_terminator (nth (length r) f x00)),
                   (caseless_eq r (firstn (length r) f)); reflexivity.
Qed.

Lemma byte_at_drop l a k :
  0 <= a -> 0 <= k -> byte_at l (a + k) = nth (Z.to_nat k) (drop a l) x00.
Proof.
  intros Ha Hk. unfold byte_at, drop.
  destruct (Z.ltb_spec (a + k) 0); [lia|].
  rewrite Z2Nat.inj_add by lia.
  generalize (Z.to_nat a) as n, (Z.to_nat k) as m. clear. intros n.
  revert l. induction n as [|n IH]; intros l m; [reflexivity|].
  destruct l as [|x l]; cbn [Nat.add nth skipn].
  - destruct m; reflexivity.
  - apply IH.
Qed.

(** The test of [find_record] at a record is [record_name_matches]. *)
Lemma find_record_test buffer name tmp :
  0 <= tmp ->
  (Byte.eqb (byte_at buffer (tmp + 33 + strlen name)) ";"
   || Byte.eqb (byte_at buffer (tmp + 33 + strlen name)) x00)
  && strncasecmp_eq (drop (tmp + 33) buffer) (c_str name) (Z.to_nat (strlen name))
  = record_name_matches buffer (c_str name) tmp.
Proof.
  intros H. unfold strlen, record_name_matches, record_name, len.
  rewrite byte_at_drop by lia. rewrite Nat2Z.id.
  rewrite strncasecmp_eq_caseless by apply c_str_nonzero.
  apply (match_test_trimmings (c_str name) (c_str_nonzero name)).
Qed.

Lemma u8_nonneg b : 0 <= u8 b.
Proof. unfold u8. lia. Qed.

(** The record loop returns the first record that matches. *)
Lemma find_record_first_match buffer name fuel :
  forall tmp,
    0 <= tmp ->
    find_record fuel buffer tmp (c_str name) (strlen name)
    = find (record_name_matches buffer (c_str name)) (record_offsets fuel buffer tmp).
Proof.
  induction fuel as [|fuel IH]; intros tmp H; [reflexivity|].
  cbn [find_record record_offsets].
  destruct (tmp <? 2048); [|reflexivity].
  destruct (Byte.eqb (byte_at buffer tmp) x00); [reflexivity|].
  cbn [andb negb find]. rewrite find_record_test by assumption.
  destruct (record_name_matches buffer (c_str name) tmp); [reflexivity|].
  apply IH. pose proof (u8_nonneg (byte_at buffer tmp)). lia.
Qed.

Lemma u32_idem z : u32 (u32 z) = u32 z.
Proof. unfold u32. apply Z.mod_mod. lia. Qed.

Lemma c_str_idem s : c_str (c_str s) = c_str s.
Proof.
  induction s as [|c r IH]; [reflexivity|]. cbn [c_str].
  destruct (Byte.eqb c x00) eqn:E; [reflexivity|]. cbn [c_str]. rewrite E, IH. reflexivity.
Qed.

(** What the locator does for a leaf name (one without a backslash) and a
    track handle that is not NULL: it reads 256 bytes of sector 16, takes
    bytes 156+2..156+4 as the little-endian sector of the root directory,
    reads that sector (translated by the hook) and returns the extent
    sector, bytes 2..4 little-endian and not translated, of the first
    record in which the given name, without regard to case, is followed by
    a [';'] or a NUL byte.  It returns 0 when a read delivers nothing,
    when no record passes that test, and when a record-length byte of zero
    ends the directory before one does. *)
Theorem iso_locator_leaf :
  forall cfg r rd tr h name w,
    cdreader cfg = Some r ->
    read_sector r = Some rd ->
    absolute_sector_to_track_sector r = Some tr ->
    h <> 0 ->
    strrchr name "\" = None ->
    let volume := take 256 (rd h 16 256) in
    let buffer := store (fresh cfg 2048) volume in
    let root := le24 buffer (156 + 2) in
    let translated := u32 (tr h (u32 root)) in
    let entries := take 2048 (rd h translated 2048) in
    let out := rc_cd_find_file_sector cfg h name w in
    fst (fst out) =
      (if (len volume =? 0) || (len entries =? 0) then 0
       else first_matching_extent (store buffer entries) (c_str name))
    /\
    sector_reads (snd out) =
      (if len volume =? 0 then [(h, 16, 256)]
       else [(h, translated, 2048); (h, 16, 256)]) ++ sector_reads w.
Proof.
  intros cfg r rd tr h name w Hc Hr Ht Hh Hs volume buffer root translated entries out.
  subst out. unfold rc_cd_find_file_sector.
  assert (E : forall fuel,
             rc_cd_find_file_sector_rec fuel cfg h name w =
             (data <- rc_cd_read_sector cfg h 16 256 ;;
              if len data =? 0 then ret (0, None)
              else
                rc_cd_find_in_directory cfg h (store (fresh cfg 2048) data)
                  (le24 (store (fresh cfg 2048) data) (156 + 2))
                  (c_str name) (strlen name)) w).
  { intros fuel. destruct fuel; cbn [rc_cd_find_file_sector_rec];
      destruct (Z.eqb_spec h 0); try contradiction; cbv zeta; rewrite Hs; reflexivity. }
  rewrite E. clear E.
  match goal with
  | |- fst (fst ?o) = ?s /\ sector_reads (snd ?o) = ?l =>
      assert (X : exists osize w', o = ((s, osize), w') /\ sector_reads w' = l)
  end.
  { unfold bind at 1. unfold rc_cd_read_sector at 1. rewrite Hc, Hr.
    unfold bind at 1. unfold log_sector_read at 1. unfold ret at 1.
    change (u32 16) with 16. fold volume.
    destruct (len volume =? 0) eqn:V; [do 2 eexists; split; reflexivity|].
    fold buffer. fold root.
    unfold rc_cd_find_in_directory.
    unfold bind at 1. unfold rc_cd_absolute_sector_to_track_sector at 1. rewrite Hc, Ht.
    unfold ret at 1. fold translated.
    unfold bind at 1. unfold rc_cd_read_sector at 1. rewrite Hc, Hr.
    unfold bind at 1. unfold log_sector_read at 1. unfold ret at 1.
    assert (U : u32 translated = translated) by (unfold translated; apply u32_idem).
    rewrite !U. fold entries.
    cbn [orb].
    destruct (len entries =? 0) eqn:D; [do 2 eexists; split; reflexivity|].
    cbv zeta. rewrite (find_record_first_match _ name 2048 0) by lia.
    unfold first_matching_extent, directory_records.
    destruct (find _ _); do 2 eexists; split; reflexivity. }
  destruct X as (osize & w' & -> & L). split; [reflexivity | exact L].
Qed.

Lemma iso_locator_leaf_witness :
  7 <> 0 /\ strrchr (lit "system.cnf") "\" = None /\
  fst (fst (rc_cd_find_file_sector psx_disc 7 (lit "system.cnf") world0)) = 21 /\
  sector_reads (snd (rc_cd_find_file_sector psx_disc 7 (lit "system.cnf") world0))
  = [(7, 20, 2048); (7, 16, 256)].
Proof.
  assert (H7 : 7 <> 0) by discriminate.
  assert (Hs : strrchr (lit "system.cnf") "\" = None) by reflexivity.
  split; [exact H7|]. split; [exact Hs|].
  destruct (iso_locator_leaf psx_disc psx_reader
              (fun h sector _ => psx_sectors h sector) (fun _ sector => sector)
              7 (lit "system.cnf") world0 eq_refl eq_refl eq_refl H7 Hs) as [A B].
  rewrite A, B. split; vm_compute; reflexivity.
Defined.

(** C4 (the code at the failing input).  The root directory lists BIN
    (three bytes of name, so no pad byte behind it) before DATA.  By the
    length byte of its record BIN is there, at sector 30; the locator never
    reads that byte: it asks for a [';'] or a NUL byte behind the name,
    finds the first byte of the next record instead, and returns 0 for BIN,
    and so for every file of that directory.  DATA, whose name is followed
    by its pad byte, is found. *)
Theorem iso_locator_misses_unpadded_name :
  take 2048 (plain_iso_sectors 7 20) = plain_iso_root /\
  iso_locate plain_iso_root (lit "BIN") = 30 /\
  fst (fst (rc_cd_find_file_sector plain_iso_disc 7 (lit "BIN") world0)) = 0 /\
  fst (fst (rc_cd_find_file_sector plain_iso_disc 7 (lit "BIN\GAME.DAT") world0)) = 0 /\
  iso_locate plain_iso_root (lit "DATA") = 31 /\
  fst (fst (rc_cd_find_file_sector plain_iso_disc 7 (lit "DATA") world0)) = 31.
Proof. repeat split; vm_compute; reflexivity. Qed.

(* ===================================================================== *)
(** * The executable of a PlayStation disc *)
(* ===================================================================== *)

Lemma u32_small z : 0 <= z < 4294967296 -> u32 z = z.
Proof. intros H. unfold u32. apply Z.mod_small. exact H. Qed.

Lemma rc_cd_read_sector_hook cfg r rd h sector n w :
  cdreader cfg = Some r -> read_sector r = Some rd ->
  fst (rc_cd_read_sector cfg h sector n w) = take n (rd h (u32 sector) n).
Proof.
  intros Hc Hr. unfold rc_cd_read_sector. rewrite Hc, Hr. reflexivity.
Qed.






Lemma c_str_length s : (length (c_str s) <= length s)%nat.
Proof.
  induction s as [|c r IH]; cbn [c_str]; [lia|].
  destruct (Byte.eqb c x00); cbn [length]; lia.
Qed.













(* ===================================================================== *)
(** * Playlists *)
(* ===================================================================== *)

Lemma lines_of_nonempty : forall t, lines_of t <> [].
Proof.
  induction t as [|c r IH]; cbn; [discriminate|].
  destruct (Byte.eqb c x0a); [discriminate|].
  destruct (lines_of r); discriminate.
Qed.

Lemma unlines_lines_of : forall t, unlines (lines_of t) = t.
Proof.
  induction t as [|c r IH]; [reflexivity|].
  cbn [lines_of]. destruct (Byte.eqb c x0a) eqn:E.
  - apply byte_eqb_eq in E. subst c.
    pose proof (lines_of_nonempty r) as N.
    cbn [unlines]. destruct (lines_of r) as [|l ls]; [contradiction|].
    rewrite IH. reflexivity.
  - pose proof (lines_of_nonempty r) as N.
    destruct (lines_of r) as [|l ls]; [contradiction|].
    cbn [unlines] in *. destruct ls; rewrite <- IH; reflexivity.
Qed.

Lemma lines_of_no_newline : forall t, Forall no_newline (lines_of t).
Proof.
  induction t as [|c r IH]; cbn [lines_of].
  - repeat constructor.
  - destruct (Byte.eqb c x0a) eqn:E.
    + constructor; [reflexivity | exact IH].
    + destruct (lines_of r) as [|l ls]; [repeat constructor; unfold no_newline; cbn; rewrite E; reflexivity|].
      inversion IH; subst. constructor; [|assumption].
      unfold no_newline in *. cbn. rewrite E. assumption.
Qed.

Lemma unlines_cons l ls : unlines (l :: ls) = l ++ rest_of ls.
Proof. destruct ls; cbn [unlines rest_of]; [rewrite app_nil_r|]; reflexivity. Qed.

Lemma skip_line_line l ls : no_newline l -> skip_line (l ++ rest_of ls) = unlines ls.
Proof.
  unfold no_newline. induction l as [|c l IH]; cbn [app skip_line forallb]; intros H.
  - destruct ls; reflexivity.
  - apply andb_prop in H. destruct H as [H1 H2].
    destruct (Byte.eqb c x0a); [discriminate|]. apply IH, H2.
Qed.

Lemma line_of_line l ls : no_newline l -> line_of (l ++ rest_of ls) = (l, rest_of ls).
Proof.
  unfold no_newline. induction l as [|c l IH]; cbn [app line_of forallb]; intros H.
  - destruct ls; reflexivity.
  - apply andb_prop in H. destruct H as [H1 H2].
    destruct (Byte.eqb c x0a); [discriminate|]. rewrite (IH H2). reflexivity.
Qed.

Lemma skip_line_length t : (length (skip_line t) <= length t)%nat.
Proof.
  induction t as [|c r IH]; cbn [skip_line length]; [constructor|].
  destruct (Byte.eqb c x0a); [repeat constructor | apply le_S, IH].
Qed.

(** The loop that skips comments needs no more rounds than the text has
    bytes. *)
Lemma skip_comments_fuel : forall n m t,
  (length t <= n)%nat -> (length t <= m)%nat -> skip_comments n t = skip_comments m t.
Proof.
  induction n as [|n IH]; intros m t Hn Hm.
  - destruct t; [|inversion Hn]. destruct m; reflexivity.
  - destruct m as [|m].
    + destruct t; [reflexivity | inversion Hm].
    + cbn [skip_comments]. destruct t as [|c r]; [reflexivity|].
      destruct (Byte.eqb c "#" || Byte.eqb c x0d || Byte.eqb c x0a); [|reflexivity].
      pose proof (skip_line_length (c :: r)) as L.
      assert (L' : (length (skip_line (c :: r)) <= length r)%nat).
      { cbn [skip_line]. destruct (Byte.eqb c x0a); [constructor | apply skip_line_length]. }
      cbn [length] in Hn, Hm. apply le_S_n in Hn. apply le_S_n in Hm.
      apply IH; eapply Nat.le_trans; eauto.
Qed.

Lemma first_playlist_line_skip f t t' :
  skip_comments (length t) t = skip_comments (length t') t' ->
  first_playlist_line (S f) t = first_playlist_line (S f) t'.
Proof. intros H. cbn [first_playlist_line]. rewrite H. reflexivity. Qed.

(** A line that begins with '#', with a carriage return, or that is empty
    and followed by another, is passed over. *)
Lemma first_playlist_line_skipped f l ls :
  no_newline l ->
  match l with
  | [] => ls <> []
  | c :: _ => Byte.eqb c "#" || Byte.eqb c x0d = true
  end ->
  first_playlist_line (S f) (unlines (l :: ls)) = first_playlist_line (S f) (unlines ls).
Proof.
  intros N H. rewrite unlines_cons. apply first_playlist_line_skip.
  assert (S : skip_comments (length (l ++ rest_of ls)) (l ++ rest_of ls)
              = skip_comments (Nat.pred (length (l ++ rest_of ls))) (unlines ls)).
  { destruct l as [|c l].
    - destruct ls as [|l2 ls]; [contradiction|]. reflexivity.
    - cbn [app length skip_comments Nat.pred].
      rewrite H. cbn [orb].
      change (c :: l ++ rest_of ls) with ((c :: l) ++ rest_of ls).
      rewrite (skip_line_line _ _ N). reflexivity. }
  rewrite S. apply skip_comments_fuel; [|constructor].
  pose proof (skip_line_length (l ++ rest_of ls)) as L.
  rewrite (skip_line_line _ _ N) in L.
  destruct l as [|c l].
  - destruct ls; [contradiction|]. cbn [app rest_of length Nat.pred]. constructor.
  - cbn [app length Nat.pred].
    cbn [app skip_line] in L.
    unfold no_newline in N. cbn [forallb] in N. apply andb_prop in N. destruct N as [N1 N2].
    destruct (Byte.eqb c x0a); [discriminate|].
    pose proof (skip_line_length (l ++ rest_of ls)) as L2.
    rewrite (skip_line_line _ _ N2) in L2. exact L2.
Qed.

Lemma drop_spaces_nil l : drop_spaces l = [] <-> forallb isspace l = true.
Proof.
  induction l as [|c l IH]; cbn [drop_spaces forallb]; [tauto|].
  destruct (isspace c); cbn [andb]; [exact IH|].
  split; discriminate.
Qed.

Lemma forallb_rev {A} (p : A -> bool) l : forallb p (rev l) = forallb p l.
Proof.
  induction l as [|c l IH]; [reflexivity|].
  cbn [rev forallb]. rewrite forallb_app, IH. cbn [forallb].
  rewrite andb_true_r. apply andb_comm.
Qed.

Lemma strip_trailing_blank l : (len (strip_trailing l) =? 0) = is_blank l.
Proof.
  unfold strip_trailing, is_blank, len. rewrite length_rev.
  rewrite <- (forallb_rev isspace l).
  destruct (drop_spaces (rev l)) as [|c r] eqn:E.
  - apply drop_spaces_nil in E. rewrite E. reflexivity.
  - destruct (forallb isspace (rev l)) eqn:F.
    + apply drop_spaces_nil in F. congruence.
    + cbn [length]. apply Z.eqb_neq. lia.
Qed.

(** A line that begins with none of '#', carriage return and newline is
    where the loop that skips comments stops. *)
Lemma skip_comments_stops n c t :
  Byte.eqb c "#" || Byte.eqb c x0d || Byte.eqb c x0a = false ->
  skip_comments n (c :: t) = c :: t.
Proof. intros H. destruct n; cbn [skip_comments]; [|rewrite H]; reflexivity. Qed.

(** The loop of the code finds the first entry of the specification, when
    no line with more than whitespace on it starts with a carriage
    return. *)
Lemma first_playlist_line_lines : forall ls,
  ls <> [] -> Forall no_newline ls ->
  forallb (fun l => negb (starts_with_cr l) || is_blank l) ls = true ->
  forall fuel, (length (unlines ls) < fuel)%nat ->
  first_playlist_line fuel (unlines ls) = first_entry_of ls.
Proof.
  induction ls as [|l ls IH]; [congruence|].
  intros _ N C fuel F.
  inversion N as [|? ? Nl Nls]; subst.
  cbn [forallb] in C. apply andb_prop in C. destruct C as [Cl Cls].
  destruct fuel as [|f]; [inversion F|].
  assert (Fls : (length (unlines ls) < S f)%nat).
  { rewrite unlines_cons, length_app in F.
    destruct ls; cbn [rest_of unlines length] in *; lia. }
  assert (Skip : is_blank l || is_comment l = true ->
                 first_entry_of (l :: ls) = first_entry_of ls).
  { intros B. unfold first_entry_of. cbn [filter].
    destruct (is_blank l), (is_comment l); try discriminate; reflexivity. }
  destruct l as [|c l].
  - (* an empty line *)
    destruct ls as [|l2 ls].
    + reflexivity.
    + rewrite first_playlist_line_skipped; [|exact Nl|discriminate].
      rewrite Skip by reflexivity. apply IH; [discriminate|assumption..].
  - destruct (Byte.eqb c "#" || Byte.eqb c x0d) eqn:E.
    + (* a comment, or a line that starts with a carriage return *)
      rewrite first_playlist_line_skipped; [|exact Nl|exact E].
      rewrite Skip.
      2:{ cbn [is_comment starts_with_cr] in *.
          destruct (Byte.eqb c "#"); [apply orb_true_r|].
          cbn [orb] in E. rewrite E in Cl. cbn [negb orb] in Cl. rewrite Cl. reflexivity. }
      destruct ls as [|l2 ls]; [reflexivity|].
      apply IH; [discriminate|assumption..].
    + (* a line of the playlist *)
      assert (Nc : Byte.eqb c x0a = false).
      { unfold no_newline in Nl. cbn [forallb] in Nl. apply andb_prop in Nl.
        destruct Nl as [Nl _]. destruct (Byte.eqb c x0a); [discriminate|reflexivity]. }
      rewrite unlines_cons in *. cbn [first_playlist_line].
      change ((c :: l) ++ rest_of ls) with (c :: l ++ rest_of ls).
      rewrite skip_comments_stops by (rewrite E, Nc; reflexivity).
      change (c :: l ++ rest_of ls) with ((c :: l) ++ rest_of ls).
      rewrite (line_of_line _ _ Nl), strip_trailing_blank.
      unfold first_entry_of. cbn [filter].
      assert (Cm : is_comment (c :: l) = false).
      { cbn [is_comment]. destruct (Byte.eqb c "#"); [discriminate|reflexivity]. }
      rewrite Cm. destruct (is_blank (c :: l)) eqn:B; cbn [negb andb]; [|reflexivity].
      destruct ls as [|l2 ls]; [reflexivity|].
      cbn [rest_of].
      assert (F2 : (length (unlines (l2 :: ls)) < f)%nat).
      { rewrite length_app in F. cbn [rest_of length] in F. lia. }
      apply (IH ltac:(discriminate) Nls Cls f F2).
Qed.

Lemma first_playlist_line_entry text :
  cr_lines_blank text = true ->
  first_playlist_line (S (length text)) text = playlist_first_entry text.
Proof.
  intros C. unfold playlist_first_entry.
  rewrite <- (unlines_lines_of text) at 1 2.
  apply first_playlist_line_lines.
  - apply lines_of_nonempty.
  - apply lines_of_no_newline.
  - exact C.
  - constructor.
Qed.

(** Opening a file and closing it leaves the count of open handles. *)
Lemma files_delta_round w :
  snd (files_delta (-1) (snd (files_delta 1 w))) = w.
Proof.
  destruct w as [f t e s]. unfold files_delta. cbn [snd open_files open_tracks errors sector_reads].
  f_equal. lia.
Qed.

(** What [rc_hash_get_first_item_from_playlist] returns for a playlist
    whose first entry lies within the 1023 bytes it reads. *)
Lemma rc_hash_get_first_item_from_playlist_entry cfg path data entry w :
  files cfg (c_str path) = Some data ->
  cr_lines_blank (c_str (take 1023 data)) = true ->
  playlist_first_entry (c_str (take 1023 data)) = Some entry ->
  malloc_ok cfg (entry_allocation path entry) = true ->
  rc_hash_get_first_item_from_playlist cfg path w = (Some (resolve_entry path entry), w).
Proof.
  intros F C E A.
  unfold rc_hash_get_first_item_from_playlist, rc_file_open. rewrite F.
  unfold bind, ret, rc_file_read, rc_file_close.
  pose proof (files_delta_round w) as R.
  destruct (files_delta 1 w) as [u w1]. cbn [snd] in R.
  destruct (files_delta (-1) w1) as [u' w2]. cbn [snd] in R. subst w2.
  cbn [fdata fpos]. change (drop 0 data) with data. change (1024 - 1) with 1023.
  rewrite (first_playlist_line_entry _ C), E.
  unfold entry_allocation in A. rewrite A.
  unfold resolve_entry. destruct (rc_hash_path_is_absolute entry); reflexivity.
Qed.

(** An extension the code accepts starts, caseless, as the path's last
    bytes do. *)
Lemma rc_path_compare_extension_first s e es :
  rc_path_compare_extension s 0 (e :: es) <> 0 ->
  tolower e = e ->
  tolower (byte_at s (0 + strlen (drop 0 s) - len (e :: es))) = e.
Proof.
  unfold rc_path_compare_extension. cbv zeta. intros H L.
  destruct (negb (Byte.eqb (byte_at s (0 + strlen (drop 0 s) - len (e :: es) - 1)) "."));
    [congruence|].
  destruct (mem_eq s (0 + strlen (drop 0 s) - len (e :: es)) (e :: es)) eqn:M.
  - unfold mem_eq in M. cbn [length seq forallb nth] in M.
    apply andb_prop in M. destruct M as [M _].
    apply byte_eqb_eq in M. rewrite Z.add_0_r in M. rewrite M. exact L.
  - destruct (Z.to_nat (len (e :: es))); cbn [compare_extension_loop hd] in H.
    all: destruct (Byte.eqb (tolower (byte_at s (0 + strlen (drop 0 s) - len (e :: es)))) e)
           eqn:T; cbn [negb] in H; [apply byte_eqb_eq, T | congruence].
Qed.

Lemma is_ext_m3u_exclusive s :
  is_ext s 0 "m3u" = true -> is_ext s 0 "cue" = false /\ is_ext s 0 "chd" = false.
Proof.
  unfold is_ext. intros H.
  apply negb_true_iff, Z.eqb_neq in H.
  apply (rc_path_compare_extension_first s "m" (lit "3u")) in H; [|reflexivity].
  split; apply negb_false_iff, Z.eqb_eq.
  all: match goal with |- ?x = 0 => destruct (Z.eq_dec x 0) as [|N]; [assumption|] end.
  - apply (rc_path_compare_extension_first s "c" (lit "ue")) in N; [|reflexivity].
    change (len ("c"%byte :: lit "ue")) with (len ("m"%byte :: lit "3u")) in N.
    rewrite H in N. discriminate.
  - apply (rc_path_compare_extension_first s "c" (lit "hd")) in N; [|reflexivity].
    change (len ("c"%byte :: lit "hd")) with (len ("m"%byte :: lit "3u")) in N.
    rewrite H in N. discriminate.
Qed.

(** For a console that looks for playlists, a path that ends in ".m3u" is
    handed to [rc_hash_generate_from_playlist]. *)
Lemma rc_hash_generate_from_file_playlist fuel cfg hash console_id path :
  one_of console_id playlist_consoles = true ->
  is_ext (c_str path) 0 "m3u" = true ->
  rc_hash_generate_from_file (S fuel) cfg hash console_id path =
  rc_hash_generate_from_playlist cfg hash path
    (rc_hash_generate_from_file fuel cfg hash console_id).
Proof.
  intros C E.
  destruct (is_ext_m3u_exclusive _ E) as [E1 E2].
  unfold one_of, playlist_consoles in C. cbn [existsb] in C.
  repeat match type of C with
         | (_ =? _) || _ = true =>
             apply orb_prop in C; destruct C as [C|C]; [apply Z.eqb_eq in C|]
         end; try discriminate.
  all: subst console_id; cbn [rc_hash_generate_from_file]; cbv zeta.
  all: rewrite ?E1, ?E2, E; reflexivity.
Qed.

(** C5 (amended).  For a console that supports playlists and a path that
    ends in ".m3u" and can be opened: when the text the code reads from the
    file (its first 1023 bytes, up to a NUL byte) has no line that starts
    with a carriage return and holds more than whitespace, its first
    non-blank, non-'#' line, with trailing whitespace stripped and resolved
    against the playlist's directory when not absolute, names X, and the
    allocation for X succeeds, then hashing the playlist is hashing X under
    the same console: the same result and the same fingerprint.  (The
    equation also covers what the model records of the world: the error
    sink, the sector reads and the open handles.  What goes to the verbose
    sink is not part of it: there the playlist call reports the playlist
    and the entry it took from it, which hashing X does not.) *)
Theorem playlist_transparency :
  forall fuel cfg hash console_id path data entry w,
    one_of console_id playlist_consoles = true ->
    is_ext (c_str path) 0 "m3u" = true ->
    files cfg (c_str path) = Some data ->
    cr_lines_blank (c_str (take 1023 data)) = true ->
    playlist_first_entry (c_str (take 1023 data)) = Some entry ->
    malloc_ok cfg (entry_allocation path entry) = true ->
    rc_hash_generate_from_file (S fuel) cfg hash console_id path w =
    rc_hash_generate_from_file fuel cfg hash console_id (resolve_entry path entry) w.
Proof.
  intros fuel cfg hash console_id path data entry w C E F B P A.
  rewrite (rc_hash_generate_from_file_playlist fuel cfg hash console_id path C E).
  unfold rc_hash_generate_from_playlist. unfold bind at 1.
  rewrite (rc_hash_get_first_item_from_playlist_entry cfg path data entry w F B P A).
  reflexivity.
Qed.

(** The playlist "roms/game.m3u" holds a comment, an empty line and the
    entry "game.rom" followed by two spaces: hashing it for the MSX is
    hashing "roms/game.rom", which succeeds. *)
Lemma playlist_transparency_witness :
  resolve_entry (lit "roms/game.m3u") (lit "game.rom") = lit "roms/game.rom" /\
  rc_hash_generate_from_file 2 playlist_files stars RC_CONSOLE_MSX (lit "roms/game.m3u") world0
  = rc_hash_generate_from_file 1 playlist_files stars RC_CONSOLE_MSX (lit "roms/game.rom") world0 /\
  fst (rc_hash_generate_from_file 1 playlist_files stars RC_CONSOLE_MSX
         (lit "roms/game.rom") world0)
  = Some (1, lit "ec11aea0501a4c68d89e47d243aaa1eb" ++ [x00]).
Proof.
  split; [vm_compute; reflexivity|]. split; [|vm_compute; reflexivity].
  change (lit "roms/game.rom") with (resolve_entry (lit "roms/game.m3u") (lit "game.rom")).
  apply (playlist_transparency 1 playlist_files stars RC_CONSOLE_MSX (lit "roms/game.m3u")
           (lit "# disc 1" ++ [x0d; x0a; x0a] ++ lit "game.rom  " ++ [x0d; x0a])
           (lit "game.rom") world0); vm_compute; reflexivity.
Defined.

(** C5 (counterexample).  The playlist "roms/long.m3u" is a comment of 1101
    bytes followed by the line "game.rom": that line is its first non-blank,
    non-'#' line and names "roms/game.rom".  Hashing the image for the MSX
    succeeds; hashing the playlist fails, since the entry lies beyond the
    1023 bytes read from the playlist. *)
Lemma playlist_entry_beyond_buffer :
  exists data,
    files playlist_files (c_str (lit "roms/long.m3u")) = Some data /\
    is_ext (c_str (lit "roms/long.m3u")) 0 "m3u" = true /\
    one_of RC_CONSOLE_MSX playlist_consoles = true /\
    playlist_first_entry data = Some (lit "game.rom") /\
    resolve_entry (lit "roms/long.m3u") (lit "game.rom") = lit "roms/game.rom" /\
    rc_hash_generate_from_file 2 playlist_files stars RC_CONSOLE_MSX
      (lit "roms/long.m3u") world0
    = (Some (0, stars),
       {| open_files := 0; open_tracks := 0;
          errors := ["Failed to get first item from playlist"%string];
          sector_reads := [] |}) /\
    rc_hash_generate_from_file 2 playlist_files stars RC_CONSOLE_MSX
      (lit "roms/game.rom") world0
    = (Some (1, lit "ec11aea0501a4c68d89e47d243aaa1eb" ++ [x00]), world0).
Proof.
  eexists. split; [vm_compute; reflexivity|].
  repeat split; vm_compute; reflexivity.
Qed.

(* ===================================================================== *)
(** * Playlists without an entry *)
(* ===================================================================== *)

Lemma first_entry_of_none ls :
  first_entry_of ls = None <-> Forall (fun l => no_entry l = true) ls.
Proof.
  unfold first_entry_of, no_entry. induction ls as [|l ls IH]; cbn [filter].
  - split; [constructor | reflexivity].
  - destruct (is_blank l || is_comment l) eqn:B.
    + replace (negb (is_blank l) && negb (is_comment l)) with false
        by (destruct (is_blank l), (is_comment l); try reflexivity; discriminate).
      rewrite IH. split; [intros H; constructor; assumption
                         | intros H; inversion H; assumption].
    + replace (negb (is_blank l) && negb (is_comment l)) with true
        by (destruct (is_blank l), (is_comment l); try reflexivity; discriminate).
      split; [discriminate | intros H; inversion H; congruence].
Qed.

(** What is cut from the end of a line that is no entry leaves a line that
    is no entry. *)
Lemma no_entry_prefix l x : no_entry (l ++ x) = true -> no_entry l = true.
Proof.
  unfold no_entry, is_blank. rewrite forallb_app. destruct l as [|c l].
  - reflexivity.
  - cbn [app is_comment]. destruct (Byte.eqb c "#"); [rewrite !orb_true_r; reflexivity|].
    rewrite !orb_false_r. intros H. apply andb_prop in H. apply H.
Qed.

Lemma lines_of_cons c r :
  Byte.eqb c x0a = false ->
  lines_of (c :: r) = (c :: hd [] (lines_of r)) :: tl (lines_of r).
Proof.
  intros E. cbn [lines_of]. rewrite E.
  pose proof (lines_of_nonempty r). destruct (lines_of r); [contradiction | reflexivity].
Qed.

(** The lines of the start of a text are lines of the text, the last of
    them cut short. *)
Lemma lines_of_prefix_no_entry : forall p q pre,
  no_entry (pre ++ hd [] (lines_of (p ++ q))) = true ->
  Forall (fun l => no_entry l = true) (tl (lines_of (p ++ q))) ->
  no_entry (pre ++ hd [] (lines_of p)) = true /\
  Forall (fun l => no_entry l = true) (tl (lines_of p)).
Proof.
  induction p as [|c p IH]; intros q pre H T.
  - cbn [lines_of hd tl]. split; [|constructor].
    rewrite app_nil_r. apply (no_entry_prefix _ _ H).
  - destruct (Byte.eqb c x0a) eqn:E.
    + cbn [app lines_of hd tl] in *. rewrite E in *. cbn [hd tl] in *.
      split; [exact H|].
      pose proof (lines_of_nonempty (p ++ q)) as N1.
      pose proof (lines_of_nonempty p) as N2.
      destruct (lines_of (p ++ q)) as [|l1 ls1] eqn:L1; [contradiction|].
      inversion T as [|? ? T1 T2]; subst.
      destruct (IH q [] ltac:(rewrite L1; exact T1) ltac:(rewrite L1; exact T2)) as [A B].
      destruct (lines_of p); [contradiction|]. constructor; assumption.
    + cbn [app] in H, T.
      rewrite (lines_of_cons c (p ++ q) E) in H, T. rewrite (lines_of_cons c p E).
      cbn [hd tl] in *.
      assert (A : forall x, pre ++ c :: x = (pre ++ [c]) ++ x)
        by (intros x; rewrite <- app_assoc; reflexivity).
      rewrite A in *. apply (IH q (pre ++ [c]) H T).
Qed.

Lemma playlist_first_entry_prefix p q :
  playlist_first_entry (p ++ q) = None -> playlist_first_entry p = None.
Proof.
  unfold playlist_first_entry. rewrite !first_entry_of_none. intros H.
  pose proof (lines_of_nonempty (p ++ q)) as N1.
  pose proof (lines_of_nonempty p) as N2.
  destruct (lines_of (p ++ q)) as [|l1 ls1] eqn:L1; [contradiction|].
  inversion H as [|? ? H1 H2]; subst.
  destruct (lines_of_prefix_no_entry p q [] ltac:(rewrite L1; exact H1)
              ltac:(rewrite L1; exact H2)) as [A B].
  destruct (lines_of p); [contradiction|]. constructor; assumption.
Qed.

Lemma c_str_prefix s : exists q, s = c_str s ++ q.
Proof.
  induction s as [|c r [q IH]]; [exists []; reflexivity|].
  cbn [c_str]. destruct (Byte.eqb c x00).
  - exists (c :: r). reflexivity.
  - exists q. cbn [app]. rewrite <- IH. reflexivity.
Qed.

(** A text without an entry has no line with more than whitespace on it that
    starts with a carriage return. *)
Lemma no_entry_cr_lines_blank text :
  playlist_first_entry text = None -> cr_lines_blank text = true.
Proof.
  unfold playlist_first_entry, cr_lines_blank. rewrite first_entry_of_none.
  intros H. apply forallb_forall. intros l Hl.
  rewrite Forall_forall in H. specialize (H l Hl).
  unfold no_entry in H. destruct (is_blank l); [apply orb_true_r|].
  destruct l as [|c l]; [reflexivity|].
  cbn [orb is_comment starts_with_cr] in *. apply byte_eqb_eq in H. subst c. reflexivity.
Qed.

Lemma playlist_unresolved_none cfg path_arg w :
  playlist_unresolved cfg path_arg ->
  fst (rc_hash_get_first_item_from_playlist cfg path_arg w) = None.
Proof.
  intros [H | (data & H & L)];
    unfold rc_hash_get_first_item_from_playlist, rc_file_open, bind; rewrite H.
  - reflexivity.
  - unfold files_delta, rc_file_read, rc_file_close, files_delta, ret.
    cbn [fdata fpos]. change (1024 - 1) with 1023.
    change (drop 0 data) with data. cbv beta iota zeta.
    assert (P : playlist_first_entry (c_str (take 1023 data)) = None).
    { destruct (c_str_prefix (take 1023 data)) as [q Q].
      apply (playlist_first_entry_prefix _ (q ++ drop 1023 data)).
      rewrite app_assoc, <- Q. unfold take, drop. rewrite firstn_skipn. exact L. }
    rewrite (first_playlist_line_entry _ (no_entry_cr_lines_blank _ P)), P. reflexivity.
Qed.

(** C10.  When the path has the extension [m3u] and the first entry of the
    playlist cannot be resolved, [rc_hash_initialize_iterator] returns an
    iterator without any candidate (the Game Boy default is not applied),
    and [rc_hash_iterate] on it writes the empty string and returns failure
    at once: it calls no recipe and leaves the world as it is. *)
Theorem unresolved_playlist_leaves_no_candidates :
  forall fuel cfg path_arg buffer_arg buffer_size_arg w,
    path_is_m3u path_arg = true ->
    playlist_unresolved cfg path_arg ->
    exists it w',
      rc_hash_initialize_iterator fuel cfg path_arg buffer_arg buffer_size_arg w
      = (Some it, w') /\
      consoles it = repeat 0 12 /\
      candidates it = [] /\
      forall fuel' hash,
        rc_hash_iterate fuel' cfg hash it w' = (Some (0, store hash [x00], it), w').
Proof.
  intros fuel cfg path_arg buffer_arg buffer_size_arg w Hm Hu.
  pose proof (playlist_unresolved_none cfg path_arg w Hu) as Hn.
  destruct (rc_hash_get_first_item_from_playlist cfg path_arg w) as [o w'] eqn:E.
  cbn [fst] in Hn. subst o.
  exists {| buffer := buffer_arg; buffer_size := buffer_size_arg;
            consoles := repeat 0 12; index := 0; path := None |}, w'.
  split; [|split; [reflexivity | split; [reflexivity|]]].
  - unfold rc_hash_initialize_iterator. cbv zeta. unfold bind at 1.
    destruct fuel; cbn [rc_hash_initialize_iterator_loop]; rewrite Hm;
      unfold bind at 1; rewrite E; reflexivity.
  - intros fuel' hash. reflexivity.
Qed.

Lemma unresolved_playlist_leaves_no_candidates_witness :
  exists it w',
    rc_hash_initialize_iterator 3 empty_playlist (lit "disc.m3u") None 0 world0
    = (Some it, w') /\
    consoles it = repeat 0 12 /\
    candidates it = [] /\
    forall fuel' hash,
      rc_hash_iterate fuel' empty_playlist hash it w'
      = (Some (0, store hash [x00], it), w').
Proof.
  apply (unresolved_playlist_leaves_no_candidates 3 empty_playlist (lit "disc.m3u")
           None 0 world0).
  - vm_compute. reflexivity.
  - right. exists (lit "# no discs" ++ [x0d; x0a; x0a]). split; vm_compute; reflexivity.
Defined.

(* ===================================================================== *)
(** * Paths *)
(* ===================================================================== *)

Lemma c_str_no_nul s : no_nul s = true -> c_str s = s.
Proof.
  unfold no_nul. induction s as [|c r IH]; [reflexivity|].
  cbn [forallb c_str]. intros H. apply andb_prop in H. destruct H as [H1 H2].
  destruct (Byte.eqb c x00); [discriminate|]. rewrite (IH H2). reflexivity.
Qed.

Lemma strlen_no_nul s : no_nul s = true -> strlen s = len s.
Proof. intros H. unfold strlen. rewrite (c_str_no_nul _ H). reflexivity. Qed.

Lemma byte_at_app_l a b i : 0 <= i < len a -> byte_at (a ++ b) i = byte_at a i.
Proof.
  unfold byte_at, len. intros H.
  destruct (i <? 0) eqn:E; [apply Z.ltb_lt in E; lia|].
  apply app_nth1. lia.
Qed.

Lemma byte_at_app_r a b i : len a <= i -> byte_at (a ++ b) i = byte_at b (i - len a).
Proof.
  unfold byte_at, len. intros H.
  destruct (i <? 0) eqn:E; [apply Z.ltb_lt in E; lia|].
  destruct (i - Z.of_nat (length a) <? 0) eqn:F; [apply Z.ltb_lt in F; lia|].
  rewrite app_nth2 by lia. f_equal. lia.
Qed.

Lemma byte_at_forallb p s i :
  forallb p s = true -> 0 <= i < len s -> p (byte_at s i) = true.
Proof.
  unfold byte_at, len. intros H I.
  destruct (i <? 0) eqn:E; [apply Z.ltb_lt in E; lia|].
  rewrite forallb_forall in H. apply H, nth_In. lia.
Qed.

Lemma byte_at_last p s :
  s <> [] -> ends_with p s = true -> p (byte_at s (len s - 1)) = true.
Proof.
  unfold ends_with, byte_at, len. intros N H.
  destruct (Z.of_nat (length s) - 1 <? 0) eqn:E.
  { apply Z.ltb_lt in E. destruct s; [contradiction | cbn [length] in E; lia]. }
  destruct (rev s) as [|c r] eqn:R.
  { apply (f_equal (@rev byte)) in R. rewrite rev_involutive in R. contradiction. }
  replace s with (rev r ++ [c]).
  2:{ rewrite <- (rev_involutive s), R. reflexivity. }
  rewrite length_app. cbn [length]. rewrite app_nth2 by lia.
  replace (Z.to_nat _ - length (rev r))%nat with 0%nat by lia. exact H.
Qed.

Lemma get_filename_loop_spec dir file :
  ends_with is_separator dir = true -> no_separator file = true ->
  forall k fuel, (k <= fuel)%nat -> (k <= length file)%nat -> (dir <> [] \/ (1 <= k)%nat) ->
  get_filename_loop fuel (dir ++ file) 0 (len dir + Z.of_nat k) = len dir.
Proof.
  intros D F. induction k as [|k IH]; intros fuel Hf Hk Hd.
  - destruct Hd as [Hd|Hd]; [|lia]. rewrite Z.add_0_r.
    destruct fuel; cbn [get_filename_loop].
    all: rewrite byte_at_app_l
      by (unfold len; destruct dir; [contradiction | cbn [length]; lia]).
    all: rewrite (byte_at_last _ _ Hd D); reflexivity.
  - destruct fuel as [|fuel]; [lia|]. cbn [get_filename_loop].
    rewrite byte_at_app_r by lia.
    replace (len dir + Z.of_nat (S k) - 1 - len dir) with (Z.of_nat k) by lia.
    assert (N : is_separator (byte_at file (Z.of_nat k)) = false).
    { apply negb_true_iff. apply (byte_at_forallb (fun c => negb (is_separator c)) _ _ F).
      unfold len. lia. }
    rewrite N.
    replace (len dir + Z.of_nat (S k) - 1) with (len dir + Z.of_nat k) by lia.
    pose proof (len_nonneg dir) as L.
    destruct (len dir + Z.of_nat k >? 0) eqn:G.
    + apply IH; [lia | lia |]. apply Z.gtb_lt in G.
      destruct dir; [right; unfold len in G; cbn [length] in G; lia | left; discriminate].
    + rewrite Z.gtb_ltb in G. apply Z.ltb_ge in G. lia.
Qed.

(** [rc_path_get_filename] returns the part of a path behind its last
    separator, the whole path when it has none: for a path made of [dir],
    which is empty or ends in a slash or a backslash, and [file], which
    holds neither, the file name starts right behind [dir]. *)
Theorem rc_path_get_filename_last_separator :
  forall dir file,
    dir ++ file <> [] -> no_nul (dir ++ file) = true ->
    ends_with is_separator dir = true -> no_separator file = true ->
    rc_path_get_filename (dir ++ file) 0 = len dir.
Proof.
  intros dir file N Z D F. unfold rc_path_get_filename.
  change (drop 0 (dir ++ file)) with (dir ++ file).
  rewrite (strlen_no_nul _ Z), len_app.
  replace (0 + (len dir + len file) - 0) with (len dir + len file) by lia.
  replace (0 + (len dir + len file)) with (len dir + Z.of_nat (length file))
    by (unfold len; lia).
  apply (get_filename_loop_spec dir file D F).
  - unfold len. lia.
  - lia.
  - destruct dir; [right | left; discriminate].
    destruct file; [contradiction | cbn [length]; lia].
Qed.

Lemma rc_path_get_filename_last_separator_witness :
  rc_path_get_filename (lit "roms/nes/" ++ lit "game.nes") 0 = 9 /\
  rc_path_get_filename ([] ++ lit "game.nes") 0 = 0.
Proof.
  split.
  - apply (rc_path_get_filename_last_separator (lit "roms/nes/") (lit "game.nes"));
      [discriminate | reflexivity..].
  - apply (rc_path_get_filename_last_separator [] (lit "game.nes"));
      [discriminate | reflexivity..].
Defined.

Lemma get_extension_loop_spec stem ext :
  ends_with (fun c => Byte.eqb c ".") stem = true -> no_dot ext = true ->
  forall k fuel, (k <= fuel)%nat -> (k <= length ext)%nat -> (stem <> [] \/ (1 <= k)%nat) ->
  get_extension_loop fuel (stem ++ ext) 0 (len stem + Z.of_nat k)
  = match stem with [] => None | _ :: _ => Some (len stem) end.
Proof.
  intros D F. induction k as [|k IH]; intros fuel Hf Hk Hd.
  - destruct Hd as [Hd|Hd]; [|lia]. rewrite Z.add_0_r.
    destruct fuel; cbn [get_extension_loop].
    all: rewrite byte_at_app_l
      by (unfold len; destruct stem; [contradiction | cbn [length]; lia]).
    all: rewrite (byte_at_last (fun c => Byte.eqb c ".") _ Hd D).
    all: destruct stem; [contradiction | reflexivity].
  - destruct fuel as [|fuel]; [lia|]. cbn [get_extension_loop].
    rewrite byte_at_app_r by lia.
    replace (len stem + Z.of_nat (S k) - 1 - len stem) with (Z.of_nat k) by lia.
    assert (N : Byte.eqb (byte_at ext (Z.of_nat k)) "." = false).
    { apply negb_true_iff.
      apply (byte_at_forallb (fun c => negb (Byte.eqb c ".")) _ _ F). unfold len. lia. }
    rewrite N.
    replace (len stem + Z.of_nat (S k) - 1) with (len stem + Z.of_nat k) by lia.
    pose proof (len_nonneg stem) as L.
    destruct (len stem + Z.of_nat k >? 0) eqn:G.
    + apply IH; [lia | lia |]. apply Z.gtb_lt in G.
      destruct stem; [right; unfold len in G; cbn [length] in G; lia | left; discriminate].
    + rewrite Z.gtb_ltb in G. apply Z.ltb_ge in G.
      destruct stem; [reflexivity | unfold len in *; cbn [length] in *; lia].
Qed.

(** [rc_path_get_extension] returns what follows the last dot of the whole
    path, directories included, and the end of the path when it has no dot:
    for a path made of [stem], which is empty or ends in a dot, and [ext],
    which holds none, the extension starts right behind [stem], and at the
    end of the path when [stem] is empty. *)
Theorem rc_path_get_extension_last_dot :
  forall stem ext,
    stem ++ ext <> [] -> no_nul (stem ++ ext) = true ->
    ends_with (fun c => Byte.eqb c ".") stem = true -> no_dot ext = true ->
    rc_path_get_extension (stem ++ ext) 0
    = match stem with [] => len ext | _ :: _ => len stem end.
Proof.
  intros stem ext N Z D F. unfold rc_path_get_extension.
  change (drop 0 (stem ++ ext)) with (stem ++ ext).
  rewrite (strlen_no_nul _ Z), len_app.
  replace (0 + (len stem + len ext) - 0) with (len stem + len ext) by lia.
  replace (0 + (len stem + len ext)) with (len stem + Z.of_nat (length ext))
    by (unfold len; lia).
  rewrite (get_extension_loop_spec stem ext D F).
  - destruct stem; [unfold len; cbn [length]; lia | reflexivity].
  - unfold len. lia.
  - lia.
  - destruct stem; [right | left; discriminate].
    destruct ext; [contradiction | cbn [length]; lia].
Qed.

Lemma rc_path_get_extension_last_dot_witness :
  rc_path_get_extension (lit "roms.d/game." ++ lit "nes") 0 = 12 /\
  rc_path_get_extension (lit "roms." ++ lit "d/game") 0 = 5 /\
  rc_path_get_extension ([] ++ lit "game") 0 = 4.
Proof.
  split; [|split].
  - apply (rc_path_get_extension_last_dot (lit "roms.d/game.") (lit "nes"));
      [discriminate | reflexivity..].
  - apply (rc_path_get_extension_last_dot (lit "roms.") (lit "d/game"));
      [discriminate | reflexivity..].
  - apply (rc_path_get_extension_last_dot [] (lit "game"));
      [discriminate | reflexivity..].
Defined.

Lemma list_eqb_refl a : list_eqb a a = true.
Proof.
  induction a as [|x a IH]; [reflexivity|].
  rewrite list_eqb_cons, byte_eqb_refl, IH. reflexivity.
Qed.

Lemma byte_at_cons_succ c l i : 0 <= i -> byte_at (c :: l) (i + 1) = byte_at l i.
Proof.
  intros H. change (c :: l) with ([c] ++ l). rewrite byte_at_app_r by (unfold len; cbn; lia).
  f_equal. unfold len. cbn. lia.
Qed.

(** The comparison loop of [rc_path_compare_extension] on the last bytes of
    a path: they are the extension, without regard to their case. *)
Lemma compare_extension_loop_spec : forall tail ext pre fuel,
  length tail = length ext -> no_nul tail = true -> (length ext <= fuel)%nat ->
  compare_extension_loop fuel (pre ++ tail) (len pre) ext
  = if list_eqb (map tolower tail) ext then 1 else 0.
Proof.
  induction tail as [|c t IH]; intros ext pre fuel L N F.
  - destruct ext; [|discriminate]. rewrite app_nil_r.
    assert (B : forall i, len pre <= i -> byte_at pre i = x00).
    { intros i Hi. unfold byte_at. destruct (i <? 0); [reflexivity|].
      apply nth_overflow. unfold len in Hi. lia. }
    destruct fuel; cbn [compare_extension_loop hd]; rewrite B by lia.
    + reflexivity.
    + change (negb (Byte.eqb (tolower x00) x00)) with false. cbv iota.
      rewrite B by lia. reflexivity.
  - destruct ext as [|e es]; [discriminate|]. cbn [length] in L, F.
    destruct fuel as [|fuel]; [lia|].
    cbn [compare_extension_loop hd tl map]. rewrite list_eqb_cons.
    rewrite byte_at_app_r by lia. rewrite Z.sub_diag. change (byte_at (c :: t) 0) with c.
    destruct (Byte.eqb (tolower c) e); cbn [negb andb]; [|reflexivity].
    rewrite byte_at_app_r by lia.
    replace (len pre + 1 - len pre) with (0 + 1) by lia.
    rewrite byte_at_cons_succ by lia.
    unfold no_nul in N. cbn [forallb] in N. apply andb_prop in N. destruct N as [_ N].
    destruct t as [|c2 t].
    + destruct es; [reflexivity | discriminate].
    + change (byte_at (c2 :: t) 0) with c2.
      pose proof N as N'. cbn [forallb] in N'. apply andb_prop in N'.
      destruct N' as [N' _]. apply negb_true_iff in N'. rewrite N'.
      replace (pre ++ c :: c2 :: t) with ((pre ++ [c]) ++ c2 :: t)
        by (rewrite <- app_assoc; reflexivity).
      replace (len pre + 1) with (len (pre ++ [c])) by (rewrite len_app; reflexivity).
      apply IH; [injection L; auto | exact N | lia].
Qed.

Lemma mem_eq_app_tail pre tail ext :
  length tail = length ext ->
  mem_eq (pre ++ tail) (len pre) ext = true -> tail = ext.
Proof.
  unfold mem_eq. intros L H. rewrite forallb_forall in H.
  apply (nth_ext _ _ x00 x00 L). intros k Hk.
  specialize (H k ltac:(apply in_seq; lia)). apply byte_eqb_eq in H.
  rewrite byte_at_app_r in H by lia.
  replace (len pre + Z.of_nat k - len pre) with (Z.of_nat k) in H by lia.
  unfold byte_at in H. destruct (Z.of_nat k <? 0) eqn:E; [apply Z.ltb_lt in E; lia|].
  rewrite Nat2Z.id in H. exact H.
Qed.

Lemma map_tolower_lower ext : is_lower ext = true -> map tolower ext = ext.
Proof.
  unfold is_lower. induction ext as [|e es IH]; [reflexivity|].
  cbn [forallb map]. intros H. apply andb_prop in H. destruct H as [H1 H2].
  apply byte_eqb_eq in H1. rewrite H1, (IH H2). reflexivity.
Qed.

(** [rc_path_compare_extension] accepts a path exactly when the byte before
    its last [len ext] bytes is a dot and those bytes are the extension,
    without regard to their case; the extension itself is given in lower
    case, and is shorter than the path. *)
Theorem rc_path_compare_extension_caseless :
  forall stem d tail ext,
    length tail = length ext ->
    no_nul (stem ++ d :: tail) = true -> no_nul ext = true -> is_lower ext = true ->
    rc_path_compare_extension (stem ++ d :: tail) 0 ext
    = if Byte.eqb d "." && list_eqb (map tolower tail) ext then 1 else 0.
Proof.
  intros stem d tail ext L N Ne Lo. unfold rc_path_compare_extension.
  change (drop 0 (stem ++ d :: tail)) with (stem ++ d :: tail).
  rewrite (strlen_no_nul _ N). cbv zeta.
  assert (P : 0 + len (stem ++ d :: tail) - len ext = len (stem ++ [d])).
  { rewrite !len_app. unfold len. cbn [length]. lia. }
  rewrite P.
  replace (stem ++ d :: tail) with ((stem ++ [d]) ++ tail)
    by (rewrite <- app_assoc; reflexivity).
  rewrite (byte_at_app_l (stem ++ [d])) by (rewrite len_app; unfold len; cbn [length]; lia).
  rewrite byte_at_app_r by (rewrite len_app; unfold len; cbn [length]; lia).
  replace (len (stem ++ [d]) - 1 - len stem) with 0
    by (rewrite len_app; unfold len; cbn [length]; lia).
  change (byte_at [d] 0) with d.
  destruct (Byte.eqb d "."); cbn [negb andb]; [|reflexivity].
  assert (Nt : no_nul tail = true).
  { unfold no_nul in *. rewrite forallb_app in N. apply andb_prop in N.
    destruct N as [_ N]. cbn [forallb] in N. apply andb_prop in N. apply N. }
  destruct (mem_eq ((stem ++ [d]) ++ tail) (len (stem ++ [d])) ext) eqn:M.
  - apply (mem_eq_app_tail _ _ _ L) in M. subst tail.
    rewrite (map_tolower_lower _ Lo), list_eqb_refl. reflexivity.
  - apply compare_extension_loop_spec; [exact L | exact Nt |].
    unfold len. rewrite Nat2Z.id. constructor.
Qed.

Lemma rc_path_compare_extension_caseless_witness :
  rc_path_compare_extension (lit "roms/Game" ++ "."%byte :: lit "NeS") 0 (lit "nes") = 1 /\
  rc_path_compare_extension (lit "roms/Game" ++ "_"%byte :: lit "nes") 0 (lit "nes") = 0.
Proof.
  split.
  - apply (rc_path_compare_extension_caseless (lit "roms/Game") "." (lit "NeS") (lit "nes"));
      reflexivity.
  - apply (rc_path_compare_extension_caseless (lit "roms/Game") "_" (lit "nes") (lit "nes"));
      reflexivity.
Defined.

(* ===================================================================== *)
(** * Fingerprints *)
(* ===================================================================== *)

Lemma unhex_hex2 b r : unhex (hex2 b ++ r) = b :: unhex r.
Proof. destruct b; reflexivity. Qed.

Lemma unhex_render_hex digest :
  length digest = 16%nat -> unhex (render_hex digest) = digest.
Proof.
  intros L.
  do 16 (destruct digest as [|? digest]; [discriminate L|]).
  destruct digest; [|discriminate L].
  unfold render_hex. cbn [seq flat_map nth].
  repeat rewrite <- app_assoc. rewrite !unhex_hex2. reflexivity.
Qed.

(** The fingerprint [rc_hash_finalize] writes loses nothing of the digest:
    reading its 32 digits back as hexadecimal gives the 16 bytes of the
    digest, whatever the output held before. *)
Theorem fingerprint_round_trip :
  forall cfg md5 hash,
    length (md5_digest cfg md5) = 16%nat ->
    unhex (take 32 (snd (rc_hash_finalize cfg md5 hash))) = md5_digest cfg md5.
Proof.
  intros cfg md5 hash L. unfold rc_hash_finalize, md5_finish, store. cbn [snd].
  rewrite <- app_assoc.
  rewrite take_app_exact
    by (unfold len; rewrite (proj1 (render_hex_digits _)); reflexivity).
  apply unhex_render_hex, L.
Qed.

Lemma fingerprint_round_trip_witness :
  unhex (take 32 (snd (rc_hash_finalize base_config (lit "abc") stars)))
  = md5_digest base_config (lit "abc").
Proof.
  apply (fingerprint_round_trip base_config (lit "abc") stars).
  vm_compute. reflexivity.
Defined.

(* ===================================================================== *)
(** * Headers of ROM images *)
(* ===================================================================== *)

Lemma mem_eq_app_l a b i s :
  0 <= i -> i + len s <= len a -> mem_eq (a ++ b) i s = mem_eq a i s.
Proof.
  intros I L. unfold mem_eq.
  assert (E : forall l, (forall k, In k l -> (k < length s)%nat) ->
              forallb (fun k => Byte.eqb (byte_at (a ++ b) (i + Z.of_nat k)) (nth k s x00)) l
              = forallb (fun k => Byte.eqb (byte_at a (i + Z.of_nat k)) (nth k s x00)) l).
  { induction l as [|k l IH]; intros H; [reflexivity|]. cbn [forallb].
    rewrite IH by (intros; apply H; right; assumption).
    rewrite byte_at_app_l; [reflexivity|].
    specialize (H k (or_introl eq_refl)). unfold len in *. lia. }
  apply E. intros k Hk. apply in_seq in Hk. lia.
Qed.

Lemma usize_small z : 0 <= z < 18446744073709551616 -> usize z = z.
Proof. intros H. unfold usize. apply Z.mod_small, H. Qed.

(** What the three recipes that look for a marker do with an image that
    starts with a header of [n] bytes. *)
Lemma headered_image cfg hash header rom n :
  len header = n -> 0 <= n -> len rom < 18446744073709551616 ->
  rc_hash_buffer cfg hash (drop n (header ++ rom)) (usize (len (header ++ rom) - n))
  = rc_hash_buffer cfg hash rom (len rom).
Proof.
  intros L N R. rewrite (drop_app_exact n _ _ L), len_app, L.
  rewrite usize_small by (pose proof (len_nonneg rom); lia).
  f_equal. lia.
Qed.

(** An NES or Famicom Disk image that starts with a 16-byte header ("NES"
    or "FDS" and the byte 1A) has the fingerprint of the bytes behind that
    header: one header is removed, whatever follows it. *)
Theorem rc_hash_nes_header_ignored :
  forall cfg hash header rom,
    len header = 16 ->
    mem_eq header 0 (lit "NES" ++ [x1a]) = true \/
    mem_eq header 0 (lit "FDS" ++ [x1a]) = true ->
    len rom < 18446744073709551616 ->
    rc_hash_nes cfg hash (header ++ rom) (len (header ++ rom))
    = rc_hash_buffer cfg hash rom (len rom).
Proof.
  intros cfg hash header rom L M R. unfold rc_hash_nes.
  rewrite !mem_eq_app_l by (rewrite ?L; unfold len; cbn; lia).
  destruct M as [M|M]; rewrite M.
  - apply headered_image; [exact L | lia | exact R].
  - destruct (mem_eq header 0 (lit "NES" ++ [x1a]));
      apply headered_image; (exact L || lia || exact R).
Qed.

Lemma rc_hash_nes_header_ignored_witness :
  rc_hash_nes base_config stars
    ((lit "FDS" ++ [x1a] ++ repeat x00 12) ++ lit "disk side A")
    (len ((lit "FDS" ++ [x1a] ++ repeat x00 12) ++ lit "disk side A"))
  = rc_hash_buffer base_config stars (lit "disk side A") (len (lit "disk side A")).
Proof.
  apply (rc_hash_nes_header_ignored base_config stars
           (lit "FDS" ++ [x1a] ++ repeat x00 12) (lit "disk side A")).
  - reflexivity.
  - right. reflexivity.
  - vm_compute. reflexivity.
Defined.

(** An Atari 7800 image whose bytes 1 to 9 are "ATARI7800" has the
    fingerprint of the bytes behind its first 128, and a Lynx image that
    starts with "LYNX" and a NUL that of the bytes behind its first 64. *)
Theorem rc_hash_7800_lynx_header_ignored :
  forall cfg hash header rom,
    len rom < 18446744073709551616 ->
    (len header = 128 -> mem_eq header 1 (lit "ATARI7800") = true ->
     rc_hash_7800 cfg hash (header ++ rom) (len (header ++ rom))
     = rc_hash_buffer cfg hash rom (len rom)) /\
    (len header = 64 -> mem_eq header 0 (lit "LYNX" ++ [x00]) = true ->
     rc_hash_lynx cfg hash (header ++ rom) (len (header ++ rom))
     = rc_hash_buffer cfg hash rom (len rom)).
Proof.
  intros cfg hash header rom R. split; intros L M.
  - unfold rc_hash_7800.
    rewrite mem_eq_app_l by (rewrite ?L; unfold len; cbn; lia).
    rewrite M. apply headered_image; [exact L | lia | exact R].
  - unfold rc_hash_lynx.
    rewrite mem_eq_app_l by (rewrite ?L; unfold len; cbn; lia).
    rewrite M. apply headered_image; [exact L | lia | exact R].
Qed.

Lemma rc_hash_7800_lynx_header_ignored_witness :
  rc_hash_7800 base_config stars
    ((x01 :: lit "ATARI7800" ++ repeat x00 118) ++ lit "cartridge")
    (len ((x01 :: lit "ATARI7800" ++ repeat x00 118) ++ lit "cartridge"))
  = rc_hash_buffer base_config stars (lit "cartridge") (len (lit "cartridge")) /\
  rc_hash_lynx base_config stars
    ((lit "LYNX" ++ repeat x00 60) ++ lit "cartridge")
    (len ((lit "LYNX" ++ repeat x00 60) ++ lit "cartridge"))
  = rc_hash_buffer base_config stars (lit "cartridge") (len (lit "cartridge")).
Proof.
  split.
  - apply (rc_hash_7800_lynx_header_ignored base_config stars
             (x01 :: lit "ATARI7800" ++ repeat x00 118) (lit "cartridge"));
      vm_compute; reflexivity.
  - apply (rc_hash_7800_lynx_header_ignored base_config stars
             (lit "LYNX" ++ repeat x00 60) (lit "cartridge"));
      vm_compute; reflexivity.
Defined.

(** The PC Engine recipe removes the first 512 bytes of an image exactly
    when the image is shorter than 4 GiB and 512 bytes longer than a
    multiple of 128 KiB; any other image is digested from its start. *)
Theorem rc_hash_pce_header :
  forall cfg hash buffer,
    len buffer < 18446744073709551616 ->
    rc_hash_pce cfg hash buffer (len buffer)
    = if (len buffer <? 4294967296) && (len buffer mod 131072 =? 512)
      then rc_hash_buffer cfg hash (drop 512 buffer) (len buffer - 512)
      else rc_hash_buffer cfg hash buffer (len buffer).
Proof.
  intros cfg hash buffer B. unfold rc_hash_pce. cbv zeta.
  pose proof (len_nonneg buffer) as N. set (n := len buffer) in *.
  destruct (Z.ltb_spec n 4294967296) as [S|S]; cbn [andb].
  - rewrite (u32_small n) by lia.
    pose proof (Z.mod_pos_bound n 131072 ltac:(lia)) as P.
    pose proof (Z.div_mod n 131072 ltac:(lia)) as D.
    assert (Q : 0 <= n / 131072) by (apply Z.div_pos; lia).
    rewrite u32_small by lia.
    replace (n - n / 131072 * 131072) with (n mod 131072) by lia.
    rewrite usize_small by lia.
    destruct (Z.eqb_spec (n mod 131072) 512) as [E|E]; [|reflexivity].
    rewrite usize_small by lia. reflexivity.
  - assert (U : 0 <= u32 n < 4294967296 /\ 4294967296 <= n - u32 n).
    { unfold u32. pose proof (Z.mod_pos_bound n 4294967296 ltac:(lia)).
      pose proof (Z.div_mod n 4294967296 ltac:(lia)).
      assert (1 <= n / 4294967296) by (apply Z.div_le_lower_bound; lia). lia. }
    assert (C : 0 <= u32 (u32 n / 131072 * 131072) <= u32 n).
    { pose proof (Z.mod_pos_bound (u32 n) 131072 ltac:(lia)).
      pose proof (Z.div_mod (u32 n) 131072 ltac:(lia)).
      assert (0 <= u32 n / 131072) by (apply Z.div_pos; lia).
      rewrite u32_small by lia. lia. }
    rewrite usize_small by lia.
    destruct (Z.eqb_spec (n - u32 (u32 n / 131072 * 131072)) 512) as [E|E]; [lia|].
    reflexivity.
Qed.

Lemma rc_hash_pce_header_witness :
  rc_hash_pce base_config stars (repeat xff 512 ++ lit "image") 517
  = rc_hash_buffer base_config stars (repeat xff 512 ++ lit "image") 517 /\
  rc_hash_pce base_config stars (repeat xff 512) 512
  = rc_hash_buffer base_config stars [] 0.
Proof.
  split.
  - apply (rc_hash_pce_header base_config stars (repeat xff 512 ++ lit "image")).
    vm_compute. reflexivity.
  - apply (rc_hash_pce_header base_config stars (repeat xff 512)).
    vm_compute. reflexivity.
Defined.

(* ===================================================================== *)
(** * Dispatch on a buffer *)
(* ===================================================================== *)

Lemma rc_hash_buffer_succeeds cfg hash buffer n :
  fst (rc_hash_buffer cfg hash buffer n) = 1.
Proof. reflexivity. Qed.

(** The dispatcher of the model, case by case. *)
Lemma rc_hash_generate_from_buffer_cases :
  forall cfg hash console_id buffer buffer_size w,
    let out := rc_hash_generate_from_buffer cfg hash console_id buffer buffer_size w in
    if one_of console_id buffer_consoles
    then fst (fst out) = 1 /\ snd out = w
    else out = ((0, hash),
                with_error cfg w
                  ("Unsupported console for buffer hash: " ++ dec console_id)).
Proof.
  intros cfg hash console_id buffer buffer_size w out. subst out.
  unfold rc_hash_generate_from_buffer.
  destruct (one_of console_id buffer_consoles) eqn:S.
  - unfold one_of, buffer_consoles in S. cbn [existsb] in S.
    repeat match type of S with
           | (_ =? _) || _ = true =>
               apply orb_prop in S; destruct S as [S|S]; [apply Z.eqb_eq in S|]
           end; try discriminate.
    all: subst console_id.
    all: match goal with
         | |- context [one_of ?c ?l] =>
             let v := eval vm_compute in (one_of c l) in change (one_of c l) with v
         end.
    all: repeat match goal with
                | |- context [?a =? ?b] =>
                    let v := eval vm_compute in (a =? b) in change (a =? b) with v
                end.
    all: cbv iota; unfold ret, rc_hash_7800, rc_hash_lynx, rc_hash_nes, rc_hash_pce,
           rc_hash_snes; cbv zeta.
    all: repeat match goal with
                | |- context [if ?c then _ else _] => destruct c
                end.
    all: split; reflexivity.
  - unfold one_of, buffer_consoles in S. cbn [existsb] in S.
    repeat match type of S with
           | (_ =? _) || _ = false =>
               apply orb_false_elim in S;
               let A := fresh "A" in destruct S as [A S]
           end.
    unfold one_of. cbn [existsb].
    repeat match goal with
           | A : (console_id =? ?c) = false |- _ =>
               rewrite ?A; clear A
           end.
    reflexivity.
Qed.

(** On a buffer that holds the bytes the caller announces, and among them
    what the recipe of the console compares and skips,
    [rc_hash_generate_from_buffer] succeeds for each of the thirty consoles
    it has a case for, whatever these bytes are, and sends nothing to the
    error sink; for any other console it fails at once, leaves the output
    as it was and reports the number of the console to the error sink. *)
Theorem rc_hash_generate_from_buffer_supported :
  forall cfg hash console_id buffer buffer_size w,
    let out := rc_hash_generate_from_buffer cfg hash console_id buffer buffer_size w in
    (one_of console_id buffer_consoles = true ->
     buffer_in_bounds console_id buffer buffer_size = true ->
     fst (fst out) = 1 /\ snd out = w) /\
    (one_of console_id buffer_consoles = false ->
     out = ((0, hash),
            with_error cfg w
              ("Unsupported console for buffer hash: " ++ dec console_id))).
Proof.
  intros cfg hash console_id buffer buffer_size w out.
  pose proof (rc_hash_generate_from_buffer_cases cfg hash console_id buffer
                buffer_size w) as H.
  cbv zeta in H. fold out in H.
  destruct (one_of console_id buffer_consoles); split; intros E; try discriminate.
  - intros _. exact H.
  - exact H.
Qed.

Lemma rc_hash_generate_from_buffer_supported_witness :
  (fst (fst (rc_hash_generate_from_buffer base_config stars RC_CONSOLE_NINTENDO
               (in_buffer nes_input) 48 world0)) = 1 /\
   snd (rc_hash_generate_from_buffer base_config stars RC_CONSOLE_NINTENDO
          (in_buffer nes_input) 48 world0) = world0) /\
  rc_hash_generate_from_buffer base_config stars RC_CONSOLE_SHARPX1
    (in_buffer nes_input) 48 world0
  = ((0, stars),
     with_error base_config world0
       ("Unsupported console for buffer hash: " ++ dec RC_CONSOLE_SHARPX1)).
Proof.
  split.
  - apply (proj1 (rc_hash_generate_from_buffer_supported base_config stars
                    RC_CONSOLE_NINTENDO (in_buffer nes_input) 48 world0));
      reflexivity.
  - apply (proj2 (rc_hash_generate_from_buffer_supported base_config stars
                    RC_CONSOLE_SHARPX1 (in_buffer nes_input) 48 world0)).
    reflexivity.
Defined.

(* ===================================================================== *)
(** * Files and buffers *)
(* ===================================================================== *)

Lemma rc_file_seek_end data :
  rc_file_seek {| fdata := data; fpos := 0 |} 0 SEEK_END
  = {| fdata := data; fpos := len data |}.
Proof.
  unfold rc_file_seek. cbn [fdata fpos]. rewrite Z.add_0_r.
  destruct (Z.ltb_spec (len data) 0); [pose proof (len_nonneg data); lia | reflexivity].
Qed.

(** The whole-file recipe digests the first 64 MiB of the file, in pieces of
    64 KiB, and leaves the world as it found it. *)
Lemma rc_hash_whole_file_digest cfg hash console_id path data w :
  files cfg (c_str path) = Some data ->
  rc_hash_whole_file cfg hash console_id path w =
  (if malloc_ok cfg 65536
   then rc_hash_finalize cfg (take MAX_BUFFER_SIZE data) hash
   else (0, hash), w).
Proof.
  intros Hf.
  assert (M : MAX_BUFFER_SIZE = 67108864) by reflexivity.
  pose proof (len_nonneg data) as N.
  unfold rc_hash_whole_file. cbv zeta. unfold rc_file_open. rewrite Hf.
  unfold bind at 1. unfold bind at 1.
  pose proof (files_delta_round w) as R.
  destruct (files_delta 1 w) as [u w1]. cbn [snd] in R. unfold ret at 1.
  rewrite rc_file_seek_end. unfold rc_file_tell. cbn [fpos].
  change (rc_file_seek {| fdata := data; fpos := len data |} 0 SEEK_SET)
    with {| fdata := data; fpos := 0 |}.
  set (remaining := if len data >? MAX_BUFFER_SIZE then MAX_BUFFER_SIZE else len data).
  assert (Rm : remaining = Z.min (len data) MAX_BUFFER_SIZE).
  { subst remaining. destruct (Z.gtb_spec (len data) MAX_BUFFER_SIZE); lia. }
  destruct (malloc_ok cfg 65536).
  - destruct (whole_file_loop_spec (Z.to_nat (remaining / 65536))
                {| fdata := data; fpos := 0 |} md5_init (fresh cfg 65536)
                remaining eq_refl) as (f' & buffer' & E & F1 & F2);
      cbn [fdata fpos]; try lia.
    { apply len_fresh. lia. }
    rewrite E. cbn [fdata fpos] in F1, F2 |- *. rewrite Z.add_0_l in F2.
    pose proof (Z.mod_pos_bound remaining 65536 ltac:(lia)) as P.
    pose proof (Z.div_mod remaining 65536 ltac:(lia)) as D.
    assert (Q : 0 <= remaining / 65536) by (apply Z.div_pos; lia).
    change (drop 0 data) with data. unfold md5_init. cbn [app].
    assert (T : take (65536 * (remaining / 65536)) data
                ++ take (remaining mod 65536) (drop (65536 * (remaining / 65536)) data)
                = take MAX_BUFFER_SIZE data).
    { rewrite <- take_add by lia. rewrite <- D. rewrite Rm.
      destruct (Z.le_ge_cases (len data) MAX_BUFFER_SIZE).
      - rewrite Z.min_l by lia. rewrite !take_all by lia. reflexivity.
      - rewrite Z.min_r by lia. reflexivity. }
    destruct (Z.gtb_spec (remaining mod 65536) 0) as [G|G].
    + unfold rc_file_read. destruct f' as [fd fp]. cbn [fdata fpos] in *. subst fd fp.
      unfold md5_append.
      rewrite to_int_small by lia.
      set (piece := take (remaining mod 65536) (drop (65536 * (remaining / 65536)) data)).
      assert (Lp : len piece = remaining mod 65536).
      { subst piece. rewrite len_take by lia. rewrite len_drop by lia. lia. }
      unfold store. rewrite (take_app_exact _ _ _ Lp).
      change (drop 0 data) with data. fold piece in T. rewrite T.
      unfold bind, ret, rc_file_close.
      destruct (files_delta (-1) w1) as [u' w2]. cbn [snd] in R. subst w2. reflexivity.
    + assert (Z0 : remaining mod 65536 = 0) by lia.
      rewrite Z0 in T. change (take 0 _) with (@nil byte) in T. rewrite app_nil_r in T.
      change (drop 0 data) with data. rewrite T.
      unfold bind, ret, rc_file_close.
      destruct (files_delta (-1) w1) as [u' w2]. cbn [snd] in R. subst w2. reflexivity.
  - unfold bind, ret, rc_file_close.
    destruct (files_delta (-1) w1) as [u' w2]. cbn [snd] in R. subst w2. reflexivity.
Qed.

(** Evaluates the tests a dispatcher makes on a console that is known. *)
Ltac eval_console_tests :=
  repeat match goal with
         | |- context [one_of ?c ?l] =>
             let v := eval vm_compute in (one_of c l) in
             match v with
             | true => change (one_of c l) with true
             | false => change (one_of c l) with false
             end
         | |- context [?a =? ?b] =>
             let v := eval vm_compute in (a =? b) in
             match v with
             | true => change (a =? b) with true
             | false => change (a =? b) with false
             end
         end;
  cbv iota.

Lemma one_of_cases c l : one_of c l = true -> In c l.
Proof.
  unfold one_of. intros H. apply existsb_exists in H. destruct H as (x & I & E).
  apply Z.eqb_eq in E. subst x. exact I.
Qed.

(** The result of [rc_hash_generate_from_buffer] does not depend on the
    world it runs in. *)
Lemma rc_hash_generate_from_buffer_world cfg hash console_id buffer n w1 w2 :
  fst (rc_hash_generate_from_buffer cfg hash console_id buffer n w1)
  = fst (rc_hash_generate_from_buffer cfg hash console_id buffer n w2).
Proof.
  unfold rc_hash_generate_from_buffer.
  repeat match goal with
         | |- context [if ?c then _ else _] => destruct c; [reflexivity|]
         end.
  reflexivity.
Qed.

(** The buffered-file recipe hands the first 64 MiB of the file to
    [rc_hash_generate_from_buffer] and leaves the world as it found it,
    for a console the latter has a case for. *)
Lemma rc_hash_buffered_file_buffer cfg hash console_id path data w :
  files cfg (c_str path) = Some data ->
  len data <= MAX_BUFFER_SIZE ->
  malloc_ok cfg (len data) = true ->
  one_of console_id buffer_consoles = true ->
  rc_hash_buffered_file cfg hash console_id path w =
  (fst (rc_hash_generate_from_buffer cfg hash console_id data (len data) w), w).
Proof.
  intros Hf L A C.
  assert (M : MAX_BUFFER_SIZE = 67108864) by reflexivity.
  pose proof (len_nonneg data) as N.
  unfold rc_hash_buffered_file. unfold rc_file_open. rewrite Hf.
  unfold bind at 1. unfold bind at 1.
  pose proof (files_delta_round w) as R.
  destruct (files_delta 1 w) as [u w1]. cbn [snd] in R. unfold ret at 1.
  rewrite rc_file_seek_end. unfold rc_file_tell. cbn [fpos].
  destruct (Z.gtb_spec (len data) MAX_BUFFER_SIZE) as [G|_]; [lia|].
  rewrite A.
  change (rc_file_seek {| fdata := data; fpos := len data |} 0 SEEK_SET)
    with {| fdata := data; fpos := 0 |}.
  unfold rc_file_read. cbn [fdata fpos]. change (drop 0 data) with data.
  rewrite to_int_small by lia. rewrite take_all by lia.
  rewrite store_full by (apply len_fresh; lia).
  pose proof (rc_hash_generate_from_buffer_cases cfg hash console_id data
                (len data) w1) as S1.
  pose proof (rc_hash_generate_from_buffer_cases cfg hash console_id data
                (len data) w) as S2.
  cbv zeta in S1, S2. rewrite C in S1, S2.
  pose proof (rc_hash_generate_from_buffer_world cfg hash console_id data (len data) w1 w)
    as Same.
  unfold bind.
  destruct (rc_hash_generate_from_buffer cfg hash console_id data (len data) w1)
    as [res w2]. cbn [fst snd] in *. destruct S1 as [_ S1]. subst w2.
  unfold rc_file_close, ret.
  destruct (files_delta (-1) w1) as [u' w2]. cbn [snd] in R. subst w2.
  rewrite Same. reflexivity.
Qed.

(** For a console whose file recipe does not look at the path and a file of
    at most 64 MiB that holds what the recipe of the console compares and
    skips, hashing the file is hashing its contents as a buffer: the same
    result and fingerprint, and the world left as it was (nothing sent to
    the error sink, no handle left open). *)
Theorem file_and_buffer_agree :
  forall fuel cfg hash console_id path data w,
    one_of console_id file_buffer_consoles = true ->
    files cfg (c_str path) = Some data ->
    len data <= MAX_BUFFER_SIZE ->
    buffer_in_bounds console_id data (len data) = true ->
    malloc_ok cfg 65536 = true -> malloc_ok cfg (len data) = true ->
    rc_hash_generate_from_file fuel cfg hash console_id path w
    = (Some (fst (rc_hash_generate_from_buffer cfg hash console_id data (len data) w)), w).
Proof.
  intros fuel cfg hash console_id path data w C F L _ A1 A2.
  apply one_of_cases in C. unfold file_buffer_consoles, whole_file_consoles in C.
  cbn [app In] in C.
  repeat match type of C with
         | _ \/ _ => destruct C as [C|C]
         end; try contradiction; subst console_id.
  all: destruct fuel; cbn [rc_hash_generate_from_file]; cbv zeta; eval_console_tests.
  all: unfold lift, bind, ret.
  all: first
         [ rewrite (rc_hash_whole_file_digest _ _ _ _ _ _ F), A1;
           unfold rc_hash_generate_from_buffer; eval_console_tests;
           unfold ret; cbn [fst]; rewrite rc_hash_buffer_capped; reflexivity
         | match goal with
           | |- context [rc_hash_buffered_file _ _ ?c _ _] =>
               rewrite (rc_hash_buffered_file_buffer cfg hash c path data w F L A2 eq_refl)
           end; reflexivity ].
Qed.

Lemma file_and_buffer_agree_witness :
  rc_hash_generate_from_file 1 playlist_files stars RC_CONSOLE_NINTENDO
    (lit "roms/game.rom") world0
  = (Some (fst (rc_hash_generate_from_buffer playlist_files stars RC_CONSOLE_NINTENDO
                  (repeat x41 300) (len (repeat x41 300)) world0)), world0).
Proof.
  apply (file_and_buffer_agree 1 playlist_files stars RC_CONSOLE_NINTENDO
           (lit "roms/game.rom") (repeat x41 300) world0).
  - reflexivity.
  - vm_compute. reflexivity.
  - vm_compute. discriminate.
  - vm_compute. reflexivity.
  - reflexivity.
  - reflexivity.
Defined.

(** A file that cannot be opened makes every recipe that reads files fail
    with the message "Could not open file"; the output is left as it was
    and no handle is opened. *)
Theorem missing_file_fails :
  forall fuel cfg hash console_id path w,
    one_of console_id (RC_CONSOLE_NINTENDO_DS :: file_buffer_consoles) = true ->
    files cfg (c_str path) = None ->
    rc_hash_generate_from_file fuel cfg hash console_id path w
    = (Some (0, hash), with_error cfg w "Could not open file").
Proof.
  intros fuel cfg hash console_id path w C F.
  apply one_of_cases in C. unfold file_buffer_consoles, whole_file_consoles in C.
  cbn [app In] in C.
  repeat match type of C with
         | _ \/ _ => destruct C as [C|C]
         end; try contradiction; subst console_id.
  all: destruct fuel; cbn [rc_hash_generate_from_file]; cbv zeta; eval_console_tests.
  all: unfold lift, rc_hash_whole_file, rc_hash_buffered_file, rc_hash_nintendo_ds,
         rc_file_open; cbv zeta; rewrite F; reflexivity.
Qed.

Lemma missing_file_fails_witness :
  rc_hash_generate_from_file 1 playlist_files stars RC_CONSOLE_NINTENDO_DS
    (lit "roms/none.nds") world0
  = (Some (0, stars), with_error playlist_files world0 "Could not open file").
Proof.
  apply (missing_file_fails 1 playlist_files stars RC_CONSOLE_NINTENDO_DS
           (lit "roms/none.nds") world0); reflexivity.
Defined.

(* ===================================================================== *)
(** * Handles *)
(* ===================================================================== *)

Lemma Post_bind {A B} (m : M A) (k : A -> M B) (Q1 : A -> Z -> Z -> Prop) Q :
  Post m Q1 ->
  (forall a f1 t1, Q1 a f1 t1 -> Post (k a) (fun b f t => Q b (f1 + f) (t1 + t))) ->
  Post (bind m k) Q.
Proof.
  intros Hm Hk w. unfold bind. specialize (Hm w). destruct (m w) as [a w1].
  cbn [fst snd] in *. specialize (Hk a _ _ Hm w1). cbv beta in Hk.
  match goal with
  | |- Q _ ?f ?t =>
      match type of Hk with
      | Q _ ?f' ?t' => replace f with f' by lia; replace t with t' by lia
      end
  end.
  exact Hk.
Qed.

Lemma Post_ret {A} (a : A) (Q : A -> Z -> Z -> Prop) : Q a 0 0 -> Post (ret a) Q.
Proof. intros H w. unfold ret. cbn [fst snd]. rewrite !Z.sub_diag. exact H. Qed.

Lemma Post_cons {A} (m : M A) (Q Q' : A -> Z -> Z -> Prop) :
  Post m Q -> (forall a f t, Q a f t -> Q' a f t) -> Post m Q'.
Proof. intros H I w. apply I, H. Qed.

Lemma Post_bind_kept {A B} (m : M A) (k : A -> M B) Q :
  Kept m -> (forall a, Post (k a) Q) -> Post (bind m k) Q.
Proof.
  intros Hm Hk. apply (Post_bind _ _ _ _ Hm). intros a f1 t1 [-> ->]. apply Hk.
Qed.

Lemma Post_kept {A} (m : M A) (Q : A -> Z -> Z -> Prop) :
  Kept m -> (forall a, Q a 0 0) -> Post m Q.
Proof. intros H I. apply (Post_cons _ _ _ H). intros a f t [-> ->]. apply I. Qed.

Lemma Post_bind_assoc {A B C} (m : M A) (k : A -> M B) (k2 : B -> M C) Q :
  Post (bind m (fun a => bind (k a) k2)) Q -> Post (bind (bind m k) k2) Q.
Proof.
  intros H w. specialize (H w). unfold bind in *. destruct (m w) as [a w1]. exact H.
Qed.

Lemma Post_bind_ret {A B} (a : A) (k : A -> M B) Q : Post (k a) Q -> Post (bind (ret a) k) Q.
Proof. intros H w. exact (H w). Qed.

Lemma Post_lift {A} (m : M A) (Q : option A -> Z -> Z -> Prop) :
  Post m (fun a => Q (Some a)) -> Post (lift m) Q.
Proof.
  intros H w. specialize (H w). unfold lift, bind, ret. destruct (m w) as [a w1]. exact H.
Qed.

(** ** The facades *)

Lemma Kept_error cfg msg : Kept (rc_hash_error cfg msg).
Proof.
  intros w. unfold rc_hash_error. cbn [fst snd].
  destruct (error_message_callback cfg); cbn [open_files open_tracks]; lia.
Qed.

Lemma Kept_read_sector cfg h sector n : Kept (rc_cd_read_sector cfg h sector n).
Proof.
  intros w. unfold rc_cd_read_sector, rc_hash_error, log_sector_read, bind, ret.
  destruct (cdreader cfg) as [r|]; [destruct (read_sector r)|];
    cbn [fst snd]; try destruct (error_message_callback cfg);
    cbn [open_files open_tracks]; lia.
Qed.

Lemma Kept_absolute_sector cfg h sector :
  Kept (rc_cd_absolute_sector_to_track_sector cfg h sector).
Proof.
  intros w. unfold rc_cd_absolute_sector_to_track_sector, rc_hash_error, bind, ret.
  destruct (cdreader cfg) as [r|]; [destruct (absolute_sector_to_track_sector r)|];
    cbn [fst snd]; try destruct (error_message_callback cfg);
    cbn [open_files open_tracks]; lia.
Qed.

Lemma Post_open_track cfg path track :
  Post (rc_cd_open_track cfg path track)
       (fun h f t => f = 0 /\ (h = 0 /\ t = 0 \/ h <> 0 /\ t = 1 /\ opens cfg = true)).
Proof.
  intros w. unfold rc_cd_open_track, opens, rc_hash_error, tracks_delta, bind, ret.
  destruct (cdreader cfg) as [r|]; [destruct (open_track r) as [hook|]|].
  - destruct (Z.eqb_spec (hook (c_str path) track) 0) as [E|E];
      cbn [fst snd open_files open_tracks]; (split; [lia|]).
    + left. lia.
    + right. repeat split; [exact E | lia].
  - cbn [fst snd]. destruct (error_message_callback cfg);
      cbn [open_files open_tracks]; (split; [lia|]); left; lia.
  - cbn [fst snd]. destruct (error_message_callback cfg);
      cbn [open_files open_tracks]; (split; [lia|]); left; lia.
Qed.

Lemma Post_bind_open {B} cfg path track (k : Z -> M B) Q :
  Post (k 0) Q ->
  (forall h, h <> 0 -> opens cfg = true -> Post (k h) (fun b f t => Q b f (1 + t))) ->
  Post (bind (rc_cd_open_track cfg path track) k) Q.
Proof.
  intros H0 H1. apply (Post_bind _ _ _ _ (Post_open_track cfg path track)).
  intros h f1 t1 [-> [[-> ->] | (N & -> & O)]]; [exact H0 | exact (H1 h N O)].
Qed.

Lemma Kept_close_null cfg : Kept (rc_cd_close_track cfg 0).
Proof.
  intros w. unfold rc_cd_close_track, rc_hash_error, bind, ret.
  change (0 =? 0) with true. cbv iota.
  destruct (cdreader cfg) as [r|]; [destruct (close_track r)|];
    cbn [fst snd]; try destruct (error_message_callback cfg);
    cbn [open_files open_tracks]; lia.
Qed.

Lemma Post_bind_close {B} cfg h (k : unit -> M B) Q :
  h <> 0 -> closes cfg = true ->
  Post (k tt) (fun b f t => Q b f (-1 + t)) ->
  Post (bind (rc_cd_close_track cfg h) k) Q.
Proof.
  intros N C H.
  apply (Post_bind _ _ (fun _ f t => f = 0 /\ t = -1)).
  - intros w. unfold rc_cd_close_track, closes, tracks_delta in *.
    destruct (cdreader cfg) as [r|]; [|discriminate].
    destruct (close_track r); [|discriminate].
    destruct (Z.eqb_spec h 0); [contradiction|].
    cbn [fst snd open_files open_tracks]. lia.
  - intros [] f1 t1 [-> ->]. exact H.
Qed.

Lemma Post_bind_file_open {B} cfg path (k : option FILE -> M B) Q :
  Post (k None) Q ->
  (forall file, Post (k (Some file)) (fun b f t => Q b (1 + f) t)) ->
  Post (bind (rc_file_open cfg path) k) Q.
Proof.
  intros H0 H1.
  apply (Post_bind _ _ (fun o f t => t = 0 /\ (o = None /\ f = 0 \/ o <> None /\ f = 1))).
  - intros w. unfold rc_file_open, files_delta, bind, ret.
    destruct (files cfg (c_str path)); cbn [fst snd open_files open_tracks];
      (split; [lia|]); [right | left]; split; (lia || congruence).
  - intros o f1 t1 [-> [[-> ->] | [N ->]]]; [exact H0|].
    destruct o as [file|]; [apply H1 | contradiction].
Qed.

Lemma Post_bind_file_close {B} file (k : unit -> M B) Q :
  Post (k tt) (fun b f t => Q b (-1 + f) t) ->
  Post (bind (rc_file_close file) k) Q.
Proof.
  intros H.
  apply (Post_bind _ _ (fun _ f t => f = -1 /\ t = 0)).
  - intros w. unfold rc_file_close, files_delta. cbn [fst snd open_files open_tracks]. lia.
  - intros [] f1 t1 [-> ->]. exact H.
Qed.

Lemma closes_of_opens cfg :
  hooks_paired cfg = true -> opens cfg = true -> closes cfg = true.
Proof. unfold hooks_paired. intros H O. rewrite O in H. exact H. Qed.

(** ** Recipes *)

(** How the walk through a computation ends at a [ret]. *)
Ltac post_leaf := cbv beta; first [lia | left; reflexivity | right; lia].

(** One step through a computation; [kept] proves that an operation leaves
    the handles alone, [leaf] what is asked of a result. *)
Ltac post_step_with kept leaf :=
  match goal with
  | |- Post (bind (bind _ _) _) _ => apply Post_bind_assoc
  | |- Post (bind (ret _) _) _ => apply Post_bind_ret; cbv beta
  | |- Post (bind (if ?c then _ else _) _) _ => destruct c
  | |- Post (bind (match ?x with _ => _ end) _) _ => destruct x
  | |- Post (bind (rc_cd_open_track _ _ _) _) _ =>
      apply Post_bind_open; [| intros ? ? ?]; cbv beta
  | |- Post (bind (rc_cd_close_track _ 0) _) _ =>
      apply Post_bind_kept; [apply Kept_close_null | intros ?]
  | N : ?h <> 0, O : opens ?cfg = true, P : hooks_paired ?cfg = true
    |- Post (bind (rc_cd_close_track ?cfg ?h) _) _ =>
      apply (Post_bind_close cfg h _ _ N (closes_of_opens cfg P O))
  | |- Post (bind (rc_file_open _ _) _) _ =>
      apply Post_bind_file_open; [| intros ?]; cbv beta iota
  | |- Post (bind (rc_file_close _) _) _ => apply Post_bind_file_close
  | |- Post (bind _ _) _ => apply Post_bind_kept; [solve [kept] | intros ?]
  | |- Post (ret _) _ => apply Post_ret; leaf
  | |- Post (lift _) _ => apply Post_lift
  | |- Post (if 0 =? 0 then _ else _) _ => change (0 =? 0) with true; cbv iota
  | N : ?h <> 0 |- Post (if ?h =? 0 then _ else _) _ =>
      rewrite (proj2 (Z.eqb_neq h 0) N)
  | |- Post (if ?c then _ else _) _ => destruct c
  | |- Post (match ?x with _ => _ end) _ => destruct x
  | |- Post _ _ =>
      first [ apply Post_kept; [solve [kept] | intros ?; leaf]
            | solve [kept] ]
  end.

Ltac post_step kept := post_step_with kept post_leaf.

Ltac kept_facade :=
  idtac;
  match goal with
  | |- Kept (rc_hash_error _ _) => apply Kept_error
  | |- Kept (rc_cd_read_sector _ _ _ _) => apply Kept_read_sector
  | |- Kept (rc_cd_absolute_sector_to_track_sector _ _ _) => apply Kept_absolute_sector
  end.

Ltac post_auto kept := cbv zeta; repeat post_step kept.

Lemma Kept_find_in_directory cfg h buffer sector path n :
  Kept (rc_cd_find_in_directory cfg h buffer sector path n).
Proof. unfold Kept, rc_cd_find_in_directory. post_auto kept_facade. Qed.

Lemma Kept_find_file_sector_rec fuel cfg h :
  forall path, Kept (rc_cd_find_file_sector_rec fuel cfg h path).
Proof.
  induction fuel as [|fuel IH]; intros path; unfold Kept;
    cbn [rc_cd_find_file_sector_rec].
  all: post_auto ltac:(idtac; first [kept_facade | apply Kept_find_in_directory | apply IH]).
Qed.

Lemma Kept_find_file_sector cfg h path : Kept (rc_cd_find_file_sector cfg h path).
Proof. apply Kept_find_file_sector_rec. Qed.

Lemma Kept_cd_file_loop fuel cfg h :
  forall md5 data sector size, Kept (rc_hash_cd_file_loop fuel cfg md5 h data sector size).
Proof.
  induction fuel as [|fuel IH]; intros md5 data sector size; unfold Kept;
    cbn [rc_hash_cd_file_loop].
  all: post_auto ltac:(idtac; first [kept_facade | apply IH]).
Qed.

Lemma Kept_cd_file cfg md5 h sector size d : Kept (rc_hash_cd_file cfg md5 h sector size d).
Proof.
  unfold Kept, rc_hash_cd_file.
  post_auto ltac:(idtac; first [kept_facade | apply Kept_cd_file_loop]).
Qed.

Lemma Kept_full_sectors fuel cfg h :
  forall md5 buffer sector size, Kept (hash_full_sectors fuel cfg h md5 buffer sector size).
Proof.
  induction fuel as [|fuel IH]; intros md5 buffer sector size; unfold Kept;
    cbn [hash_full_sectors].
  all: post_auto ltac:(idtac; first [kept_facade | apply IH]).
Qed.

Lemma Kept_num_sectors n cfg h :
  forall md5 buffer sector, Kept (hash_num_sectors n cfg h md5 buffer sector).
Proof.
  induction n as [|n IH]; intros md5 buffer sector; unfold Kept; cbn [hash_num_sectors].
  all: post_auto ltac:(idtac; first [kept_facade | apply IH]).
Qed.

Lemma Kept_3do_directory fuel cfg h :
  forall buffer sector bs bl, Kept (rc_hash_3do_directory fuel cfg h buffer sector bs bl).
Proof.
  induction fuel as [|fuel IH]; intros buffer sector bs bl; unfold Kept;
    cbn [rc_hash_3do_directory].
  all: post_auto ltac:(idtac; first [kept_facade | apply IH]).
Qed.

Ltac kept_disc :=
  idtac;
  match goal with
  | |- Kept (rc_cd_find_file_sector _ _ _) => apply Kept_find_file_sector
  | |- Kept (rc_hash_cd_file _ _ _ _ _ _) => apply Kept_cd_file
  | |- Kept (hash_full_sectors _ _ _ _ _ _ _) => apply Kept_full_sectors
  | |- Kept (hash_num_sectors _ _ _ _ _ _) => apply Kept_num_sectors
  | |- Kept (rc_hash_3do_directory _ _ _ _ _ _ _) => apply Kept_3do_directory
  | |- _ => kept_facade
  end.

Lemma Kept_pce_track cfg hash h : Kept (rc_hash_pce_track cfg hash h).
Proof. unfold Kept, rc_hash_pce_track. post_auto kept_disc. Qed.

Lemma Kept_find_playstation_executable cfg h key prefix name n :
  Kept (rc_hash_find_playstation_executable cfg h key prefix name n).
Proof. unfold Kept, rc_hash_find_playstation_executable. post_auto kept_disc. Qed.

Ltac kept_recipe :=
  idtac;
  match goal with
  | |- Kept (rc_hash_pce_track _ _ _) => apply Kept_pce_track
  | |- Kept (rc_hash_find_playstation_executable _ _ _ _ _ _) =>
      apply Kept_find_playstation_executable
  | |- _ => kept_disc
  end.

Section Paired.

Variable cfg : config.
Hypothesis Paired : hooks_paired cfg = true.

Lemma Kept_pce_cd hash path : Kept (rc_hash_pce_cd cfg hash path).
Proof. unfold Kept, rc_hash_pce_cd. post_auto kept_recipe. Qed.

Lemma Kept_pcfx_cd hash path : Kept (rc_hash_pcfx_cd cfg hash path).
Proof. unfold Kept, rc_hash_pcfx_cd, rc_hash_pcfx_track. post_auto kept_recipe. Qed.

Lemma Kept_dreamcast hash path : Kept (rc_hash_dreamcast cfg hash path).
Proof. unfold Kept, rc_hash_dreamcast. post_auto kept_recipe. Qed.

Lemma Kept_psx hash path : Kept (rc_hash_psx cfg hash path).
Proof.
  unfold Kept, rc_hash_psx, rc_hash_psx_locate, rc_hash_psx_executable.
  post_auto kept_recipe.
Qed.

Lemma Kept_ps2 hash path : Kept (rc_hash_ps2 cfg hash path).
Proof. unfold Kept, rc_hash_ps2. post_auto kept_recipe. Qed.

Lemma Kept_sega_cd hash path : Kept (rc_hash_sega_cd cfg hash path).
Proof. unfold Kept, rc_hash_sega_cd. post_auto kept_recipe. Qed.

Lemma KeptOpt_3do fuel hash path : KeptOpt (rc_hash_3do fuel cfg hash path).
Proof. unfold KeptOpt, rc_hash_3do. post_auto kept_recipe. Qed.

End Paired.

Lemma Kept_generate_from_buffer cfg hash c buffer n :
  Kept (rc_hash_generate_from_buffer cfg hash c buffer n).
Proof. unfold Kept, rc_hash_generate_from_buffer. post_auto kept_facade. Qed.

Lemma Kept_whole_file cfg hash c path : Kept (rc_hash_whole_file cfg hash c path).
Proof. unfold Kept, rc_hash_whole_file, rc_file_read. post_auto kept_facade. Qed.

Lemma Kept_buffered_file cfg hash c path : Kept (rc_hash_buffered_file cfg hash c path).
Proof.
  unfold Kept, rc_hash_buffered_file, rc_file_read.
  post_auto ltac:(idtac; first [kept_facade | apply Kept_generate_from_buffer]).
Qed.

Lemma Kept_get_first_item_from_playlist cfg path :
  Kept (rc_hash_get_first_item_from_playlist cfg path).
Proof.
  unfold Kept, rc_hash_get_first_item_from_playlist, rc_file_read.
  post_auto kept_facade.
Qed.

(** The Nintendo DS recipe opens no track and leaves at most the file it
    opened open. *)
Lemma Post_nintendo_ds cfg hash path :
  Post (rc_hash_nintendo_ds cfg hash path) (fun _ f t => 0 <= f <= 1 /\ t = 0).
Proof. unfold rc_hash_nintendo_ds, rc_file_read. post_auto kept_facade. Qed.

Section PairedDispatch.

Variable cfg : config.
Hypothesis Paired : hooks_paired cfg = true.
Variable hash : list byte.

Ltac kept_file :=
  idtac;
  match goal with
  | |- Kept (rc_hash_pce_cd _ _ _) => apply (Kept_pce_cd cfg Paired)
  | |- Kept (rc_hash_pcfx_cd _ _ _) => apply (Kept_pcfx_cd cfg Paired)
  | |- Kept (rc_hash_dreamcast _ _ _) => apply (Kept_dreamcast cfg Paired)
  | |- Kept (rc_hash_psx _ _ _) => apply (Kept_psx cfg Paired)
  | |- Kept (rc_hash_ps2 _ _ _) => apply (Kept_ps2 cfg Paired)
  | |- Kept (rc_hash_sega_cd _ _ _) => apply (Kept_sega_cd cfg Paired)
  | |- Post (rc_hash_3do _ _ _ _) _ => apply (KeptOpt_3do cfg Paired)
  | |- Kept (rc_hash_whole_file _ _ _ _) => apply Kept_whole_file
  | |- Kept (rc_hash_buffered_file _ _ _ _) => apply Kept_buffered_file
  | |- Kept (rc_hash_generate_from_buffer _ _ _ _ _) => apply Kept_generate_from_buffer
  | |- Kept (rc_hash_get_first_item_from_playlist _ _) =>
      apply Kept_get_first_item_from_playlist
  | |- Post (rc_hash_nintendo_ds _ _ _) _ =>
      apply (Post_cons _ _ _ (Post_nintendo_ds _ _ _));
      intros ? ? ? ?; cbv beta; right; lia
  | |- _ => kept_recipe
  end.

Lemma KeptOpt_generate_from_file console_id :
  (console_id =? RC_CONSOLE_NINTENDO_DS) = false ->
  forall fuel path, KeptOpt (rc_hash_generate_from_file fuel cfg hash console_id path).
Proof.
  intros E. induction fuel as [|fuel IH]; intros path; unfold KeptOpt;
    cbn [rc_hash_generate_from_file]; unfold rc_hash_generate_from_playlist;
    rewrite ?E.
  all: post_auto ltac:(idtac; first [kept_file | apply IH]).
Qed.

Lemma Post_generate_from_file_nds :
  forall fuel path,
    Post (rc_hash_generate_from_file fuel cfg hash RC_CONSOLE_NINTENDO_DS path)
         (fun r f t => r = None \/ (0 <= f <= 1 /\ t = 0)).
Proof.
  intros fuel path. destruct fuel; cbn [rc_hash_generate_from_file]; cbv zeta.
  all: repeat match goal with
              | |- context [one_of ?c ?l] =>
                  let v := eval vm_compute in (one_of c l) in
                  change (one_of c l) with v
              | |- context [?a =? ?b] =>
                  let v := eval vm_compute in (a =? b) in
                  match v with
                  | true => change (a =? b) with true
                  | false => change (a =? b) with false
                  end
              end.
  all: cbv iota; post_auto kept_file.
Qed.

End PairedDispatch.

Lemma Post_run {A} (m : M A) Q w r w' :
  Post m Q -> m w = (r, w') ->
  Q r (open_files w' - open_files w) (open_tracks w' - open_tracks w).
Proof. intros H E. specialize (H w). rewrite E in H. exact H. Qed.

(** What a recipe that returns has done to the handles. *)
Lemma run_recipe_handles r fuel cfg hash i :
  hooks_paired cfg = true ->
  Post (run_recipe r fuel cfg hash i)
       (fun res f t =>
          res = None \/
          (t = 0 /\ if reads_nds_header r i then 0 <= f <= 1 else f = 0)).
Proof.
  intros P.
  destruct r; cbn [run_recipe reads_nds_header].
  all: try (apply Post_ret; right; split; reflexivity).
  all: try (apply Post_lift).
  - apply (Post_cons _ _ _ (KeptOpt_3do cfg P fuel hash (in_path i))).
    intros a f t [H|H]; [left; exact H | right; lia].
  - apply (Post_cons _ _ _ (Kept_pce_track cfg hash (in_track i))). intros; right; lia.
  - apply (Post_cons _ _ _ (Kept_pce_cd cfg P hash (in_path i))). intros; right; lia.
  - apply (Post_cons _ _ _ (Kept_pcfx_cd cfg P hash (in_path i))). intros; right; lia.
  - apply (Post_cons _ _ _ (Kept_dreamcast cfg P hash (in_path i))). intros; right; lia.
  - apply (Post_cons _ _ _ (Kept_psx cfg P hash (in_path i))). intros; right; lia.
  - apply (Post_cons _ _ _ (Kept_ps2 cfg P hash (in_path i))). intros; right; lia.
  - apply (Post_cons _ _ _ (Kept_sega_cd cfg P hash (in_path i))). intros; right; lia.
  - apply (Post_cons _ _ _ (Post_nintendo_ds cfg hash (in_path i))). intros; right; lia.
  - apply (Post_cons _ _ _ (Kept_whole_file cfg hash (in_console i) (in_path i))).
    intros; right; lia.
  - apply (Post_cons _ _ _ (Kept_buffered_file cfg hash (in_console i) (in_path i))).
    intros; right; lia.
  - apply (Post_cons _ _ _ (Kept_generate_from_buffer cfg hash (in_console i)
                              (in_buffer i) (in_buffer_size i))).
    intros; right; lia.
  - destruct (in_console i =? RC_CONSOLE_NINTENDO_DS) eqn:E.
    + apply Z.eqb_eq in E. rewrite E.
      apply (Post_cons _ _ _ (Post_generate_from_file_nds cfg hash fuel (in_path i))).
      intros a f t [H|H]; [left; exact H | right; lia].
    + apply (Post_cons _ _ _ (KeptOpt_generate_from_file cfg P hash _ E fuel (in_path i))).
      intros a f t [H|H]; [left; exact H | right; lia].
Qed.

(** No recipe that returns leaves a track open, and none but the Nintendo
    DS recipe leaves a file open, which leaves at most the one it opened:
    the recipes close what they open on every path, also the failing ones,
    provided a disc reader that can open tracks can close them. *)
Theorem recipes_close_their_handles :
  forall r fuel cfg hash i w res w',
    hooks_paired cfg = true ->
    run_recipe r fuel cfg hash i w = (Some res, w') ->
    open_tracks w' = open_tracks w /\
    (if reads_nds_header r i
     then open_files w <= open_files w' <= open_files w + 1
     else open_files w' = open_files w).
Proof.
  intros r fuel cfg hash i w res w' P E.
  pose proof (Post_run _ _ _ _ _ (run_recipe_handles r fuel cfg hash i P) E) as H.
  cbv beta in H. destruct H as [H|[T F]]; [discriminate|].
  split; [lia|]. destruct (reads_nds_header r i); lia.
Qed.

Lemma recipes_close_their_handles_witness :
  let i := {| in_path := lit "game.cue"; in_buffer := []; in_buffer_size := 0;
              in_console := RC_CONSOLE_PLAYSTATION; in_track := 0 |} in
  let out := run_recipe GenerateFromFile 1 psx_disc stars i world0 in
  fst out <> None /\
  open_tracks (snd out) = 0 /\ open_files (snd out) = 0.
Proof.
  intros i out. subst out.
  destruct (run_recipe GenerateFromFile 1 psx_disc stars i world0) as [[res|] w'] eqn:E.
  - split; [discriminate|]. cbn [snd].
    exact (recipes_close_their_handles GenerateFromFile 1 psx_disc stars i world0 res w'
             eq_refl E).
  - vm_compute in E. discriminate.
Defined.

(* ===================================================================== *)
(** * Candidates *)
(* ===================================================================== *)

Lemma upd_app pre rest v :
  upd (pre ++ rest) (length pre) v
  = pre ++ match rest with [] => [] | _ :: r => v :: r end.
Proof.
  induction pre as [|p pre IH]; cbn [app length upd].
  - destruct rest; reflexivity.
  - rewrite IH. reflexivity.
Qed.

Lemma nth_app_pre (pre rest : list Z) :
  nth (length pre) (pre ++ rest) 0 = hd 0 rest.
Proof.
  rewrite app_nth2 by lia. rewrite Nat.sub_diag. destruct rest; reflexivity.
Qed.

(** The loop of [rc_hash_iterator_append_console], from slot [length pre]
    on. *)
Lemma append_console_loop_spec c : forall rest pre it fuel,
  consoles it = pre ++ rest -> (length rest <= fuel)%nat ->
  append_console_loop fuel it (length pre) c
  = {| buffer := buffer it; buffer_size := buffer_size it;
       consoles := pre ++ append_list rest c;
       index := index it; path := path it |}.
Proof.
  induction rest as [|x rest IH]; intros pre it fuel E F.
  - destruct fuel; cbn [append_console_loop]; rewrite E, nth_app_pre; cbn [hd];
      change (0 =? 0) with true; cbv iota; unfold set_console;
      rewrite E, upd_app; reflexivity.
  - destruct fuel as [|fuel]; [cbn [length] in F; lia|].
    cbn [append_console_loop append_list]. rewrite E, nth_app_pre. cbn [hd].
    destruct (x =? 0).
    + unfold set_console. rewrite E, upd_app. reflexivity.
    + destruct (x =? c).
      * destruct it. cbn in *. subst. reflexivity.
      * replace (S (length pre)) with (length (pre ++ [x]))
          by (rewrite length_app; cbn [length]; lia).
        rewrite (IH (pre ++ [x]) it fuel).
        -- rewrite <- app_assoc. reflexivity.
        -- rewrite E, <- app_assoc. reflexivity.
        -- cbn [length] in F. lia.
Qed.

Lemma append_list_free c : forall cs r,
  forallb (fun x => negb (x =? 0)) cs = true ->
  append_list (cs ++ 0 :: r) c
  = if existsb (Z.eqb c) cs then cs ++ 0 :: r else cs ++ c :: r.
Proof.
  induction cs as [|x cs IH]; intros r N; [reflexivity|].
  cbn [forallb] in N. apply andb_prop in N. destruct N as [N1 N2].
  apply negb_true_iff in N1.
  cbn [app append_list existsb]. rewrite N1, (Z.eqb_sym c x).
  destruct (x =? c); [reflexivity|]. cbn [orb].
  rewrite (IH r N2). destruct (existsb (Z.eqb c) cs); reflexivity.
Qed.

(** [rc_hash_iterator_append_console] writes the console into the first free
    slot of the array, unless it finds the console before that slot: then
    it changes nothing.  Nothing but that slot changes. *)
Theorem rc_hash_iterator_append_console_spec :
  forall it cs r console_id,
    consoles it = cs ++ 0 :: r ->
    forallb (fun x => negb (x =? 0)) cs = true ->
    rc_hash_iterator_append_console it console_id
    = if existsb (Z.eqb console_id) cs then it
      else {| buffer := buffer it; buffer_size := buffer_size it;
              consoles := cs ++ console_id :: r;
              index := index it; path := path it |}.
Proof.
  intros it cs r c E N. unfold rc_hash_iterator_append_console.
  pose proof (append_console_loop_spec c (consoles it) [] it (length (consoles it))
                eq_refl (le_n _)) as H.
  cbn [length app] in H. rewrite H, E, (append_list_free c cs r N).
  destruct (existsb (Z.eqb c) cs); [|reflexivity].
  destruct it. cbn in *. subst. reflexivity.
Qed.

Lemma rc_hash_iterator_append_console_spec_witness :
  consoles (rc_hash_iterator_append_console
              (rc_hash_iterator_append_console
                 {| buffer := None; buffer_size := 0;
                    consoles := [RC_CONSOLE_MSX] ++ 0 :: repeat 0 10;
                    index := 0; path := None |}
                 RC_CONSOLE_APPLE_II)
              RC_CONSOLE_MSX)
  = [RC_CONSOLE_MSX; RC_CONSOLE_APPLE_II] ++ repeat 0 10.
Proof.
  rewrite (rc_hash_iterator_append_console_spec
             {| buffer := None; buffer_size := 0;
                consoles := [RC_CONSOLE_MSX] ++ 0 :: repeat 0 10;
                index := 0; path := None |}
             [RC_CONSOLE_MSX] (repeat 0 10) RC_CONSOLE_APPLE_II eq_refl eq_refl).
  reflexivity.
Defined.

(* ===================================================================== *)
(** * Initialization *)
(* ===================================================================== *)

Lemma upd_length l i v : length (upd l i v) = length l.
Proof.
  revert i. induction l as [|x l IH]; intros i; [reflexivity|].
  destruct i; cbn [upd length]; [reflexivity | rewrite IH; reflexivity].
Qed.

Lemma append_list_length cs c : length (append_list cs c) = length cs.
Proof.
  induction cs as [|x cs IH]; [reflexivity|]. cbn [append_list].
  destruct (x =? 0); [reflexivity|]. destruct (x =? c); [reflexivity|].
  cbn [length]. rewrite IH. reflexivity.
Qed.

Lemma same_refl it : same_but_consoles it it.
Proof. repeat split. Qed.

Lemma same_trans a b c :
  same_but_consoles a b -> same_but_consoles b c -> same_but_consoles a c.
Proof. unfold same_but_consoles. intuition congruence. Qed.

Lemma same_set_console it i c : same_but_consoles it (set_console it i c).
Proof. repeat split. cbn [set_console consoles]. apply upd_length. Qed.

Lemma same_set_consoles_from cs : forall it i, same_but_consoles it (set_consoles_from it i cs).
Proof.
  induction cs as [|c cs IH]; intros it i; cbn [set_consoles_from]; [apply same_refl|].
  eapply same_trans; [apply (same_set_console it i c) | apply IH].
Qed.

Lemma same_set_consoles it cs : same_but_consoles it (set_consoles it cs).
Proof. apply same_set_consoles_from. Qed.

Lemma same_append it c : same_but_consoles it (rc_hash_iterator_append_console it c).
Proof.
  unfold rc_hash_iterator_append_console.
  pose proof (append_console_loop_spec c (consoles it) [] it (length (consoles it))
                eq_refl (le_n _)) as H.
  cbn [length app] in H. rewrite H. repeat split. cbn [consoles].
  apply append_list_length.
Qed.

Ltac same_solve :=
  repeat first [ assumption | apply same_refl | apply same_set_console
               | apply same_set_consoles | apply same_append
               | eapply same_trans; [| apply same_append]
               | eapply same_trans; [| apply same_set_console] ].

Ltac same_leaf :=
  cbv beta; cbn [fst snd];
  repeat match goal with
         | |- context [if ?c then _ else _] => destruct c
         end;
  (split; [lia|]); (split; [lia|]);
  first [ solve [same_solve]
        | split; [solve [same_solve] | intros; first [assumption | reflexivity]] ].

Lemma Post_dsk_iterator cfg it path :
  Post (rc_hash_initialize_dsk_iterator cfg it path)
       (fun it' f t => f = 0 /\ t = 0 /\ same_but_consoles it it').
Proof.
  unfold rc_hash_initialize_dsk_iterator.
  cbv zeta. repeat post_step_with kept_facade same_leaf.
Qed.

Ltac dsk_step :=
  match goal with
  | |- Post (bind (rc_hash_initialize_dsk_iterator _ _ _) _) _ =>
      eapply Post_bind; [apply Post_dsk_iterator | intros ? ? ? (-> & -> & ?)]; cbv beta
  end.

(** Choosing the candidates changes nothing of the iterator but the array
    of consoles, leaves no handle open, and does not take back that the
    path is needed. *)
Lemma Post_classify cfg it path size need :
  Post (rc_hash_iterator_classify cfg it path size need)
       (fun r f t => f = 0 /\ t = 0 /\ same_but_consoles it (fst r)
                     /\ (need = true -> snd r = true)).
Proof.
  unfold rc_hash_iterator_classify. cbv zeta.
  repeat first [dsk_step | post_step_with kept_facade same_leaf].
Qed.





(* ===================================================================== *)
(** * Iteration and handles *)
(* ===================================================================== *)

Lemma console_at_In it i : console_at it i <> 0 -> In (console_at it i) (consoles it).
Proof.
  unfold console_at. destruct (i <? 0); [congruence|]. intros N.
  apply nth_In. destruct (Nat.lt_ge_cases (Z.to_nat i) (length (consoles it))) as [L|L];
    [exact L|]. rewrite nth_overflow in N by exact L. congruence.
Qed.

Section IterateHandles.

Variable cfg : config.
Hypothesis Paired : hooks_paired cfg = true.

(** What one candidate does to the handles. *)
Lemma Post_candidate fuel hash it c :
  Post (match buffer it with
        | Some b => lift (rc_hash_generate_from_buffer cfg hash c b (buffer_size it))
        | None =>
            match path it with
            | Some p => rc_hash_generate_from_file fuel cfg hash c p
            | None => ret None
            end
        end)
       (fun r f t =>
          r = None \/
          (t = 0 /\ 0 <= f /\
           (buffer it <> None \/ c <> RC_CONSOLE_NINTENDO_DS -> f = 0))).
Proof.
  destruct (buffer it) as [b|].
  - apply Post_lift.
    apply (Post_cons _ _ _ (Kept_generate_from_buffer cfg hash c b (buffer_size it))).
    intros a f t [-> ->]. right. repeat split; lia.
  - destruct (path it) as [p|]; [|apply Post_ret; left; reflexivity].
    destruct (Z.eqb_spec c RC_CONSOLE_NINTENDO_DS) as [E|E].
    + subst c. apply (Post_cons _ _ _ (Post_generate_from_file_nds cfg hash fuel p)).
      intros a f t [H|[F T]]; [left; exact H | right].
      repeat split; try lia. intros [B|B]; congruence.
    + apply Z.eqb_neq in E.
      apply (Post_cons _ _ _ (KeptOpt_generate_from_file cfg Paired hash c E fuel p)).
      intros a f t [H|[F T]]; [left; exact H | right]. repeat split; lia.
Qed.

Lemma Post_iterate_loop fuel : forall rounds hash it,
  Post (rc_hash_iterate_loop rounds fuel cfg hash it)
       (fun r f t =>
          r = None \/
          (t = 0 /\ 0 <= f /\
           (buffer it <> None \/ ~ In RC_CONSOLE_NINTENDO_DS (consoles it) -> f = 0))).
Proof.
  induction rounds as [|rounds IH]; intros hash it; cbn [rc_hash_iterate_loop]; cbv zeta.
  - destruct (console_at it (index it) =? 0); apply Post_ret;
      [right; repeat split; lia | left; reflexivity].
  - destruct (Z.eqb_spec (console_at it (index it)) 0) as [Z|N].
    + apply Post_ret. right. repeat split; lia.
    + eapply Post_bind.
      * apply (Post_candidate fuel hash (set_index it (index it + 1))
                 (console_at it (index it))).
      * intros r f1 t1 H. cbv beta.
        destruct r as [[result hash']|]; [|apply Post_ret; left; reflexivity].
        destruct H as [H|(T & F & C)]; [discriminate|].
        assert (C' : buffer it <> None \/ ~ In RC_CONSOLE_NINTENDO_DS (consoles it)
                     -> f1 = 0).
        { intros [B|B]; apply C; [left; exact B | right].
          intros E. apply B. rewrite <- E. apply console_at_In, N. }
        destruct (result =? 0).
        -- apply (Post_cons _ _ _ (IH hash' (set_index it (index it + 1)))).
           intros a f t [H|(T' & F' & C2)]; [left; exact H | right].
           cbn [set_index buffer consoles] in C2.
           repeat split; try lia. intros B. rewrite (C' B), (C2 B). reflexivity.
        -- apply Post_ret. right. repeat split; try lia.
           intros B. rewrite (C' B). reflexivity.
Qed.

End IterateHandles.

(** [rc_hash_iterate], when it returns, has closed every track it opened,
    and every file unless it tried the Nintendo DS recipe on a path: an
    iterator over a buffer, or one without the Nintendo DS among its
    consoles, leaves no handle open, whatever its candidates did. *)
Theorem rc_hash_iterate_closes_handles :
  forall fuel cfg hash it w r w',
    hooks_paired cfg = true ->
    rc_hash_iterate fuel cfg hash it w = (Some r, w') ->
    open_tracks w' = open_tracks w /\ open_files w <= open_files w' /\
    (buffer it <> None \/ ~ In RC_CONSOLE_NINTENDO_DS (consoles it) ->
     open_files w' = open_files w).
Proof.
  intros fuel cfg hash it w r w' P E.
  pose proof (Post_run _ _ _ _ _
                (Post_iterate_loop cfg P fuel (length (consoles it)) hash it) E) as H.
  cbv beta in H. destruct H as [H|(T & F & C)]; [discriminate|].
  repeat split; try lia. intros B. specialize (C B). lia.
Qed.

Lemma rc_hash_iterate_closes_handles_witness :
  let it := {| buffer := None; buffer_size := 0;
               consoles := RC_CONSOLE_NINTENDO_DS :: RC_CONSOLE_NINTENDO :: repeat 0 10;
               index := 0; path := Some (lit "roms/game.rom") |} in
  let out := rc_hash_iterate 1 playlist_files stars it world0 in
  fst out <> None /\
  open_tracks (snd out) = 0 /\ 0 <= open_files (snd out).
Proof.
  intros it out. subst out.
  destruct (rc_hash_iterate 1 playlist_files stars it world0) as [[r|] w'] eqn:E.
  - split; [discriminate|]. cbn [snd].
    destruct (rc_hash_iterate_closes_handles 1 playlist_files stars it world0 r w'
                eq_refl E) as (T & F & _).
    split; [exact T | exact F].
  - vm_compute in E. discriminate.
Defined.

(* ===================================================================== *)
(** * Arcade *)
(* ===================================================================== *)

Lemma forallb_seq_shift (f : nat -> bool) n :
  forallb f (seq 1 n) = forallb (fun k => f (S k)) (seq 0 n).
Proof.
  rewrite <- seq_shift. induction (seq 0 n) as [|k l IH]; [reflexivity|].
  cbn [map forallb]. rewrite IH. reflexivity.
Qed.

Lemma forallb_pointwise {A} (f g : A -> bool) l :
  (forall k, f k = g k) -> forallb f l = forallb g l.
Proof.
  intros H. induction l as [|k l IH]; [reflexivity|].
  cbn [forallb]. rewrite H, IH. reflexivity.
Qed.

Lemma mem_eq_cons l i y m :
  mem_eq l i (y :: m) = Byte.eqb (byte_at l i) y && mem_eq l (i + 1) m.
Proof.
  unfold mem_eq. cbn [length seq forallb nth]. rewrite Z.add_0_r. f_equal.
  rewrite forallb_seq_shift. apply forallb_pointwise.
  intros k. cbn [nth]. do 2 f_equal. lia.
Qed.

(** [memcmp] of a piece of a string with a literal of the same length is
    the equality of the two. *)
Lemma mem_eq_middle : forall mid m pre post,
  length mid = length m ->
  mem_eq (pre ++ mid ++ post) (len pre) m = list_eqb mid m.
Proof.
  induction mid as [|x mid IH]; intros m pre post L.
  - destruct m; [reflexivity | discriminate].
  - destruct m as [|y m]; [discriminate|].
    rewrite mem_eq_cons, list_eqb_cons.
    rewrite byte_at_app_r by lia. rewrite Z.sub_diag. cbn [app].
    change (byte_at (x :: mid ++ post) 0) with x. f_equal.
    replace (pre ++ x :: mid ++ post) with ((pre ++ [x]) ++ mid ++ post)
      by (rewrite <- app_assoc; reflexivity).
    replace (len pre + 1) with (len (pre ++ [x])) by (rewrite len_app; reflexivity).
    apply IH. injection L; auto.
Qed.

Lemma list_eqb_length a b : length a <> length b -> list_eqb a b = false.
Proof.
  intros N. unfold list_eqb. apply Nat.eqb_neq in N. rewrite N. reflexivity.
Qed.

(** The folder test of [rc_hash_arcade] asks whether the parent folder is
    one of the thirteen names. *)
Ltac len_lit :=
  unfold len in *;
  repeat match goal with
         | |- context [length (lit ?m)] =>
             let n := eval vm_compute in (length (lit m)) in
             change (length (lit m)) with n
         end;
  lia.

Lemma arcade_include_folder_spec grand parent post :
  arcade_include_folder (grand ++ parent ++ post) (len grand) (len parent)
  = existsb (list_eqb parent) subsystem_folders.
Proof.
  unfold arcade_include_folder, subsystem_folders. cbn [map existsb].
  destruct (Z.eqb_spec (len parent) 3) as [E3|E3];
    [|destruct (Z.eqb_spec (len parent) 4) as [E4|E4];
      [|destruct (Z.eqb_spec (len parent) 6) as [E6|E6];
        [|destruct (Z.eqb_spec (len parent) 8) as [E8|E8]]]].
  all: rewrite ?mem_eq_middle by len_lit.
  all: repeat match goal with
              | |- context [list_eqb ?p (lit ?m)] =>
                  rewrite (list_eqb_length p (lit m)) by len_lit
              end.
  all: repeat match goal with
              | |- context [list_eqb ?p (lit ?m)] => destruct (list_eqb p (lit m))
              end; reflexivity.
Qed.

Lemma arcade_folder_loop_filename fuel s : forall folder,
  arcade_folder_loop fuel s folder = get_filename_loop fuel s 0 folder.
Proof.
  induction fuel as [|fuel IH]; intros folder; cbn [arcade_folder_loop get_filename_loop].
  - reflexivity.
  - destruct (is_separator (byte_at s (folder - 1))); [reflexivity|].
    destruct (folder - 1 >? 0); [apply IH | reflexivity].
Qed.

Lemma byte_at_app_before a post i : i < len a -> byte_at (a ++ post) i = byte_at a i.
Proof.
  intros H. destruct (Z.ltb_spec i 0) as [N|N].
  - unfold byte_at. apply Z.ltb_lt in N. rewrite N. reflexivity.
  - apply byte_at_app_l. lia.
Qed.

(** The loop that walks back to a separator looks at nothing behind where
    it starts. *)
Lemma get_filename_loop_app a post fuel : forall ptr,
  ptr <= len a ->
  get_filename_loop fuel (a ++ post) 0 ptr = get_filename_loop fuel a 0 ptr.
Proof.
  induction fuel as [|fuel IH]; intros ptr H; cbn [get_filename_loop];
    rewrite byte_at_app_before by lia.
  - reflexivity.
  - destruct (is_separator (byte_at a (ptr - 1))); [reflexivity|].
    destruct (ptr - 1 >? 0); [apply IH; lia | reflexivity].
Qed.

Lemma get_extension_loop_offset pre ext path :
  no_dot ext = true -> path <= len pre ->
  forall k fuel, (k <= fuel)%nat -> (k <= length ext)%nat ->
  get_extension_loop fuel (pre ++ "."%byte :: ext) path (len pre + 1 + Z.of_nat k)
  = Some (len pre + 1).
Proof.
  intros D P. induction k as [|k IH]; intros fuel F K.
  - rewrite Z.add_0_r.
    assert (B : byte_at (pre ++ "."%byte :: ext) (len pre + 1 - 1) = "."%byte).
    { rewrite byte_at_app_r by lia.
      replace (len pre + 1 - 1 - len pre) with 0 by lia. reflexivity. }
    destruct fuel; cbn [get_extension_loop]; rewrite B; reflexivity.
  - destruct fuel as [|fuel]; [lia|]. cbn [get_extension_loop].
    rewrite byte_at_app_r by lia.
    replace (len pre + 1 + Z.of_nat (S k) - 1 - len pre) with (Z.of_nat k + 1) by lia.
    rewrite byte_at_cons_succ by lia.
    assert (N : Byte.eqb (byte_at ext (Z.of_nat k)) "." = false).
    { apply negb_true_iff.
      apply (byte_at_forallb (fun c => negb (Byte.eqb c ".")) _ _ D). unfold len. lia. }
    rewrite N.
    replace (len pre + 1 + Z.of_nat (S k) - 1) with (len pre + 1 + Z.of_nat k) by lia.
    destruct (Z.gtb_spec (len pre + 1 + Z.of_nat k) path) as [G|G]; [|lia].
    apply IH; lia.
Qed.

Lemma rc_hash_buffer_prefix cfg hash a b :
  rc_hash_buffer cfg hash (a ++ b) (len a) = rc_hash_buffer cfg hash a (len a).
Proof.
  unfold rc_hash_buffer, md5_append, md5_init. cbv zeta. cbn [app].
  pose proof (len_nonneg a) as N.
  assert (M : MAX_BUFFER_SIZE = 67108864) by reflexivity.
  destruct (Z.gtb_spec (len a) MAX_BUFFER_SIZE) as [G|G];
    rewrite to_int_small by lia; rewrite take_app_le by lia; reflexivity.
Qed.

Lemma no_nul_app a b : no_nul (a ++ b) = true -> no_nul a = true /\ no_nul b = true.
Proof. unfold no_nul. rewrite forallb_app. apply andb_prop. Qed.

Lemma rc_path_get_filename_dir dir file :
  dir ++ file <> [] -> no_nul (dir ++ file) = true ->
  ends_with is_separator dir = true -> no_separator file = true ->
  rc_path_get_filename (dir ++ file) 0 = len dir.
Proof.
  intros N Z D F. unfold rc_path_get_filename.
  change (drop 0 (dir ++ file)) with (dir ++ file).
  rewrite (strlen_no_nul _ Z), len_app.
  replace (0 + (len dir + len file) - 0) with (len dir + len file) by lia.
  replace (0 + (len dir + len file)) with (len dir + Z.of_nat (length file))
    by (unfold len; lia).
  apply (get_filename_loop_spec dir file D F).
  - unfold len. lia.
  - lia.
  - destruct dir; [right | left; discriminate].
    destruct file; [contradiction | cbn [length]; lia].
Qed.

Lemma rc_path_get_extension_file dir name ext :
  no_nul (dir ++ name ++ "."%byte :: ext) = true -> no_dot ext = true ->
  rc_path_get_extension (dir ++ name ++ "."%byte :: ext) (len dir)
  = len dir + len name + 1.
Proof.
  intros Z D. unfold rc_path_get_extension.
  rewrite (drop_app_exact (len dir) dir _ eq_refl).
  apply no_nul_app in Z. destruct Z as [_ Z]. rewrite (strlen_no_nul _ Z).
  replace (len dir + len (name ++ "."%byte :: ext))
    with (len (dir ++ name) + 1 + Z.of_nat (length ext))
    by (rewrite !len_app; unfold len; cbn [length]; lia).
  replace (dir ++ name ++ "."%byte :: ext) with ((dir ++ name) ++ "."%byte :: ext)
    by (rewrite <- app_assoc; reflexivity).
  rewrite (get_extension_loop_offset (dir ++ name) ext (len dir) D).
  - rewrite len_app. lia.
  - rewrite len_app. pose proof (len_nonneg name). lia.
  - rewrite len_app. unfold len. lia.
  - lia.
Qed.

Lemma ends_with_app p a c : ends_with p (a ++ [c]) = p c.
Proof. unfold ends_with. rewrite rev_app_distr. reflexivity. Qed.

(** [rc_hash_arcade] on a path whose file name falls into [stem], which is
    digested, and [rest], once it is known where the extension starts. *)
Lemma rc_hash_arcade_core cfg hash grand parent sep stem rest :
  let path := grand ++ parent ++ sep :: stem ++ rest in
  no_nul path = true -> len path < 18446744073709551616 ->
  is_separator sep = true -> ends_with is_separator grand = true ->
  no_separator parent = true -> no_separator (stem ++ rest) = true ->
  rc_path_get_extension path (len (grand ++ parent ++ [sep]))
  = len (grand ++ parent ++ [sep]) + len stem + 1 ->
  rc_hash_arcade cfg hash path
  = rc_hash_buffer cfg hash (arcade_title parent stem) (len (arcade_title parent stem)).
Proof.
  intros path Z B S G Np Nf EX.
  set (dir := grand ++ parent ++ [sep]) in *.
  set (file := stem ++ rest).
  assert (P : path = dir ++ file).
  { subst path dir file. rewrite <- !app_assoc. reflexivity. }
  assert (Ld : len dir = len grand + len parent + 1).
  { subst dir. rewrite !len_app. unfold len. cbn [length]. lia. }
  assert (Lp : len path = len dir + len stem + len rest).
  { rewrite P. subst file. rewrite !len_app. lia. }
  pose proof (len_nonneg grand) as G0. pose proof (len_nonneg parent) as P0.
  pose proof (len_nonneg stem) as N0. pose proof (len_nonneg rest) as E0.
  assert (FN : rc_path_get_filename path 0 = len dir).
  { rewrite P. apply rc_path_get_filename_dir.
    - subst dir. destruct grand; destruct parent; discriminate.
    - rewrite <- P. exact Z.
    - subst dir. rewrite app_assoc. rewrite ends_with_app. exact S.
    - exact Nf. }
  assert (Plain : rc_hash_buffer cfg hash (drop (len dir) path) (len stem)
                  = rc_hash_buffer cfg hash stem (len stem)).
  { rewrite P, (drop_app_exact (len dir) dir file eq_refl). subst file.
    apply rc_hash_buffer_prefix. }
  unfold rc_hash_arcade. cbv zeta. rewrite (c_str_no_nul _ Z), FN, EX.
  replace (len dir + len stem + 1 - len dir - 1) with (len stem) by lia.
  rewrite (usize_small (len stem)) by lia. rewrite Plain.
  unfold arcade_title.
  destruct (Z.gtb_spec (len dir) (0 + 1)) as [D1|D1].
  - (* there is a parent folder, or the path starts two levels down *)
    assert (FO : arcade_folder_loop (Z.to_nat (len dir - 1)) path (len dir - 1)
                 = len grand).
    { rewrite arcade_folder_loop_filename.
      replace path with ((grand ++ parent) ++ sep :: file)
        by (subst path file; rewrite <- app_assoc; reflexivity).
      rewrite get_filename_loop_app by (rewrite len_app; lia).
      replace (len dir - 1) with (len grand + Z.of_nat (length parent))
        by (unfold len in *; lia).
      apply (get_filename_loop_spec grand parent G Np).
      - unfold len in *. lia.
      - lia.
      - destruct grand; [right | left; discriminate].
        destruct parent; [unfold len in *; cbn [length] in *; lia | cbn [length]; lia]. }
    rewrite FO.
    replace (len dir - len grand - 1) with (len parent) by lia.
    rewrite (usize_small (len parent)) by lia.
    replace path with (grand ++ parent ++ sep :: file) at 1
      by (subst path file; reflexivity).
    rewrite arcade_include_folder_spec.
    destruct (existsb (list_eqb parent) subsystem_folders); cbn [andb]; [|reflexivity].
    rewrite usize_small by lia.
    destruct (len parent + len stem + 1 <? 128); [|reflexivity].
    replace (drop (len grand) path) with (parent ++ sep :: file).
    2:{ subst path file. rewrite (drop_app_exact (len grand) grand _ eq_refl). reflexivity. }
    rewrite (take_app_exact (len parent) parent _ eq_refl).
    rewrite P, (drop_app_exact (len dir) dir file eq_refl). subst file.
    rewrite (take_app_exact (len stem) stem _ eq_refl).
    f_equal. rewrite !len_app. unfold len. cbn [length]. lia.
  - (* the path is a separator and the file *)
    assert (grand = [] /\ parent = []) as [-> ->].
    { destruct grand; destruct parent; unfold len in *; cbn [length] in *;
        try lia; split; reflexivity. }
    reflexivity.
Qed.

(** The arcade fingerprint is that of the file's name without directory and
    extension, behind the parent folder's name and an underscore when that
    folder is one of the thirteen subsystem folders (and the two together
    stay below 128 bytes): it depends on nothing else of the path, and on
    nothing of the file. *)
Theorem rc_hash_arcade_title :
  forall cfg hash grand parent sep name ext,
    let path := grand ++ parent ++ sep :: name ++ "."%byte :: ext in
    no_nul path = true -> len path < 18446744073709551616 ->
    is_separator sep = true -> ends_with is_separator grand = true ->
    no_separator parent = true -> no_separator name = true ->
    no_separator ext = true -> no_dot ext = true ->
    rc_hash_arcade cfg hash path
    = rc_hash_buffer cfg hash (arcade_title parent name) (len (arcade_title parent name)).
Proof.
  intros cfg hash grand parent sep name ext path Z B S G Np Nn Ne De.
  apply (rc_hash_arcade_core cfg hash grand parent sep name ("."%byte :: ext) Z B S G Np).
  - unfold no_separator in *. rewrite forallb_app. cbn [forallb].
    rewrite Nn, Ne. reflexivity.
  - replace (grand ++ parent ++ sep :: name ++ "."%byte :: ext)
      with ((grand ++ parent ++ [sep]) ++ name ++ "."%byte :: ext)
      by (rewrite <- !app_assoc; reflexivity).
    apply rc_path_get_extension_file; [|exact De].
    replace ((grand ++ parent ++ [sep]) ++ name ++ "."%byte :: ext) with path
      by (subst path; rewrite <- !app_assoc; reflexivity).
    exact Z.
Qed.

Lemma rc_hash_arcade_title_witness :
  rc_hash_arcade base_config stars (lit "roms/" ++ lit "nes" ++ "/"%byte :: lit "smb" ++ "."%byte :: lit "zip")
  = rc_hash_buffer base_config stars (lit "nes_smb") 7 /\
  rc_hash_arcade base_config stars (lit "roms/" ++ lit "mame" ++ "\"%byte :: lit "pacman" ++ "."%byte :: lit "7z")
  = rc_hash_buffer base_config stars (lit "pacman") 6.
Proof.
  split.
  - apply (rc_hash_arcade_title base_config stars (lit "roms/") (lit "nes") "/"
             (lit "smb") (lit "zip")); vm_compute; reflexivity.
  - apply (rc_hash_arcade_title base_config stars (lit "roms/") (lit "mame") "\"
             (lit "pacman") (lit "7z")); vm_compute; reflexivity.
Defined.

Lemma get_extension_loop_no_dot pre name :
  no_dot name = true ->
  forall k fuel, (k <= fuel)%nat -> (S k <= length name)%nat ->
  get_extension_loop fuel (pre ++ name) (len pre) (len pre + Z.of_nat (S k)) = None.
Proof.
  intros D.
  assert (N : forall j, (j < length name)%nat ->
              Byte.eqb (byte_at (pre ++ name) (len pre + Z.of_nat (S j) - 1)) "." = false).
  { intros j J. rewrite byte_at_app_r by lia. apply negb_true_iff.
    apply (byte_at_forallb (fun c => negb (Byte.eqb c ".")) _ _ D). unfold len. lia. }
  induction k as [|k IH]; intros fuel F K.
  - destruct fuel; cbn [get_extension_loop]; rewrite N by lia; [reflexivity|].
    destruct (Z.gtb_spec (len pre + Z.of_nat 1 - 1) (len pre)); [lia | reflexivity].
  - destruct fuel as [|fuel]; [lia|]. cbn [get_extension_loop]. rewrite N by lia.
    destruct (Z.gtb_spec (len pre + Z.of_nat (S (S k)) - 1) (len pre)); [|reflexivity].
    replace (len pre + Z.of_nat (S (S k)) - 1) with (len pre + Z.of_nat (S k)) by lia.
    apply IH; lia.
Qed.

(** A file name without a dot loses its last byte: [rc_hash_arcade] takes
    the end of the name for the start of its extension, and digests the
    name up to the byte before. *)
Theorem rc_hash_arcade_without_extension :
  forall cfg hash grand parent sep stem c,
    let path := grand ++ parent ++ sep :: stem ++ [c] in
    no_nul path = true -> len path < 18446744073709551616 ->
    is_separator sep = true -> ends_with is_separator grand = true ->
    no_separator parent = true -> no_separator (stem ++ [c]) = true ->
    no_dot (stem ++ [c]) = true ->
    rc_hash_arcade cfg hash path
    = rc_hash_buffer cfg hash (arcade_title parent stem) (len (arcade_title parent stem)).
Proof.
  intros cfg hash grand parent sep stem c path Z B Hs G Np Nf D.
  apply (rc_hash_arcade_core cfg hash grand parent sep stem [c] Z B Hs G Np Nf).
  set (dir := grand ++ parent ++ [sep]).
  assert (P : grand ++ parent ++ sep :: stem ++ [c] = dir ++ stem ++ [c])
    by (subst dir; rewrite <- !app_assoc; reflexivity).
  rewrite P. unfold rc_path_get_extension.
  rewrite (drop_app_exact (len dir) dir _ eq_refl).
  assert (Zf : no_nul (stem ++ [c]) = true).
  { fold path in P. rewrite P in Z. apply no_nul_app in Z. apply Z. }
  rewrite (strlen_no_nul _ Zf).
  replace (len dir + len (stem ++ [c])) with (len dir + Z.of_nat (S (length stem)))
    by (rewrite len_app; unfold len; cbn [length]; lia).
  rewrite (get_extension_loop_no_dot dir (stem ++ [c]) D).
  - unfold len. lia.
  - lia.
  - rewrite length_app. cbn [length]. lia.
Qed.

Lemma rc_hash_arcade_without_extension_witness :
  rc_hash_arcade base_config stars (lit "roms/" ++ lit "mame" ++ "/"%byte :: lit "pacma" ++ ["n"%byte])
  = rc_hash_buffer base_config stars (lit "pacma") 5.
Proof.
  apply (rc_hash_arcade_without_extension base_config stars (lit "roms/") (lit "mame") "/"
           (lit "pacma") "n"); vm_compute; reflexivity.
Defined.

(* ===================================================================== *)
(** * Files of a disc *)
(* ===================================================================== *)





(* ===================================================================== *)
(** * Entries of a playlist *)
(* ===================================================================== *)

Lemma suffix_refl a : suffix_of a a.
Proof. exists []. reflexivity. Qed.

Lemma suffix_trans a b c : suffix_of c b -> suffix_of b a -> suffix_of c a.
Proof. intros [p ->] [q ->]. exists (q ++ p). rewrite app_assoc. reflexivity. Qed.

Lemma suffix_cons c a : suffix_of a (c :: a).
Proof. exists [c]. reflexivity. Qed.

Lemma skip_line_suffix t : suffix_of (skip_line t) t.
Proof.
  induction t as [|c r IH]; cbn [skip_line]; [apply suffix_refl|].
  destruct (Byte.eqb c x0a); [apply suffix_cons|].
  eapply suffix_trans; [exact IH | apply suffix_cons].
Qed.

Lemma skip_comments_suffix n : forall t, suffix_of (skip_comments n t) t.
Proof.
  induction n as [|n IH]; intros t; cbn [skip_comments]; [apply suffix_refl|].
  destruct t as [|c r]; [apply suffix_refl|].
  destruct (Byte.eqb c "#" || Byte.eqb c x0d || Byte.eqb c x0a); [|apply suffix_refl].
  eapply suffix_trans; [apply IH | apply skip_line_suffix].
Qed.

(** Where the loop that skips comments stops, no comment starts, and no
    line that begins with a carriage return or is empty. *)
Lemma skip_comments_head n : forall t,
  (length t <= n)%nat ->
  match skip_comments n t with
  | [] => True
  | c :: _ => Byte.eqb c "#" || Byte.eqb c x0d || Byte.eqb c x0a = false
  end.
Proof.
  induction n as [|n IH]; intros t L; cbn [skip_comments].
  - destruct t; [exact I | cbn [length] in L; lia].
  - destruct t as [|c r]; [exact I|].
    destruct (Byte.eqb c "#" || Byte.eqb c x0d || Byte.eqb c x0a) eqn:E; [|exact E].
    apply IH. pose proof (skip_line_length (c :: r)) as S.
    cbn [skip_line] in *. cbn [length] in L.
    destruct (Byte.eqb c x0a); [lia|].
    pose proof (skip_line_length r). lia.
Qed.

Lemma line_of_split : forall p l n,
  line_of p = (l, n) -> p = l ++ n /\ no_newline l.
Proof.
  induction p as [|c r IH]; intros l n E; cbn [line_of] in E.
  - injection E as <- <-. split; reflexivity.
  - destruct (Byte.eqb c x0a) eqn:C.
    + injection E as <- <-. split; reflexivity.
    + destruct (line_of r) as [l' n'] eqn:R. injection E as <- <-.
      destruct (IH l' n' eq_refl) as [-> N]. split; [reflexivity|].
      unfold no_newline in *. cbn [forallb]. rewrite C, N. reflexivity.
Qed.

Lemma drop_spaces_suffix l : exists sp, l = sp ++ drop_spaces l.
Proof.
  induction l as [|c l [sp IH]]; cbn [drop_spaces]; [exists []; reflexivity|].
  destruct (isspace c); [|exists []; reflexivity].
  exists (c :: sp). cbn [app]. rewrite <- IH. reflexivity.
Qed.

Lemma drop_spaces_head l :
  match drop_spaces l with [] => True | c :: _ => isspace c = false end.
Proof.
  induction l as [|c l IH]; cbn [drop_spaces]; [exact I|].
  destruct (isspace c) eqn:E; [exact IH | exact E].
Qed.

(** Stripping leaves the start of a line, and no whitespace at its end. *)
Lemma strip_trailing_prefix line :
  (exists sp, line = strip_trailing line ++ sp) /\
  ends_with (fun c => negb (isspace c)) (strip_trailing line) = true.
Proof.
  unfold strip_trailing, ends_with. rewrite rev_involutive. split.
  - destruct (drop_spaces_suffix (rev line)) as [sp E].
    exists (rev sp). rewrite <- rev_app_distr, <- E, rev_involutive. reflexivity.
  - pose proof (drop_spaces_head (rev line)) as H.
    destruct (drop_spaces (rev line)); [reflexivity|]. rewrite H. reflexivity.
Qed.

(** The entry the loop of [rc_hash_get_first_item_from_playlist] finds is a
    piece of one line of the text. *)
Lemma first_playlist_line_shape : forall fuel text entry,
  first_playlist_line fuel text = Some entry ->
  (exists pre post, text = pre ++ entry ++ post) /\
  entry <> [] /\ no_newline entry /\
  is_comment entry = false /\ starts_with_cr entry = false /\
  ends_with (fun c => negb (isspace c)) entry = true.
Proof.
  induction fuel as [|fuel IH]; intros text entry E; [discriminate|].
  cbn [first_playlist_line] in E.
  pose proof (skip_comments_suffix (length text) text) as [p1 S1].
  pose proof (skip_comments_head (length text) text (le_n _)) as H1.
  destruct (line_of (skip_comments (length text) text)) as [line next] eqn:LO.
  apply line_of_split in LO. destruct LO as [S2 N2].
  destruct (strip_trailing_prefix line) as [[sp S3] T3].
  destruct (len (strip_trailing line) =? 0) eqn:Z; cbn [negb] in E.
  - destruct next as [|x after]; [discriminate|].
    destruct (IH after entry E) as ([pre [post P]] & R).
    split; [|exact R].
    exists (p1 ++ line ++ x :: pre), post.
    rewrite S1, S2, P. rewrite <- !app_assoc. reflexivity.
  - injection E as <-. set (e := strip_trailing line) in *.
    assert (Ne : e <> []).
    { intros C. rewrite C in Z. discriminate. }
    split; [|split; [exact Ne|split; [|split; [|split; [|exact T3]]]]].
    + exists p1, (sp ++ next). rewrite S1, S2, S3. rewrite <- !app_assoc. reflexivity.
    + unfold no_newline in *. rewrite S3, forallb_app in N2.
      apply andb_prop in N2. apply N2.
    + destruct e as [|c e']; [contradiction|].
      rewrite S2, S3 in H1. cbn [app] in H1. cbn [is_comment].
      destruct (Byte.eqb c "#"); [discriminate | reflexivity].
    + destruct e as [|c e']; [contradiction|].
      rewrite S2, S3 in H1. cbn [app] in H1. cbn [starts_with_cr].
      destruct (Byte.eqb c "#"), (Byte.eqb c x0d); try discriminate; reflexivity.
Qed.

Lemma no_nul_c_str s : no_nul (c_str s) = true.
Proof.
  unfold no_nul. apply forallb_forall. intros x I.
  pose proof (c_str_nonzero s) as F. rewrite Forall_forall in F.
  rewrite (F x I). reflexivity.
Qed.

(** Whatever [rc_hash_get_first_item_from_playlist] returns is an entry
    resolved against the playlist's directory; the entry is a piece of one
    line among the first 1023 bytes of the playlist: it is not empty, holds
    no newline and no NUL, does not start with '#' or a carriage return
    and does not end in whitespace.  Whitespace at its start stays. *)
Theorem playlist_entry_shape :
  forall cfg path w item,
    fst (rc_hash_get_first_item_from_playlist cfg path w) = Some item ->
    exists entry,
      item = resolve_entry path entry /\
      entry <> [] /\ len entry <= 1023 /\
      no_nul entry = true /\ no_newline entry /\
      is_comment entry = false /\ starts_with_cr entry = false /\
      ends_with (fun c => negb (isspace c)) entry = true.
Proof.
  intros cfg path w item E.
  unfold rc_hash_get_first_item_from_playlist, rc_file_open in E.
  destruct (files cfg (c_str path)) as [data|];
    [|unfold bind, ret, rc_hash_error in E; cbn [fst] in E; discriminate].
  unfold bind, ret, rc_file_read, rc_file_close, files_delta in E.
  cbn [fst snd fdata fpos] in E.
  change (drop 0 data) with data in E. change (1024 - 1) with 1023 in E.
  set (text := c_str (take 1023 data)) in *.
  destruct (first_playlist_line (S (length text)) text) as [entry|] eqn:F;
    [|discriminate].
  destruct (first_playlist_line_shape _ _ _ F) as ([pre [post P]] & Ne & Nl & C & R & T).
  exists entry.
  assert (Lt : len text <= 1023).
  { subst text. pose proof (c_str_length (take 1023 data)).
    pose proof (len_take 1023 data ltac:(lia)). unfold len in *. lia. }
  assert (Nt : no_nul text = true) by apply no_nul_c_str.
  split; [|split; [exact Ne|split; [|split; [|repeat split; assumption]]]].
  - unfold resolve_entry.
    destruct (malloc_ok cfg _); [|discriminate].
    cbn [fst] in E. injection E as <-.
    destruct (rc_hash_path_is_absolute entry); reflexivity.
  - rewrite P, !len_app in Lt. pose proof (len_nonneg pre). pose proof (len_nonneg post).
    lia.
  - rewrite P in Nt. apply no_nul_app in Nt. destruct Nt as [_ Nt].
    apply no_nul_app in Nt. apply Nt.
Qed.

Lemma playlist_entry_shape_witness :
  exists entry,
    lit "roms/game.rom" = resolve_entry (lit "roms/game.m3u") entry /\
    entry <> [] /\ len entry <= 1023 /\
    no_nul entry = true /\ no_newline entry /\
    is_comment entry = false /\ starts_with_cr entry = false /\
    ends_with (fun c => negb (isspace c)) entry = true.
Proof.
  apply (playlist_entry_shape playlist_files (lit "roms/game.m3u") world0
           (lit "roms/game.rom")).
  vm_compute. reflexivity.
Defined.

(* ===================================================================== *)
(** * Nintendo DS *)
(* ===================================================================== *)

Lemma u8_range b : 0 <= u8 b < 256.
Proof. split; [apply u8_nonneg | destruct b; reflexivity]. Qed.

Lemma lor_range n a b :
  0 <= a < 2 ^ n -> 0 <= b < 2 ^ n -> 0 <= Z.lor a b < 2 ^ n.
Proof.
  intros A B.
  assert (N : 0 <= Z.lor a b) by (apply Z.lor_nonneg; lia).
  split; [exact N |].
  destruct (Z.eq_dec (Z.lor a b) 0) as [E | E]; [lia |].
  destruct (Z.lt_ge_cases n 0) as [Hn | Hn].
  { rewrite Z.pow_neg_r in A by lia. lia. }
  apply Z.log2_lt_pow2; [lia |].
  rewrite Z.log2_lor by lia.
  assert (P : forall x, 0 <= x < 2 ^ n -> x <> 0 -> Z.log2 x < n)
    by (intros x X X0; apply Z.log2_lt_pow2; lia).
  destruct (Z.eq_dec a 0) as [A0 | A0], (Z.eq_dec b 0) as [B0 | B0].
  - subst. elim E. reflexivity.
  - subst a. rewrite Z.max_r by apply Z.log2_nonneg. apply P; lia.
  - subst b. rewrite Z.max_l by apply Z.log2_nonneg. apply P; lia.
  - apply Z.max_lub_lt; apply P; lia.
Qed.

Lemma le32_range l i : 0 <= le32 l i < 4294967296.
Proof.
  unfold le32, le24. change 4294967296 with (2 ^ 32).
  pose proof (u8_range (byte_at l i)).
  pose proof (u8_range (byte_at l (i + 1))).
  pose proof (u8_range (byte_at l (i + 2))).
  pose proof (u8_range (byte_at l (i + 3))).
  repeat apply lor_range; rewrite ?Z.shiftl_mul_pow2 by lia; lia.
Qed.

Lemma rc_file_seek_set data p a :
  0 <= a -> rc_file_seek {| fdata := data; fpos := p |} a SEEK_SET
            = {| fdata := data; fpos := a |}.
Proof.
  intros A. unfold rc_file_seek. cbn [fdata].
  destruct (Z.ltb_spec a 0); [lia | reflexivity].
Qed.

Lemma rc_file_read_slice data a n :
  rc_file_read {| fdata := data; fpos := a |} n
  = (slice data a n, {| fdata := data; fpos := a + len (slice data a n) |}).
Proof. reflexivity. Qed.

Lemma len_slice data a n :
  0 <= a -> 0 <= n -> a + n <= len data -> len (slice data a n) = n.
Proof.
  intros A N L. unfold slice. rewrite len_take, len_drop by lia. lia.
Qed.

Lemma store_take buffer data :
  len data <= len buffer -> take (len data) (store buffer data) = data.
Proof. intros _. unfold store. apply take_app_exact. reflexivity. Qed.

Lemma hash_size_max s9 s7 :
  (if s7 >? (if s9 >? 2560 then s9 else 2560) then s7
   else if s9 >? 2560 then s9 else 2560)
  = Z.max 2560 (Z.max s9 s7).
Proof.
  destruct (Z.gtb_spec s9 2560); destruct (Z.gtb_spec s7 s9);
    destruct (Z.gtb_spec s7 2560); lia.
Qed.

Lemma icon_block buf d :
  len d <= 2560 ->
  take 2560 (if len d <? 2560
             then take (len d) (store buf d)
                  ++ repeat x00 (Z.to_nat (2560 - len d))
                  ++ drop 2560 (store buf d)
             else store buf d)
  = d ++ repeat x00 (Z.to_nat (2560 - len d)).
Proof.
  intros D. pose proof (len_nonneg d) as N.
  destruct (Z.ltb_spec (len d) 2560) as [C | C].
  - unfold store at 1. rewrite (take_app_exact _ d _) by reflexivity.
    rewrite app_assoc. apply take_app_exact.
    rewrite len_app, len_repeat by lia. lia.
  - replace (2560 - len d) with 0 by lia. change (Z.to_nat 0) with 0%nat.
    cbn [repeat]. rewrite app_nil_r. unfold store. apply take_app_exact. lia.
Qed.

(** The digest of a Nintendo DS image.  When the image holds its
    512-byte header (behind a SuperCard header, if it has one), the two code
    sizes add up to at most 16 MB, the buffer can be allocated and both code
    blocks lie within the image (all positions below 2^32, where the code's
    32-bit sums are exact), the recipe succeeds with the fingerprint of: the
    first 352 bytes of the header, the ARM9 code, the ARM7 code, and 2560
    bytes of icon, zeros standing for what the image lacks of them.  It
    reports no error and leaves no file open. *)
Theorem rc_hash_nintendo_ds_layout :
  forall cfg hash path data w,
    let header := nds_header data in
    let offset := nds_offset data in
    let arm9_size := le32 header 44 in
    let arm7_size := le32 header 60 in
    files cfg (c_str path) = Some data ->
    len header = 512 ->
    arm9_size + arm7_size <= 16777216 ->
    malloc_ok cfg (Z.max 2560 (Z.max arm9_size arm7_size)) = true ->
    le32 header 32 + offset + arm9_size <= len data ->
    le32 header 48 + offset + arm7_size <= len data ->
    len data < 4294967296 ->
    le32 header 104 + offset < 4294967296 ->
    rc_hash_nintendo_ds cfg hash path w
    = (rc_hash_finalize cfg (nds_message data) hash, w).
Proof.
  intros cfg hash path data w header offset arm9_size arm7_size
         F L S M A9 A7 LD I.
  subst header offset arm9_size arm7_size.
  assert (O : 0 <= nds_offset data <= 512)
    by (unfold nds_offset; destruct (is_supercard _); lia).
  assert (L0 : nds_offset data + 512 <= len data).
  { unfold nds_header, slice in L. rewrite len_take, len_drop in L by lia. lia. }
  assert (T : len (take 512 data) = 512) by (rewrite len_take by lia; lia).
  unfold nds_message.
  unfold rc_hash_nintendo_ds at 1. unfold rc_file_open. rewrite F.
  unfold bind at 1. unfold bind at 1.
  pose proof (files_delta_round w) as R.
  destruct (files_delta 1 w) as [u w1] eqn:W1. unfold ret at 1.
  cbn [snd] in R.
  rewrite rc_file_seek_set by lia.
  rewrite rc_file_read_slice.
  change (slice data 0 512) with (take 512 data).
  rewrite T. change (negb (512 =? 512)) with false. cbv iota.
  rewrite (store_full (fresh cfg 512) (take 512 data))
    by (rewrite len_fresh by lia; lia).
  change (mem_eq (take 512 data) 0 [x2e; x00; x00; xea]
          && mem_eq (take 512 data) 176 [x44; x46; x96; x00])
    with (is_supercard (take 512 data)).
  assert (HD : nds_header data
               = if is_supercard (take 512 data)
                 then store (take 512 data) (slice data 512 512)
                 else store (take 512 data) []).
  { unfold nds_header, nds_offset. destruct (is_supercard (take 512 data)) eqn:SC.
    - symmetry. apply store_full. rewrite T. unfold nds_header, nds_offset in L.
      rewrite SC in L. exact (eq_sym L).
    - reflexivity. }
  assert (HO : nds_offset data = if is_supercard (take 512 data) then 512 else 0)
    by reflexivity.
  pose proof (le32_range (nds_header data) 32) as R32.
  pose proof (le32_range (nds_header data) 44) as R44.
  pose proof (le32_range (nds_header data) 48) as R48.
  pose proof (le32_range (nds_header data) 60) as R60.
  pose proof (le32_range (nds_header data) 104) as R104.
  destruct (is_supercard (take 512 data)) eqn:SC;
    rewrite ?rc_file_seek_set, ?rc_file_read_slice by lia; cbv iota;
    rewrite <- HD; clear HD; rewrite HO in *; clear HO;
    rewrite hash_size_max, M;
    rewrite (u32_small (_ + _)) by lia;
    (destruct (Z.gtb_spec (le32 (nds_header data) 44 + le32 (nds_header data) 60)
                          (16 * 1024 * 1024)) as [G | G]; [lia |]);
    cbv beta iota delta [negb];
    rewrite !to_int_small by lia; rewrite !usize_small by lia;
    repeat (rewrite rc_file_seek_set by lia; rewrite rc_file_read_slice; cbv iota);
    unfold bind, ret, rc_file_close;
    (destruct (files_delta (-1) w1) as [u2 w2]; cbn [snd] in R; subst w2);
    f_equal; f_equal;
    unfold md5_append, md5_init; rewrite app_nil_l, <- !app_assoc;
    f_equal;
    match goal with
    | |- take _ (store ?b ?d) ++ _ = _ =>
        rewrite (take_app_exact _ d (skipn (length d) b))
          by (apply len_slice; lia)
    end;
    f_equal;
    match goal with
    | |- take _ (store ?b ?d) ++ _ = _ =>
        rewrite (take_app_exact _ d (skipn (length d) b))
          by (apply len_slice; lia)
    end;
    f_equal;
    apply icon_block; unfold slice; rewrite len_take by lia; lia.
Qed.

Lemma rc_hash_nintendo_ds_layout_witness :
  rc_hash_nintendo_ds small_nds stars (lit "small.nds") world0
  = (rc_hash_finalize small_nds (nds_message small_nds_image) stars, world0).
Proof.
  apply (rc_hash_nintendo_ds_layout small_nds stars (lit "small.nds")
           small_nds_image world0);
    try reflexivity; vm_compute; congruence.
Defined.

(* ===================================================================== *)
(** * The candidates of an iterator *)
(* ===================================================================== *)

Lemma zlist_eqb_eq a : forall b, zlist_eqb a b = true -> a = b.
Proof.
  induction a as [|x a IH]; intros [|y b] H; cbn [zlist_eqb] in H;
    try discriminate; [reflexivity|].
  apply andb_prop in H. destruct H as [E H]. apply Z.eqb_eq in E.
  rewrite E, (IH b H). reflexivity.
Qed.

Lemma nodupb_NoDup l : nodupb l = true -> NoDup l.
Proof.
  induction l as [|x l IH]; intros H; [constructor|].
  cbn [nodupb] in H. apply andb_prop in H. destruct H as [N H].
  constructor; [|exact (IH H)].
  intros I. apply negb_true_iff in N.
  assert (T : existsb (Z.eqb x) l = true)
    by (apply existsb_exists; exists x; split; [exact I | apply Z.eqb_refl]).
  congruence.
Qed.

Lemma candidates_ok_spec cs :
  candidates_ok cs = true ->
  cs = until_zero cs ++ repeat 0 (12 - length (until_zero cs)) /\
  (length (until_zero cs) <= 7)%nat /\ NoDup (until_zero cs) /\
  (forall c, In c (until_zero cs) -> In c iterator_consoles).
Proof.
  unfold candidates_ok. cbv zeta. intros H.
  apply andb_prop in H. destruct H as [H F].
  apply andb_prop in H. destruct H as [H N].
  apply andb_prop in H. destruct H as [E L].
  split; [exact (zlist_eqb_eq _ _ E)|].
  split; [apply Nat.leb_le, L|].
  split; [exact (nodupb_NoDup _ N)|].
  intros c I. rewrite forallb_forall in F. specialize (F c I).
  unfold one_of in F. apply existsb_exists in F. destruct F as (x & Ix & Ex).
  apply Z.eqb_eq in Ex. subst x. exact Ix.
Qed.

(** How a walk ends where only the array of consoles is looked at. *)
Ltac cand_leaf :=
  cbv beta; cbn [fst snd];
  repeat match goal with
         | |- context [if ?c then _ else _] => destruct c
         end;
  first [assumption | vm_compute; reflexivity].



Lemma Post_dsk_candidates cfg it path :
  consoles it = repeat 0 12 ->
  Post (rc_hash_initialize_dsk_iterator cfg it path)
       (fun it' _ _ => candidates_ok (consoles it') = true).
Proof.
  destruct it as [b bs cs i p]. cbn [consoles]. intros ->.
  unfold rc_hash_initialize_dsk_iterator. cbv zeta.
  repeat post_step_with kept_facade cand_leaf.
Qed.

Lemma Post_classify_candidates cfg it path size need :
  consoles it = repeat 0 12 ->
  Post (rc_hash_iterator_classify cfg it path size need)
       (fun r _ _ => candidates_ok (consoles (fst r)) = true).
Proof.
  intros B. pose proof (Post_dsk_candidates cfg it path B) as D.
  destruct it as [b bs cs i p]. cbn [consoles] in B. subst cs.
  unfold rc_hash_iterator_classify. cbv zeta.
  repeat first
    [ match goal with
      | |- Post (bind (rc_hash_initialize_dsk_iterator _ _ _) _) _ =>
          eapply Post_bind; [exact D | intros ? ? ? ?]; cbv beta
      end
    | post_step_with kept_facade cand_leaf ].
Qed.

Lemma Post_conj {A} (m : M A) (Q1 Q2 : A -> Z -> Z -> Prop) :
  Post m Q1 -> Post m Q2 -> Post m (fun a f t => Q1 a f t /\ Q2 a f t).
Proof. intros H1 H2 w. split; [apply H1 | apply H2]. Qed.

Lemma Post_any {A} (m : M A) : Post m (fun _ _ _ => True).
Proof. intros w. exact I. Qed.

(** The loop over playlists hands on an untouched array, or a classified
    one; the index stays at the start. *)
Lemma Post_loop_candidates cfg size need :
  forall fuel it path,
    consoles it = repeat 0 12 -> index it = 0 ->
    Post (rc_hash_initialize_iterator_loop fuel cfg it path size need)
         (fun r _ _ =>
            match r with
            | None => True
            | Some (Returned it') => consoles it' = repeat 0 12 /\ index it' = 0
            | Some (Classified it' _ _) =>
                candidates_ok (consoles it') = true /\ index it' = 0
            end).
Proof.
  induction fuel as [|fuel IH]; intros it path B I;
    cbn [rc_hash_initialize_iterator_loop]; destruct (path_is_m3u path).
  - eapply Post_bind; [apply Post_any | intros [d|] ? ? _]; apply Post_ret;
      [exact Logic.I | split; assumption].
  - eapply Post_bind;
      [apply Post_conj; [apply Post_classify_candidates; exact B | apply Post_classify]
      | intros r f t [C (_ & _ & S & _)]].
    apply Post_ret. split; [exact C|].
    destruct S as (_ & _ & Si & _). cbn [fst] in *. congruence.
  - eapply Post_bind; [apply Post_any | intros [d|] ? ? _].
    + apply (IH (set_path (set_buffer it None) (Some d)) d); assumption.
    + apply Post_ret. split; assumption.
  - eapply Post_bind;
      [apply Post_conj; [apply Post_classify_candidates; exact B | apply Post_classify]
      | intros r f t [C (_ & _ & S & _)]].
    apply Post_ret. split; [exact C|].
    destruct S as (_ & _ & Si & _). cbn [fst] in *. congruence.
Qed.

Lemma candidates_ok_default cs :
  candidates_ok cs = true ->
  candidates_ok (if nth 0 cs 0 =? 0 then upd cs 0 RC_CONSOLE_GAMEBOY else cs) = true.
Proof.
  intros H. destruct cs as [|c r]; [vm_compute in H; discriminate|].
  cbn [nth]. destruct (c =? 0) eqn:E; [|exact H].
  apply candidates_ok_spec in H. destruct H as [H _].
  cbn [until_zero] in H. rewrite E in H. rewrite H. vm_compute. reflexivity.
Qed.

Lemma Post_initialize_candidates fuel cfg path_arg buffer_arg size :
  Post (rc_hash_initialize_iterator fuel cfg path_arg buffer_arg size)
       (fun r _ _ =>
          match r with
          | None => True
          | Some it => candidates_ok (consoles it) = true /\ index it = 0
          end).
Proof.
  unfold rc_hash_initialize_iterator. cbv zeta.
  eapply Post_bind; [apply Post_loop_candidates; reflexivity|].
  intros [[it | it p need]|] f t H; cbv beta iota; apply Post_ret.
  - destruct H as [H I]. rewrite H. split; [vm_compute; reflexivity | exact I].
  - destruct H as [H I].
    set (it1 := match path it with
                | None => if need then set_path it (Some (c_str p)) else it
                | Some _ => it
                end).
    assert (C1 : consoles it1 = consoles it)
      by (subst it1; destruct (path it), need; reflexivity).
    assert (I1 : index it1 = 0)
      by (subst it1; destruct (path it), need; exact I).
    pose proof (candidates_ok_default _ H) as D. rewrite <- C1 in D.
    unfold console_at. change (0 <? 0) with false. cbv iota.
    change (Z.to_nat 0) with 0%nat.
    destruct (nth 0 (consoles it1) 0 =? 0); split; assumption.
  - exact I.
Qed.

(** What [rc_hash_initialize_iterator] leaves in the array of consoles: its
    candidates, at most seven of the twelve slots, no console twice, each
    one of the thirty-four consoles the function names, and zeros in every
    slot behind them.  So the walk of [rc_hash_iterate], which stops at the
    first zero, ends inside the array. *)
Theorem rc_hash_initialize_iterator_array :
  forall fuel cfg path_arg buffer_arg size w it w',
    rc_hash_initialize_iterator fuel cfg path_arg buffer_arg size w = (Some it, w') ->
    consoles it = candidates it ++ repeat 0 (12 - length (candidates it)) /\
    (length (candidates it) <= 7)%nat /\ NoDup (candidates it) /\
    (forall c, In c (candidates it) -> In c iterator_consoles).
Proof.
  intros fuel cfg path_arg buffer_arg size w it w' E.
  pose proof (Post_initialize_candidates fuel cfg path_arg buffer_arg size w) as H.
  rewrite E in H. cbn [fst] in H. destruct H as [H I].
  unfold candidates. rewrite I. change (Z.to_nat 0) with 0%nat. cbn [skipn].
  apply candidates_ok_spec, H.
Qed.

Lemma rc_hash_initialize_iterator_array_witness :
  consoles chd_iterator
  = candidates chd_iterator ++ repeat 0 (12 - length (candidates chd_iterator)) /\
  (length (candidates chd_iterator) <= 7)%nat /\ NoDup (candidates chd_iterator) /\
  (forall c, In c (candidates chd_iterator) -> In c iterator_consoles).
Proof.
  apply (rc_hash_initialize_iterator_array 1 base_config (lit "game.chd") None 0
           world0 chd_iterator world0).
  vm_compute. reflexivity.
Defined.

(* ===================================================================== *)
(** * Consoles without a file recipe *)
(* ===================================================================== *)

(** For a console [rc_hash_generate_from_file] has no case for, it returns
    0 at once: the output stays as it was, the number of the console goes
    to the error sink, and neither a file nor a track is opened.  Sharp X1
    and Thomson TO8, which [rc_hash_initialize_iterator] proposes, are such
    consoles. *)
Theorem rc_hash_generate_from_file_unsupported :
  forall fuel cfg hash console_id path w,
    one_of console_id file_consoles = false ->
    rc_hash_generate_from_file fuel cfg hash console_id path w
    = (Some (0, hash),
       with_error cfg w ("Unsupported console for file hash: " ++ dec console_id)).
Proof.
  intros fuel cfg hash console_id path w S.
  unfold one_of, file_consoles, whole_file_consoles in S. cbn [app existsb] in S.
  repeat match type of S with
         | (_ =? _) || _ = false =>
             apply orb_false_elim in S;
             let A := fresh "A" in destruct S as [A S]
         end.
  destruct fuel; cbn [rc_hash_generate_from_file]; cbv zeta;
    unfold one_of, whole_file_consoles; cbn [existsb];
    repeat match goal with
           | A : (console_id =? ?c) = false |- _ => rewrite ?A; clear A
           end;
    cbn [orb]; unfold bind, ret, rc_hash_error, with_error, add_errors;
    destruct (error_message_callback cfg); reflexivity.
Qed.

Lemma rc_hash_generate_from_file_unsupported_witness :
  rc_hash_generate_from_file 1 base_config stars RC_CONSOLE_SHARPX1 (lit "game.2d") world0
  = (Some (0, stars),
     with_error base_config world0
       ("Unsupported console for file hash: " ++ dec RC_CONSOLE_SHARPX1))
  /\
  rc_hash_generate_from_file 1 base_config stars RC_CONSOLE_THOMSONTO8 (lit "game.k7") world0
  = (Some (0, stars),
     with_error base_config world0
       ("Unsupported console for file hash: " ++ dec RC_CONSOLE_THOMSONTO8)).
Proof.
  split.
  - apply (rc_hash_generate_from_file_unsupported 1 base_config stars RC_CONSOLE_SHARPX1
             (lit "game.2d") world0).
    reflexivity.
  - apply (rc_hash_generate_from_file_unsupported 1 base_config stars
             RC_CONSOLE_THOMSONTO8 (lit "game.k7") world0).
    reflexivity.
Defined.

(* ===================================================================== *)
(** * Sega CD and Saturn *)
(* ===================================================================== *)

(** The fingerprint of a Sega CD or Saturn disc is that of the first 512
    bytes of sector 0 of its first track, and of nothing else on the disc:
    when these are read in full, the recipe succeeds exactly when they
    start with one of the two system marks. *)
Theorem rc_hash_sega_cd_header :
  forall cfg r ot rd hash path w,
    cdreader cfg = Some r -> open_track r = Some ot -> read_sector r = Some rd ->
    let h := ot (c_str path) 1 in
    let header := take 512 (rd h 0 512) in
    h <> 0 -> len header = 512 ->
    fst (rc_hash_sega_cd cfg hash path w)
    = if mem_eq header 0 (lit "SEGADISCSYSTEM  ")
         || mem_eq header 0 (lit "SEGA SEGASATURN ")
      then rc_hash_finalize cfg header hash
      else (0, hash).
Proof.
  intros cfg r ot rd hash path w Hc Ho Hr h header Hh Hl.
  unfold rc_hash_sega_cd, rc_cd_open_track, rc_cd_read_sector, rc_cd_close_track.
  rewrite Hc, Ho, Hr. cbv zeta.
  change (ot (c_str path) 1) with h.
  assert (B : rc_hash_buffer cfg hash header 512 = rc_hash_finalize cfg header hash).
  { unfold rc_hash_buffer. cbv zeta. change (512 >? MAX_BUFFER_SIZE) with false.
    cbv iota. change (to_int 512) with 512. unfold md5_append, md5_init.
    rewrite app_nil_l, take_all by lia. reflexivity. }
  pose proof (store_full (fresh cfg 512) header) as St.
  rewrite len_fresh in St by lia. specialize (St (eq_sym Hl)).
  assert (E : (h =? 0) = false) by (apply Z.eqb_neq, Hh).
  rewrite E. unfold bind, ret, tracks_delta, log_sector_read, rc_hash_error.
  cbv beta iota. rewrite E. cbv beta iota.
  change (u32 0) with 0. change (take 512 (rd h 0 512)) with header.
  rewrite St, B.
  destruct (mem_eq header 0 (lit "SEGADISCSYSTEM  "));
    destruct (mem_eq header 0 (lit "SEGA SEGASATURN "));
    cbn [negb andb orb];
    destruct (close_track r); reflexivity.
Qed.

Lemma rc_hash_sega_cd_header_witness :
  fst (rc_hash_sega_cd sega_cd_disc stars (lit "game.cue") world0)
  = rc_hash_finalize sega_cd_disc
      (take 512 (pad 2048 (lit "SEGADISCSYSTEM  SEGAIPSAMP "))) stars.
Proof.
  apply (rc_hash_sega_cd_header sega_cd_disc
           (disc_reader (fun track => if track =? 1 then 1 else 0)
              (fun h sector =>
                 if (h =? 1) && (sector =? 0)
                 then pad 2048 (lit "SEGADISCSYSTEM  SEGAIPSAMP ")
                 else []))
           (fun _ track => if track =? 1 then 1 else 0)
           (fun h sector _ =>
              if (h =? 1) && (sector =? 0)
              then pad 2048 (lit "SEGADISCSYSTEM  SEGAIPSAMP ")
              else [])
           stars (lit "game.cue") world0 eq_refl eq_refl eq_refl).
  - vm_compute. discriminate.
  - vm_compute. reflexivity.
Defined.

(* ===================================================================== *)
(** * The boot line of SYSTEM.CNF *)
(* ===================================================================== *)

Ltac len_norm := unfold len; repeat (progress (rewrite ?length_app; cbn [length])); lia.

Ltac app_norm := repeat (progress (rewrite <- ?app_assoc; cbn [app])); reflexivity.

Lemma byte_at_mid pre c rest : byte_at (pre ++ c :: rest) (len pre) = c.
Proof.
  rewrite byte_at_app_r by lia. rewrite Z.sub_diag. reflexivity.
Qed.

Lemma scan_while_run p c tail :
  p c = false ->
  forall run fuel pre,
    (length run < fuel)%nat -> forallb p run = true ->
    scan_while fuel p (pre ++ run ++ c :: tail) (len pre) = len pre + len run.
Proof.
  intros T. induction run as [|x run IH]; intros fuel pre F R.
  - cbn [app len length]. rewrite Z.add_0_r.
    destruct fuel as [|fuel]; [reflexivity|]. cbn [scan_while].
    rewrite byte_at_mid, T. reflexivity.
  - cbn [forallb] in R. apply andb_prop in R. destruct R as [X R].
    destruct fuel as [|fuel]; [cbn [length] in F; lia|].
    cbn [scan_while]. cbn [app]. rewrite byte_at_mid, X.
    replace (pre ++ x :: run ++ c :: tail) with ((pre ++ [x]) ++ run ++ c :: tail)
      by app_norm.
    replace (len pre + 1) with (len (pre ++ [x])) by len_norm.
    rewrite IH; [len_norm | cbn [length] in F; lia | exact R].
Qed.

Lemma scan_run p buffer ptr pre run c tail :
  buffer = pre ++ run ++ c :: tail -> ptr = len pre ->
  forallb p run = true -> p c = false ->
  scan p buffer ptr = ptr + len run.
Proof.
  intros -> -> R T. unfold scan. apply scan_while_run; [exact T | | exact R].
  unfold len. rewrite !length_app. cbn [length]. lia.
Qed.

Lemma strncmp_eq_prefix key rest : strncmp_eq (key ++ rest) key = true.
Proof.
  induction key as [|c key IH]; [destruct rest; reflexivity|].
  cbn [app strncmp_eq]. rewrite byte_eqb_refl, IH. reflexivity.
Qed.

Lemma strncmp_eq_at buffer ptr pre key rest :
  buffer = pre ++ key ++ rest -> ptr = len pre ->
  strncmp_eq (drop ptr buffer) key = true.
Proof.
  intros -> ->. rewrite drop_app_exact by reflexivity. apply strncmp_eq_prefix.
Qed.

Lemma byte_at_at buffer ptr pre c rest :
  buffer = pre ++ c :: rest -> ptr = len pre -> byte_at buffer ptr = c.
Proof. intros -> ->. apply byte_at_mid. Qed.

(** The scan of [rc_hash_find_playstation_executable] on a text whose first
    line assigns the boot executable: where the name starts and ends. *)
Lemma find_boot_line_first fuel key ws1 ws2 prefix name t rest :
  key <> [] -> no_nul key = true ->
  forallb isspace ws1 = true -> forallb isspace ws2 = true ->
  forallb (fun c => negb (isspace c)) prefix = true ->
  forallb is_name_byte name = true -> is_name_byte t = false ->
  let start := len key + len ws1 + 1 + len ws2 + len prefix + 1 in
  find_boot_line (S fuel) (boot_line key ws1 ws2 prefix name t ++ rest) 0 key prefix
  = Some (start, start + len name).
Proof.
  intros K Z W1 W2 P N T start.
  set (buffer := boot_line key ws1 ws2 prefix name t ++ rest).
  assert (B : buffer = key ++ ws1 ++ "="%byte :: ws2 ++ prefix ++ "\"%byte :: name ++ t :: rest)
    by (unfold buffer, boot_line; app_norm).
  cbn [find_boot_line].
  assert (A0 : Byte.eqb (byte_at buffer 0) x00 = false).
  { rewrite B. destruct key as [|k key]; [contradiction|].
    cbn [no_nul forallb] in Z. unfold no_nul in Z. cbn [forallb] in Z.
    apply andb_prop in Z. destruct Z as [Z _]. apply negb_true_iff in Z. exact Z. }
  rewrite A0.
  rewrite (strncmp_eq_at buffer 0 [] key
             (ws1 ++ "="%byte :: ws2 ++ prefix ++ "\"%byte :: name ++ t :: rest) B eq_refl).
  rewrite Z.add_0_l.
  rewrite (scan_run isspace buffer (len key) key ws1 "="%byte
             (ws2 ++ prefix ++ "\"%byte :: name ++ t :: rest) B eq_refl W1 eq_refl).
  rewrite (byte_at_at buffer (len key + len ws1) (key ++ ws1) "="%byte
             (ws2 ++ prefix ++ "\"%byte :: name ++ t :: rest))
    by (first [rewrite B; app_norm | len_norm]).
  change (Byte.eqb "="%byte "="%byte) with true. cbv iota.
  assert (A4 : scan isspace buffer (len key + len ws1 + 1)
               = len key + len ws1 + 1 + len ws2).
  { destruct prefix as [|c prefix].
    - apply (scan_run isspace buffer _ (key ++ ws1 ++ ["="%byte]) ws2 "\"%byte
               (name ++ t :: rest));
        [rewrite B; app_norm | len_norm | exact W2 | reflexivity].
    - cbn [forallb] in P. apply andb_prop in P. destruct P as [P _].
      apply negb_true_iff in P.
      apply (scan_run isspace buffer _ (key ++ ws1 ++ ["="%byte]) ws2 c
               (prefix ++ "\"%byte :: name ++ t :: rest));
        [rewrite B; app_norm | len_norm | exact W2 | exact P]. }
  rewrite A4.
  rewrite (strncmp_eq_at buffer (len key + len ws1 + 1 + len ws2)
             (key ++ ws1 ++ "="%byte :: ws2) prefix ("\"%byte :: name ++ t :: rest))
    by (first [rewrite B; app_norm | len_norm]).
  rewrite (byte_at_at buffer (len key + len ws1 + 1 + len ws2 + len prefix)
             (key ++ ws1 ++ "="%byte :: ws2 ++ prefix) "\"%byte (name ++ t :: rest))
    by (first [rewrite B; app_norm | len_norm]).
  change (Byte.eqb "\"%byte "\"%byte) with true. cbv iota.
  fold start.
  rewrite (scan_run (fun c => negb (isspace c) && negb (Byte.eqb c ";")) buffer start
             (key ++ ws1 ++ "="%byte :: ws2 ++ prefix ++ ["\"%byte]) name t rest);
    [ reflexivity | rewrite B; app_norm | subst start; len_norm | exact N | exact T ].
Qed.

(** When SYSTEM.CNF is found and its first line assigns the boot key (the
    key, an equals sign with any whitespace around it, the drive prefix, a
    backslash, a name ended by whitespace or a semicolon),
    [rc_hash_find_playstation_executable] writes the name, cut to 63 bytes,
    to [exe_name] as a C string and returns what [rc_cd_find_file_sector]
    finds for it: whatever follows the name in the file has no influence. *)
Theorem rc_hash_find_playstation_executable_boot :
  forall cfg r rd h key prefix exe_name ws1 ws2 name t rest w,
    cdreader cfg = Some r -> read_sector r = Some rd ->
    let found := rc_cd_find_file_sector cfg h (lit "SYSTEM.CNF") w in
    let sector := fst (fst found) in
    sector <> 0 ->
    take 2047 (rd h (u32 sector) 2047) = boot_line key ws1 ws2 prefix name t ++ rest ->
    key <> [] -> no_nul key = true ->
    forallb isspace ws1 = true -> forallb isspace ws2 = true ->
    forallb (fun c => negb (isspace c)) prefix = true ->
    forallb is_name_byte name = true -> is_name_byte t = false ->
    let exe := store exe_name (take 63 name ++ [x00]) in
    rc_hash_find_playstation_executable cfg h key prefix exe_name 64 w
    = (r <- rc_cd_find_file_sector cfg h exe ;; ret (fst r, exe, snd r))
        (snd (rc_cd_read_sector cfg h sector 2047 (snd found))).
Proof.
  intros cfg r rd h key prefix exe_name ws1 ws2 name t rest w Hc Hr found sector
         Hs Ht K Z W1 W2 P N T exe.
  unfold rc_hash_find_playstation_executable. unfold bind at 1.
  fold found. destruct found as [[s sz] w1] eqn:F. cbn [fst snd] in *. subst sector.
  destruct (Z.eqb_spec s 0) as [E|_]; [contradiction|].
  unfold bind at 1.
  pose proof (rc_cd_read_sector_hook cfg r rd h s 2047 w1 Hc Hr) as R.
  change (2048 - 1) with 2047.
  destruct (rc_cd_read_sector cfg h s 2047 w1) as [data w2]. cbn [fst snd] in *.
  rewrite Ht in R. subst data.
  set (text := boot_line key ws1 ws2 prefix name t ++ rest).
  assert (L : len text <= 2047).
  { unfold text. rewrite <- Ht. rewrite len_take by lia. lia. }
  assert (TK : take (len text) (store (fresh cfg 2048) text) = text)
    by (unfold store; apply take_app_exact; reflexivity).
  rewrite !TK.
  set (tail := drop (len text + 1) (store (fresh cfg 2048) text)).
  replace (text ++ [x00] ++ tail)
    with (boot_line key ws1 ws2 prefix name t ++ rest ++ x00 :: tail)
    by (unfold text; rewrite <- app_assoc; reflexivity).
  change 2048%nat with (S 2047).
  rewrite (find_boot_line_first 2047 key ws1 ws2 prefix name t (rest ++ x00 :: tail)
             K Z W1 W2 P N T).
  cbv zeta.
  set (start := len key + len ws1 + 1 + len ws2 + len prefix + 1).
  pose proof (len_nonneg name) as Ln.
  assert (Lt : len (boot_line key ws1 ws2 prefix name t) = start + len name + 1)
    by (unfold boot_line; subst start; len_norm).
  assert (Ltx : len text = len (boot_line key ws1 ws2 prefix name t) + len rest)
    by (unfold text; apply len_app).
  pose proof (len_nonneg rest). pose proof (len_nonneg key).
  pose proof (len_nonneg ws1). pose proof (len_nonneg ws2). pose proof (len_nonneg prefix).
  replace (start + len name - start) with (len name) by lia.
  rewrite (u32_small (len name)) by lia.
  assert (D : drop start (boot_line key ws1 ws2 prefix name t ++ rest ++ x00 :: tail)
              = name ++ t :: rest ++ x00 :: tail).
  { replace (boot_line key ws1 ws2 prefix name t ++ rest ++ x00 :: tail)
      with ((key ++ ws1 ++ "="%byte :: ws2 ++ prefix ++ ["\"%byte])
            ++ name ++ t :: rest ++ x00 :: tail)
      by (unfold boot_line; app_norm).
    apply drop_app_exact. subst start. len_norm. }
  rewrite D.
  assert (C : take (if len name >=? 64 then 64 - 1 else len name)
                (name ++ t :: rest ++ x00 :: tail) = take 63 name).
  { destruct (Z.geb_spec (len name) 64) as [G|G].
    - change (64 - 1) with 63. apply take_app_le. lia.
    - rewrite take_app_exact by reflexivity. symmetry. apply take_all. lia. }
  rewrite C. reflexivity.
Qed.

Lemma rc_hash_find_playstation_executable_boot_witness :
  rc_hash_find_playstation_executable psx_disc 7 (lit "BOOT") (lit "cdrom:")
    (repeat x00 64) 64 world0
  = (r <- rc_cd_find_file_sector psx_disc 7
            (store (repeat x00 64) (take 63 (lit "SLUS_000.01") ++ [x00])) ;;
     ret (fst r, store (repeat x00 64) (take 63 (lit "SLUS_000.01") ++ [x00]), snd r))
      (snd (rc_cd_read_sector psx_disc 7
              (fst (fst (rc_cd_find_file_sector psx_disc 7 (lit "SYSTEM.CNF") world0)))
              2047
              (snd (rc_cd_find_file_sector psx_disc 7 (lit "SYSTEM.CNF") world0)))).
Proof.
  apply (rc_hash_find_playstation_executable_boot psx_disc psx_reader
           (fun h sector _ => psx_sectors h sector) 7 (lit "BOOT") (lit "cdrom:")
           (repeat x00 64) (lit " ") (lit " ") (lit "SLUS_000.01") ";"%byte
           (lit "1" ++ [x0d; x0a] ++ lit "TCB = 4" ++ [x0d; x0a] ++ repeat x00 2009)
           world0 eq_refl eq_refl);
    try (vm_compute; reflexivity); vm_compute; discriminate.
Defined.

(* ===================================================================== *)
(** * SYSTEM.CNF without a boot line *)
(* ===================================================================== *)

Lemma strncmp_eq_line key :
  no_newline key ->
  forall l more,
    strncmp_eq (l ++ [x0a]) key = false -> strncmp_eq (l ++ x0a :: more) key = false.
Proof.
  unfold no_newline.
  induction key as [|c key IH]; intros K l more H.
  - destruct (l ++ [x0a]); discriminate.
  - cbn [forallb] in K. apply andb_prop in K. destruct K as [C K].
    apply negb_true_iff in C.
    destruct l as [|d l]; cbn [app strncmp_eq] in *.
    + rewrite C. reflexivity.
    + destruct (Byte.eqb c d); [|reflexivity]. cbn [andb] in *. apply (IH K), H.
Qed.

Lemma find_boot_line_none key prefix tail :
  no_newline key ->
  forall ls fuel pre,
    (length ls < fuel)%nat ->
    forallb (other_line key) ls = true ->
    find_boot_line fuel (pre ++ text_of_lines ls ++ x00 :: tail) (len pre) key prefix
    = None.
Proof.
  intros K. induction ls as [|l ls IH]; intros fuel pre F O.
  - destruct fuel as [|fuel]; [reflexivity|]. cbn [find_boot_line].
    cbn [text_of_lines map concat app]. rewrite byte_at_mid. reflexivity.
  - destruct fuel as [|fuel]; [cbn [length] in F; lia|].
    cbn [forallb] in O. apply andb_prop in O. destruct O as [Ol O].
    unfold other_line in Ol. apply andb_prop in Ol. destruct Ol as [Lb Lk].
    apply negb_true_iff in Lk.
    set (buffer := pre ++ text_of_lines (l :: ls) ++ x00 :: tail).
    assert (B : buffer = pre ++ l ++ x0a :: text_of_lines ls ++ x00 :: tail)
      by (unfold buffer, text_of_lines; cbn [map concat]; app_norm).
    cbn [find_boot_line].
    assert (A0 : Byte.eqb (byte_at buffer (len pre)) x00 = false).
    { rewrite B. destruct l as [|d l]; cbn [app]; rewrite byte_at_mid; [reflexivity|].
      cbn [forallb] in Lb. apply andb_prop in Lb. destruct Lb as [D _].
      unfold is_line_byte in D. apply andb_prop in D. destruct D as [D _].
      apply negb_true_iff in D. exact D. }
    rewrite A0.
    assert (A1 : strncmp_eq (drop (len pre) buffer) key = false).
    { rewrite B. rewrite drop_app_exact by reflexivity.
      apply strncmp_eq_line; assumption. }
    rewrite A1.
    rewrite (scan_run (fun c => negb (Byte.eqb c x00) && negb (Byte.eqb c x0a))
               buffer (len pre) pre l x0a (text_of_lines ls ++ x00 :: tail)
               B eq_refl Lb eq_refl).
    replace buffer with ((pre ++ l ++ [x0a]) ++ text_of_lines ls ++ x00 :: tail)
      by (rewrite B; app_norm).
    replace (len pre + len l + 1) with (len (pre ++ l ++ [x0a])) by len_norm.
    apply IH; [cbn [length] in F; lia | exact O].
Qed.

Lemma length_text_of_lines ls : (length ls <= length (text_of_lines ls))%nat.
Proof.
  induction ls as [|l ls IH]; [apply le_n|].
  unfold text_of_lines in *. cbn [map concat length]. rewrite !length_app.
  cbn [length]. lia.
Qed.

Lemma c_str_split s :
  exists rest, s = c_str s ++ rest /\ match rest with [] => True | c :: _ => c = x00 end.
Proof.
  induction s as [|c s (rest & E & R)]; [exists []; split; [reflexivity | exact I]|].
  cbn [c_str]. destruct (Byte.eqb c x00) eqn:C.
  - exists (c :: s). split; [reflexivity|]. apply byte_eqb_eq, C.
  - exists rest. split; [cbn [app]; rewrite <- E; reflexivity | exact R].
Qed.

(** When SYSTEM.CNF is found but none of the lines of its text starts with
    the boot key, [rc_hash_find_playstation_executable] does not return 0:
    it returns the sector of SYSTEM.CNF itself, leaves [exe_name] as it was
    and sets no size. *)
Theorem rc_hash_find_playstation_executable_no_boot :
  forall cfg r rd h key prefix exe_name ls w,
    cdreader cfg = Some r -> read_sector r = Some rd ->
    let found := rc_cd_find_file_sector cfg h (lit "SYSTEM.CNF") w in
    let sector := fst (fst found) in
    sector <> 0 ->
    c_str (take 2047 (rd h (u32 sector) 2047)) = text_of_lines ls ->
    no_newline key -> forallb (other_line key) ls = true ->
    fst (rc_hash_find_playstation_executable cfg h key prefix exe_name 64 w)
    = (sector, exe_name, None).
Proof.
  intros cfg r rd h key prefix exe_name ls w Hc Hr found sector Hs Ht K O.
  unfold rc_hash_find_playstation_executable. unfold bind at 1.
  fold found. destruct found as [[s sz] w1] eqn:F. cbn [fst snd] in *. subst sector.
  destruct (Z.eqb_spec s 0) as [E|_]; [contradiction|].
  unfold bind at 1.
  pose proof (rc_cd_read_sector_hook cfg r rd h s 2047 w1 Hc Hr) as R.
  change (2048 - 1) with 2047.
  destruct (rc_cd_read_sector cfg h s 2047 w1) as [data w2]. cbn [fst snd] in *.
  rewrite <- R in Ht.
  assert (L : len data <= 2047) by (rewrite R, len_take by lia; lia).
  clear R.
  assert (TK : take (len data) (store (fresh cfg 2048) data) = data)
    by (unfold store; apply take_app_exact; reflexivity).
  rewrite !TK.
  set (tail := drop (len data + 1) (store (fresh cfg 2048) data)).
  destruct (c_str_split data) as (rest & D & Rz). rewrite Ht in D.
  assert (B : exists tail', data ++ [x00] ++ tail = text_of_lines ls ++ x00 :: tail').
  { rewrite D. destruct rest as [|c rest].
    - exists tail. rewrite app_nil_r. reflexivity.
    - subst c. exists (rest ++ x00 :: tail). app_norm. }
  destruct B as (tail' & B). rewrite B.
  pose proof (find_boot_line_none key prefix tail' K ls 2048 []) as N.
  cbn [app] in N. change (len []) with 0 in N.
  rewrite N; [reflexivity | | exact O].
  pose proof (length_text_of_lines ls) as Hl.
  pose proof (f_equal (@length byte) D) as Ll. rewrite length_app in Ll.
  unfold len in L. lia.
Qed.

Lemma rc_hash_find_playstation_executable_no_boot_witness :
  fst (rc_hash_find_playstation_executable psx_disc 7 (lit "BOOT2") (lit "cdrom0:")
         (repeat x00 64) 64 world0)
  = (fst (fst (rc_cd_find_file_sector psx_disc 7 (lit "SYSTEM.CNF") world0)),
     repeat x00 64, None).
Proof.
  apply (rc_hash_find_playstation_executable_no_boot psx_disc psx_reader
           (fun h sector _ => psx_sectors h sector) 7 (lit "BOOT2") (lit "cdrom0:")
           (repeat x00 64)
           [lit "BOOT = cdrom:\SLUS_000.01;1" ++ [x0d]; lit "TCB = 4" ++ [x0d]]
           world0 eq_refl eq_refl);
    try (vm_compute; reflexivity); vm_compute; discriminate.
Defined.

(* ===================================================================== *)
(** * PC Engine CD and PC-FX *)
(* ===================================================================== *)










